(** * Linear assignment solvers of ASD-Prototype

    A shallow embedding of the two linear-assignment solvers of the
    repository, of their C entry points and of its random number generators:

    - [Utils/LAP/CrouseSAP.h] and [ASD/Video/Tracking/LAP/CrouseSAP.h]:
      Crouse's shortest augmenting path solver for rectangular matrices
      ([augmenting_path], [solve_rectangular_linear_assignment]), with the
      entry points of [Utils/LAP/RLAP.cpp] (index type [int]) and of
      [ASD/Tracking/LAP/RLAP.cpp] (index type [size_t]);
    - [Tracking/LAP/lapjv-core.h]: the Jonker-Volgenant solver ([find_umins],
      [rlap]) with the entry points of [Tracking/LAP/lapjv.cpp];
    - [Utils/PRNG/include/splitmix64.h], [Utils/PRNG/include/xoshiro256.h],
      [Utils/Xoshiro/include/xoshiro128.h] and [Utils/Xoshiro/xoshiro-core.h]:
      the generators SplitMix64 and xoshiro ([next]), over machine words kept
      as integers with their wrap-around written out.

    Both solvers are C++ templates over an index type and a cost type.  The
    embedding follows them: the code is written once over a class of cost
    operations and an index kind, and instantiated at [double], which is the
    kernel's binary64 [float], so that rounding, infinities and NaN behave as
    they do in the program.  The entry points for [float] ([solve_rlapf],
    [solve_lapf]) are the same templates at binary32; statements are made at
    [double].  A second instance, [xcost], computes without rounding; on it
    both solvers are proved correct - the Crouse solver for every matrix, the
    Jonker-Volgenant solver for bounded integer entries and zero initial
    prices - which separates what the algorithms guarantee from what rounding
    takes away.

    Arrays are lists; every access is bounds checked and an access outside
    the array, like a read of a variable that was never written, ends the
    run in [Fault] (undefined behaviour in C++).  Loops whose trip count is
    not syntactically bounded take a budget, and end in [Timeout] when it is
    exhausted. *)

From Stdlib Require Import ZArith List Bool Lia Floats Permutation.
Import ListNotations.
Local Open Scope Z_scope.

(** ** Outcomes of a run *)

Inductive outcome (A : Type) : Type :=
| Ret (a : A)
| Fault
| Timeout.

Arguments Ret {A} a.
Arguments Fault {A}.
Arguments Timeout {A}.

Definition bind {A B : Type} (m : outcome A) (k : A -> outcome B) : outcome B :=
  match m with
  | Ret a => k a
  | Fault => Fault
  | Timeout => Timeout
  end.

Declare Scope run_scope.
Delimit Scope run_scope with run.
Notation "x <- m ;; k" := (bind m (fun x => k))
  (at level 61, m at next level, right associativity) : run_scope.
Notation "' p <- m ;; k" := (bind m (fun x => let 'p := x in k))
  (at level 61, p pattern, m at next level, right associativity) : run_scope.
Local Open Scope run_scope.

(** ** Arrays *)

(** [a[i]] as an rvalue. *)
Definition rd {A : Type} (a : list A) (i : Z) : outcome A :=
  if i <? 0 then Fault
  else match nth_error a (Z.to_nat i) with
       | Some x => Ret x
       | None => Fault
       end.

Fixpoint set_nth {A : Type} (a : list A) (n : nat) (x : A) : list A :=
  match a, n with
  | [], _ => []
  | _ :: t, O => x :: t
  | h :: t, S n' => h :: set_nth t n' x
  end.

(** [a[i] = x]. *)
Definition wr {A : Type} (a : list A) (i : Z) (x : A) : outcome (list A) :=
  if i <? 0 then Fault
  else if Nat.ltb (Z.to_nat i) (length a) then Ret (set_nth a (Z.to_nat i) x)
  else Fault.

(** The index values [0, 1, ..., n-1] of [for (i = 0; i < n; i++)]. *)
Definition upto (n : Z) : list Z := map Z.of_nat (seq 0 (Z.to_nat n)).

(** The index values [lo, ..., hi-1] of [for (k = lo; k < hi; k++)]. *)
Definition range (lo hi : Z) : list Z := map (fun k => lo + Z.of_nat k) (seq 0 (Z.to_nat (hi - lo))).

(** ** Loops *)

(** What a loop body asks for: the next iteration, or leaving the loop
    ([break], or [return] from the enclosing function) with a value. *)
Inductive ctl (S R : Type) : Type :=
| Next (s : S)
| Leave (r : R).

Arguments Next {S R} s.
Arguments Leave {S R} r.

(** A [for] loop over the index values [ks] with loop-carried state [S]. *)
Fixpoint for_each {S R : Type} (ks : list Z) (body : Z -> S -> outcome (ctl S R)) (s : S)
  : outcome (ctl S R) :=
  match ks with
  | [] => Ret (Next s)
  | k :: ks' =>
      c <- body k s ;;
      match c with
      | Next s' => for_each ks' body s'
      | Leave r => Ret (Leave r)
      end
  end.

(** A [for] loop without [break]. *)
Fixpoint for_do {S : Type} (ks : list Z) (body : Z -> S -> outcome S) (s : S) : outcome S :=
  match ks with
  | [] => Ret s
  | k :: ks' => s' <- body k s ;; for_do ks' body s'
  end.

(** ** The template parameters *)

(** The operations the solvers use on their cost type. *)
Class CostType (C : Type) : Type := {
  c_zero : C;                 (* the literal 0 *)
  c_inf : C;                  (* INFINITY *)
  c_max : C;                  (* std::numeric_limits<cost>::max() *)
  c_add : C -> C -> C;
  c_sub : C -> C -> C;
  c_opp : C -> C;
  c_ltb : C -> C -> bool;     (* x < y *)
  c_leb : C -> C -> bool;     (* x <= y *)
  c_eqb : C -> C -> bool      (* x == y *)
}.

(** [double]: IEEE 754 binary64, round to nearest even. *)
#[export] Instance double_cost : CostType float := {
  c_zero := 0%float;
  c_inf := infinity;
  c_max := 0x1.fffffffffffffp+1023%float;
  c_add := PrimFloat.add;
  c_sub := PrimFloat.sub;
  c_opp := PrimFloat.opp;
  c_ltb := PrimFloat.ltb;
  c_leb := PrimFloat.leb;
  c_eqb := PrimFloat.eqb
}.

(** The two index types the templates are instantiated at.  An index value is
    kept as the integer it denotes; the kinds differ in what the literal [-1]
    converts to and in what [x < 0] means.  Dimensions are assumed small enough
    for [nr * nc] to be representable, so no other index arithmetic wraps. *)
Inductive IdxKind : Type := IdxInt | IdxSizeT.

(** Conversion of an [int] value to the index type. *)
Definition idx_of_int (K : IdxKind) (z : Z) : Z :=
  match K with
  | IdxInt => z
  | IdxSizeT => z mod 2 ^ 64
  end.

(** [x < 0] at the index type: never true of an unsigned value. *)
Definition idx_is_neg (K : IdxKind) (x : Z) : bool :=
  match K with
  | IdxInt => x <? 0
  | IdxSizeT => false
  end.

Definition RECTANGULAR_LSAP_INFEASIBLE : Z := -1.
Definition RECTANGULAR_LSAP_INVALID : Z := -2.

(** ** CrouseSAP.h *)

Module Crouse.
Section Template.

Context {Cost : Type} `{CostType Cost}.
Variable K : IdxKind.

(** The literal [-1] at the index type. *)
Definition neg1 : Z := idx_of_int K (-1).

(** [argsort_iter]: the indices of [v] sorted by the value they index.  The
    comparison is [v[i] < v[j]]; the keys the solver sorts are pairwise
    distinct, so the order [std::sort] produces is the one insertion gives. *)
Fixpoint argsort_insert (v : list Z) (i : Z) (sorted : list Z) : list Z :=
  match sorted with
  | [] => [i]
  | j :: rest =>
      if nth (Z.to_nat i) v 0 <? nth (Z.to_nat j) v 0
      then i :: sorted
      else j :: argsort_insert v i rest
  end.

Definition argsort_iter (v : list Z) : list Z :=
  fold_left (fun sorted i => argsort_insert v i sorted) (upto (Z.of_nat (length v))) [].

(** The arrays [augmenting_path] writes. *)
Record ap_arrays : Type := mk_ap {
  ap_path : list Z;
  ap_spc : list Cost;           (* shortestPathCosts *)
  ap_SR : list bool;
  ap_SC : list bool;
  ap_remaining : list Z
}.

(** One iteration of the scan [for (it = 0; it < num_remaining; it++)]; the
    state is [path], [shortestPathCosts], [lowest] and [index]. *)
Definition scan_body (nc : Z) (costMatrix u v : list Cost) (row4col remaining : list Z)
    (i : Z) (minVal : Cost) (it : Z)
    (s : list Z * list Cost * Cost * Z) : outcome (list Z * list Cost * Cost * Z) :=
  let '(path, spc, lowest, index) := s in
  j <- rd remaining it ;;
  cij <- rd costMatrix (i * nc + j) ;;
  ui <- rd u i ;;
  vj <- rd v j ;;
  let r := c_sub (c_sub (c_add minVal cij) ui) vj in
  old <- rd spc j ;;
  '(path, spc) <- (if c_ltb r old
                   then path' <- wr path j i ;; spc' <- wr spc j r ;; Ret (path', spc')
                   else Ret (path, spc)) ;;
  sj <- rd spc j ;;
  take <- (if c_ltb sj lowest then Ret true
           else if c_eqb sj lowest
                then r4 <- rd row4col j ;; Ret (r4 =? neg1)
                else Ret false) ;;
  if take : bool then Ret (path, spc, sj, it) else Ret (path, spc, lowest, index).

(** How one iteration of [while (sink == -1)] ends. *)
Inductive ap_step : Type :=
| ApInfeasible (a : ap_arrays)                          (* return -1 *)
| ApSink (sink : Z) (minVal : Cost) (a : ap_arrays)     (* sink found *)
| ApAgain (i : Z) (minVal : Cost) (a : ap_arrays).      (* sink still -1 *)

(** The body of [while (sink == -1)], entered with [num_remaining] columns. *)
Definition ap_body (nc : Z) (costMatrix u v : list Cost) (row4col : list Z)
    (num_remaining : Z) (i : Z) (minVal : Cost) (a : ap_arrays) : outcome ap_step :=
  SR <- wr (ap_SR a) i true ;;
  '(path, spc, lowest, index) <-
     for_do (upto num_remaining)
            (scan_body nc costMatrix u v row4col (ap_remaining a) i minVal)
            (ap_path a, ap_spc a, c_inf, neg1) ;;
  let minVal := lowest in
  if c_eqb minVal c_inf
  then Ret (ApInfeasible (mk_ap path spc SR (ap_SC a) (ap_remaining a)))
  else
    j <- rd (ap_remaining a) index ;;
    r4 <- rd row4col j ;;
    SC <- wr (ap_SC a) j true ;;
    last <- rd (ap_remaining a) (num_remaining - 1) ;;
    remaining <- wr (ap_remaining a) index last ;;
    let a' := mk_ap path spc SR SC remaining in
    if r4 =? neg1 then Ret (ApSink j minVal a') else Ret (ApAgain r4 minVal a').

(** [while (sink == -1)]: every iteration that does not return removes one
    column from [remaining], so the loop is a recursion on [num_remaining].
    With no column left the scan is empty and the body returns or faults
    before it could ask for another iteration. *)
Fixpoint ap_loop (nc : Z) (costMatrix u v : list Cost) (row4col : list Z)
    (num_remaining : nat) (i : Z) (minVal : Cost) (a : ap_arrays)
  : outcome (Z * option Cost * ap_arrays) :=
  st <- ap_body nc costMatrix u v row4col (Z.of_nat num_remaining) i minVal a ;;
  match st with
  | ApInfeasible a' => Ret (neg1, None, a')
  | ApSink sink minVal' a' => Ret (sink, Some minVal', a')
  | ApAgain i' minVal' a' =>
      match num_remaining with
      | O => Fault
      | S n => ap_loop nc costMatrix u v row4col n i' minVal' a'
      end
  end.

(** [augmenting_path]: returns the sink (or [-1]), what was stored through
    [p_minVal] if anything, and the arrays. *)
Definition augmenting_path (nc : Z) (costMatrix u v : list Cost) (path row4col : list Z)
    (shortestPathCosts : list Cost) (i : Z) (SR SC : list bool) (remaining : list Z)
  : outcome (Z * option Cost * ap_arrays) :=
  remaining <- for_do (upto nc) (fun it rem => wr rem it (nc - it - 1)) remaining ;;
  let SR := map (fun _ => false) SR in
  let SC := map (fun _ => false) SC in
  let shortestPathCosts := map (fun _ => c_inf) shortestPathCosts in
  ap_loop nc costMatrix u v row4col (Z.to_nat nc) i c_zero
          (mk_ap path shortestPathCosts SR SC remaining).

(** The transposition loop of the solver: [temp[j * nr + i] = costMatrix[i * nc + j]]. *)
Definition transpose_into (nr nc : Z) (costMatrix temp : list Cost) : outcome (list Cost) :=
  for_do (upto nr)
    (fun i temp =>
       for_do (upto nc)
         (fun j temp => x <- rd costMatrix (i * nc + j) ;; wr temp (j * nr + i) x)
         temp)
    temp.

(** [std::copy(costMatrix, costMatrix + n, temp.begin())]. *)
Definition copy_into (n : Z) (costMatrix temp : list Cost) : outcome (list Cost) :=
  for_do (upto n) (fun i temp => x <- rd costMatrix i ;; wr temp i x) temp.

(** The test for NaN and -inf entries; [true] when one is found. *)
Definition has_invalid (n : Z) (costMatrix : list Cost) : outcome bool :=
  r <- for_each (upto n)
         (fun i (_ : unit) =>
            x <- rd costMatrix i ;;
            if negb (c_eqb x x) || c_eqb x (c_opp c_inf) then Ret (Leave tt) else Ret (Next tt))
         tt ;;
  match r with
  | Next _ => Ret false
  | Leave _ => Ret true
  end.

(** The augmentation [while (1)] along [path], from the sink back to [curRow]. *)
Fixpoint augment (fuel : nat) (curRow : Z) (path : list Z) (j : Z)
    (row4col col4row : list Z) : outcome (list Z * list Z) :=
  match fuel with
  | O => Timeout
  | S fuel' =>
      i <- rd path j ;;
      row4col <- wr row4col j i ;;
      old <- rd col4row i ;;
      col4row <- wr col4row i j ;;
      if i =? curRow then Ret (row4col, col4row)
      else augment fuel' curRow path old row4col col4row
  end.

(** The state the main loop carries from row to row. *)
Record solver_state : Type := mk_st {
  st_u : list Cost;
  st_v : list Cost;
  st_col4row : list Z;
  st_row4col : list Z;
  st_ap : ap_arrays
}.

(** The body of [for (curRow = 0; curRow < nr; curRow++)]; it leaves the loop
    with the status when the row cannot be matched. *)
Definition row_body (fuel : nat) (nr nc : Z) (costMatrix : list Cost) (curRow : Z)
    (s : solver_state) : outcome (ctl solver_state Z) :=
  let ap := st_ap s in
  '(sink, minVal, ap) <-
     augmenting_path nc costMatrix (st_u s) (st_v s) (ap_path ap) (st_row4col s)
                     (ap_spc ap) curRow (ap_SR ap) (ap_SC ap) (ap_remaining ap) ;;
  if idx_is_neg K sink then Ret (Leave RECTANGULAR_LSAP_INFEASIBLE)
  else
    minVal <- match minVal with Some m => Ret m | None => Fault end ;;
    (* update dual variables *)
    ucur <- rd (st_u s) curRow ;;
    u <- wr (st_u s) curRow (c_add ucur minVal) ;;
    u <- for_do (upto nr)
           (fun i u =>
              sr <- rd (ap_SR ap) i ;;
              if (sr : bool) && negb (i =? curRow)
              then c4r <- rd (st_col4row s) i ;;
                   spc <- rd (ap_spc ap) c4r ;;
                   ui <- rd u i ;;
                   wr u i (c_add ui (c_sub minVal spc))
              else Ret u)
           u ;;
    v <- for_do (upto nc)
           (fun j v =>
              sc <- rd (ap_SC ap) j ;;
              if sc : bool
              then spc <- rd (ap_spc ap) j ;;
                   vj <- rd v j ;;
                   wr v j (c_sub vj (c_sub minVal spc))
              else Ret v)
           (st_v s) ;;
    (* augment previous solution *)
    '(row4col, col4row) <- augment fuel curRow (ap_path ap) sink (st_row4col s) (st_col4row s) ;;
    Ret (Next (mk_st u v col4row row4col ap)).

(** The working copy of the cost matrix: transposed when there are more rows
    than columns, negated for maximization; the caller's matrix itself when
    neither applies.  Returns the dimensions after the swap as well. *)
Definition working_copy (nr nc : Z) (costMatrix : list Cost) (maximize : bool)
  : outcome (Z * Z * list Cost) :=
  let transpose := nc <? nr in
  if transpose || maximize
  then
    let temp := repeat c_zero (Z.to_nat (nr * nc)) in
    '(nr', nc', temp) <-
       (if transpose
        then temp <- transpose_into nr nc costMatrix temp ;; Ret (nc, nr, temp)
        else temp <- copy_into (nr * nc) costMatrix temp ;; Ret (nr, nc, temp)) ;;
    (* negate cost matrix for maximization *)
    temp <- (if maximize
             then for_do (upto (nr' * nc'))
                    (fun i temp => x <- rd temp i ;; wr temp i (c_opp x)) temp
             else Ret temp) ;;
    Ret (nr', nc', temp)
  else Ret (nr, nc, costMatrix).

(** The vectors as they are initialised before the first row. *)
Definition initial_state (nr nc : Z) : solver_state :=
  let n := Z.to_nat nr in
  let m := Z.to_nat nc in
  mk_st (repeat c_zero n) (repeat c_zero m) (repeat neg1 n) (repeat neg1 m)
        (mk_ap (repeat neg1 m) (repeat c_zero m) (repeat false n) (repeat false m)
               (repeat 0 m)).

(** The loops that write the output buffers [a] and [b] from [col4row]. *)
Definition write_solution (transpose : bool) (nr : Z) (col4row a b : list Z)
  : outcome (list Z * list Z) :=
  if transpose
  then
    '(_, a, b) <-
       for_do (argsort_iter col4row)
         (fun v '(i, a, b) =>
            c <- rd col4row v ;;
            a <- wr a i c ;;
            b <- wr b i v ;;
            Ret (i + 1, a, b))
         (0, a, b) ;;
    Ret (a, b)
  else
    for_do (upto nr)
      (fun i '(a, b) =>
         a <- wr a i i ;;
         c <- rd col4row i ;;
         b <- wr b i c ;;
         Ret (a, b))
      (a, b).

(** [solve_rectangular_linear_assignment]: the status returned and the
    contents of the output buffers [a] and [b] on return. *)
Definition solve_rectangular_linear_assignment (fuel : nat) (nr nc : Z)
    (costMatrix : list Cost) (maximize : bool) (a b : list Z)
  : outcome (Z * list Z * list Z) :=
  (* handle trivial inputs *)
  if (nr =? 0) || (nc =? 0) then Ret (idx_of_int K 0, a, b)
  else if (nr <? 0) || (nc <? 0) then Fault   (* the vectors cannot be allocated *)
  else
    (* tall rectangular cost matrix must be transposed *)
    let transpose := nc <? nr in
    (* make a copy of the cost matrix if we need to modify it *)
    '(nr, nc, costMatrix) <- working_copy nr nc costMatrix maximize ;;
    (* test for NaN and -inf entries *)
    bad <- has_invalid (nr * nc) costMatrix ;;
    if bad : bool then Ret (idx_of_int K RECTANGULAR_LSAP_INVALID, a, b)
    else
      (* iteratively build the solution *)
      r <- for_each (upto nr) (row_body fuel nr nc costMatrix) (initial_state nr nc) ;;
      match r with
      | Leave status => Ret (idx_of_int K status, a, b)
      | Next s =>
          '(a, b) <- write_solution transpose nr (st_col4row s) a b ;;
          Ret (idx_of_int K 0, a, b)
      end.

End Template.
End Crouse.

(** ** RLAP.cpp: the entry points for [double] *)

(** [Utils/LAP/RLAP.cpp]: [solve_rlap] over [int] indices, returning [int]. *)
Definition solve_rlap (fuel : nat) (numrows numcols : Z) (cost : list float) (maximize : bool)
    (rowsol colsol : list Z) : outcome (Z * list Z * list Z) :=
  Crouse.solve_rectangular_linear_assignment IdxInt fuel numrows numcols cost maximize
                                             rowsol colsol.

(** [ASD/Tracking/LAP/RLAP.cpp]: [solve_rlap] over [size_t] indices, returning [size_t]. *)
Definition solve_rlap_size_t (fuel : nat) (numrows numcols : Z) (cost : list float)
    (maximize : bool) (rowsol colsol : list Z) : outcome (Z * list Z * list Z) :=
  Crouse.solve_rectangular_linear_assignment IdxSizeT fuel numrows numcols cost maximize
                                             rowsol colsol.

(** ** lapjv-core.h *)

(** The template is instantiated with [idx = int] only, so index values are
    plain integers and [-1] is negative. *)
Module JV.
Section Template.

Context {Cost : Type} `{CostType Cost}.

(** [find_umins]: the minimum and second minimum of [assign_cost[i][j] - v[j]]
    over the columns, and the columns where they occur. *)
Definition find_umins (dim i : Z) (assign_cost v : list Cost) : outcome (Cost * Cost * Z * Z) :=
  c0 <- rd assign_cost (i * dim + 0) ;;
  v0 <- rd v 0 ;;
  for_do (range 1 dim)
    (fun j '(umin, usubmin, j1, j2) =>
       cj <- rd assign_cost (i * dim + j) ;;
       vj <- rd v j ;;
       let h := c_sub cj vj in
       if c_ltb h usubmin
       then if c_leb umin h
            then Ret (umin, h, j1, j)
            else Ret (h, umin, j, j1)
       else Ret (umin, usubmin, j1, j2))
    (c_sub c0 v0, c_max, 0, -1).

(** The arrays and counters of the augmenting row reduction. *)
Record arr_state : Type := mk_arr {
  arr_free : list Z;
  arr_numfree : Z;
  arr_rowsol : list Z;
  arr_colsol : list Z;
  arr_v : list Cost
}.

(** [while (k < prevnumfree)] of the augmenting row reduction. *)
Fixpoint arr_loop (fuel : nat) (dim1 : Z) (assign_cost : list Cost) (prevnumfree k : Z)
    (s : arr_state) : outcome arr_state :=
  match fuel with
  | O => Timeout
  | S fuel' =>
      if k <? prevnumfree
      then
        i <- rd (arr_free s) k ;;
        let k := k + 1 in
        (* find minimum and second minimum reduced cost over columns. *)
        '(umin, usubmin, j1, j2) <- find_umins dim1 i assign_cost (arr_v s) ;;
        i0 <- rd (arr_colsol s) j1 ;;
        vj1 <- rd (arr_v s) j1 ;;
        let vj1_new := c_sub vj1 (c_sub usubmin umin) in
        let vj1_lowers := c_ltb vj1_new vj1 in
        '(v, j1, i0) <-
           (if vj1_lowers
            then v <- wr (arr_v s) j1 vj1_new ;; Ret (v, j1, i0)
            else if 0 <=? i0
                 then i0' <- rd (arr_colsol s) j2 ;; Ret (arr_v s, j2, i0')
                 else Ret (arr_v s, j1, i0)) ;;
        (* (re-)assign i to j1, possibly de-assigning an i0. *)
        rowsol <- wr (arr_rowsol s) i j1 ;;
        colsol <- wr (arr_colsol s) j1 i ;;
        if 0 <=? i0
        then if vj1_lowers
             then free <- wr (arr_free s) (k - 1) i0 ;;
                  arr_loop fuel' dim1 assign_cost prevnumfree (k - 1)
                           (mk_arr free (arr_numfree s) rowsol colsol v)
             else free <- wr (arr_free s) (arr_numfree s) i0 ;;
                  arr_loop fuel' dim1 assign_cost prevnumfree k
                           (mk_arr free (arr_numfree s + 1) rowsol colsol v)
        else arr_loop fuel' dim1 assign_cost prevnumfree k
                      (mk_arr (arr_free s) (arr_numfree s) rowsol colsol v)
      else Ret s
  end.

(** The arrays and counters of one shortest path search. *)
Record sp_state : Type := mk_sp {
  sp_low : Z;
  sp_up : Z;
  sp_last : Z;
  sp_min : Cost;
  sp_d : list Cost;
  sp_pred : list Z;
  sp_collist : list Z
}.

(** The block [if (up == low)] of the search: the new minimum over the
    unscanned columns, the columns attaining it moved to [low..up-1], and the
    first unassigned column among them if there is one. *)
Definition sp_new_minimum (dim1 : Z) (colsol : list Z) (s : sp_state)
  : outcome (option Z * sp_state) :=
  let low := sp_low s in
  let d := sp_d s in
  let last := low - 1 in
  c <- rd (sp_collist s) (sp_up s) ;;
  min <- rd d c ;;
  let up := sp_up s + 1 in
  '(up, min, collist) <-
     for_do (range up dim1)
       (fun k '(up, min, collist) =>
          j <- rd collist k ;;
          h <- rd d j ;;
          if c_leb h min
          then
            let '(up, min) := if c_ltb h min then (low, h) else (up, min) in
            cu <- rd collist up ;;
            collist <- wr collist k cu ;;
            collist <- wr collist up j ;;
            Ret (up + 1, min, collist)
          else Ret (up, min, collist))
       (up, min, sp_collist s) ;;
  r <- for_each (range low up)
         (fun k (_ : unit) =>
            j <- rd collist k ;;
            cs <- rd colsol j ;;
            if cs <? 0 then Ret (Leave j) else Ret (Next tt))
         tt ;;
  Ret (match r with Leave j => Some j | Next _ => None end,
       mk_sp low up last min d (sp_pred s) collist).

(** The block [if (!unassigned_found)] of the search: the distances of the
    unscanned columns relaxed through the row of the next column of [low..up-1]. *)
Definition sp_relax (dim1 : Z) (assign_cost v : list Cost) (colsol : list Z) (s : sp_state)
  : outcome (option Z * sp_state) :=
  let min := sp_min s in
  j1 <- rd (sp_collist s) (sp_low s) ;;
  let low := sp_low s + 1 in
  i <- rd colsol j1 ;;
  cij1 <- rd assign_cost (i * dim1 + j1) ;;
  vj1 <- rd v j1 ;;
  let h := c_sub (c_sub cij1 vj1) min in
  r <- for_each (range (sp_up s) dim1)
         (fun k '(up, d, pred, collist) =>
            j <- rd collist k ;;
            cij <- rd assign_cost (i * dim1 + j) ;;
            vj <- rd v j ;;
            let v2 := c_sub (c_sub cij vj) h in
            dj <- rd d j ;;
            if c_ltb v2 dj
            then
              pred <- wr pred j i ;;
              if c_eqb v2 min
              then
                cs <- rd colsol j ;;
                if cs <? 0
                then Ret (Leave (j, mk_sp low up (sp_last s) min d pred collist))
                else
                  cu <- rd collist up ;;
                  collist <- wr collist k cu ;;
                  collist <- wr collist up j ;;
                  d <- wr d j v2 ;;
                  Ret (Next (up + 1, d, pred, collist))
              else d <- wr d j v2 ;; Ret (Next (up, d, pred, collist))
            else Ret (Next (up, d, pred, collist)))
         (sp_up s, sp_d s, sp_pred s, sp_collist s) ;;
  match r with
  | Leave (j, s') => Ret (Some j, s')
  | Next (up, d, pred, collist) => Ret (None, mk_sp low up (sp_last s) min d pred collist)
  end.

(** [do ... while (!unassigned_found)]: returns [endofpath] and the arrays. *)
Fixpoint sp_loop (fuel : nat) (dim1 : Z) (assign_cost v : list Cost) (colsol : list Z)
    (s : sp_state) : outcome (Z * sp_state) :=
  match fuel with
  | O => Timeout
  | S fuel' =>
      '(found, s) <- (if sp_up s =? sp_low s
                      then sp_new_minimum dim1 colsol s
                      else Ret (None, s)) ;;
      match found with
      | Some endofpath => Ret (endofpath, s)
      | None =>
          '(found, s) <- sp_relax dim1 assign_cost v colsol s ;;
          match found with
          | Some endofpath => Ret (endofpath, s)
          | None => sp_loop fuel' dim1 assign_cost v colsol s
          end
      end
  end.

(** The final [do ... while (i != freerow)]: reset row and column assignments
    along the alternating path. *)
Fixpoint flip_path (fuel : nat) (freerow : Z) (pred : list Z) (endofpath : Z)
    (rowsol colsol : list Z) : outcome (list Z * list Z) :=
  match fuel with
  | O => Timeout
  | S fuel' =>
      i <- rd pred endofpath ;;
      colsol <- wr colsol endofpath i ;;
      let j1 := endofpath in
      endofpath <- rd rowsol i ;;
      rowsol <- wr rowsol i j1 ;;
      if i =? freerow then Ret (rowsol, colsol)
      else flip_path fuel' freerow pred endofpath rowsol colsol
  end.

(** The body of [for (f = 0; f < numfree; f++)]: augment the solution for one
    free row.  The state is [rowsol], [colsol], [v], [d], [pred], [collist]. *)
Definition augment_row (fuel : nat) (dim1 : Z) (assign_cost : list Cost) (free : list Z) (f : Z)
    (s : list Z * list Z * list Cost * (list Cost * list Z * list Z))
  : outcome (list Z * list Z * list Cost * (list Cost * list Z * list Z)) :=
  let '(rowsol, colsol, v, (d, pred, collist)) := s in
  freerow <- rd free f ;;
  '(d, pred, collist) <-
     for_do (upto dim1)
       (fun j '(d, pred, collist) =>
          cfj <- rd assign_cost (freerow * dim1 + j) ;;
          vj <- rd v j ;;
          d <- wr d j (c_sub cfj vj) ;;
          pred <- wr pred j freerow ;;
          collist <- wr collist j j ;;
          Ret (d, pred, collist))
       (d, pred, collist) ;;
  '(endofpath, sp) <- sp_loop fuel dim1 assign_cost v colsol
                              (mk_sp 0 0 0 c_zero d pred collist) ;;
  (* update column prices. *)
  v <- for_do (range 0 (sp_last sp + 1))
         (fun k v =>
            j1 <- rd (sp_collist sp) k ;;
            vj1 <- rd v j1 ;;
            dj1 <- rd (sp_d sp) j1 ;;
            wr v j1 (c_sub (c_add vj1 dj1) (sp_min sp)))
         v ;;
  '(rowsol, colsol) <- flip_path fuel freerow (sp_pred sp) endofpath rowsol colsol ;;
  Ret (rowsol, colsol, v, (sp_d sp, sp_pred sp, sp_collist sp)).

(** The last loop of [rlap]: the row duals [u] and the cost of the solution. *)
Definition optimal_cost (dim0 dim1 : Z) (assign_cost : list Cost) (rowsol : list Z)
    (v u : list Cost) : outcome (list Cost * Cost) :=
  for_do (upto dim0)
    (fun i '(u, rlapcost) =>
       j <- rd rowsol i ;;
       cij <- rd assign_cost (i * dim1 + j) ;;
       vj <- rd v j ;;
       u <- wr u i (c_sub cij vj) ;;
       Ret (u, c_add rlapcost cij))
    (u, c_zero).

(** [rlap]: the value returned and the contents of [rowsol], [colsol], [u] and
    [v] on return.  [v] is read before it is written, so its contents on entry
    matter; [verbose] only selects what is printed. *)
Definition rlap (fuel : nat) (dim0 dim1 : Z) (assign_cost : list Cost) (verbose : bool)
    (rowsol colsol : list Z) (u v : list Cost)
  : outcome (Cost * list Z * list Z * list Cost * list Cost) :=
  let free := repeat 0 (Z.to_nat dim0) in
  let collist := repeat 0 (Z.to_nat dim1) in
  let d := repeat c_zero (Z.to_nat dim1) in
  let pred := repeat 0 (Z.to_nat dim1) in
  '(free, rowsol, numfree) <-
     for_do (upto dim0)
       (fun i '(free, rowsol, numfree) =>
          free <- wr free i i ;;
          rowsol <- wr rowsol i (-1) ;;
          Ret (free, rowsol, numfree + 1))
       (free, rowsol, 0) ;;
  colsol <- for_do (upto dim1) (fun j colsol => wr colsol j (-1)) colsol ;;
  (* AUGMENTING ROW REDUCTION *)
  s <- for_do (upto 2)
         (fun loopcnt s =>
            let prevnumfree := arr_numfree s in
            arr_loop fuel dim1 assign_cost prevnumfree 0
                     (mk_arr (arr_free s) 0 (arr_rowsol s) (arr_colsol s) (arr_v s)))
         (mk_arr free numfree rowsol colsol v) ;;
  (* AUGMENT SOLUTION for each free row. *)
  '(rowsol, colsol, v, _) <-
     for_do (upto (arr_numfree s))
       (augment_row fuel dim1 assign_cost (arr_free s))
       (arr_rowsol s, arr_colsol s, arr_v s, (d, pred, collist)) ;;
  (* calculate optimal cost. *)
  '(u, rlapcost) <- optimal_cost dim0 dim1 assign_cost rowsol v u ;;
  Ret (rlapcost, rowsol, colsol, u, v).

End Template.
End JV.

(** ** lapjv.cpp: the entry point for [double] *)

(** [solve_lap]: [u] and [v] are allocated with [new double[n]], which does
    not initialise them; [u_mem] and [v_mem] are what the allocation holds.
    The fourth argument of [rlap] is [verbose], passed as [false].  Returns
    the value of [rlap] and the contents of the two output buffers. *)
Definition solve_lap (fuel : nat) (u_mem v_mem : list float) (inputDims outputDims : Z)
    (cost : list float) (solutionRows solutionCols : list Z)
  : outcome (float * list Z * list Z) :=
  '(total, rowsol, colsol, _, _) <-
     JV.rlap fuel inputDims outputDims cost false solutionRows solutionCols u_mem v_mem ;;
  Ret (total, rowsol, colsol).

(** ** Machine words *)

(** Reduction to a [uint64_t] and to a [uint32_t]. *)
Definition u64 (z : Z) : Z := z mod 2 ^ 64.
Definition u32 (z : Z) : Z := z mod 2 ^ 32.

(** ** Utils/PRNG/include/splitmix64.h *)

Module SplitMix64.

(** The generator: its state [x], a [uint64_t]. *)
Record t : Type := mk { x : Z }.

(** [SplitMix64(uint64_t seed)] and [seed(uint64_t seed)]. *)
Definition make (seed : Z) : t := mk seed.
Definition seed (g : t) (seed : Z) : t := mk seed.

(** [next]: the value returned and the generator after the call. *)
Definition next (g : t) : Z * t :=
  let x := u64 (x g + 0x9E3779B97f4A7C15) in
  let z := x in
  let z := u64 (Z.lxor z (Z.shiftr z 30) * 0xBF58476D1CE4E5B9) in
  let z := u64 (Z.lxor z (Z.shiftr z 27) * 0x94D049BB133111EB) in
  (Z.lxor z (Z.shiftr z 31), mk x).

End SplitMix64.

(** ** Utils/PRNG/include/xoshiro256.h *)

(** [seed_engine] and the constructor fill the state from a
    [std::mt19937_64], which is library code; the generator is modelled from
    a given state. *)
Module Xoshiro256.

(** [uint64_t state[4]]. *)
Record t : Type := mk { s0 : Z; s1 : Z; s2 : Z; s3 : Z }.

(** [rotl], called with [0 < k < 64]. *)
Definition rotl (x k : Z) : Z := Z.lor (u64 (Z.shiftl x k)) (Z.shiftr x (64 - k)).

(** [next]: the value returned and the generator after the call. *)
Definition next (g : t) : Z * t :=
  let result := u64 (rotl (u64 (s0 g + s3 g)) 23 + s0 g) in
  let t := u64 (Z.shiftl (s1 g) 17) in
  let s2 := Z.lxor (s2 g) (s0 g) in
  let s3 := Z.lxor (s3 g) (s1 g) in
  let s1 := Z.lxor (s1 g) s2 in
  let s0 := Z.lxor (s0 g) s3 in
  let s2 := Z.lxor s2 t in
  let s3 := rotl s3 45 in
  (result, mk s0 s1 s2 s3).

(** [min] and [max]. *)
Definition min : Z := 0.
Definition max : Z := 2 ^ 64 - 1.

End Xoshiro256.

(** ** Utils/Xoshiro/include/xoshiro128.h *)

Module Xoshiro128.

(** [uint32_t state[4]]. *)
Record t : Type := mk { s0 : Z; s1 : Z; s2 : Z; s3 : Z }.

(** [rotl], called with [0 < k < 32]. *)
Definition rotl (x k : Z) : Z := Z.lor (u32 (Z.shiftl x k)) (Z.shiftr x (32 - k)).

(** [next]: the value returned and the generator after the call. *)
Definition next (g : t) : Z * t :=
  let result := u32 (rotl (u32 (s0 g + s3 g)) 7 + s0 g) in
  let t := u32 (Z.shiftl (s1 g) 9) in
  let s2 := Z.lxor (s2 g) (s0 g) in
  let s3 := Z.lxor (s3 g) (s1 g) in
  let s1 := Z.lxor (s1 g) s2 in
  let s0 := Z.lxor (s0 g) s3 in
  let s2 := Z.lxor s2 t in
  let s3 := rotl s3 11 in
  (result, mk s0 s1 s2 s3).

Definition min : Z := 0.
Definition max : Z := 2 ^ 32 - 1.

End Xoshiro128.

(** ** Utils/Xoshiro/xoshiro-core.h *)

(** The class [Xoshiro256] of this header: the state and [rotl] are those of
    [xoshiro256.h]; the call operator computes the same 64-bit [result] and
    returns it as a [uint32_t]. *)
Module XoshiroCore.

Definition call (g : Xoshiro256.t) : Z * Xoshiro256.t :=
  let result := u64 (Xoshiro256.rotl (u64 (Xoshiro256.s0 g + Xoshiro256.s3 g)) 23
                     + Xoshiro256.s0 g) in
  let t := u64 (Z.shiftl (Xoshiro256.s1 g) 17) in
  let s2 := Z.lxor (Xoshiro256.s2 g) (Xoshiro256.s0 g) in
  let s3 := Z.lxor (Xoshiro256.s3 g) (Xoshiro256.s1 g) in
  let s1 := Z.lxor (Xoshiro256.s1 g) s2 in
  let s0 := Z.lxor (Xoshiro256.s0 g) s3 in
  let s2 := Z.lxor s2 t in
  let s3 := Xoshiro256.rotl s3 45 in
  (u32 result, Xoshiro256.mk s0 s1 s2 s3).

Definition min : Z := 0.
Definition max : Z := 2 ^ 64 - 1.

End XoshiroCore.

(** ** Vocabulary of the statements *)

Section Vocabulary.

Context {Cost : Type} `{CostType Cost}.

(** What the validity test of the Crouse solver rejects: [x != x] (NaN) or
    [x == -INFINITY]. *)
Definition invalid_entry (x : Cost) : bool :=
  negb (c_eqb x x) || c_eqb x (c_opp c_inf).

(** The transpose of a row-major [nr] by [nc] matrix, row-major again. *)
Definition transposed (nr nc : Z) (m : list Cost) : list Cost :=
  map (fun p => nth (Z.to_nat ((p mod nr) * nc + p / nr)) m c_zero) (upto (nr * nc)).

(** The matrix the Crouse solver works on. *)
Definition working_matrix (nr nc : Z) (m : list Cost) (maximize : bool) : list Cost :=
  let t := if nc <? nr then transposed nr nc m else m in
  if maximize then map c_opp t else t.

End Vocabulary.

(** [cost[i][j]] of a row-major matrix with [nc] columns. *)
Definition entry {Cost : Type} `{CostType Cost} (nc : Z) (cost : list Cost) (i j : Z) : Cost :=
  nth (Z.to_nat (i * nc + j)) cost c_zero.

(** The total of an assignment given by pairs [(a[i], b[i])]: the entries
    [cost[a[i]][b[i]]] added in the order of the pairs, starting from 0. *)
Definition pairs_total {Cost : Type} `{CostType Cost} (nc : Z) (cost : list Cost)
    (a b : list Z) : Cost :=
  fold_left (fun acc '(i, j) => c_add acc (entry nc cost i j)) (combine a b) c_zero.

(** The total of the assignment [rowsol] of rows [0 .. nr-1]: the entries
    [cost[i][rowsol[i]]] added in row order, starting from 0. *)
Definition rowsol_total {Cost : Type} `{CostType Cost} (nr nc : Z) (cost : list Cost)
    (rowsol : list Z) : Cost :=
  fold_left (fun acc i => c_add acc (entry nc cost i (nth (Z.to_nat i) rowsol 0)))
            (upto nr) c_zero.

(** The optimality condition on matched pairs: [cost[i][j] == u[i] + v[j]]
    for the column [j = rowsol[i]] of every row [i]. *)
Definition dual_tight {Cost : Type} `{CostType Cost} (nr nc : Z) (cost u v : list Cost)
    (rowsol : list Z) : bool :=
  forallb (fun i =>
             let j := nth (Z.to_nat i) rowsol 0 in
             c_eqb (entry nc cost i j)
                   (c_add (nth (Z.to_nat i) u c_zero) (nth (Z.to_nat j) v c_zero)))
          (upto nr).

(** The optimality condition on all pairs: [cost[i][j] >= u[i] + v[j]]. *)
Definition dual_feasible {Cost : Type} `{CostType Cost} (nr nc : Z) (cost u v : list Cost)
  : bool :=
  forallb (fun i =>
             forallb (fun j =>
                        c_leb (c_add (nth (Z.to_nat i) u c_zero) (nth (Z.to_nat j) v c_zero))
                              (entry nc cost i j))
                     (upto nc))
          (upto nr).

(** The main loop of the Crouse solver over [int] indices on a matrix that
    needs no working copy; its final state holds the duals [u] and [v]. *)
Definition crouse_rows {Cost : Type} `{CostType Cost} (fuel : nat) (nr nc : Z) (cost : list Cost)
  : outcome (ctl Crouse.solver_state Z) :=
  for_each (upto nr) (Crouse.row_body IdxInt fuel nr nc cost) (Crouse.initial_state IdxInt nr nc).

(** All lists of length [k] over the values [vals]. *)
Fixpoint all_lists {A : Type} (vals : list A) (k : nat) : list (list A) :=
  match k with
  | O => [[]]
  | S k' => flat_map (fun x => map (cons x) (all_lists vals k')) vals
  end.

(** All permutations of a list. *)
Fixpoint inserts {A : Type} (x : A) (l : list A) : list (list A) :=
  match l with
  | [] => [[x]]
  | y :: t => (x :: l) :: map (cons y) (inserts x t)
  end.

Fixpoint permutations {A : Type} (l : list A) : list (list A) :=
  match l with
  | [] => [[]]
  | x :: t => flat_map (inserts x) (permutations t)
  end.

(** The status of a run that returned. *)
Definition status_of (r : outcome (Z * list Z * list Z)) : option Z :=
  match r with
  | Ret (status, _, _) => Some status
  | _ => None
  end.

(** The input entries that make the Crouse solver answer Invalid: NaN, and
    the infinity that negation for [maximize] turns into or leaves as [-inf]. *)
Definition rejected_entry (maximize : bool) (x : float) : bool :=
  is_nan x || (x =? (if maximize then infinity else neg_infinity))%float.

(** The specification-level shape of a finite [double]. *)
Definition SFfinite (s : spec_float) : Prop :=
  match s with
  | S754_zero _ | S754_finite _ _ _ => True
  | _ => False
  end.

(** The reduced cost the first scan of a row computes from the entry [c]:
    [minVal + c - u[i] - v[j]] with [minVal], [u[i]] and [v[j]] all zero. *)
Definition first_reduced (c : float) : float := (0 + c - 0 - 0)%float.

(** ** Small matrices *)

(** The entries of the small matrices. *)
Definition small_entries : list float := [0; 1; 2]%float.

(** A square matrix of size 2 or 3 with entries 0, 1 or 2. *)
Definition small_matrix (n : nat) (m : list float) : Prop :=
  (n = 2 \/ n = 3)%nat /\ length m = (n * n)%nat /\ Forall (fun x => In x small_entries) m.

(** The buffers the solvers are entered with in the exhaustive runs. *)
Definition zeros (n : nat) : list float := repeat 0%float n.
Definition blank (n : nat) : list Z := repeat 0 n.

Definition run_rlap (n : nat) (m : list float) :=
  JV.rlap 20 (Z.of_nat n) (Z.of_nat n) m false (blank n) (blank n) (zeros n) (zeros n).

Definition run_solve_rlap (n : nat) (m : list float) :=
  solve_rlap 20 (Z.of_nat n) (Z.of_nat n) m false (blank n) (blank n).

(** Both solvers return and their totals are the same [double]. *)
Definition totals_agree (n : nat) (m : list float) : bool :=
  match run_rlap n m, run_solve_rlap n m with
  | Ret (t, _, _, _, _), Ret (status, a, b) =>
      (status =? 0) && Leibniz.eqb t (pairs_total (Z.of_nat n) m a b)
  | _, _ => false
  end.

(** Both solvers return and their duals satisfy both optimality conditions. *)
Definition duals_certify (n : nat) (m : list float) : bool :=
  let N := Z.of_nat n in
  match run_rlap n m, crouse_rows 20 N N m with
  | Ret (_, rowsol, _, u, v), Ret (Next s) =>
      dual_tight N N m u v rowsol && dual_feasible N N m u v &&
      dual_tight N N m (Crouse.st_u s) (Crouse.st_v s) (Crouse.st_col4row s) &&
      dual_feasible N N m (Crouse.st_u s) (Crouse.st_v s)
  | _, _ => false
  end.

(** The Jonker-Volgenant solver returns an assignment of least total. *)
Definition rlap_minimises (n : nat) (m : list float) : bool :=
  let N := Z.of_nat n in
  match run_rlap n m with
  | Ret (t, rowsol, _, _, _) =>
      existsb (fun p => if list_eq_dec Z.eq_dec p rowsol then true else false)
              (permutations (upto N)) &&
      forallb (fun p => (t <=? rowsol_total N N m p)%float) (permutations (upto N))
  | _ => false
  end.

(** ** Invariants of the Crouse solver on a constant matrix *)

(** Rows (or columns) below [k] are matched to themselves, the others are free. *)
Definition matched_below (n k : nat) (l : list Z) : Prop :=
  length l = n /\ forall j, (j < n)%nat -> nth j l 0 = if (j <? k)%nat then Z.of_nat j else -1.

(** The duals from index [k] on are zero. *)
Definition zero_from {Cost : Type} `{CostType Cost} (n k : nat) (l : list Cost) : Prop :=
  length l = n /\ forall j, (k <= j < n)%nat -> nth j l c_zero = c_zero.

(** What [augmenting_path] leaves in its arrays after the search from row [k],
    [r] being the reduced cost of every entry. *)
Definition searched {Cost : Type} `{CostType Cost} (r : Cost) (n k : nat)
    (a : Crouse.ap_arrays) : Prop :=
  (length (Crouse.ap_path a) = n /\
   forall j, (j < n)%nat -> nth j (Crouse.ap_path a) 0 = Z.of_nat k) /\
  (length (Crouse.ap_spc a) = n /\
   forall j, (j < n)%nat -> nth j (Crouse.ap_spc a) c_zero = r) /\
  (length (Crouse.ap_SR a) = n /\
   forall j, (j < n)%nat -> nth j (Crouse.ap_SR a) false = (j =? k)%nat) /\
  (length (Crouse.ap_SC a) = n /\
   forall j, (j < n)%nat -> nth j (Crouse.ap_SC a) false = (j =? k)%nat) /\
  length (Crouse.ap_remaining a) = n.

(** The invariant of the main loop before row [k]. *)
Definition rows_done {Cost : Type} `{CostType Cost} (n k : nat) (s : Crouse.solver_state)
  : Prop :=
  zero_from n k (Crouse.st_u s) /\ zero_from n 0 (Crouse.st_v s) /\
  matched_below n k (Crouse.st_col4row s) /\ matched_below n k (Crouse.st_row4col s) /\
  length (Crouse.ap_path (Crouse.st_ap s)) = n /\
  length (Crouse.ap_spc (Crouse.st_ap s)) = n /\
  length (Crouse.ap_SR (Crouse.st_ap s)) = n /\
  length (Crouse.ap_SC (Crouse.st_ap s)) = n /\
  length (Crouse.ap_remaining (Crouse.st_ap s)) = n.

(** ** The matrices of the examples *)

Definition example_3x3 : list float := [4; 1; 3;  2; 0; 5;  3; 2; 2]%float.

#[local] Set Warnings "-inexact-float".

(** A matrix of decimal fractions: its entries are the doubles nearest to
    1.3, 1.5, 0.9 and 1.1. *)
Definition decimal_2x2 : list float := [1.3; 1.5;  0.9; 1.1]%float.

(** A matrix on which the duals of both solvers are off by rounding. *)
Definition tenths_2x2 : list float := [0; 0.1;  0.2; 0.4]%float.

#[local] Set Warnings "+inexact-float".

(** * Verification *)

(** ** Exact costs *)

(** Costs computed without rounding: the integers, with the two infinities
    and NaN of the floating-point types so that every operation of the
    solvers has its value. *)
Inductive xcost : Type :=
| Fin (z : Z)
| PInf
| NInf
| XNaN.

Definition x_add (a b : xcost) : xcost :=
  match a, b with
  | XNaN, _ | _, XNaN => XNaN
  | Fin x, Fin y => Fin (x + y)
  | PInf, NInf | NInf, PInf => XNaN
  | PInf, _ | _, PInf => PInf
  | NInf, _ | _, NInf => NInf
  end.

Definition x_opp (a : xcost) : xcost :=
  match a with
  | Fin x => Fin (- x)
  | PInf => NInf
  | NInf => PInf
  | XNaN => XNaN
  end.

Definition x_sub (a b : xcost) : xcost :=
  match a, b with
  | XNaN, _ | _, XNaN => XNaN
  | Fin x, Fin y => Fin (x - y)
  | PInf, PInf | NInf, NInf => XNaN
  | PInf, _ | _, NInf => PInf
  | NInf, _ | _, PInf => NInf
  end.

Definition x_ltb (a b : xcost) : bool :=
  match a, b with
  | XNaN, _ | _, XNaN => false
  | Fin x, Fin y => x <? y
  | _, NInf | PInf, _ => false
  | NInf, _ | _, PInf => true
  end.

Definition x_leb (a b : xcost) : bool :=
  match a, b with
  | XNaN, _ | _, XNaN => false
  | Fin x, Fin y => x <=? y
  | NInf, _ | _, PInf => true
  | _, NInf | PInf, _ => false
  end.

Definition x_eqb (a b : xcost) : bool :=
  match a, b with
  | Fin x, Fin y => x =? y
  | PInf, PInf | NInf, NInf => true
  | _, _ => false
  end.

(** The largest finite [double], which is an integer. *)
Definition x_max : Z := 2 ^ 1024 - 2 ^ 971.

#[export] Instance exact_cost : CostType xcost := {
  c_zero := Fin 0;
  c_inf := PInf;
  c_max := Fin x_max;
  c_add := x_add;
  c_sub := x_sub;
  c_opp := x_opp;
  c_ltb := x_ltb;
  c_leb := x_leb;
  c_eqb := x_eqb
}.

(** The value of a finite cost. *)
Definition fv (a : xcost) : Z :=
  match a with
  | Fin z => z
  | _ => 0
  end.

(** [a[i]] with integer index. *)
Definition at_ {A : Type} (d : A) (l : list A) (i : Z) : A := nth (Z.to_nat i) l d.

(** Shapes of exact costs. *)
Definition is_fin (a : xcost) : Prop := exists z, a = Fin z.
Definition is_ext (a : xcost) : Prop := a = PInf \/ exists z, a = Fin z.

(** ** Vocabulary of the search of the Crouse solver over exact costs *)

Section ScanTerms.

Variables (nc : Z) (w u v : list xcost).

(** The entry [cost[i][j]] and the values of the duals. *)
Definition W (i j : Z) : xcost := at_ (Fin 0) w (i * nc + j).
Definition Uv (i : Z) : Z := fv (at_ (Fin 0) u i).
Definition Vv (j : Z) : Z := fv (at_ (Fin 0) v j).

(** The candidate cost the scan of row [i] computes for column [j]. *)
Definition rcost (mv i j : Z) : xcost :=
  x_sub (x_sub (x_add (Fin mv) (W i j)) (at_ (Fin 0) u i)) (at_ (Fin 0) v j).

(** The live prefix [rem[0 .. nrem-1]] lists pairwise distinct columns. *)
Definition live_ok (rem : list Z) (nrem : Z) : Prop :=
  (forall it, 0 <= it < nrem -> 0 <= at_ 0 rem it < nc) /\
  (forall it it', 0 <= it < nrem -> 0 <= it' < nrem ->
                  at_ 0 rem it = at_ 0 rem it' -> it = it').

(** What the scan of row [i] has done to column [j]. *)
Definition scanned_col (mv i : Z) (path path' : list Z) (spc spc' : list xcost) (j : Z) : Prop :=
  (x_ltb (rcost mv i j) (at_ (Fin 0) spc j) = true /\
   at_ (Fin 0) spc' j = rcost mv i j /\ at_ 0 path' j = i) \/
  (x_ltb (rcost mv i j) (at_ (Fin 0) spc j) = false /\
   at_ (Fin 0) spc' j = at_ (Fin 0) spc j /\ at_ 0 path' j = at_ 0 path j).

Definition scan_inv (mv i : Z) (rem path : list Z) (spc : list xcost) (t : Z)
    (s : list Z * list xcost * xcost * Z) : Prop :=
  let '(path', spc', lowest, index) := s in
  length path' = length path /\ length spc' = length spc /\
  (forall j, 0 <= j < nc -> (forall it, 0 <= it < t -> at_ 0 rem it <> j) ->
             at_ (Fin 0) spc' j = at_ (Fin 0) spc j /\ at_ 0 path' j = at_ 0 path j) /\
  (forall it, 0 <= it < t -> scanned_col mv i path path' spc spc' (at_ 0 rem it)) /\
  is_ext lowest /\
  (lowest = PInf \/ (0 <= index < t /\ at_ (Fin 0) spc' (at_ 0 rem index) = lowest)) /\
  (forall it, 0 <= it < t -> x_ltb (at_ (Fin 0) spc' (at_ 0 rem it)) lowest = false).

(** A column is live when it is listed in the prefix [rem[0 .. nrem-1]]. *)
Definition live (rem : list Z) (nrem j : Z) : Prop :=
  exists it, 0 <= it < nrem /\ at_ 0 rem it = j.

End ScanTerms.

Section SearchTerms.

Variables (nr nc : Z) (w u v : list xcost) (r4c c4r : list Z) (cur : Z).

(** The distance at which row [i'] was scanned. *)
Definition Dist (spc : list xcost) (i' : Z) : Z :=
  if i' =? cur then 0 else fv (at_ (Fin 0) spc (at_ 0 c4r i')).

Definition SRof (a : @Crouse.ap_arrays xcost) (i : Z) : bool := at_ false (Crouse.ap_SR a) i.
Definition SCof (a : @Crouse.ap_arrays xcost) (j : Z) : bool := at_ false (Crouse.ap_SC a) j.
Definition spcof (a : @Crouse.ap_arrays xcost) (j : Z) : xcost := at_ (Fin 0) (Crouse.ap_spc a) j.
Definition pathof (a : @Crouse.ap_arrays xcost) (j : Z) : Z := at_ 0 (Crouse.ap_path a) j.

(** The facts the search maintains; [mv] is the current minimum, [jlast]
    the column scanned last, [t] the number of scanned columns and [rank]
    the order in which they were scanned. *)
Record core (mv jlast t : Z) (rank : Z -> Z) (nrem : Z) (a : @Crouse.ap_arrays xcost) : Prop := {
  c_len_path : Z.of_nat (length (Crouse.ap_path a)) = nc;
  c_len_spc : Z.of_nat (length (Crouse.ap_spc a)) = nc;
  c_len_SR : Z.of_nat (length (Crouse.ap_SR a)) = nr;
  c_len_SC : Z.of_nat (length (Crouse.ap_SC a)) = nc;
  c_len_rem : Z.of_nat (length (Crouse.ap_remaining a)) = nc;
  c_count : 0 <= nrem /\ 0 <= t /\ nrem + t = nc;
  c_live : live_ok nc (Crouse.ap_remaining a) nrem;
  c_sc_live : forall j, 0 <= j < nc ->
      (SCof a j = false <-> live (Crouse.ap_remaining a) nrem j);
  c_ext : forall j, 0 <= j < nc -> is_ext (spcof a j);
  c_P1 : forall i' j c, 0 <= i' < nr -> SRof a i' = true -> 0 <= j < nc ->
      W nc w i' j = Fin c ->
      exists s, spcof a j = Fin s /\ s <= Dist (Crouse.ap_spc a) i' + c - Uv u i' - Vv v j;
  c_P2 : forall j, 0 <= j < nc -> SCof a j = false ->
      spcof a j = PInf \/ exists s, spcof a j = Fin s /\ mv <= s;
  c_P3 : forall j, 0 <= j < nc -> SCof a j = true ->
      (exists s, spcof a j = Fin s /\ s <= mv) /\ 0 <= rank j < t /\
      (j = jlast \/ (0 <= at_ 0 r4c j < cur /\ SRof a (at_ 0 r4c j) = true));
  c_P4 : forall i', 0 <= i' < nr -> SRof a i' = true ->
      i' = cur \/ (0 <= i' < cur /\ SCof a (at_ 0 c4r i') = true);
  c_P5 : forall j s, 0 <= j < nc -> spcof a j = Fin s ->
      0 <= pathof a j < nr /\ SRof a (pathof a j) = true /\
      (exists c, W nc w (pathof a j) j = Fin c /\
                 s = Dist (Crouse.ap_spc a) (pathof a j) + c - Uv u (pathof a j) - Vv v j) /\
      (SCof a j = true -> pathof a j = cur \/ rank (at_ 0 c4r (pathof a j)) < rank j);
  c_cur : 0 < t -> SRof a cur = true
}.

(** The search is stuck: the scanned rows have finite entries in the scanned
    columns only, and there is one scanned row more than scanned columns. *)
Definition blocked (a : @Crouse.ap_arrays xcost) : Prop :=
  Z.of_nat (length (Crouse.ap_SR a)) = nr /\
  SRof a cur = true /\
  (forall i', 0 <= i' < nr -> SRof a i' = true ->
     i' = cur \/ (0 <= i' < cur /\ SCof a (at_ 0 c4r i') = true)) /\
  (forall j, 0 <= j < nc -> SCof a j = true ->
     0 <= at_ 0 r4c j < cur /\ SRof a (at_ 0 r4c j) = true) /\
  (forall i' j, 0 <= i' < nr -> SRof a i' = true -> 0 <= j < nc -> SCof a j = false ->
     W nc w i' j = PInf).

(** The row about to be scanned: the row of the search, before any column
    is scanned, or the row matched to the column scanned last. *)
Definition head (i mv jlast t : Z) (a : @Crouse.ap_arrays xcost) : Prop :=
  (i = cur /\ t = 0 /\ mv = 0) \/
  (0 < t /\ 0 <= i < cur /\ 0 <= jlast < nc /\ at_ 0 r4c jlast = i /\
   SCof a jlast = true /\ spcof a jlast = Fin mv).

End SearchTerms.

(** ** Vocabulary of the main loop of the Crouse solver over exact costs *)

(** An assignment of the rows [0 .. nr-1] to distinct columns. *)
Definition assignment (nr nc : Z) (p : list Z) : Prop :=
  Z.of_nat (length p) = nr /\ NoDup p /\ forall j, In j p -> 0 <= j < nc.

Section RowTerms.

Variables (nr nc : Z) (w : list xcost) (r4c c4r : list Z) (cur : Z).
Variables (lo : Z) (rank : Z -> Z) (a : @Crouse.ap_arrays xcost).

(** What the update adds to [u[i]] and takes from [v[j]]. *)
Definition delta_u (i : Z) : Z := if SRof a i then lo - Dist c4r cur (Crouse.ap_spc a) i else 0.
Definition delta_v (j : Z) : Z := if SCof a j then lo - fv (spcof a j) else 0.

(** While the walk is at column [j]: no row points to [j], every other
    column is consistently matched, and a row that was re-matched got a
    column scanned after [j]. *)
Definition flip_inv (j : Z) (r c : list Z) : Prop :=
  0 <= j < nc /\ SCof a j = true /\
  Z.of_nat (length r) = nc /\ Z.of_nat (length c) = nr /\
  (forall i, 0 <= i < cur -> 0 <= at_ 0 c i < nc /\ at_ 0 c i <> j /\ at_ 0 r (at_ 0 c i) = i) /\
  (forall j', 0 <= j' < nc -> j' <> j ->
     at_ 0 r j' = -1 \/ (0 <= at_ 0 r j' < cur /\ at_ 0 c (at_ 0 r j') = j')) /\
  (forall i, 0 <= i < cur ->
     at_ 0 c i = at_ 0 c4r i \/
     (SCof a (at_ 0 c i) = true /\ pathof a (at_ 0 c i) = i /\ rank j <= rank (at_ 0 c4r i))) /\
  (forall j', 0 <= j' < nc -> j' <> j -> at_ 0 r j' = -1 ->
     at_ 0 r4c j' = -1 /\ SCof a j' = false).

(** After the walk: a matching of the rows up to [cur], made of old pairs
    and of edges of the path. *)
Definition flip_post (r c : list Z) : Prop :=
  Z.of_nat (length r) = nc /\ Z.of_nat (length c) = nr /\
  (forall j, 0 <= j < nc ->
     at_ 0 r j = -1 \/ (0 <= at_ 0 r j < cur + 1 /\ at_ 0 c (at_ 0 r j) = j)) /\
  (forall i, 0 <= i < cur + 1 -> 0 <= at_ 0 c i < nc /\ at_ 0 r (at_ 0 c i) = i) /\
  (forall i, 0 <= i < cur + 1 ->
     (i < cur /\ at_ 0 c i = at_ 0 c4r i) \/
     (SCof a (at_ 0 c i) = true /\ pathof a (at_ 0 c i) = i)) /\
  (forall j, 0 <= j < nc -> at_ 0 r j = -1 -> at_ 0 r4c j = -1 /\ SCof a j = false).

(** The invariant of the main loop before row [cur]: the rows below [cur]
    are matched, the duals are feasible on these rows and tight on the
    matched pairs, and the price of a free column is 0. *)
Record CInv (cur : Z) (s : @Crouse.solver_state xcost) : Prop := {
  i_len_u : Z.of_nat (length (Crouse.st_u s)) = nr;
  i_len_v : Z.of_nat (length (Crouse.st_v s)) = nc;
  i_len_c : Z.of_nat (length (Crouse.st_col4row s)) = nr;
  i_len_r : Z.of_nat (length (Crouse.st_row4col s)) = nc;
  i_len_path : Z.of_nat (length (Crouse.ap_path (Crouse.st_ap s))) = nc;
  i_len_spc : Z.of_nat (length (Crouse.ap_spc (Crouse.st_ap s))) = nc;
  i_len_SR : Z.of_nat (length (Crouse.ap_SR (Crouse.st_ap s))) = nr;
  i_len_SC : Z.of_nat (length (Crouse.ap_SC (Crouse.st_ap s))) = nc;
  i_len_rem : Z.of_nat (length (Crouse.ap_remaining (Crouse.st_ap s))) = nc;
  i_fin_u : forall i, 0 <= i < nr -> is_fin (at_ (Fin 0) (Crouse.st_u s) i);
  i_fin_v : forall j, 0 <= j < nc -> is_fin (at_ (Fin 0) (Crouse.st_v s) j);
  i_m_r : forall j, 0 <= j < nc ->
      at_ 0 (Crouse.st_row4col s) j = -1 \/
      (0 <= at_ 0 (Crouse.st_row4col s) j < cur /\
       at_ 0 (Crouse.st_col4row s) (at_ 0 (Crouse.st_row4col s) j) = j);
  i_m_c : forall i, 0 <= i < cur ->
      0 <= at_ 0 (Crouse.st_col4row s) i < nc /\
      at_ 0 (Crouse.st_row4col s) (at_ 0 (Crouse.st_col4row s) i) = i;
  i_feas : forall i j c, 0 <= i < cur -> 0 <= j < nc -> W nc w i j = Fin c ->
      Uv (Crouse.st_u s) i + Vv (Crouse.st_v s) j <= c;
  i_tight : forall i, 0 <= i < cur ->
      W nc w i (at_ 0 (Crouse.st_col4row s) i) =
      Fin (Uv (Crouse.st_u s) i + Vv (Crouse.st_v s) (at_ 0 (Crouse.st_col4row s) i));
  i_vle : forall j, 0 <= j < nc -> Vv (Crouse.st_v s) j <= 0;
  i_v0 : forall j, 0 <= j < nc -> at_ 0 (Crouse.st_row4col s) j = -1 ->
      Vv (Crouse.st_v s) j = 0
}.

(** No assignment of the rows has finite entries only. *)
Definition unmatchable : Prop :=
  forall p, assignment nr nc p -> ~ (forall i, 0 <= i < nr -> is_fin (W nc w i (at_ 0 p i))).

End RowTerms.

(** Sums over lists of indices. *)
Definition zsum (f : Z -> Z) (l : list Z) : Z := fold_right (fun i acc => f i + acc) 0 l.

(** The columns an assignment leaves out. *)
Definition left_out (nc : Z) (p : list Z) : list Z :=
  filter (fun j => negb (existsb (Z.eqb j) p)) (upto nc).

(** ** Vocabulary of the Jonker-Volgenant solver over exact costs *)

Section JVTerms.

Variables (dim0 dim1 : Z) (w : list xcost).

(** The entry [cost[i][j]] as an integer. *)
Definition Cv (i j : Z) : Z := fv (W dim1 w i j).

(** The invariant of the Jonker-Volgenant solver: the rows that are not
    pending are matched, each to a column of least reduced cost in its row;
    prices are not positive, and 0 on a free column. *)
Record JInv (pend : Z -> Prop) (rowsol colsol : list Z) (v : list xcost) : Prop := {
  j_len_row : Z.of_nat (length rowsol) = dim0;
  j_len_col : Z.of_nat (length colsol) = dim1;
  j_len_v : Z.of_nat (length v) = dim1;
  j_fin_v : forall j, 0 <= j < dim1 -> is_fin (at_ (Fin 0) v j);
  j_vle : forall j, 0 <= j < dim1 -> Vv v j <= 0;
  j_v0 : forall j, 0 <= j < dim1 -> at_ 0 colsol j = -1 -> Vv v j = 0;
  j_col : forall j, 0 <= j < dim1 ->
      at_ 0 colsol j = -1 \/
      (0 <= at_ 0 colsol j < dim0 /\ at_ 0 rowsol (at_ 0 colsol j) = j /\
       ~ pend (at_ 0 colsol j));
  j_row : forall i, 0 <= i < dim0 -> ~ pend i ->
      0 <= at_ 0 rowsol i < dim1 /\ at_ 0 colsol (at_ 0 rowsol i) = i;
  j_min : forall i j, 0 <= i < dim0 -> ~ pend i -> 0 <= j < dim1 ->
      Cv i (at_ 0 rowsol i) - Vv v (at_ 0 rowsol i) <= Cv i j - Vv v j
}.

End JVTerms.

(** The positions of the free list in use: the rows put back for the next
    phase, and the rows still to be scanned. *)
Definition idx (numfree k prev p : Z) : Prop := 0 <= p < numfree \/ k <= p < prev.

Definition pendA (free : list Z) (numfree k prev r : Z) : Prop :=
  exists p, idx numfree k prev p /\ at_ 0 free p = r.

Section FreeListTerms.

Variable dim0 : Z.

Definition free_ok (free : list Z) (numfree k prev : Z) : Prop :=
  (forall p, idx numfree k prev p -> 0 <= at_ 0 free p < dim0) /\
  (forall p q, idx numfree k prev p -> idx numfree k prev q ->
               at_ 0 free p = at_ 0 free q -> p = q).

End FreeListTerms.

Section RowReductionTerms.

Variables (dim0 dim1 : Z) (w : list xcost) (B : Z).

(** The invariant of [while (k < prevnumfree)]; [a0] counts the rows scanned
    in the pass before. *)
Record AInv (a0 prev k : Z) (s : @JV.arr_state xcost) : Prop := {
  a_J : JInv dim0 dim1 w (pendA (JV.arr_free s) (JV.arr_numfree s) k prev)
             (JV.arr_rowsol s) (JV.arr_colsol s) (JV.arr_v s);
  a_len_free : Z.of_nat (length (JV.arr_free s)) = dim0;
  a_idx : 0 <= JV.arr_numfree s <= k /\ k <= prev <= dim0;
  a_a0 : 0 <= a0 <= dim0;
  a_free : free_ok dim0 (JV.arr_free s) (JV.arr_numfree s) k prev;
  a_low : forall j, 0 <= j < dim1 -> - ((a0 + k + 1) * (2 * B)) <= Vv (JV.arr_v s) j
}.

(** What bounds the number of iterations left. *)
Definition arr_measure (a0 prev k : Z) (s : @JV.arr_state xcost) : Z :=
  (prev - k) + zsum (fun j => Vv (JV.arr_v s) j + (a0 + prev + 1) * (2 * B)) (upto dim1).

End RowReductionTerms.

Section ColumnTerms.

Variable dim1 : Z.

(** [collist] lists every column once. *)
Definition perm_ok (cl : list Z) : Prop :=
  Z.of_nat (length cl) = dim1 /\
  (forall k, 0 <= k < dim1 -> 0 <= at_ 0 cl k < dim1) /\
  (forall k k', 0 <= k < dim1 -> 0 <= k' < dim1 -> at_ 0 cl k = at_ 0 cl k' -> k = k') /\
  (forall j, 0 <= j < dim1 -> exists k, 0 <= k < dim1 /\ at_ 0 cl k = j).

End ColumnTerms.

Section JVSearchTerms.

Variables (dim0 dim1 : Z) (w : list xcost).
Variables (rowsol colsol : list Z) (v : list xcost) (f : Z) (pend : Z -> Prop).

(** The row of a column, the dual of a matched row, the reduced cost of a
    cell in a matched row, and the distances the search starts from. *)
Definition rowof (j : Z) : Z := at_ 0 colsol j.
Definition ured (i : Z) : Z := Cv dim1 w i (at_ 0 rowsol i) - Vv v (at_ 0 rowsol i).
Definition red (i j : Z) : Z := Cv dim1 w i j - Vv v j - ured i.
Definition d0 (j : Z) : Z := Cv dim1 w f j - Vv v j.

(** The invariant of [do ... while (!unassigned_found)] at the head of the
    loop: the columns at positions below [low] are done, those in
    [low .. up-1] are to be scanned at the current minimum, the others are
    farther away. *)
Record SInv (s : @JV.sp_state xcost) : Prop := {
  s_len_d : Z.of_nat (length (JV.sp_d s)) = dim1;
  s_len_pred : Z.of_nat (length (JV.sp_pred s)) = dim1;
  s_perm : perm_ok dim1 (JV.sp_collist s);
  s_fin_d : forall j, 0 <= j < dim1 -> is_fin (at_ (Fin 0) (JV.sp_d s) j);
  s_fin_min : is_fin (JV.sp_min s);
  s_idx : 0 <= JV.sp_low s <= JV.sp_up s /\ JV.sp_up s <= dim1;
  s_ready : forall k, 0 <= k < JV.sp_low s ->
      0 <= rowof (at_ 0 (JV.sp_collist s) k) /\
      Vv (JV.sp_d s) (at_ 0 (JV.sp_collist s) k) <= fv (JV.sp_min s);
  s_todo : forall k, JV.sp_low s <= k < JV.sp_up s ->
      0 <= rowof (at_ 0 (JV.sp_collist s) k) /\
      Vv (JV.sp_d s) (at_ 0 (JV.sp_collist s) k) = fv (JV.sp_min s);
  s_unsc : 0 < JV.sp_up s -> forall k, JV.sp_up s <= k < dim1 ->
      fv (JV.sp_min s) < Vv (JV.sp_d s) (at_ 0 (JV.sp_collist s) k);
  s_relax : forall k j, 0 <= k < JV.sp_low s -> 0 <= j < dim1 ->
      Vv (JV.sp_d s) j
      <= Vv (JV.sp_d s) (at_ 0 (JV.sp_collist s) k)
         + red (rowof (at_ 0 (JV.sp_collist s) k)) j;
  s_d0 : forall j, 0 <= j < dim1 -> Vv (JV.sp_d s) j <= d0 j;
  s_pred : forall k, 0 <= k < dim1 ->
      (at_ 0 (JV.sp_pred s) (at_ 0 (JV.sp_collist s) k) = f /\
       Vv (JV.sp_d s) (at_ 0 (JV.sp_collist s) k) = d0 (at_ 0 (JV.sp_collist s) k)) \/
      (exists ki, 0 <= ki < JV.sp_low s /\ ki < k /\
         at_ 0 (JV.sp_pred s) (at_ 0 (JV.sp_collist s) k)
         = rowof (at_ 0 (JV.sp_collist s) ki) /\
         Vv (JV.sp_d s) (at_ 0 (JV.sp_collist s) k)
         = Vv (JV.sp_d s) (at_ 0 (JV.sp_collist s) ki)
           + red (rowof (at_ 0 (JV.sp_collist s) ki)) (at_ 0 (JV.sp_collist s) k));
  s_last : 0 < JV.sp_up s -> -1 <= JV.sp_last s < JV.sp_low s;
  s_last_min : 0 < JV.sp_up s -> forall k, JV.sp_last s < k < JV.sp_low s ->
      Vv (JV.sp_d s) (at_ 0 (JV.sp_collist s) k) = fv (JV.sp_min s)
}.

(** What holds when the search ends at the free column [e]. *)
Record SFinal (e : Z) (s : @JV.sp_state xcost) : Prop := {
  f_len_d : Z.of_nat (length (JV.sp_d s)) = dim1;
  f_len_pred : Z.of_nat (length (JV.sp_pred s)) = dim1;
  f_perm : perm_ok dim1 (JV.sp_collist s);
  f_fin_d : forall j, 0 <= j < dim1 -> is_fin (at_ (Fin 0) (JV.sp_d s) j);
  f_fin_min : is_fin (JV.sp_min s);
  f_idx : 0 <= JV.sp_low s <= dim1 /\ -1 <= JV.sp_last s < JV.sp_low s;
  f_e : 0 <= e < dim1 /\ rowof e < 0 /\
        forall k, 0 <= k < JV.sp_low s -> at_ 0 (JV.sp_collist s) k <> e;
  f_ready : forall k, 0 <= k < JV.sp_low s ->
      0 <= rowof (at_ 0 (JV.sp_collist s) k) /\
      Vv (JV.sp_d s) (at_ 0 (JV.sp_collist s) k) <= fv (JV.sp_min s);
  f_last : forall k, JV.sp_last s < k < JV.sp_low s ->
      Vv (JV.sp_d s) (at_ 0 (JV.sp_collist s) k) = fv (JV.sp_min s);
  f_ge : forall j, 0 <= j < dim1 ->
      (forall k, 0 <= k < JV.sp_low s -> at_ 0 (JV.sp_collist s) k <> j) ->
      fv (JV.sp_min s) <= Vv (JV.sp_d s) j;
  f_relax : forall k j, 0 <= k < JV.sp_low s -> 0 <= j < dim1 ->
      Vv (JV.sp_d s) (at_ 0 (JV.sp_collist s) k) = fv (JV.sp_min s) \/
      Vv (JV.sp_d s) j
      <= Vv (JV.sp_d s) (at_ 0 (JV.sp_collist s) k)
         + red (rowof (at_ 0 (JV.sp_collist s) k)) j;
  f_d0 : forall j, 0 <= j < dim1 -> Vv (JV.sp_d s) j <= d0 j;
  f_pred_ready : forall k, 0 <= k < JV.sp_low s ->
      (at_ 0 (JV.sp_pred s) (at_ 0 (JV.sp_collist s) k) = f /\
       Vv (JV.sp_d s) (at_ 0 (JV.sp_collist s) k) = d0 (at_ 0 (JV.sp_collist s) k)) \/
      (exists ki, 0 <= ki < k /\
         at_ 0 (JV.sp_pred s) (at_ 0 (JV.sp_collist s) k)
         = rowof (at_ 0 (JV.sp_collist s) ki) /\
         Vv (JV.sp_d s) (at_ 0 (JV.sp_collist s) k)
         = Vv (JV.sp_d s) (at_ 0 (JV.sp_collist s) ki)
           + red (rowof (at_ 0 (JV.sp_collist s) ki)) (at_ 0 (JV.sp_collist s) k));
  f_pred_e :
      (at_ 0 (JV.sp_pred s) e = f /\ fv (JV.sp_min s) = d0 e) \/
      (exists ki, 0 <= ki < JV.sp_low s /\
         at_ 0 (JV.sp_pred s) e = rowof (at_ 0 (JV.sp_collist s) ki) /\
         fv (JV.sp_min s)
         = Vv (JV.sp_d s) (at_ 0 (JV.sp_collist s) ki)
           + red (rowof (at_ 0 (JV.sp_collist s) ki)) e)
}.

Section RelaxTerms.

Variables (low up last m : Z) (d : list xcost) (pred cl : list Z).

(** The invariant of the loop over the unscanned columns, at position [k]
    of the list: the columns before [k] are relaxed, and those found at the
    minimum have been moved to [up .. up'-1]. *)
Record RLInv (k up' : Z) (d' : list xcost) (pred' cl' : list Z) : Prop := {
  r_len_d : Z.of_nat (length d') = dim1;
  r_len_pred : Z.of_nat (length pred') = dim1;
  r_perm : perm_ok dim1 cl';
  r_fin_d : forall j, 0 <= j < dim1 -> is_fin (at_ (Fin 0) d' j);
  r_idx : up <= up' /\ up' <= k;
  r_fix : forall p, 0 <= p < up -> at_ 0 cl' p = at_ 0 cl p;
  r_keep : forall p, 0 <= p < up ->
      Vv d' (at_ 0 cl p) = Vv d (at_ 0 cl p) /\
      at_ 0 pred' (at_ 0 cl p) = at_ 0 pred (at_ 0 cl p);
  r_todo : forall p, up <= p < up' -> 0 <= rowof (at_ 0 cl' p) /\ Vv d' (at_ 0 cl' p) = m;
  r_unsc : forall p, up' <= p < dim1 -> m < Vv d' (at_ 0 cl' p);
  r_done : forall p, up <= p < k -> Vv d' (at_ 0 cl' p) <= m + red (rowof (at_ 0 cl low)) (at_ 0 cl' p);
  r_le : forall j, 0 <= j < dim1 -> Vv d' j <= Vv d j;
  r_pred : forall p, up <= p < dim1 ->
      (at_ 0 pred' (at_ 0 cl' p) = f /\ Vv d' (at_ 0 cl' p) = d0 (at_ 0 cl' p)) \/
      (exists ki, 0 <= ki < low + 1 /\
         at_ 0 pred' (at_ 0 cl' p) = rowof (at_ 0 cl ki) /\
         Vv d' (at_ 0 cl' p)
         = Vv d (at_ 0 cl ki) + red (rowof (at_ 0 cl ki)) (at_ 0 cl' p))
}.

(** The array [d] after the write [d[j] = x], and [pred] after [pred[j] = i]. *)
Definition written_d (d' d'' : list xcost) (j x : Z) : Prop :=
  length d'' = length d' /\ Vv d'' j = x /\ is_fin (at_ (Fin 0) d'' j) /\
  forall c, 0 <= c -> c <> j -> at_ (Fin 0) d'' c = at_ (Fin 0) d' c.

Definition written_pred (pred' pred'' : list Z) (j : Z) : Prop :=
  length pred'' = length pred' /\ at_ 0 pred'' j = rowof (at_ 0 cl low) /\
  forall c, 0 <= c -> c <> j -> at_ 0 pred'' c = at_ 0 pred' c.

End RelaxTerms.

End JVSearchTerms.

Section AugmentTerms.

Variables (dim0 dim1 : Z) (w : list xcost).
Variables (rowsol colsol : list Z) (v : list xcost) (f : Z) (pend : Z -> Prop).
Variables (e low up last m : Z) (d : list xcost) (pred cl : list Z).

(** The distance of a column, cut at the minimum the search ended with. *)
Definition mu (j : Z) : Z := Z.min (Vv d j) m.

(** The rows that are still to be augmented after this one. *)
Definition pend_rest (r : Z) : Prop := pend r /\ r <> f.

(** The prices after [for (k = 0; k <= last; k++)]. *)
Definition prices_at (k : Z) (v' : list xcost) : Prop :=
  Z.of_nat (length v') = dim1 /\
  (forall j, 0 <= j < dim1 -> is_fin (at_ (Fin 0) v' j)) /\
  forall p, 0 <= p < dim1 ->
    Vv v' (at_ 0 cl p) = if p <? k then Vv v (at_ 0 cl p) + Vv d (at_ 0 cl p) - m else Vv v (at_ 0 cl p).

(** The columns the tree of the search reaches: the done ones and the free
    column it ended at. *)
Definition linked (j : Z) : Prop := j = e \/ exists p, 0 <= p < low /\ at_ 0 cl p = j.

Definition at_rank (j q : Z) : Prop :=
  (j = e /\ q = low) \/ (0 <= q < low /\ j = at_ 0 cl q).

(** While the walk is at column [j], of rank [q]: no matched row points to
    [j], every other column is consistently matched, a row that was
    re-matched got the column whose predecessor it is, and lost a column of
    rank [q] or more. *)
Record FInv (j q : Z) (rs cs : list Z) : Prop := {
  fi_len_r : Z.of_nat (length rs) = dim0;
  fi_len_c : Z.of_nat (length cs) = dim1;
  fi_at : at_rank j q;
  fi_rows : forall i, 0 <= i < dim0 -> ~ pend i ->
      0 <= at_ 0 rs i < dim1 /\ at_ 0 rs i <> j /\ at_ 0 cs (at_ 0 rs i) = i;
  fi_cols : forall j', 0 <= j' < dim1 -> j' <> j ->
      at_ 0 cs j' = -1 \/
      (0 <= at_ 0 cs j' < dim0 /\ at_ 0 rs (at_ 0 cs j') = j' /\ ~ pend (at_ 0 cs j'));
  fi_new : forall i, 0 <= i < dim0 -> ~ pend i ->
      at_ 0 rs i = at_ 0 rowsol i \/
      (at_ 0 pred (at_ 0 rs i) = i /\ linked (at_ 0 rs i) /\
       exists p, q <= p < low /\ at_ 0 rowsol i = at_ 0 cl p);
  fi_free : forall j', 0 <= j' < dim1 -> j' <> j -> at_ 0 cs j' = -1 ->
      at_ 0 colsol j' = -1 /\ j' <> e
}.

(** After the walk: the rows that are not left to augment are consistently
    matched, by old pairs and by edges of the tree. *)
Record FPost (rs cs : list Z) : Prop := {
  fp_len_r : Z.of_nat (length rs) = dim0;
  fp_len_c : Z.of_nat (length cs) = dim1;
  fp_cols : forall j, 0 <= j < dim1 ->
      at_ 0 cs j = -1 \/
      (0 <= at_ 0 cs j < dim0 /\ at_ 0 rs (at_ 0 cs j) = j /\ ~ pend_rest (at_ 0 cs j));
  fp_rows : forall i, 0 <= i < dim0 -> ~ pend_rest i ->
      0 <= at_ 0 rs i < dim1 /\ at_ 0 cs (at_ 0 rs i) = i;
  fp_new : forall i, 0 <= i < dim0 -> ~ pend_rest i ->
      (~ pend i /\ at_ 0 rs i = at_ 0 rowsol i) \/
      (at_ 0 pred (at_ 0 rs i) = i /\ linked (at_ 0 rs i));
  fp_free : forall j, 0 <= j < dim1 -> at_ 0 cs j = -1 -> at_ 0 colsol j = -1 /\ j <> e
}.

End AugmentTerms.

(** The rows left free by the row reduction. *)
Definition pendF (free : list Z) (numfree f r : Z) : Prop :=
  exists p, f <= p < numfree /\ at_ 0 free p = r.

(** An exact cost that is an integer of absolute value at most [B]. *)
Definition bounded_entry (B : Z) (x : xcost) : bool :=
  match x with
  | Fin c => (- B <=? c) && (c <=? B)
  | _ => false
  end.

(** ** Words of [w] bits *)

Definition word (w z : Z) : Prop := 0 <= z < 2 ^ w.

(** Generic forms of the operations of the generators. *)
Definition shl_w (w x k : Z) : Z := (Z.shiftl x k) mod 2 ^ w.
Definition rotl_w (w x k : Z) : Z := Z.lor (shl_w w x k) (Z.shiftr x (w - k)).

(** ** Vocabulary for the generators *)

(** The generator after [n] calls of [next], and the value the call after
    these returns. *)
Fixpoint sm_skip (n : nat) (g : SplitMix64.t) : SplitMix64.t :=
  match n with
  | O => g
  | S n' => sm_skip n' (snd (SplitMix64.next g))
  end.

Definition sm_output (n : nat) (g : SplitMix64.t) : Z := fst (SplitMix64.next (sm_skip n g)).

(** The state a value returned by [next] comes from: the three steps of the
    output function undone, last step first. *)
Definition sm_unmix (y : Z) : Z :=
  let z := Z.lxor (Z.lxor y (Z.shiftr y 31)) (Z.shiftr y 62) in
  let z := u64 (z * 0x319642B2D24D8EC3) in
  let z := Z.lxor (Z.lxor z (Z.shiftr z 27)) (Z.shiftr z 54) in
  let z := u64 (z * 0x96DE1B173F119089) in
  Z.lxor (Z.lxor z (Z.shiftr z 30)) (Z.shiftr z 60).

(** The state before a call of [next], from the state after it, for words of
    [w] bits, the shift [a] and the rotation [b]. *)
Definition xo_prev (w a b : Z) (s : Z * Z * Z * Z) : Z * Z * Z * Z :=
  let '(n0, n1, n2, n3) := s in
  let s3a := rotl_w w n3 (w - b) in
  let s0 := Z.lxor n0 s3a in
  let y := Z.lxor n1 n2 in
  let s1 := Z.lxor (Z.lxor (Z.lxor y (shl_w w y a)) (shl_w w y (2 * a))) (shl_w w y (3 * a)) in
  let s2a := Z.lxor n1 s1 in
  (s0, s1, Z.lxor s2a s0, Z.lxor s3a s1).

Definition xo256_prev (g : Xoshiro256.t) : Xoshiro256.t :=
  let '(a, b, c, d) :=
    xo_prev 64 17 45 (Xoshiro256.s0 g, Xoshiro256.s1 g, Xoshiro256.s2 g, Xoshiro256.s3 g) in
  Xoshiro256.mk a b c d.

Definition xo128_prev (g : Xoshiro128.t) : Xoshiro128.t :=
  let '(a, b, c, d) :=
    xo_prev 32 9 11 (Xoshiro128.s0 g, Xoshiro128.s1 g, Xoshiro128.s2 g, Xoshiro128.s3 g) in
  Xoshiro128.mk a b c d.

(** States whose four words are in range. *)
Definition xo256_state (g : Xoshiro256.t) : Prop :=
  word 64 (Xoshiro256.s0 g) /\ word 64 (Xoshiro256.s1 g) /\
  word 64 (Xoshiro256.s2 g) /\ word 64 (Xoshiro256.s3 g).

Definition xo128_state (g : Xoshiro128.t) : Prop :=
  word 32 (Xoshiro128.s0 g) /\ word 32 (Xoshiro128.s1 g) /\
  word 32 (Xoshiro128.s2 g) /\ word 32 (Xoshiro128.s3 g).

Definition xo256_zero : Xoshiro256.t := Xoshiro256.mk 0 0 0 0.
Definition xo128_zero : Xoshiro128.t := Xoshiro128.mk 0 0 0 0.

Fixpoint xo256_skip (n : nat) (g : Xoshiro256.t) : Xoshiro256.t :=
  match n with
  | O => g
  | S n' => xo256_skip n' (snd (Xoshiro256.next g))
  end.

Fixpoint xo128_skip (n : nat) (g : Xoshiro128.t) : Xoshiro128.t :=
  match n with
  | O => g
  | S n' => xo128_skip n' (snd (Xoshiro128.next g))
  end.

(** The total of the assignment [colsol] of columns [0 .. nc-1] to rows: the
    entries [cost[colsol[j]][j]] added in column order, starting from 0. *)
Definition colsol_total {Cost : Type} `{CostType Cost} (nc : Z) (cost : list Cost)
    (colsol : list Z) : Cost :=
  fold_left (fun acc j => c_add acc (entry nc cost (nth (Z.to_nat j) colsol 0) j))
            (upto nc) c_zero.

(** ** Vocabulary of the runs of the Crouse solver over any cost type *)

(** An array of index values as the instantiation at the index kind [K]
    holds it: [-1] is stored as the literal [-1] converted to the kind. *)
Definition as_kind (K : IdxKind) (l : list Z) : list Z := map (idx_of_int K) l.

Section KindTerms.

Context {Cost : Type} `{CostType Cost}.

Definition ap_as_kind (K : IdxKind) (a : (@Crouse.ap_arrays Cost)) : (@Crouse.ap_arrays Cost) :=
  Crouse.mk_ap (as_kind K (Crouse.ap_path a)) (Crouse.ap_spc a) (Crouse.ap_SR a)
               (Crouse.ap_SC a) (Crouse.ap_remaining a).

Definition st_as_kind (K : IdxKind) (s : (@Crouse.solver_state Cost)) : (@Crouse.solver_state Cost) :=
  Crouse.mk_st (Crouse.st_u s) (Crouse.st_v s) (as_kind K (Crouse.st_col4row s))
               (as_kind K (Crouse.st_row4col s)) (ap_as_kind K (Crouse.st_ap s)).

Definition step_as_kind (K : IdxKind) (st : (@Crouse.ap_step Cost)) : (@Crouse.ap_step Cost) :=
  match st with
  | Crouse.ApInfeasible a => Crouse.ApInfeasible (ap_as_kind K a)
  | Crouse.ApSink sink minVal a => Crouse.ApSink sink minVal (ap_as_kind K a)
  | Crouse.ApAgain i minVal a => Crouse.ApAgain i minVal (ap_as_kind K a)
  end.

End KindTerms.

(** The rows a search has scanned when the columns [sel] are selected, latest
    first: the row of the search and the rows these columns are matched to. *)
Definition rows_of (r4c : list Z) (cur : Z) (sel : list Z) : list Z :=
  cur :: map (at_ 0 r4c) sel.

(** Every selected column was reached from a row scanned before it was
    selected. *)
Fixpoint chain (path r4c : list Z) (cur : Z) (sel : list Z) : Prop :=
  match sel with
  | [] => True
  | j :: rest => In (at_ 0 path j) (rows_of r4c cur rest) /\ chain path r4c cur rest
  end.

Section RunTerms.

Context {Cost : Type} `{CostType Cost}.
Variables (nr nc : Z).

(** The shape of the state of the main loop before row [cur], whatever the
    costs: the rows below [cur] are matched to distinct columns. *)
Record GState (cur : Z) (s : (@Crouse.solver_state Cost)) : Prop := {
  g_len_u : Z.of_nat (length (Crouse.st_u s)) = nr;
  g_len_v : Z.of_nat (length (Crouse.st_v s)) = nc;
  g_len_c : Z.of_nat (length (Crouse.st_col4row s)) = nr;
  g_len_r : Z.of_nat (length (Crouse.st_row4col s)) = nc;
  g_len_path : Z.of_nat (length (Crouse.ap_path (Crouse.st_ap s))) = nc;
  g_len_spc : Z.of_nat (length (Crouse.ap_spc (Crouse.st_ap s))) = nc;
  g_len_SR : Z.of_nat (length (Crouse.ap_SR (Crouse.st_ap s))) = nr;
  g_len_SC : Z.of_nat (length (Crouse.ap_SC (Crouse.st_ap s))) = nc;
  g_len_rem : Z.of_nat (length (Crouse.ap_remaining (Crouse.st_ap s))) = nc;
  g_path : forall j, 0 <= j < nc -> -1 <= at_ 0 (Crouse.ap_path (Crouse.st_ap s)) j < nr;
  g_c : forall i, 0 <= i < nr -> -1 <= at_ 0 (Crouse.st_col4row s) i < nc;
  g_m_r : forall j, 0 <= j < nc ->
      at_ 0 (Crouse.st_row4col s) j = -1 \/
      (0 <= at_ 0 (Crouse.st_row4col s) j < cur /\
       at_ 0 (Crouse.st_col4row s) (at_ 0 (Crouse.st_row4col s) j) = j);
  g_m_c : forall i, 0 <= i < cur ->
      0 <= at_ 0 (Crouse.st_col4row s) i < nc /\
      at_ 0 (Crouse.st_row4col s) (at_ 0 (Crouse.st_col4row s) i) = i
}.

(** The shape of the arrays of a search. *)
Record GArrays (cur : Z) (a : (@Crouse.ap_arrays Cost)) : Prop := {
  a_len_path : Z.of_nat (length (Crouse.ap_path a)) = nc;
  a_len_spc : Z.of_nat (length (Crouse.ap_spc a)) = nc;
  a_len_SR : Z.of_nat (length (Crouse.ap_SR a)) = nr;
  a_len_SC : Z.of_nat (length (Crouse.ap_SC a)) = nc;
  a_len_rem : Z.of_nat (length (Crouse.ap_remaining a)) = nc;
  a_path : forall j, 0 <= j < nc -> -1 <= at_ 0 (Crouse.ap_path a) j < nr;
  a_SR : forall i, 0 <= i < nr -> at_ false (Crouse.ap_SR a) i = true -> i <= cur
}.

(** The search of row [cur] before an iteration of [while (sink == -1)] that
    scans row [i], with [n] columns remaining and the columns [sel] selected. *)
Record GSearch (r4c : list Z) (cur n i : Z) (sel : list Z) (a : (@Crouse.ap_arrays Cost)) : Prop := {
  s_arrays : GArrays cur a;
  s_n : 0 <= n <= nc;
  s_live : forall t, 0 <= t < n ->
      0 <= at_ 0 (Crouse.ap_remaining a) t < nc /\ ~ In (at_ 0 (Crouse.ap_remaining a) t) sel;
  s_distinct : forall t t', 0 <= t < n -> 0 <= t' < n ->
      at_ 0 (Crouse.ap_remaining a) t = at_ 0 (Crouse.ap_remaining a) t' -> t = t';
  s_row : In i (rows_of r4c cur sel);
  s_sel : forall x, In x sel -> 0 <= x < nc /\ 0 <= at_ 0 r4c x;
  s_nodup : NoDup sel;
  s_chain : chain (Crouse.ap_path a) r4c cur sel;
  s_fresh : forall j, 0 <= j < nc ->
      at_ c_zero (Crouse.ap_spc a) j = c_inf \/
      In (at_ 0 (Crouse.ap_path a) j) (rows_of r4c cur sel)
}.

(** The search that found the free column [sink]. *)
Record GFound (r4c : list Z) (cur sink : Z) (sel : list Z) (a : (@Crouse.ap_arrays Cost)) : Prop := {
  f_arrays : GArrays cur a;
  f_sink : 0 <= sink < nc;
  f_free : at_ 0 r4c sink = -1;
  f_new : ~ In sink sel;
  f_from : In (at_ 0 (Crouse.ap_path a) sink) (rows_of r4c cur sel);
  f_sel : forall x, In x sel -> 0 <= x < nc /\ 0 <= at_ 0 r4c x;
  f_nodup : NoDup sel;
  f_chain : chain (Crouse.ap_path a) r4c cur sel
}.

(** While the augmentation is at column [j], with the columns [suf] still to
    walk through: no row points to [j], every other column is consistently
    matched, and the rows of [suf] have the columns they had. *)
Record GWalk (path r4c : list Z) (cur j : Z) (suf r c : list Z) : Prop := {
  w_j : 0 <= j < nc;
  w_new : ~ In j suf;
  w_from : In (at_ 0 path j) (rows_of r4c cur suf);
  w_sel : forall x, In x suf -> 0 <= x < nc /\ 0 <= at_ 0 r4c x < cur /\
                                at_ 0 c (at_ 0 r4c x) = x;
  w_nodup : NoDup suf;
  w_chain : chain path r4c cur suf;
  w_len_r : Z.of_nat (length r) = nc;
  w_len_c : Z.of_nat (length c) = nr;
  w_c : forall i, 0 <= i < nr -> -1 <= at_ 0 c i < nc;
  w_m_c : forall i, 0 <= i < cur ->
      0 <= at_ 0 c i < nc /\ at_ 0 c i <> j /\ at_ 0 r (at_ 0 c i) = i;
  w_m_r : forall j', 0 <= j' < nc -> j' <> j ->
      at_ 0 r j' = -1 \/ (0 <= at_ 0 r j' < cur /\ at_ 0 c (at_ 0 r j') = j')
}.

(** After the augmentation: the rows up to [cur] are matched. *)
Definition GMatched (cur : Z) (r c : list Z) : Prop :=
  Z.of_nat (length r) = nc /\ Z.of_nat (length c) = nr /\
  (forall i, 0 <= i < nr -> -1 <= at_ 0 c i < nc) /\
  (forall j, 0 <= j < nc ->
     at_ 0 r j = -1 \/ (0 <= at_ 0 r j < cur + 1 /\ at_ 0 c (at_ 0 r j) = j)) /\
  (forall i, 0 <= i < cur + 1 -> 0 <= at_ 0 c i < nc /\ at_ 0 r (at_ 0 c i) = i).

End RunTerms.

(** ** Vocabulary of the runs of the Jonker-Volgenant solver over any cost type *)

Section MatchTerms.

Variables (dim0 dim1 : Z).

(** The shape of [rowsol] and [colsol], whatever the costs: the rows that
    are not pending are matched to distinct columns, and [colsol] is the
    inverse of [rowsol] on them. *)
Record JMatch (pend : Z -> Prop) (rowsol colsol : list Z) : Prop := {
  m_len_row : Z.of_nat (length rowsol) = dim0;
  m_len_col : Z.of_nat (length colsol) = dim1;
  m_col : forall j, 0 <= j < dim1 ->
      at_ 0 colsol j = -1 \/
      (0 <= at_ 0 colsol j < dim0 /\ at_ 0 rowsol (at_ 0 colsol j) = j /\
       ~ pend (at_ 0 colsol j));
  m_row : forall i, 0 <= i < dim0 -> ~ pend i ->
      0 <= at_ 0 rowsol i < dim1 /\ at_ 0 colsol (at_ 0 rowsol i) = i
}.

(** The augmenting row reduction before it takes the row at position [k] of
    the free list. *)
Record JArr {Cost : Type} (prev k : Z) (s : @JV.arr_state Cost) : Prop := {
  ja_match : JMatch (pendA (JV.arr_free s) (JV.arr_numfree s) k prev)
                   (JV.arr_rowsol s) (JV.arr_colsol s);
  ja_len_free : Z.of_nat (length (JV.arr_free s)) = dim0;
  ja_idx : 0 <= JV.arr_numfree s <= k /\ k <= prev <= dim0;
  ja_free : free_ok dim0 (JV.arr_free s) (JV.arr_numfree s) k prev
}.

(** The tree of the shortest path search from [freerow]: the columns at the
    positions below [low] of [collist] are scanned; they are matched, and
    [pred] leads from every column to [freerow] or to the row of a scanned
    column, scanned earlier if the column is itself scanned. *)
Record JTree (freerow : Z) (colsol : list Z) (low : Z) (pred collist : list Z) : Prop := {
  t_perm : perm_ok dim1 collist;
  t_len_pred : Z.of_nat (length pred) = dim1;
  t_low : 0 <= low <= dim1;
  t_scanned : forall q, 0 <= q < low -> 0 <= at_ 0 colsol (at_ 0 collist q);
  t_pred : forall j, 0 <= j < dim1 ->
      at_ 0 pred j = freerow \/
      exists q', 0 <= q' < low /\ at_ 0 pred j = at_ 0 colsol (at_ 0 collist q') /\
                 forall q, 0 <= q < low -> at_ 0 collist q = j -> q' < q
}.

(** The search before an iteration of its loop: the columns at the positions
    from [low] to [up] are to be scanned, and matched as well. *)
Definition JSearch {Cost : Type} (freerow : Z) (colsol : list Z) (s : @JV.sp_state Cost)
  : Prop :=
  JTree freerow colsol (JV.sp_low s) (JV.sp_pred s) (JV.sp_collist s) /\
  JV.sp_low s <= JV.sp_up s <= dim1 /\
  forall q, JV.sp_low s <= q < JV.sp_up s -> 0 <= at_ 0 colsol (at_ 0 (JV.sp_collist s) q).

(** The search that found the unassigned column [j]. *)
Definition JEnd {Cost : Type} (freerow : Z) (colsol : list Z) (j : Z) (s : @JV.sp_state Cost)
  : Prop :=
  JTree freerow colsol (JV.sp_low s) (JV.sp_pred s) (JV.sp_collist s) /\
  0 <= j < dim1 /\ at_ 0 colsol j < 0.

(** While the path is flipped, at column [j], with the scanned columns at
    the positions below [b] still to walk through: no row points to [j],
    every other column is consistently matched, and the columns below [b]
    have the rows they had. *)
Record JWalk (pend : Z -> Prop) (freerow : Z) (pred collist colsol0 : list Z)
    (b j : Z) (r c : list Z) : Prop := {
  k_j : 0 <= j < dim1;
  k_b : 0 <= b <= dim1;
  k_pred : at_ 0 pred j = freerow \/
           exists q', 0 <= q' < b /\ at_ 0 pred j = at_ 0 colsol0 (at_ 0 collist q');
  k_kept : forall q, 0 <= q < b ->
      at_ 0 c (at_ 0 collist q) = at_ 0 colsol0 (at_ 0 collist q) /\
      at_ 0 r (at_ 0 colsol0 (at_ 0 collist q)) = at_ 0 collist q;
  k_other : forall q, 0 <= q < b -> at_ 0 collist q <> j;
  k_len_row : Z.of_nat (length r) = dim0;
  k_len_col : Z.of_nat (length c) = dim1;
  k_row : forall i, 0 <= i < dim0 -> ~ pend i ->
      0 <= at_ 0 r i < dim1 /\ at_ 0 r i <> j /\ at_ 0 c (at_ 0 r i) = i;
  k_col : forall j', 0 <= j' < dim1 -> j' <> j ->
      at_ 0 c j' = -1 \/
      (0 <= at_ 0 c j' < dim0 /\ at_ 0 r (at_ 0 c j') = j' /\ ~ pend (at_ 0 c j'))
}.

End MatchTerms.

(** ** Arrays and loops *)

Section ArrayFacts.

Context {A : Type}.

Lemma length_set_nth (a : list A) (n : nat) (x : A) : length (set_nth a n x) = length a.
Proof.
  revert n; induction a as [|h t IH]; intros [|n]; simpl; auto.
Qed.

Lemma nth_set_nth_eq (a : list A) (n : nat) (x d : A) :
  (n < length a)%nat -> nth n (set_nth a n x) d = x.
Proof.
  revert n; induction a as [|h t IH]; intros [|n] Hn; simpl in *; try lia; auto.
  apply IH; lia.
Qed.

Lemma nth_set_nth_neq (a : list A) (n m : nat) (x d : A) :
  n <> m -> nth m (set_nth a n x) d = nth m a d.
Proof.
  revert n m; induction a as [|h t IH]; intros [|n] [|m] Hnm; simpl; auto; try lia.
Qed.

Lemma rd_nth (a : list A) (i : Z) (d : A) :
  0 <= i < Z.of_nat (length a) -> rd a i = Ret (nth (Z.to_nat i) a d).
Proof.
  intros Hi. unfold rd.
  destruct (i <? 0) eqn:E; [apply Z.ltb_lt in E; lia|].
  destruct (nth_error a (Z.to_nat i)) eqn:En.
  - now rewrite (nth_error_nth _ _ d En).
  - apply nth_error_None in En. lia.
Qed.

Lemma rd_inv (a : list A) (i : Z) (x : A) :
  rd a i = Ret x ->
  0 <= i < Z.of_nat (length a) /\ forall d, nth (Z.to_nat i) a d = x.
Proof.
  unfold rd. destruct (i <? 0) eqn:E; [discriminate|].
  apply Z.ltb_ge in E.
  destruct (nth_error a (Z.to_nat i)) eqn:En; [|discriminate].
  intros [= <-]. split.
  - assert (Z.to_nat i < length a)%nat by (apply nth_error_Some; congruence). lia.
  - intros d. now apply nth_error_nth.
Qed.

Lemma wr_set (a : list A) (i : Z) (x : A) :
  0 <= i < Z.of_nat (length a) -> wr a i x = Ret (set_nth a (Z.to_nat i) x).
Proof.
  intros Hi. unfold wr.
  destruct (i <? 0) eqn:E; [apply Z.ltb_lt in E; lia|].
  destruct (Nat.ltb (Z.to_nat i) (length a)) eqn:El; [reflexivity|].
  apply Nat.ltb_ge in El. lia.
Qed.

Lemma wr_inv (a a' : list A) (i : Z) (x : A) :
  wr a i x = Ret a' ->
  0 <= i < Z.of_nat (length a) /\ a' = set_nth a (Z.to_nat i) x.
Proof.
  unfold wr. destruct (i <? 0) eqn:E; [discriminate|].
  apply Z.ltb_ge in E.
  destruct (Nat.ltb (Z.to_nat i) (length a)) eqn:El; [|discriminate].
  apply Nat.ltb_lt in El. intros [= <-]. split; [lia|reflexivity].
Qed.

End ArrayFacts.

Lemma bind_Ret_inv {A B : Type} (m : outcome A) (k : A -> outcome B) (b : B) :
  bind m k = Ret b -> exists a, m = Ret a /\ k a = Ret b.
Proof.
  destruct m; simpl; intros E; try discriminate. eauto.
Qed.

(** A loop invariant for [for] loops that do not leave early. *)
Lemma for_do_seq_inv {S : Type} (P : nat -> S -> Prop) (body : Z -> S -> outcome S)
    (n a : nat) (s : S) :
  P a s ->
  (forall k s0, (a <= k < a + n)%nat -> P k s0 ->
                exists s', body (Z.of_nat k) s0 = Ret s' /\ P (Datatypes.S k) s') ->
  exists s', for_do (map Z.of_nat (seq a n)) body s = Ret s' /\ P (a + n)%nat s'.
Proof.
  revert a s. induction n as [|n IH]; intros a s Ha Hstep; simpl.
  - exists s. rewrite Nat.add_0_r. auto.
  - destruct (Hstep a s ltac:(lia) Ha) as (s1 & E1 & H1).
    rewrite E1. simpl.
    destruct (IH (Datatypes.S a) s1 H1) as (s2 & E2 & H2).
    + intros k s0 Hk. apply Hstep. lia.
    + exists s2. split; [exact E2|]. now replace (a + Datatypes.S n)%nat with (Datatypes.S a + n)%nat by lia.
Qed.

Lemma for_do_upto_inv {S : Type} (P : nat -> S -> Prop) (body : Z -> S -> outcome S)
    (n : Z) (s : S) :
  P O s ->
  (forall k s0, (k < Z.to_nat n)%nat -> P k s0 ->
                exists s', body (Z.of_nat k) s0 = Ret s' /\ P (Datatypes.S k) s') ->
  exists s', for_do (upto n) body s = Ret s' /\ P (Z.to_nat n) s'.
Proof.
  intros H0 Hstep. unfold upto.
  destruct (for_do_seq_inv P body (Z.to_nat n) 0 s H0) as (s' & E & HP).
  - intros k s0 Hk. apply Hstep. lia.
  - exists s'. auto.
Qed.

Lemma rd_app_mid {A : Type} (l1 l2 : list A) (x : A) :
  rd (l1 ++ x :: l2) (Z.of_nat (length l1)) = Ret x.
Proof.
  rewrite (rd_nth _ _ x).
  - rewrite Nat2Z.id, app_nth2, Nat.sub_diag by lia. reflexivity.
  - rewrite length_app. simpl. lia.
Qed.

Lemma set_nth_app_mid {A : Type} (l1 l2 : list A) (x y : A) :
  set_nth (l1 ++ x :: l2) (length l1) y = l1 ++ y :: l2.
Proof.
  induction l1 as [|h t IH]; simpl; [reflexivity|]. now rewrite IH.
Qed.

Lemma wr_app_mid {A : Type} (l1 l2 : list A) (x y : A) :
  wr (l1 ++ x :: l2) (Z.of_nat (length l1)) y = Ret (l1 ++ y :: l2).
Proof.
  rewrite wr_set.
  - now rewrite Nat2Z.id, set_nth_app_mid.
  - rewrite length_app. simpl. lia.
Qed.

Lemma upto_of_nat (n : nat) : upto (Z.of_nat n) = map Z.of_nat (seq 0 n).
Proof. unfold upto. now rewrite Nat2Z.id. Qed.

Lemma In_upto (n k : Z) : In k (upto n) <-> 0 <= k < n.
Proof.
  unfold upto. rewrite in_map_iff. split.
  - intros (m & <- & Hm). apply in_seq in Hm. lia.
  - intros Hk. exists (Z.to_nat k). split; [lia|]. apply in_seq. lia.
Qed.

Lemma length_upto (n : Z) : length (upto n) = Z.to_nat n.
Proof. unfold upto. now rewrite length_map, length_seq. Qed.

Lemma nth_map_upto {B : Type} (f : Z -> B) (n : Z) (p : nat) (d : B) :
  (p < Z.to_nat n)%nat -> nth p (map f (upto n)) d = f (Z.of_nat p).
Proof.
  intros Hp. unfold upto. rewrite map_map.
  rewrite (nth_indep _ d (f (Z.of_nat 0))) by now rewrite length_map, length_seq.
  rewrite (map_nth (fun k => f (Z.of_nat k)) (seq 0 (Z.to_nat n)) 0%nat p).
  now rewrite seq_nth.
Qed.

(** An in-place elementwise update, the shape of the negation loop. *)
Lemma for_do_map_in_place {A : Type} (g : A -> A) (l2 l1 : list A) :
  for_do (map Z.of_nat (seq (length l1) (length l2)))
         (fun i t => x <- rd t i ;; wr t i (g x)) (l1 ++ l2)
  = Ret (l1 ++ map g l2).
Proof.
  revert l1. induction l2 as [|x l2 IH]; intros l1; simpl; [reflexivity|].
  rewrite rd_app_mid. simpl. rewrite wr_app_mid. simpl.
  replace (l1 ++ g x :: l2) with ((l1 ++ [g x]) ++ l2) by now rewrite <- app_assoc.
  replace (Datatypes.S (length l1)) with (length (l1 ++ [g x]))
    by (rewrite length_app; simpl; lia).
  rewrite IH. now rewrite <- app_assoc.
Qed.

(** An elementwise copy from one array into another. *)
Lemma for_do_copy {A : Type} (s2 s1 t1 t2 : list A) :
  length s1 = length t1 -> length s2 = length t2 ->
  for_do (map Z.of_nat (seq (length t1) (length t2)))
         (fun i t => x <- rd (s1 ++ s2) i ;; wr t i x) (t1 ++ t2)
  = Ret (t1 ++ s2).
Proof.
  revert s1 t1 t2. induction s2 as [|x s2 IH]; intros s1 t1 [|y t2] H1 H2;
    simpl in H2; try discriminate; simpl; [reflexivity|].
  rewrite <- H1 at 1. rewrite rd_app_mid. simpl. rewrite wr_app_mid. simpl.
  replace (t1 ++ x :: t2) with ((t1 ++ [x]) ++ t2) by now rewrite <- app_assoc.
  replace (s1 ++ x :: s2) with ((s1 ++ [x]) ++ s2) by now rewrite <- app_assoc.
  replace (Datatypes.S (length t1)) with (length (t1 ++ [x]))
    by (rewrite length_app; simpl; lia).
  rewrite IH.
  - now rewrite <- app_assoc.
  - rewrite !length_app. simpl. lia.
  - lia.
Qed.

(** A scan that leaves at the first element satisfying [bad]. *)
Lemma for_each_find {A : Type} (bad : A -> bool) (l2 l1 : list A) :
  for_each (map Z.of_nat (seq (length l1) (length l2)))
           (fun i (_ : unit) =>
              x <- rd (l1 ++ l2) i ;;
              if bad x then Ret (Leave tt) else Ret (Next tt)) tt
  = Ret (if existsb bad l2 then Leave tt else Next tt).
Proof.
  revert l1. induction l2 as [|x l2 IH]; intros l1; simpl; [reflexivity|].
  rewrite rd_app_mid. simpl. destruct (bad x); simpl; [reflexivity|].
  replace (l1 ++ x :: l2) with ((l1 ++ [x]) ++ l2) by now rewrite <- app_assoc.
  replace (Datatypes.S (length l1)) with (length (l1 ++ [x]))
    by (rewrite length_app; simpl; lia).
  apply IH.
Qed.

(** A loop invariant for [for] loops whose body never leaves. *)
Lemma for_each_seq_inv {S R : Type} (P : nat -> S -> Prop)
    (body : Z -> S -> outcome (ctl S R)) (n a : nat) (s : S) :
  P a s ->
  (forall k s0, (a <= k < a + n)%nat -> P k s0 ->
                exists s', body (Z.of_nat k) s0 = Ret (Next s') /\ P (Datatypes.S k) s') ->
  exists s', for_each (map Z.of_nat (seq a n)) body s = Ret (Next s') /\ P (a + n)%nat s'.
Proof.
  revert a s. induction n as [|n IH]; intros a s Ha Hstep; simpl.
  - exists s. rewrite Nat.add_0_r. auto.
  - destruct (Hstep a s ltac:(lia) Ha) as (s1 & E1 & H1).
    rewrite E1. simpl.
    destruct (IH (Datatypes.S a) s1 H1) as (s2 & E2 & H2).
    + intros k s0 Hk. apply Hstep. lia.
    + exists s2. split; [exact E2|].
      now replace (a + Datatypes.S n)%nat with (Datatypes.S a + n)%nat by lia.
Qed.

Lemma nth_repeat_lt {A : Type} (x d : A) (len j : nat) :
  (j < len)%nat -> nth j (repeat x len) d = x.
Proof.
  revert j. induction len as [|len IH]; intros [|j] Hj; simpl; try lia; auto.
  apply IH. lia.
Qed.


(** What a loop that returned has established. *)
Lemma for_do_seq_post {S : Type} (P : nat -> S -> Prop) (body : Z -> S -> outcome S)
    (n a : nat) (s s' : S) :
  P a s ->
  (forall k s0 s1, (a <= k < a + n)%nat -> P k s0 -> body (Z.of_nat k) s0 = Ret s1 ->
                   P (Datatypes.S k) s1) ->
  for_do (map Z.of_nat (seq a n)) body s = Ret s' -> P (a + n)%nat s'.
Proof.
  revert a s. induction n as [|n IH]; intros a s Ha Hstep; simpl.
  - intros [= <-]. now rewrite Nat.add_0_r.
  - intros E. apply bind_Ret_inv in E as (s1 & E1 & E2).
    replace (a + Datatypes.S n)%nat with (Datatypes.S a + n)%nat by lia.
    apply (IH (Datatypes.S a) s1); auto.
    + apply (Hstep a s s1); auto. lia.
    + intros k s0 s2 Hk. apply Hstep. lia.
Qed.


(** ** The working copy of the Crouse solver *)

Section WorkingCopy.

Context {Cost : Type} `{CostType Cost}.

Lemma has_invalid_spec (m : list Cost) :
  Crouse.has_invalid (Z.of_nat (length m)) m = Ret (existsb invalid_entry m).
Proof.
  unfold Crouse.has_invalid. rewrite upto_of_nat.
  pose proof (for_each_find invalid_entry m []) as E. simpl in E.
  unfold invalid_entry in E at 1. rewrite E. simpl.
  now destruct (existsb invalid_entry m).
Qed.

Lemma transposed_length (nr nc : Z) (m : list Cost) :
  length (transposed nr nc m) = Z.to_nat (nr * nc).
Proof. unfold transposed. now rewrite length_map, length_upto. Qed.

Lemma transpose_index (nr nc i j : Z) :
  0 <= i < nr -> 0 <= j < nc ->
  (j * nr + i) mod nr = i /\ (j * nr + i) / nr = j /\ 0 <= j * nr + i < nr * nc.
Proof.
  intros Hi Hj. repeat split.
  - rewrite Z.add_comm, Z.mod_add by lia. apply Z.mod_small; lia.
  - rewrite Z.add_comm, Z.div_add by lia. rewrite Z.div_small; lia.
  - nia.
  - nia.
Qed.

Lemma transpose_into_spec (nr nc : Z) (m temp : list Cost) :
  0 < nr -> 0 < nc ->
  length m = Z.to_nat (nr * nc) -> length temp = Z.to_nat (nr * nc) ->
  Crouse.transpose_into nr nc m temp = Ret (transposed nr nc m).
Proof.
  intros Hnr Hnc Hm Ht. unfold Crouse.transpose_into.
  set (cell := fun (t : list Cost) (i j : Z) =>
                 nth (Z.to_nat (j * nr + i)) t c_zero = nth (Z.to_nat (i * nc + j)) m c_zero).
  destruct (for_do_upto_inv
              (fun i t => length t = Z.to_nat (nr * nc) /\
                          forall i' j', 0 <= i' < Z.of_nat i -> 0 <= j' < nc -> cell t i' j')
              (fun i temp0 =>
                 for_do (upto nc)
                   (fun j temp1 => x <- rd m (i * nc + j) ;; wr temp1 (j * nr + i) x) temp0)
              nr temp) as (t & Et & Hlen & Hcells).
  - split; [exact Ht|]. intros; lia.
  - intros i t0 Hi [Hl0 Hc0].
    destruct (for_do_upto_inv
                (fun j t => length t = Z.to_nat (nr * nc) /\
                            forall i' j', 0 <= j' < nc ->
                                          (0 <= i' < Z.of_nat i \/ (i' = Z.of_nat i /\ j' < Z.of_nat j)) ->
                                          cell t i' j')
                (fun j temp1 => x <- rd m (Z.of_nat i * nc + j) ;; wr temp1 (j * nr + Z.of_nat i) x)
                nc t0) as (t1 & Et1 & Hl1 & Hc1).
    + split; [exact Hl0|]. intros i' j' Hj' [Hi'|[_ Hlt]]; [now apply Hc0|lia].
    + intros j t1 Hj [Hl1 Hc1].
      assert (Hin : 0 <= Z.of_nat i * nc + Z.of_nat j < Z.of_nat (length m)) by (rewrite Hm; nia).
      rewrite (rd_nth _ _ c_zero Hin). simpl.
      destruct (transpose_index nr nc (Z.of_nat i) (Z.of_nat j)) as (_ & _ & Hpos); [lia|lia|].
      rewrite wr_set by (rewrite Hl1; lia).
      eexists; split; [reflexivity|]. split; [now rewrite length_set_nth|].
      intros i' j' Hj' Hcase. unfold cell.
      destruct (Z.eq_dec i' (Z.of_nat i)) as [->|Hne];
        [destruct (Z.eq_dec j' (Z.of_nat j)) as [->|Hne]|].
      * rewrite nth_set_nth_eq by (rewrite Hl1; lia). reflexivity.
      * rewrite nth_set_nth_neq by nia. apply Hc1; [lia|]. right. lia.
      * assert (0 <= i' < nr) by lia.
        rewrite nth_set_nth_neq.
        -- apply Hc1; [lia|]. left. lia.
        -- intros E. apply Z2Nat.inj in E; [|nia|nia].
           destruct (transpose_index nr nc i' j') as (M1 & _ & _); [lia|lia|].
           destruct (transpose_index nr nc (Z.of_nat i) (Z.of_nat j)) as (M2 & _ & _); [lia|lia|].
           rewrite <- E in M1. lia.
    + exists t1. split; [exact Et1|]. split; [exact Hl1|].
      intros i' j' Hi' Hj'. apply Hc1; [lia|].
      destruct (Z.eq_dec i' (Z.of_nat i)); [right|left]; lia.
  - rewrite Et. f_equal.
    apply (nth_ext _ _ c_zero c_zero); [now rewrite transposed_length|].
    intros p Hp. unfold transposed.
    rewrite nth_map_upto by lia.
    set (P := Z.of_nat p).
    assert (HP : 0 <= P < nr * nc) by lia.
    assert (Hmod : 0 <= P mod nr < nr) by (apply Z.mod_pos_bound; lia).
    assert (Hdiv : 0 <= P / nr < nc).
    { split; [apply Z.div_pos; lia|]. apply Z.div_lt_upper_bound; lia. }
    specialize (Hcells (P mod nr) (P / nr)). unfold cell in Hcells.
    replace (P / nr * nr + P mod nr) with P in Hcells
      by (rewrite (Z.div_mod P nr) at 1 by lia; lia).
    specialize (Hcells ltac:(lia) ltac:(lia)).
    subst P. rewrite Nat2Z.id in Hcells. exact Hcells.
Qed.

Lemma existsb_transposed (f : Cost -> bool) (nr nc : Z) (m : list Cost) :
  0 < nr -> 0 < nc -> length m = Z.to_nat (nr * nc) ->
  existsb f (transposed nr nc m) = existsb f m.
Proof.
  intros Hnr Hnc Hm. apply eq_iff_eq_true. rewrite !existsb_exists.
  split; intros (x & Hin & Hf); exists x; (split; [|exact Hf]).
  - unfold transposed in Hin. apply in_map_iff in Hin as (q & <- & Hq).
    apply In_upto in Hq. apply nth_In. rewrite Hm.
    assert (0 <= q mod nr < nr) by (apply Z.mod_pos_bound; lia).
    assert (0 <= q / nr < nc).
    { split; [apply Z.div_pos; lia|]. apply Z.div_lt_upper_bound; lia. }
    nia.
  - destruct (In_nth _ _ c_zero Hin) as (q & Hq & <-).
    set (Q := Z.of_nat q).
    assert (HQ : 0 <= Q < nr * nc) by lia.
    assert (Hj : 0 <= Q mod nc < nc) by (apply Z.mod_pos_bound; lia).
    assert (Hi : 0 <= Q / nc < nr).
    { split; [apply Z.div_pos; lia|]. apply Z.div_lt_upper_bound; lia. }
    destruct (transpose_index nr nc (Q / nc) (Q mod nc)) as (M1 & M2 & M3); [lia|lia|].
    unfold transposed. apply in_map_iff.
    exists (Q mod nc * nr + Q / nc). split; [|apply In_upto; lia].
    rewrite M1, M2. f_equal.
    rewrite (Z.mul_comm (Q / nc) nc), <- Z.div_mod by lia. subst Q. apply Nat2Z.id.
Qed.

Lemma transposed_map (g : Cost -> Cost) (nr nc : Z) (m : list Cost) :
  0 < nr -> 0 < nc -> length m = Z.to_nat (nr * nc) ->
  transposed nr nc (map g m) = map g (transposed nr nc m).
Proof.
  intros Hnr Hnc Hm. unfold transposed. rewrite map_map.
  apply map_ext_in. intros q Hq. apply In_upto in Hq.
  assert (0 <= q mod nr < nr) by (apply Z.mod_pos_bound; lia).
  assert (0 <= q / nr < nc).
  { split; [apply Z.div_pos; lia|]. apply Z.div_lt_upper_bound; lia. }
  rewrite (nth_indep _ c_zero (g c_zero)) by (rewrite length_map, Hm; nia).
  apply map_nth.
Qed.

Lemma working_copy_spec (nr nc : Z) (m : list Cost) (maximize : bool) :
  0 < nr -> 0 < nc -> length m = Z.to_nat (nr * nc) ->
  Crouse.working_copy nr nc m maximize
  = Ret (if nc <? nr then nc else nr, if nc <? nr then nr else nc,
         working_matrix nr nc m maximize).
Proof.
  intros Hnr Hnc Hm. unfold Crouse.working_copy, working_matrix.
  assert (Hneg : forall t : list Cost,
             for_do (upto (Z.of_nat (length t)))
                    (fun i temp => x <- rd temp i ;; wr temp i (c_opp x)) t
             = Ret (map c_opp t)).
  { intros t. rewrite upto_of_nat. apply (for_do_map_in_place c_opp t []). }
  destruct (nc <? nr) eqn:Et; simpl.
  - rewrite transpose_into_spec by (auto; now rewrite repeat_length). simpl.
    destruct maximize; [|reflexivity].
    replace (nc * nr) with (Z.of_nat (length (transposed nr nc m)))
      by (rewrite transposed_length; lia).
    now rewrite Hneg.
  - destruct maximize; [|reflexivity]. simpl.
    unfold Crouse.copy_into.
    pose proof (for_do_copy m [] [] (repeat c_zero (Z.to_nat (nr * nc))) eq_refl) as E.
    simpl in E. rewrite repeat_length in E. unfold upto. rewrite E by exact Hm. simpl.
    replace (nr * nc) with (Z.of_nat (length m)) by lia.
    fold (upto (Z.of_nat (length m))). now rewrite Hneg.
Qed.

Lemma working_matrix_length (nr nc : Z) (m : list Cost) (maximize : bool) :
  length m = Z.to_nat (nr * nc) ->
  length (working_matrix nr nc m maximize) = Z.to_nat (nr * nc).
Proof.
  intros Hm. unfold working_matrix.
  destruct maximize, (nc <? nr); rewrite ?length_map, ?transposed_length; auto.
Qed.

End WorkingCopy.

(** ** The Crouse solver: control flow of the entry *)

Section CrouseEntry.

Context {Cost : Type} `{CostType Cost}.
Variable K : IdxKind.

Lemma idx_of_int_0 : idx_of_int K 0 = 0.
Proof. now destruct K. Qed.

Lemma idx_of_int_status_neq (s : Z) : s = -1 \/ s = -2 -> idx_of_int K s <> idx_of_int K 0.
Proof. destruct K; intros [-> | ->]; vm_compute; discriminate. Qed.

Lemma case_dimensions (nr nc : Z) :
  (nr = 0 \/ nc = 0) \/ (nr <> 0 /\ nc <> 0 /\ (nr < 0 \/ nc < 0)) \/ (0 < nr /\ 0 < nc).
Proof. lia. Qed.

(** Unfolding of the solver on a well-formed non-empty matrix. *)
Lemma solve_unfold (fuel : nat) (nr nc : Z) (m : list Cost) (maximize : bool) (a b : list Z) :
  0 < nr -> 0 < nc -> length m = Z.to_nat (nr * nc) ->
  Crouse.solve_rectangular_linear_assignment K fuel nr nc m maximize a b
  = let nr' := if nc <? nr then nc else nr in
    let nc' := if nc <? nr then nr else nc in
    let w := working_matrix nr nc m maximize in
    if existsb invalid_entry w then Ret (idx_of_int K RECTANGULAR_LSAP_INVALID, a, b)
    else
      r <- for_each (upto nr') (Crouse.row_body K fuel nr' nc' w) (Crouse.initial_state K nr' nc') ;;
      match r with
      | Leave status => Ret (idx_of_int K status, a, b)
      | Next s =>
          '(a, b) <- Crouse.write_solution (nc <? nr) nr' (Crouse.st_col4row s) a b ;;
          Ret (idx_of_int K 0, a, b)
      end.
Proof.
  intros Hnr Hnc Hm. unfold Crouse.solve_rectangular_linear_assignment.
  destruct (nr =? 0) eqn:E1; [apply Z.eqb_eq in E1; lia|].
  destruct (nc =? 0) eqn:E2; [apply Z.eqb_eq in E2; lia|].
  destruct (nr <? 0) eqn:E3; [apply Z.ltb_lt in E3; lia|].
  destruct (nc <? 0) eqn:E4; [apply Z.ltb_lt in E4; lia|].
  cbn [orb]. rewrite working_copy_spec by assumption. cbn [bind].
  replace ((if nc <? nr then nc else nr) * (if nc <? nr then nr else nc))
    with (Z.of_nat (length (working_matrix nr nc m maximize))).
  - rewrite has_invalid_spec. reflexivity.
  - rewrite working_matrix_length by assumption. destruct (nc <? nr); lia.
Qed.

(** A row that cannot be matched leaves the main loop with Infeasible and
    with nothing else. *)
Lemma row_body_leave (fuel : nat) (nr nc : Z) (w : list Cost) (curRow : Z)
    (s : Crouse.solver_state) (status : Z) :
  Crouse.row_body K fuel nr nc w curRow s = Ret (Leave status) ->
  status = RECTANGULAR_LSAP_INFEASIBLE.
Proof.
  unfold Crouse.row_body. intros E.
  apply bind_Ret_inv in E as ([[sink minVal] ap] & _ & E).
  destruct (idx_is_neg K sink); [now inversion E|].
  do 5 (apply bind_Ret_inv in E as (? & _ & E)).
  apply bind_Ret_inv in E as ([row4col col4row] & _ & E).
  discriminate.
Qed.

Lemma for_each_leave {S R : Type} (Q : R -> Prop) (body : Z -> S -> outcome (ctl S R))
    (ks : list Z) (s : S) (r : R) :
  (forall k s0 r0, body k s0 = Ret (Leave r0) -> Q r0) ->
  for_each ks body s = Ret (Leave r) -> Q r.
Proof.
  intros Hb. revert s. induction ks as [|k ks IH]; intros s; simpl; [discriminate|].
  intros E. apply bind_Ret_inv in E as ([s1|r1] & E1 & E2).
  - eauto.
  - inversion E2; subst. eauto.
Qed.

End CrouseEntry.

(** C10: a call with [nr == 0] or [nc == 0] returns 0 (Ok) at once, whatever
    the value of [maximize] and whatever lies behind the cost pointer (nothing
    is read from it: no contents, not even an empty buffer, change the outcome),
    and the output buffers come back as they were passed. *)
Theorem crouse_trivial_dimensions {Cost : Type} `{CostType Cost} (K : IdxKind) (fuel : nat)
    (nr nc : Z) (costMatrix : list Cost) (maximize : bool) (a b : list Z) :
  nr = 0 \/ nc = 0 ->
  Crouse.solve_rectangular_linear_assignment K fuel nr nc costMatrix maximize a b
  = Ret (0, a, b).
Proof.
  intros Hz. unfold Crouse.solve_rectangular_linear_assignment.
  assert (E : (nr =? 0) || (nc =? 0) = true).
  { destruct Hz as [-> | ->]; [reflexivity|]. now rewrite orb_true_r. }
  rewrite E. now rewrite idx_of_int_0.
Qed.

Lemma crouse_trivial_dimensions_witness :
  solve_rlap 0 0 5 [nan; neg_infinity] true [7; 8] [9]
  = Ret (0, [7; 8], [9]).
Proof.
  apply (crouse_trivial_dimensions IdxInt 0 0 5 [nan; neg_infinity] true [7; 8] [9]).
  left. reflexivity.
Defined.

(** C8: whenever the Crouse solver returns Infeasible (-1) or Invalid (-2),
    the output buffers [a] and [b] hold on return exactly what they held on
    entry; they are written only on the path that returns 0. *)
Theorem crouse_failure_leaves_buffers {Cost : Type} `{CostType Cost} (K : IdxKind)
    (fuel : nat) (nr nc : Z) (costMatrix : list Cost) (maximize : bool)
    (a b : list Z) (status : Z) (a' b' : list Z) :
  Crouse.solve_rectangular_linear_assignment K fuel nr nc costMatrix maximize a b
  = Ret (status, a', b') ->
  status = idx_of_int K RECTANGULAR_LSAP_INFEASIBLE \/
  status = idx_of_int K RECTANGULAR_LSAP_INVALID ->
  a' = a /\ b' = b.
Proof.
  intros E Hst.
  assert (Hne : status <> idx_of_int K 0).
  { destruct Hst as [-> | ->]; apply idx_of_int_status_neq; auto. }
  unfold Crouse.solve_rectangular_linear_assignment in E.
  destruct ((nr =? 0) || (nc =? 0)); [inversion E; subst; tauto|].
  destruct ((nr <? 0) || (nc <? 0)); [discriminate|].
  apply bind_Ret_inv in E as ([[nr' nc'] w] & _ & E).
  apply bind_Ret_inv in E as (bad & _ & E).
  destruct bad; [inversion E; subst; tauto|].
  apply bind_Ret_inv in E as ([s|st] & _ & E).
  - apply bind_Ret_inv in E as ([a1 b1] & _ & E). inversion E; subst. tauto.
  - inversion E; subst. tauto.
Qed.

Lemma crouse_failure_leaves_buffers_witness :
  solve_rlap 5 2 2 [infinity; infinity; 1; 2]%float false [7; 8] [9; 10]
  = Ret (-1, [7; 8], [9; 10]) /\ ([7; 8] = [7; 8] /\ [9; 10] = [9; 10]).
Proof.
  split; [vm_compute; reflexivity|].
  apply (crouse_failure_leaves_buffers IdxInt 5 2 2 [infinity; infinity; 1; 2]%float false
                                       [7; 8] [9; 10] (-1) [7; 8] [9; 10]).
  - vm_compute. reflexivity.
  - left. reflexivity.
Defined.

(** C7: for every [nr] by [nc] matrix, the Crouse solver called with
    [maximize = true] returns the same status and the same assignment [(a, b)]
    as when called, with [maximize = false], on the matrix whose every entry
    has its sign flipped. *)
Theorem crouse_maximize_is_negate {Cost : Type} `{CostType Cost} (K : IdxKind) (fuel : nat)
    (nr nc : Z) (costMatrix : list Cost) (a b : list Z) :
  length costMatrix = Z.to_nat (nr * nc) ->
  Crouse.solve_rectangular_linear_assignment K fuel nr nc costMatrix true a b
  = Crouse.solve_rectangular_linear_assignment K fuel nr nc (map c_opp costMatrix) false a b.
Proof.
  intros Hm.
  destruct (case_dimensions nr nc) as [Hz | [(Hr & Hc & Hneg) | (Hr & Hc)]].
  - now rewrite !crouse_trivial_dimensions.
  - unfold Crouse.solve_rectangular_linear_assignment.
    destruct (nr =? 0) eqn:E1; [apply Z.eqb_eq in E1; lia|].
    destruct (nc =? 0) eqn:E2; [apply Z.eqb_eq in E2; lia|].
    replace ((nr <? 0) || (nc <? 0)) with true; [reflexivity|].
    symmetry. apply orb_true_iff. rewrite !Z.ltb_lt. exact Hneg.
  - rewrite !solve_unfold by (rewrite ?length_map; assumption).
    replace (working_matrix nr nc (map c_opp costMatrix) false)
      with (working_matrix nr nc costMatrix true); [reflexivity|].
    unfold working_matrix. destruct (nc <? nr); [|reflexivity].
    now rewrite transposed_map.
Qed.

Lemma crouse_maximize_is_negate_witness :
  solve_rlap 5 3 2 [4; 1; 3; 2; 0; 5]%float true [7; 7] [7; 7]
  = solve_rlap 5 3 2 (map c_opp [4; 1; 3; 2; 0; 5]%float) false [7; 7] [7; 7].
Proof.
  unfold solve_rlap.
  apply (crouse_maximize_is_negate IdxInt 5 3 2 [4; 1; 3; 2; 0; 5]%float [7; 7] [7; 7]).
  reflexivity.
Defined.

(** ** Facts on [double] *)

Section DoubleFacts.

Local Open Scope float_scope.

Lemma SFeqb_refl (s : spec_float) : s <> S754_nan -> SFeqb s s = true.
Proof.
  intros Hs. destruct s as [sg|sg| |sg m e]; try congruence; unfold SFeqb; simpl;
    try reflexivity; destruct sg;
    rewrite ?Z.compare_refl, ?Pos.compare_cont_refl; reflexivity.
Qed.

Lemma is_nan_spec (x : float) : is_nan x = true <-> Prim2SF x = S754_nan.
Proof.
  unfold is_nan. rewrite eqb_spec. split.
  - intros E. destruct (Prim2SF x) eqn:Ex; try reflexivity;
      rewrite SFeqb_refl in E by discriminate; discriminate.
  - intros ->. reflexivity.
Qed.

Lemma is_nan_opp (x : float) : is_nan (- x) = is_nan x.
Proof.
  apply eq_iff_eq_true. rewrite !is_nan_spec, opp_spec.
  destruct (Prim2SF x); simpl; split; congruence.
Qed.

Lemma opp_eqb_neg_infinity (x : float) : (- x =? neg_infinity) = (x =? infinity).
Proof.
  rewrite !eqb_spec, opp_spec.
  change (Prim2SF neg_infinity) with (S754_infinity true).
  change (Prim2SF infinity) with (S754_infinity false).
  destruct (Prim2SF x) as [sg|sg| |sg m e]; try reflexivity; now destruct sg.
Qed.

Lemma invalid_entry_double (x : float) : invalid_entry x = rejected_entry false x.
Proof. reflexivity. Qed.

Lemma invalid_entry_opp (x : float) : invalid_entry (c_opp x) = rejected_entry true x.
Proof.
  unfold invalid_entry, rejected_entry. simpl.
  change (negb (- x =? - x)) with (is_nan (- x)).
  rewrite is_nan_opp.
  change (- infinity) with neg_infinity.
  now rewrite opp_eqb_neg_infinity.
Qed.

Local Close Scope float_scope.

Lemma existsb_working_matrix (nr nc : Z) (m : list float) (maximize : bool) :
  0 < nr -> 0 < nc -> length m = Z.to_nat (nr * nc) ->
  existsb invalid_entry (working_matrix nr nc m maximize)
  = existsb (rejected_entry maximize) m.
Proof.
  intros Hnr Hnc Hm. unfold working_matrix.
  assert (Hmap : forall l : list float,
             existsb invalid_entry (map c_opp l) = existsb (rejected_entry true) l).
  { induction l as [|x l IH]; cbn [existsb map]; [reflexivity|].
    now rewrite IH, invalid_entry_opp. }
  destruct maximize; rewrite ?Hmap; destruct (nc <? nr);
    rewrite ?existsb_transposed by assumption; reflexivity.
Qed.

End DoubleFacts.

(** C3, as the code has it: on a non-empty matrix the Crouse solver returns
    Invalid (-2) exactly when some entry of its working matrix is NaN or
    -infinity.  The working matrix is the input, negated when [maximize] is
    set: so with [maximize = false] Invalid means a NaN or -infinity input
    entry, and with [maximize = true] it means a NaN or +infinity input entry.
    The answer is given before any row is matched: it does not depend on the
    loop budget and leaves the output buffers alone. *)
Theorem crouse_invalid_iff (fuel : nat) (nr nc : Z) (cost : list float) (maximize : bool)
    (rowsol colsol : list Z) :
  0 < nr -> 0 < nc -> length cost = Z.to_nat (nr * nc) ->
  (existsb (rejected_entry maximize) cost = true ->
   solve_rlap fuel nr nc cost maximize rowsol colsol
   = Ret (RECTANGULAR_LSAP_INVALID, rowsol, colsol)) /\
  (existsb (rejected_entry maximize) cost = false ->
   status_of (solve_rlap fuel nr nc cost maximize rowsol colsol)
   <> Some RECTANGULAR_LSAP_INVALID).
Proof.
  intros Hnr Hnc Hm. unfold solve_rlap. rewrite solve_unfold by assumption.
  cbv zeta. rewrite existsb_working_matrix by assumption.
  split; intros E; rewrite E; [reflexivity|].
  match goal with |- status_of (bind ?l _) <> _ => destruct l as [[s|st]| |] eqn:El end;
    simpl; try discriminate.
  - match goal with |- status_of (bind ?w _) <> _ => destruct w as [[a1 b1]| |] end;
      simpl; discriminate.
  - apply (for_each_leave (fun r => r = RECTANGULAR_LSAP_INFEASIBLE)) in El.
    + subst st. discriminate.
    + intros k s0 r0. apply row_body_leave.
Qed.

Lemma crouse_invalid_iff_witness :
  (existsb (rejected_entry true) [1; infinity]%float = true ->
   solve_rlap 0 1 2 [1; infinity]%float true [7] [7] = Ret (RECTANGULAR_LSAP_INVALID, [7], [7])) /\
  (existsb (rejected_entry true) [1; infinity]%float = false ->
   status_of (solve_rlap 0 1 2 [1; infinity]%float true [7] [7])
   <> Some RECTANGULAR_LSAP_INVALID).
Proof.
  apply (crouse_invalid_iff 0 1 2 [1; infinity]%float true [7] [7]); [lia|lia|reflexivity].
Defined.

(** C3 as stated fails with [maximize = true]: a matrix whose only special
    entry is +infinity is answered Invalid, and a matrix holding -infinity is
    not (it is answered Infeasible). *)
Lemma crouse_invalid_maximize_counterexample :
  existsb (rejected_entry false) [infinity] = false /\
  solve_rlap 5 1 1 [infinity] true [7] [7] = Ret (RECTANGULAR_LSAP_INVALID, [7], [7]) /\
  existsb (rejected_entry false) [neg_infinity] = true /\
  solve_rlap 5 1 1 [neg_infinity] true [7] [7] = Ret (RECTANGULAR_LSAP_INFEASIBLE, [7], [7]).
Proof. repeat split; vm_compute; reflexivity. Qed.

(** C4 at its example: on the matrix [[+inf, +inf], [1, 2]] the entry point
    over [int] returns Infeasible (-1), and the entry point over [size_t] does
    not: [sink < 0] is never true of a [size_t], so the run goes on to read
    [minVal], which was never stored, and [path[(size_t)-1]]. *)
Theorem crouse_infeasible_entry_points (fuel : nat) (rowsol colsol : list Z) :
  solve_rlap fuel 2 2 [infinity; infinity; 1; 2]%float false rowsol colsol
  = Ret (RECTANGULAR_LSAP_INFEASIBLE, rowsol, colsol) /\
  solve_rlap_size_t fuel 2 2 [infinity; infinity; 1; 2]%float false rowsol colsol = Fault.
Proof. split; vm_compute; reflexivity. Qed.

(** ** The worked example *)


(** ** Finite doubles *)

Section FiniteDoubles.

Local Open Scope float_scope.

Lemma is_finite_spec (x : float) : is_finite x = true -> SFfinite (Prim2SF x).
Proof.
  unfold is_finite, is_nan, is_infinity.
  rewrite !eqb_spec, abs_spec.
  change (Prim2SF infinity) with (S754_infinity false).
  destruct (Prim2SF x) as [sg|sg| |sg m e]; simpl; auto; try discriminate.
  destruct sg; discriminate.
Qed.

Lemma SFfinite_zero_add (s : spec_float) :
  SFfinite s -> SFfinite (SF64add (S754_zero false) s).
Proof. destruct s as [[|]|sg| |sg m e]; simpl; auto. Qed.

Lemma SFfinite_sub_zero (s : spec_float) :
  SFfinite s -> SFfinite (SF64sub s (S754_zero false)).
Proof. destruct s as [[|]|sg| |sg m e]; simpl; auto. Qed.

Lemma SFsub_diag (s : spec_float) : SFfinite s -> SF64sub s s = S754_zero false.
Proof.
  destruct s as [[|]|sg| |sg m e]; simpl; try tauto; intros _.
  unfold SF64sub, SFsub. rewrite Z.sub_diag. reflexivity.
Qed.

Lemma SFfinite_lt_infinity (s : spec_float) :
  SFfinite s -> SFltb s (S754_infinity false) = true.
Proof. destruct s as [sg|sg| |sg m e]; simpl; tauto. Qed.

Lemma SFfinite_neq_infinity (s : spec_float) (sg : bool) :
  SFfinite s -> SFeqb s (S754_infinity sg) = false.
Proof. destruct s as [sg'|sg'| |sg' m e], sg; simpl; tauto. Qed.

Lemma SFltb_irrefl (s : spec_float) : SFltb s s = false.
Proof.
  destruct s as [sg|sg| |sg m e]; unfold SFltb; simpl; try reflexivity; destruct sg;
    rewrite ?Z.compare_refl, ?Pos.compare_cont_refl; reflexivity.
Qed.

Lemma SFfinite_not_nan (s : spec_float) : SFfinite s -> s <> S754_nan.
Proof. destruct s; simpl; congruence || tauto. Qed.

Lemma first_reduced_finite (c : float) :
  is_finite c = true -> SFfinite (Prim2SF (first_reduced c)).
Proof.
  intros Hc. unfold first_reduced. rewrite !sub_spec, add_spec.
  change (Prim2SF 0) with (S754_zero false).
  now apply SFfinite_sub_zero, SFfinite_sub_zero, SFfinite_zero_add, is_finite_spec.
Qed.

Lemma finite_lt_infinity (x : float) : SFfinite (Prim2SF x) -> (x <? infinity) = true.
Proof. intros Hx. rewrite ltb_spec. now apply SFfinite_lt_infinity. Qed.

Lemma finite_ltb_irrefl (x : float) : (x <? x) = false.
Proof. rewrite ltb_spec. apply SFltb_irrefl. Qed.

Lemma finite_eqb_refl (x : float) : SFfinite (Prim2SF x) -> (x =? x) = true.
Proof. intros Hx. rewrite eqb_spec. now apply SFeqb_refl, SFfinite_not_nan. Qed.

Lemma finite_neq_infinity (x : float) : SFfinite (Prim2SF x) -> (x =? infinity) = false.
Proof.
  intros Hx. rewrite eqb_spec. change (Prim2SF infinity) with (S754_infinity false).
  now apply SFfinite_neq_infinity.
Qed.

Lemma finite_dual_step (x : float) : SFfinite (Prim2SF x) -> 0 - (x - x) = 0.
Proof.
  intros Hx. apply Prim2SF_inj. rewrite !sub_spec, SFsub_diag by assumption.
  reflexivity.
Qed.

Lemma finite_valid (x : float) : is_finite x = true -> invalid_entry x = false.
Proof.
  intros Hx. pose proof (is_finite_spec x Hx) as Hs.
  unfold invalid_entry. cbn [c_eqb c_opp c_inf double_cost].
  rewrite finite_eqb_refl by assumption.
  rewrite eqb_spec. change (Prim2SF (- infinity)) with (S754_infinity true).
  now rewrite SFfinite_neq_infinity.
Qed.

End FiniteDoubles.

(** ** The Crouse solver on constant matrices *)

Section ConstantMatrix.

Context {Cost : Type} `{CostType Cost}.
Variables (c r : Cost) (n : nat).

Hypothesis r_def : c_sub (c_sub (c_add c_zero c) c_zero) c_zero = r.
Hypothesis r_lt_inf : c_ltb r c_inf = true.
Hypothesis r_lt_r : c_ltb r r = false.
Hypothesis r_eq_r : c_eqb r r = true.
Hypothesis r_eq_inf : c_eqb r c_inf = false.
Hypothesis dual_step : c_sub c_zero (c_sub r r) = c_zero.

Local Abbreviation N := (Z.of_nat n).
Local Abbreviation cost := (repeat c (n * n)).

Lemma fill_remaining (rem : list Z) :
  length rem = n ->
  exists rem', for_do (upto N) (fun it rem => wr rem it (N - it - 1)) rem = Ret rem' /\
               length rem' = n /\
               forall it, (it < n)%nat -> nth it rem' 0 = N - Z.of_nat it - 1.
Proof.
  intros Hl.
  destruct (for_do_upto_inv
              (fun t rem' => length rem' = n /\
                             forall it, (it < t)%nat -> nth it rem' 0 = N - Z.of_nat it - 1)
              (fun it rem => wr rem it (N - it - 1)) N rem) as (rem' & E & Hl' & Hn).
  - split; [exact Hl|]. intros; lia.
  - intros t rem0 Ht [Hl0 Hn0]. rewrite Nat2Z.id in Ht.
    rewrite wr_set by lia. eexists; split; [reflexivity|].
    split; [now rewrite length_set_nth|].
    intros it Hit. rewrite Nat2Z.id.
    destruct (Nat.eq_dec it t) as [->|Hne].
    + now rewrite nth_set_nth_eq by lia.
    + rewrite nth_set_nth_neq by lia. apply Hn0. lia.
  - exists rem'. rewrite Nat2Z.id in Hn. auto.
Qed.

Lemma rd_cost (i j : Z) : 0 <= i < N -> 0 <= j < N -> rd cost (i * N + j) = Ret c.
Proof.
  intros Hi Hj. rewrite (rd_nth _ _ c) by (rewrite repeat_length; nia).
  now rewrite nth_repeat.
Qed.


Lemma scan_row (k : nat) (u v : list Cost) (row4col rem path : list Z) (spc0 : list Cost) :
  (k < n)%nat ->
  zero_from n k u -> zero_from n 0 v -> matched_below n k row4col ->
  length rem = n -> (forall it, (it < n)%nat -> nth it rem 0 = N - Z.of_nat it - 1) ->
  length path = n ->
  length spc0 = n -> (forall j, (j < n)%nat -> nth j spc0 c_zero = c_inf) ->
  exists path' spc',
    for_do (upto N) (Crouse.scan_body IdxInt N cost u v row4col rem (Z.of_nat k) c_zero)
           (path, spc0, c_inf, -1)
    = Ret (path', spc', r, N - 1 - Z.of_nat k) /\
    length path' = n /\ length spc' = n /\
    (forall j, (j < n)%nat -> nth j path' 0 = Z.of_nat k /\ nth j spc' c_zero = r).
Proof.
  intros Hk [Hlu Hu] [Hlv Hv] [Hlr Hr4] Hlrem Hrem Hlp Hls Hs0.
  destruct (for_do_upto_inv
              (fun t '(path', spc', lowest, index) =>
                 length path' = n /\ length spc' = n /\
                 (forall j, (n - t <= j < n)%nat ->
                            nth j path' 0 = Z.of_nat k /\ nth j spc' c_zero = r) /\
                 (forall j, (j < n - t)%nat -> nth j spc' c_zero = c_inf) /\
                 ((t = O /\ lowest = c_inf /\ index = -1) \/
                  (t <> O /\ lowest = r /\ index = Z.min (Z.of_nat t - 1) (N - 1 - Z.of_nat k))))
              (Crouse.scan_body IdxInt N cost u v row4col rem (Z.of_nat k) c_zero)
              N (path, spc0, c_inf, -1)) as ([[[path' spc'] lowest] index] & E & HP).
  - repeat split; auto; try (intros; lia). intros j Hj. apply Hs0. lia.
  - intros t [[[p s] lowest] index] Ht (Hlp' & Hls' & Hdone & Htodo & Hlow).
    rewrite Nat2Z.id in Ht.
    unfold Crouse.scan_body.
    rewrite (rd_nth _ _ 0) by lia. rewrite Nat2Z.id, Hrem by lia. cbn [bind].
    rewrite rd_cost by lia. cbn [bind].
    rewrite (rd_nth _ _ c_zero) by lia. rewrite Nat2Z.id, Hu by lia. cbn [bind].
    assert (Hj : Z.to_nat (Z.of_nat n - Z.of_nat t - 1) = (n - t - 1)%nat) by lia.
    rewrite (rd_nth _ _ c_zero) by lia. rewrite Hj, Hv by lia. cbn [bind].
    rewrite r_def.
    rewrite (rd_nth _ _ c_zero) by lia. rewrite Hj, Htodo by lia. cbn [bind].
    rewrite r_lt_inf.
    rewrite wr_set by lia. cbn [bind]. rewrite wr_set by lia. cbn [bind].
    rewrite (rd_nth _ _ c_zero) by (rewrite length_set_nth; lia).
    rewrite Hj, nth_set_nth_eq by lia. cbn [bind].
    assert (Hnew : forall lowest' index',
               (Datatypes.S t <> O /\ lowest' = r /\
                index' = Z.min (Z.of_nat (Datatypes.S t) - 1) (Z.of_nat n - 1 - Z.of_nat k)) ->
               exists s', Ret (set_nth p (n - t - 1) (Z.of_nat k), set_nth s (n - t - 1) r,
                               lowest', index') = Ret s' /\
                 (let '(path', spc', lowest, index) := s' in
                  length path' = n /\ length spc' = n /\
                  (forall j, (n - Datatypes.S t <= j < n)%nat ->
                             nth j path' 0 = Z.of_nat k /\ nth j spc' c_zero = r) /\
                  (forall j, (j < n - Datatypes.S t)%nat -> nth j spc' c_zero = c_inf) /\
                  ((Datatypes.S t = O /\ lowest = c_inf /\ index = -1) \/
                   (Datatypes.S t <> O /\ lowest = r /\
                    index = Z.min (Z.of_nat (Datatypes.S t) - 1) (Z.of_nat n - 1 - Z.of_nat k))))).
    { intros lowest' index' Hli. eexists; split; [reflexivity|].
      cbv beta iota. rewrite !length_set_nth. repeat split; auto.
      - destruct (Nat.eq_dec j (n - t - 1)) as [->|Hne].
        + now rewrite nth_set_nth_eq by lia.
        + rewrite nth_set_nth_neq by lia. apply Hdone. lia.
      - destruct (Nat.eq_dec j (n - t - 1)) as [->|Hne].
        + now rewrite nth_set_nth_eq by lia.
        + rewrite nth_set_nth_neq by lia. apply Hdone. lia.
      - intros j Hjlt. rewrite nth_set_nth_neq by lia. apply Htodo. lia. }
    destruct Hlow as [(-> & -> & ->) | (Htpos & -> & ->)].
    + rewrite r_lt_inf. cbn [bind]. apply Hnew. repeat split; lia.
    + rewrite r_lt_r, r_eq_r.
      rewrite (rd_nth _ _ 0) by lia. rewrite Hj, Hr4 by lia. cbn [bind].
      unfold Crouse.neg1, idx_of_int.
      destruct (n - t - 1 <? k)%nat eqn:Ejk.
      * apply Nat.ltb_lt in Ejk.
        destruct (Z.of_nat (n - t - 1) =? -1) eqn:E1; [apply Z.eqb_eq in E1; lia|].
        apply Hnew. repeat split; lia.
      * apply Nat.ltb_ge in Ejk. change (-1 =? -1) with true. cbv iota.
        apply Hnew. repeat split; lia.
  - rewrite Nat2Z.id in HP.
    destruct HP as (Hlp' & Hls' & Hdone & _ & Hlow).
    destruct Hlow as [(-> & _) | (_ & -> & ->)]; [lia|].
    exists path', spc'. split.
    + rewrite E, Z.min_r by lia. reflexivity.
    + repeat split; auto; apply Hdone; lia.
Qed.


Lemma ap_loop_unfold (K : IdxKind) (nc : Z) (m u v : list Cost) (row4col : list Z)
    (num : nat) (i : Z) (minVal : Cost) (a : Crouse.ap_arrays) :
  Crouse.ap_loop K nc m u v row4col num i minVal a
  = (st <- Crouse.ap_body K nc m u v row4col (Z.of_nat num) i minVal a ;;
     match st with
     | Crouse.ApInfeasible a' => Ret (Crouse.neg1 K, None, a')
     | Crouse.ApSink sink minVal' a' => Ret (sink, Some minVal', a')
     | Crouse.ApAgain i' minVal' a' =>
         match num with
         | O => Fault
         | Datatypes.S num' => Crouse.ap_loop K nc m u v row4col num' i' minVal' a'
         end
     end).
Proof. destruct num; reflexivity. Qed.

Lemma nth_all_false (l : list bool) (j : nat) : nth j (map (fun _ => false) l) false = false.
Proof.
  revert j. induction l as [|x l IH]; intros [|j]; simpl; auto.
Qed.

Lemma nth_all_inf (l : list Cost) (j : nat) :
  (j < length l)%nat -> nth j (map (fun _ => c_inf) l) c_zero = c_inf.
Proof.
  revert j. induction l as [|x l IH]; intros [|j] Hj; simpl in *; try lia; auto.
  apply IH. lia.
Qed.

Lemma augmenting_path_row (k : nat) (u v : list Cost) (path row4col rem : list Z)
    (spc : list Cost) (SR SC : list bool) :
  (k < n)%nat ->
  zero_from n k u -> zero_from n 0 v -> matched_below n k row4col ->
  length path = n -> length spc = n -> length SR = n -> length SC = n -> length rem = n ->
  exists a', Crouse.augmenting_path IdxInt N cost u v path row4col spc (Z.of_nat k) SR SC rem
             = Ret (Z.of_nat k, Some r, a') /\ searched r n k a'.
Proof.
  intros Hk Hu Hv Hr4 Hlp Hls Hlsr Hlsc Hlrem.
  unfold Crouse.augmenting_path.
  destruct (fill_remaining rem Hlrem) as (rem' & -> & Hlrem' & Hrem'). cbn [bind].
  rewrite ap_loop_unfold. unfold Crouse.ap_body. cbn [Crouse.ap_SR Crouse.ap_SC
    Crouse.ap_path Crouse.ap_spc Crouse.ap_remaining].
  rewrite wr_set by (rewrite length_map; lia). cbn [bind].
  rewrite !Nat2Z.id. change (Crouse.neg1 IdxInt) with (-1).
  destruct (scan_row k u v row4col rem' path (map (fun _ => c_inf) spc))
    as (path' & spc' & -> & Hlp' & Hls' & Hps); auto.
  { now rewrite length_map. }
  { intros j Hj. apply nth_all_inf. lia. }
  cbn [bind]. rewrite r_eq_inf.
  rewrite (rd_nth _ _ 0) by lia.
  replace (Z.to_nat (N - 1 - Z.of_nat k)) with (n - 1 - k)%nat by lia.
  rewrite Hrem' by lia.
  replace (N - Z.of_nat (n - 1 - k) - 1) with (Z.of_nat k) by lia. cbn [bind].
  destruct Hr4 as [Hlr Hr4].
  rewrite (rd_nth _ _ 0) by lia. rewrite Nat2Z.id, Hr4, Nat.ltb_irrefl by lia. cbn [bind].
  rewrite wr_set by (rewrite length_map; lia). cbn [bind].
  rewrite (rd_nth _ _ 0) by lia. cbn [bind].
  rewrite wr_set by lia. cbn [bind].
  change (-1 =? -1) with true. cbv iota.
  eexists; split; [reflexivity|].
  unfold searched; cbn [Crouse.ap_SR Crouse.ap_SC Crouse.ap_path Crouse.ap_spc
                         Crouse.ap_remaining].
  rewrite !length_set_nth, !length_map, !Nat2Z.id.
  repeat split; auto; try (intros j Hj; now apply Hps).
  - intros j Hj. destruct (Nat.eqb_spec j k) as [->|Hne].
    + now rewrite nth_set_nth_eq by (rewrite length_map; lia).
    + rewrite nth_set_nth_neq by lia. apply nth_all_false.
  - intros j Hj. destruct (Nat.eqb_spec j k) as [->|Hne].
    + now rewrite nth_set_nth_eq by (rewrite length_map; lia).
    + rewrite nth_set_nth_neq by lia. apply nth_all_false.
Qed.


Lemma matched_below_step (k : nat) (l : list Z) :
  (k < n)%nat -> matched_below n k l ->
  matched_below n (Datatypes.S k) (set_nth l k (Z.of_nat k)).
Proof.
  intros Hk [Hl Hn]. split; [now rewrite length_set_nth|].
  intros j Hj. destruct (Nat.eq_dec j k) as [->|Hne].
  - rewrite nth_set_nth_eq by lia.
    now replace (k <? Datatypes.S k)%nat with true by (symmetry; apply Nat.ltb_lt; lia).
  - rewrite nth_set_nth_neq by lia. rewrite Hn by lia.
    destruct (Nat.ltb_spec j k), (Nat.ltb_spec j (Datatypes.S k)); auto; lia.
Qed.

Lemma row_body_constant (fuel k : nat) (s : Crouse.solver_state) :
  (k < n)%nat -> rows_done n k s ->
  exists s', Crouse.row_body IdxInt (Datatypes.S fuel) N N cost (Z.of_nat k) s = Ret (Next s') /\
             rows_done n (Datatypes.S k) s'.
Proof.
  intros Hk (Hu & Hv & Hc4r & Hr4c & Hlp & Hls & Hlsr & Hlsc & Hlrem).
  unfold Crouse.row_body.
  destruct (augmenting_path_row k (Crouse.st_u s) (Crouse.st_v s)
              (Crouse.ap_path (Crouse.st_ap s)) (Crouse.st_row4col s)
              (Crouse.ap_remaining (Crouse.st_ap s)) (Crouse.ap_spc (Crouse.st_ap s))
              (Crouse.ap_SR (Crouse.st_ap s)) (Crouse.ap_SC (Crouse.st_ap s)))
    as (a' & -> & (Hp' & Hs' & Hsr' & Hsc' & Hlrem')); auto.
  cbn [bind]. cbn [idx_is_neg].
  destruct (Z.of_nat k <? 0) eqn:E0; [apply Z.ltb_lt in E0; lia|].
  cbn [bind].
  destruct Hu as [Hlu Hu]. destruct Hv as [Hlv Hv].
  destruct Hc4r as [Hlc Hc4r]. destruct Hr4c as [Hlr Hr4c].
  destruct Hp' as [Hlp' Hp']. destruct Hs' as [Hls' Hs'].
  destruct Hsr' as [Hlsr' Hsr']. destruct Hsc' as [Hlsc' Hsc'].
  rewrite (rd_nth _ _ c_zero) by lia. rewrite Nat2Z.id, Hu by lia. cbn [bind].
  rewrite wr_set by lia. cbn [bind]. rewrite Nat2Z.id.
  set (u1 := set_nth (Crouse.st_u s) k (c_add c_zero r)).
  (* the loop over the scanned rows changes nothing *)
  destruct (for_do_upto_inv (fun _ u' => u' = u1)
              (fun i u0 =>
                 sr <- rd (Crouse.ap_SR a') i ;;
                 if (sr : bool) && negb (i =? Z.of_nat k)
                 then c4r <- rd (Crouse.st_col4row s) i ;;
                      spc <- rd (Crouse.ap_spc a') c4r ;;
                      ui <- rd u0 i ;;
                      wr u0 i (c_add ui (c_sub r spc))
                 else Ret u0) N u1 eq_refl) as (u2 & -> & ->).
  { intros i u0 Hi ->. rewrite Nat2Z.id in Hi.
    rewrite (rd_nth _ _ false) by lia. rewrite Nat2Z.id, Hsr' by lia. cbn [bind].
    destruct (Nat.eqb_spec i k) as [->|Hne].
    - rewrite Z.eqb_refl. cbn. eauto.
    - cbn. eauto. }
  cbn [bind].
  (* the loop over the scanned columns rewrites v[k] with the zero it held *)
  destruct (for_do_upto_inv (fun _ v' => zero_from n 0 v')
              (fun j v0 =>
                 sc <- rd (Crouse.ap_SC a') j ;;
                 if sc : bool
                 then spc <- rd (Crouse.ap_spc a') j ;;
                      vj <- rd v0 j ;;
                      wr v0 j (c_sub vj (c_sub r spc))
                 else Ret v0) N (Crouse.st_v s)) as (v2 & -> & Hv2).
  { split; assumption. }
  { intros j v0 Hj [Hlv0 Hv0]. rewrite Nat2Z.id in Hj.
    rewrite (rd_nth _ _ false) by lia. rewrite Nat2Z.id, Hsc' by lia. cbn [bind].
    destruct (Nat.eqb_spec j k) as [->|Hne].
    - rewrite (rd_nth _ _ c_zero) by lia. rewrite Nat2Z.id, Hs' by lia. cbn [bind].
      rewrite (rd_nth _ _ c_zero) by lia. rewrite Nat2Z.id, Hv0 by lia. cbn [bind].
      rewrite dual_step, wr_set by lia. eexists; split; [reflexivity|].
      split; [now rewrite length_set_nth|].
      intros j Hj'. rewrite Nat2Z.id. destruct (Nat.eq_dec j k) as [->|Hne].
      + now rewrite nth_set_nth_eq by lia.
      + rewrite nth_set_nth_neq by lia. apply Hv0. lia.
    - eexists; split; [reflexivity|]. split; assumption. }
  cbn [bind].
  (* the augmentation is one step long *)
  cbn [Crouse.augment].
  rewrite (rd_nth _ _ 0) by lia. rewrite Nat2Z.id, Hp' by lia. cbn [bind].
  rewrite wr_set by lia. cbn [bind].
  rewrite (rd_nth _ _ 0) by lia. cbn [bind].
  rewrite wr_set by lia. cbn [bind].
  rewrite Z.eqb_refl. cbn [bind].
  eexists; split; [reflexivity|].
  unfold rows_done. cbn [Crouse.st_u Crouse.st_v Crouse.st_col4row Crouse.st_row4col
                        Crouse.st_ap].
  rewrite Nat2Z.id.
  repeat split; auto.
  - unfold u1. now rewrite length_set_nth.
  - intros j Hj. unfold u1. rewrite nth_set_nth_neq by lia. apply Hu. lia.
  - apply Hv2.
  - apply Hv2.
  - now rewrite length_set_nth.
  - apply matched_below_step; [lia|split; assumption].
  - now rewrite length_set_nth.
  - apply matched_below_step; [lia|split; assumption].
Qed.


Lemma initial_rows_done : rows_done n 0 (Crouse.initial_state IdxInt N N).
Proof.
  unfold rows_done, Crouse.initial_state, zero_from, matched_below.
  cbn [Crouse.st_u Crouse.st_v Crouse.st_col4row Crouse.st_row4col Crouse.st_ap
       Crouse.ap_path Crouse.ap_spc Crouse.ap_SR Crouse.ap_SC Crouse.ap_remaining].
  rewrite !repeat_length, !Nat2Z.id.
  repeat split; auto; intros j Hj; now rewrite nth_repeat_lt by lia.
Qed.

Lemma main_loop_constant (fuel : nat) :
  exists s, for_each (upto N) (Crouse.row_body IdxInt (Datatypes.S fuel) N N cost)
                     (Crouse.initial_state IdxInt N N) = Ret (Next s) /\
            rows_done n n s.
Proof.
  unfold upto. rewrite Nat2Z.id.
  destruct (for_each_seq_inv (rows_done n)
              (Crouse.row_body IdxInt (Datatypes.S fuel) N N cost) n 0
              (Crouse.initial_state IdxInt N N) initial_rows_done) as (s & E & Hs).
  - intros k s0 Hk. apply row_body_constant. lia.
  - exists s. auto.
Qed.

Lemma write_solution_identity (col4row a b : list Z) :
  matched_below n n col4row -> (n <= length a)%nat -> (n <= length b)%nat ->
  exists a' b', Crouse.write_solution false N col4row a b = Ret (a', b') /\
    length a' = length a /\ length b' = length b /\
    forall i, (if (i <? n)%nat then Z.of_nat i else nth i a 0) = nth i a' 0 /\
              (if (i <? n)%nat then Z.of_nat i else nth i b 0) = nth i b' 0.
Proof.
  intros [Hlc Hc] Ha Hb. unfold Crouse.write_solution.
  destruct (for_do_upto_inv
              (fun t '(a', b') =>
                 length a' = length a /\ length b' = length b /\
                 forall i, (if (i <? t)%nat then Z.of_nat i else nth i a 0) = nth i a' 0 /\
                           (if (i <? t)%nat then Z.of_nat i else nth i b 0) = nth i b' 0)
              (fun i '(a0, b0) =>
                 a1 <- wr a0 i i ;; c0 <- rd col4row i ;; b1 <- wr b0 i c0 ;; Ret (a1, b1))
              N (a, b)) as ([a' b'] & E & HP).
  - repeat split; auto.
  - intros t [a0 b0] Ht (Hla & Hlb & Hn). rewrite Nat2Z.id in Ht.
    rewrite wr_set by lia. cbn [bind].
    rewrite (rd_nth _ _ 0) by lia. rewrite Nat2Z.id, Hc by lia.
    replace (t <? n)%nat with true by (symmetry; apply Nat.ltb_lt; lia). cbn [bind].
    rewrite wr_set by lia. cbn [bind]. rewrite Nat2Z.id.
    eexists; split; [reflexivity|]. cbv beta iota. rewrite !length_set_nth.
    split; [assumption|]. split; [assumption|].
    intros i. destruct (Nat.eq_dec i t) as [->|Hne].
    + rewrite !nth_set_nth_eq by lia.
      now replace (t <? Datatypes.S t)%nat with true by (symmetry; apply Nat.ltb_lt; lia).
    + rewrite !nth_set_nth_neq by lia. specialize (Hn i).
      destruct (Nat.ltb_spec i t), (Nat.ltb_spec i (Datatypes.S t)); auto; lia.
  - exists a', b'. rewrite Nat2Z.id in HP. auto.
Qed.

Hypothesis c_valid : invalid_entry c = false.

Lemma constant_matrix_valid (len : nat) : existsb invalid_entry (repeat c len) = false.
Proof. induction len as [|len IH]; simpl; [reflexivity|]. now rewrite c_valid, IH. Qed.

Lemma crouse_constant (fuel : nat) (a b : list Z) :
  (1 <= n)%nat -> (n <= length a)%nat -> (n <= length b)%nat ->
  exists a' b',
    Crouse.solve_rectangular_linear_assignment IdxInt (Datatypes.S fuel) N N cost false a b
    = Ret (0, a', b') /\
    length a' = length a /\ length b' = length b /\
    forall i, (if (i <? n)%nat then Z.of_nat i else nth i a 0) = nth i a' 0 /\
              (if (i <? n)%nat then Z.of_nat i else nth i b 0) = nth i b' 0.
Proof.
  intros Hn Ha Hb.
  rewrite solve_unfold by (rewrite ?repeat_length; lia).
  rewrite Z.ltb_irrefl. cbv zeta. unfold working_matrix. rewrite Z.ltb_irrefl.
  rewrite constant_matrix_valid.
  destruct (main_loop_constant fuel) as (s & -> & Hs). cbn [bind].
  destruct Hs as (_ & _ & Hc4r & _).
  destruct (write_solution_identity (Crouse.st_col4row s) a b Hc4r Ha Hb)
    as (a' & b' & -> & Hres).
  cbn [bind]. exists a', b'. split; [reflexivity|exact Hres].
Qed.

End ConstantMatrix.

(** C6, the part that holds: for every [n >= 1] and every finite constant [c],
    the Crouse solver over [int] indices, minimizing, answers 0 on the [n] by
    [n] matrix whose entries all equal [c], with [a[i] = i] and
    [b[i] = i] for every [i < n]: the identity assignment.  One iteration of
    the augmentation loop per row is all the budget needed. *)
Theorem crouse_constant_identity (fuel n : nat) (c : float) (a b : list Z) :
  (1 <= n)%nat -> is_finite c = true -> (n <= length a)%nat -> (n <= length b)%nat ->
  exists a' b',
    solve_rlap (S fuel) (Z.of_nat n) (Z.of_nat n) (repeat c (n * n)) false a b
    = Ret (0, a', b') /\
    forall i, (i < n)%nat -> nth i a' 0 = Z.of_nat i /\ nth i b' 0 = Z.of_nat i.
Proof.
  intros Hn Hc Ha Hb.
  pose proof (first_reduced_finite c Hc) as Hr.
  destruct (@crouse_constant float double_cost c (first_reduced c) n eq_refl
              (finite_lt_infinity _ Hr) (finite_ltb_irrefl _) (finite_eqb_refl _ Hr)
              (finite_neq_infinity _ Hr) (finite_dual_step _ Hr) (finite_valid c Hc)
              fuel a b Hn Ha Hb) as (a' & b' & E & _ & _ & Hid).
  exists a', b'. split; [exact E|].
  intros i Hi. specialize (Hid i).
  replace (i <? n)%nat with true in Hid by (symmetry; apply Nat.ltb_lt; lia).
  destruct Hid as [<- <-]. auto.
Qed.

Lemma crouse_constant_identity_witness :
  exists a' b',
    solve_rlap 1 2 2 [1; 1; 1; 1]%float false [7; 7] [7; 7] = Ret (0, a', b') /\
    forall i, (i < 2)%nat -> nth i a' 0 = Z.of_nat i /\ nth i b' 0 = Z.of_nat i.
Proof.
  apply (crouse_constant_identity 0 2 1%float [7; 7] [7; 7]); [lia|reflexivity|simpl; lia|simpl; lia].
Defined.

(** C6 as stated fails for the Jonker-Volgenant solver: on the 4 by 4 matrix
    whose entries all equal 1, entered with [v] at zero, it assigns rows
    0, 1, 2, 3 to columns 0, 3, 1, 2. *)
Lemma jv_constant_not_identity :
  JV.rlap 10 4 4 (repeat 1%float 16) false [7; 7; 7; 7] [7; 7; 7; 7]
          (repeat 0%float 4) (repeat 0%float 4)
  = Ret (4%float, [0; 3; 1; 2], [0; 2; 3; 1], [1; 1; 1; 1]%float, [0; 0; 0; 0]%float).
Proof. vm_compute. reflexivity. Qed.

(** ** The Jonker-Volgenant solver: what the last loop computes *)

Section JVResult.

Context {Cost : Type} `{CostType Cost}.

Lemma optimal_cost_spec (dim0 dim1 : Z) (cost : list Cost) (rowsol : list Z)
    (v u u' : list Cost) (total : Cost) :
  JV.optimal_cost dim0 dim1 cost rowsol v u = Ret (u', total) ->
  total = rowsol_total dim0 dim1 cost rowsol /\
  forall i, 0 <= i < dim0 ->
            nth (Z.to_nat i) u' c_zero
            = c_sub (entry dim1 cost i (nth (Z.to_nat i) rowsol 0))
                    (nth (Z.to_nat (nth (Z.to_nat i) rowsol 0)) v c_zero).
Proof.
  unfold JV.optimal_cost, rowsol_total, upto. intros E.
  apply (for_do_seq_post
           (fun k '(u1, acc) =>
              acc = fold_left (fun acc i => c_add acc (entry dim1 cost i (nth (Z.to_nat i) rowsol 0)))
                              (map Z.of_nat (seq 0 k)) c_zero /\
              forall i, (i < k)%nat ->
                        nth i u1 c_zero
                        = c_sub (entry dim1 cost (Z.of_nat i) (nth i rowsol 0))
                                (nth (Z.to_nat (nth i rowsol 0)) v c_zero))) in E.
  - cbn [Nat.add] in E. destruct E as [-> Hu]. split; [reflexivity|].
    intros i Hi. specialize (Hu (Z.to_nat i) ltac:(lia)).
    now rewrite Z2Nat.id in Hu by lia.
  - split; [reflexivity|]. intros; lia.
  - intros k [u1 acc] [u2 acc2] Hk [-> Hu] Eb.
    apply bind_Ret_inv in Eb as (j & Ej & Eb).
    apply bind_Ret_inv in Eb as (cij & Ec & Eb).
    apply bind_Ret_inv in Eb as (vj & Ev & Eb).
    apply bind_Ret_inv in Eb as (u3 & Ew & Eb).
    inversion Eb; subst u3 acc2; clear Eb.
    apply rd_inv in Ej as [_ Ej]. apply rd_inv in Ec as [_ Ec]. apply rd_inv in Ev as [_ Ev].
    apply wr_inv in Ew as [Hb ->].
    rewrite Nat2Z.id in *.
    specialize (Ej 0). subst j. specialize (Ec c_zero). specialize (Ev c_zero).
    fold (entry dim1 cost (Z.of_nat k) (nth k rowsol 0)) in Ec. subst cij vj.
    split.
    + rewrite seq_S, map_app, fold_left_app. cbn [map fold_left Nat.add].
      now rewrite Nat2Z.id.
    + intros i Hi. destruct (Nat.eq_dec i k) as [->|Hne].
      * now rewrite nth_set_nth_eq by lia.
      * rewrite nth_set_nth_neq by lia. apply Hu. lia.
Qed.

Lemma rlap_result (fuel : nat) (dim0 dim1 : Z) (cost : list Cost) (verbose : bool)
    (rowsol colsol : list Z) (u v : list Cost)
    (total : Cost) (rowsol' colsol' : list Z) (u' v' : list Cost) :
  JV.rlap fuel dim0 dim1 cost verbose rowsol colsol u v
  = Ret (total, rowsol', colsol', u', v') ->
  JV.optimal_cost dim0 dim1 cost rowsol' v' u = Ret (u', total).
Proof.
  unfold JV.rlap. intros E.
  apply bind_Ret_inv in E as ([[free rs] numfree] & _ & E).
  apply bind_Ret_inv in E as (cs & _ & E).
  apply bind_Ret_inv in E as (s & _ & E).
  apply bind_Ret_inv in E as ([[[rs2 cs2] v2] w] & _ & E).
  apply bind_Ret_inv in E as ([u2 t2] & E1 & E).
  inversion E; subst. exact E1.
Qed.

End JVResult.


(** ** Exhaustive runs on small matrices *)

Lemma In_all_lists {A : Type} (vals : list A) (l : list A) :
  Forall (fun x => In x vals) l -> In l (all_lists vals (length l)).
Proof.
  induction 1 as [|x l Hx _ IH]; simpl; [now left|].
  apply in_flat_map. exists x. split; [exact Hx|]. now apply in_map.
Qed.

Lemma In_inserts {A : Type} (x : A) (l1 l2 : list A) : In (l1 ++ x :: l2) (inserts x (l1 ++ l2)).
Proof.
  induction l1 as [|y l1 IH]; simpl.
  - destruct l2; simpl; now left.
  - right. now apply in_map.
Qed.

Lemma In_permutations {A : Type} (l p : list A) : Permutation l p -> In p (permutations l).
Proof.
  revert p. induction l as [|x l IH]; intros p Hp; simpl.
  - apply Permutation_nil in Hp. subst. now left.
  - assert (Hin : In x p) by (apply (Permutation_in x Hp); now left).
    apply in_split in Hin as (p1 & p2 & ->).
    apply Permutation_cons_app_inv in Hp.
    apply in_flat_map. exists (p1 ++ p2). split; [now apply IH|apply In_inserts].
Qed.

Lemma small_matrix_cases (n : nat) (m : list float) (check : nat -> list float -> bool) :
  forallb (check 2%nat) (all_lists small_entries 4) = true ->
  forallb (check 3%nat) (all_lists small_entries 9) = true ->
  small_matrix n m -> check n m = true.
Proof.
  intros H2 H3 (Hn & Hl & Hm).
  apply In_all_lists in Hm. rewrite Hl in Hm.
  rewrite forallb_forall in H2, H3.
  destruct Hn as [-> | ->]; [now apply H2|now apply H3].
Qed.

Lemma small_totals_agree_2 : forallb (totals_agree 2) (all_lists small_entries 4) = true.
Proof. vm_compute. reflexivity. Qed.

Lemma small_totals_agree_3 : forallb (totals_agree 3) (all_lists small_entries 9) = true.
Proof. vm_compute. reflexivity. Qed.

Lemma small_duals_certify_2 : forallb (duals_certify 2) (all_lists small_entries 4) = true.
Proof. vm_compute. reflexivity. Qed.

Lemma small_duals_certify_3 : forallb (duals_certify 3) (all_lists small_entries 9) = true.
Proof. vm_compute. reflexivity. Qed.

Lemma small_rlap_minimises_2 : forallb (rlap_minimises 2) (all_lists small_entries 4) = true.
Proof. vm_compute. reflexivity. Qed.

Lemma small_rlap_minimises_3 : forallb (rlap_minimises 3) (all_lists small_entries 9) = true.
Proof. vm_compute. reflexivity. Qed.

Lemma inserts_sound {A : Type} (x : A) (l p : list A) :
  In p (inserts x l) -> Permutation (x :: l) p.
Proof.
  revert p. induction l as [|y l IH]; intros p; simpl.
  - intros [<- | []]. reflexivity.
  - intros [<- | Hin]; [reflexivity|].
    apply in_map_iff in Hin as (q & <- & Hq).
    rewrite perm_swap. constructor. now apply IH.
Qed.

Lemma permutations_sound {A : Type} (l p : list A) :
  In p (permutations l) -> Permutation l p.
Proof.
  revert p. induction l as [|x l IH]; intros p; simpl.
  - intros [<- | []]. reflexivity.
  - intros Hin. apply in_flat_map in Hin as (q & Hq & Hp).
    apply inserts_sound in Hp. rewrite <- Hp. constructor. now apply IH.
Qed.

Lemma totals_agree_inv (n : nat) (m : list float) :
  totals_agree n m = true ->
  exists t rowsol colsol u v a b,
    run_rlap n m = Ret (t, rowsol, colsol, u, v) /\
    run_solve_rlap n m = Ret (0, a, b) /\
    t = pairs_total (Z.of_nat n) m a b.
Proof.
  unfold totals_agree.
  destruct (run_rlap n m) as [[[[[t rs] cs] u] v]| |]; try discriminate.
  destruct (run_solve_rlap n m) as [[[st a] b]| |]; try discriminate.
  intros E. apply andb_prop in E as [E1 E2].
  apply Z.eqb_eq in E1. apply Leibniz.eqb_spec in E2. subst.
  now exists (pairs_total (Z.of_nat n) m a b), rs, cs, u, v, a, b.
Qed.

Lemma duals_certify_inv (n : nat) (m : list float) :
  duals_certify n m = true ->
  exists t rowsol colsol u v s,
    run_rlap n m = Ret (t, rowsol, colsol, u, v) /\
    dual_tight (Z.of_nat n) (Z.of_nat n) m u v rowsol = true /\
    dual_feasible (Z.of_nat n) (Z.of_nat n) m u v = true /\
    crouse_rows 20 (Z.of_nat n) (Z.of_nat n) m = Ret (Next s) /\
    dual_tight (Z.of_nat n) (Z.of_nat n) m (Crouse.st_u s) (Crouse.st_v s) (Crouse.st_col4row s)
    = true /\
    dual_feasible (Z.of_nat n) (Z.of_nat n) m (Crouse.st_u s) (Crouse.st_v s) = true.
Proof.
  unfold duals_certify. cbv zeta.
  destruct (run_rlap n m) as [[[[[t rs] cs] u] v]| |]; try discriminate.
  destruct (crouse_rows 20 (Z.of_nat n) (Z.of_nat n) m) as [[s|st]| |]; try discriminate.
  intros E. apply andb_prop in E as [E E4]. apply andb_prop in E as [E E3].
  apply andb_prop in E as [E1 E2].
  exists t, rs, cs, u, v, s. auto 10.
Qed.

Lemma rlap_minimises_inv (n : nat) (m : list float) :
  rlap_minimises n m = true ->
  exists t rowsol colsol u v,
    run_rlap n m = Ret (t, rowsol, colsol, u, v) /\
    Permutation (upto (Z.of_nat n)) rowsol /\
    forall p, Permutation (upto (Z.of_nat n)) p ->
              (t <=? rowsol_total (Z.of_nat n) (Z.of_nat n) m p)%float = true.
Proof.
  unfold rlap_minimises. cbv zeta.
  destruct (run_rlap n m) as [[[[[t rs] cs] u] v]| |]; try discriminate.
  intros E. apply andb_prop in E as [E1 E2].
  exists t, rs, cs, u, v. split; [reflexivity|]. split.
  - apply existsb_exists in E1 as (p & Hp & Heq).
    destruct (list_eq_dec Z.eq_dec p rs) as [<-|]; [|discriminate].
    now apply permutations_sound.
  - intros p Hp. rewrite forallb_forall in E2. apply E2. now apply In_permutations.
Qed.

(** ** The Crouse solver over exact costs *)

(** ** Arrays indexed by integers *)

Section AtFacts.
Context {A : Type}.

Lemma rd_at (d : A) (l : list A) (i : Z) (x : A) :
  rd l i = Ret x -> 0 <= i < Z.of_nat (length l) /\ at_ d l i = x.
Proof. intros E. apply rd_inv in E as [Hi Hx]. split; [exact Hi|apply Hx]. Qed.

Lemma at_set_eq (d : A) (l : list A) (i : Z) (x : A) :
  0 <= i < Z.of_nat (length l) -> at_ d (set_nth l (Z.to_nat i) x) i = x.
Proof. intros Hi. unfold at_. apply nth_set_nth_eq. lia. Qed.

Lemma at_set_neq (d : A) (l : list A) (i j : Z) (x : A) :
  0 <= i -> 0 <= j -> i <> j -> at_ d (set_nth l (Z.to_nat i) x) j = at_ d l j.
Proof. intros Hi Hj Hne. unfold at_. apply nth_set_nth_neq. lia. Qed.

Lemma wr_at (l l' : list A) (i : Z) (x : A) :
  wr l i x = Ret l' ->
  0 <= i < Z.of_nat (length l) /\ length l' = length l /\
  (forall d, at_ d l' i = x) /\
  (forall d j, 0 <= j -> j <> i -> at_ d l' j = at_ d l j).
Proof.
  intros E. apply wr_inv in E as [Hi ->]. split; [exact Hi|].
  split; [apply length_set_nth|]. split.
  - intros d. now apply at_set_eq.
  - intros d j Hj Hne. apply at_set_neq; lia.
Qed.

End AtFacts.

(** What a loop that returned [Next] or [Leave] has established. *)
Lemma for_each_seq_post {S R : Type} (P : nat -> S -> Prop) (Q : R -> Prop)
    (body : Z -> S -> outcome (ctl S R)) (n a : nat) (s : S) (res : ctl S R) :
  P a s ->
  (forall k s0 c, (a <= k < a + n)%nat -> P k s0 -> body (Z.of_nat k) s0 = Ret c ->
                  match c with Next s1 => P (Datatypes.S k) s1 | Leave r => Q r end) ->
  for_each (map Z.of_nat (seq a n)) body s = Ret res ->
  match res with Next s' => P (a + n)%nat s' | Leave r => Q r end.
Proof.
  revert a s. induction n as [|n IH]; intros a s Ha Hstep; simpl.
  - intros [= <-]. now rewrite Nat.add_0_r.
  - intros E. apply bind_Ret_inv in E as (c & E1 & E2).
    pose proof (Hstep a s c ltac:(lia) Ha E1) as Hc.
    destruct c as [s1|r].
    + replace (a + Datatypes.S n)%nat with (Datatypes.S a + n)%nat by lia.
      apply (IH (Datatypes.S a) s1); auto.
      intros k s0 c Hk. apply Hstep. lia.
    + inversion E2; subst. exact Hc.
Qed.

Lemma for_do_upto_post {S : Type} (P : Z -> S -> Prop) (body : Z -> S -> outcome S)
    (n : Z) (s s' : S) :
  0 <= n ->
  P 0 s ->
  (forall k s0 s1, 0 <= k < n -> P k s0 -> body k s0 = Ret s1 -> P (k + 1) s1) ->
  for_do (upto n) body s = Ret s' -> P n s'.
Proof.
  intros Hn H0 Hstep E. unfold upto in E.
  apply (for_do_seq_post (fun k s => P (Z.of_nat k) s)) in E.
  - cbn [Nat.add] in E. now rewrite Z2Nat.id in E by lia.
  - exact H0.
  - intros k s0 s1 Hk HP Eb. replace (Z.of_nat (Datatypes.S k)) with (Z.of_nat k + 1) by lia.
    apply (Hstep (Z.of_nat k) s0 s1); auto. lia.
Qed.

Lemma for_each_upto_post {S R : Type} (P : Z -> S -> Prop) (Q : R -> Prop)
    (body : Z -> S -> outcome (ctl S R)) (n : Z) (s : S) (res : ctl S R) :
  0 <= n ->
  P 0 s ->
  (forall k s0 c, 0 <= k < n -> P k s0 -> body k s0 = Ret c ->
                  match c with Next s1 => P (k + 1) s1 | Leave r => Q r end) ->
  for_each (upto n) body s = Ret res ->
  match res with Next s' => P n s' | Leave r => Q r end.
Proof.
  intros Hn H0 Hstep E. unfold upto in E.
  apply (for_each_seq_post (fun k s => P (Z.of_nat k) s) Q) in E.
  - destruct res; [|exact E]. cbn [Nat.add] in E. now rewrite Z2Nat.id in E by lia.
  - exact H0.
  - intros k s0 c Hk HP Eb.
    pose proof (Hstep (Z.of_nat k) s0 c ltac:(lia) HP Eb) as Hc.
    destruct c; [|exact Hc].
    now replace (Z.of_nat (Datatypes.S k)) with (Z.of_nat k + 1) by lia.
Qed.

Lemma valid_is_ext (a : xcost) : invalid_entry a = false -> is_ext a.
Proof.
  destruct a; unfold invalid_entry; simpl; try discriminate.
  - right. eauto.
  - now left.
Qed.

Lemma for_do_upto_total {S : Type} (P : Z -> S -> Prop) (body : Z -> S -> outcome S)
    (n : Z) (s : S) :
  0 <= n -> P 0 s ->
  (forall k s0, 0 <= k < n -> P k s0 -> exists s1, body k s0 = Ret s1 /\ P (k + 1) s1) ->
  exists s', for_do (upto n) body s = Ret s' /\ P n s'.
Proof.
  intros Hn H0 Hstep.
  destruct (for_do_upto_inv (fun k s => P (Z.of_nat k) s) body n s) as (s' & E & HP).
  - exact H0.
  - intros k s0 Hk HP. destruct (Hstep (Z.of_nat k) s0 ltac:(lia) HP) as (s1 & E1 & H1).
    exists s1. split; [exact E1|]. now replace (Z.of_nat (Datatypes.S k)) with (Z.of_nat k + 1) by lia.
  - exists s'. split; [exact E|]. now rewrite Z2Nat.id in HP by lia.
Qed.

Lemma rd_ok {A : Type} (d : A) (l : list A) (i : Z) :
  0 <= i < Z.of_nat (length l) -> rd l i = Ret (at_ d l i).
Proof. intros Hi. unfold at_. now apply rd_nth. Qed.

Lemma wr_ok {A : Type} (l : list A) (i : Z) (x : A) :
  0 <= i < Z.of_nat (length l) -> exists l', wr l i x = Ret l' /\ length l' = length l.
Proof.
  intros Hi. rewrite wr_set by exact Hi. eexists. split; [reflexivity|apply length_set_nth].
Qed.

Lemma for_each_seq_total {S R : Type} (P : nat -> S -> Prop) (Q : R -> Prop)
    (body : Z -> S -> outcome (ctl S R)) (n a : nat) (s : S) :
  P a s ->
  (forall k s0, (a <= k < a + n)%nat -> P k s0 ->
                exists c, body (Z.of_nat k) s0 = Ret c /\
                          match c with Next s1 => P (Datatypes.S k) s1 | Leave r => Q r end) ->
  exists res, for_each (map Z.of_nat (seq a n)) body s = Ret res /\
              match res with Next s' => P (a + n)%nat s' | Leave r => Q r end.
Proof.
  revert a s. induction n as [|n IH]; intros a s Ha Hstep; simpl.
  - exists (Next s). rewrite Nat.add_0_r. auto.
  - destruct (Hstep a s ltac:(lia) Ha) as (c & E & Hc). rewrite E. cbn [bind].
    destruct c as [s1|r].
    + destruct (IH (Datatypes.S a) s1 Hc) as (res & E' & Hres).
      * intros k s0 Hk. apply Hstep. lia.
      * exists res. split; [exact E'|].
        destruct res; [|exact Hres]. now replace (a + Datatypes.S n)%nat with (Datatypes.S a + n)%nat by lia.
    + exists (Leave r). auto.
Qed.

Lemma for_each_upto_total {S R : Type} (P : Z -> S -> Prop) (Q : R -> Prop)
    (body : Z -> S -> outcome (ctl S R)) (n : Z) (s : S) :
  0 <= n -> P 0 s ->
  (forall k s0, 0 <= k < n -> P k s0 ->
                exists c, body k s0 = Ret c /\
                          match c with Next s1 => P (k + 1) s1 | Leave r => Q r end) ->
  exists res, for_each (upto n) body s = Ret res /\
              match res with Next s' => P n s' | Leave r => Q r end.
Proof.
  intros Hn H0 Hstep. unfold upto.
  destruct (for_each_seq_total (fun k s => P (Z.of_nat k) s) Q body (Z.to_nat n) 0 s)
    as (res & E & Hres).
  - exact H0.
  - intros k s0 Hk HP. destruct (Hstep (Z.of_nat k) s0 ltac:(lia) HP) as (c & Ec & Hc).
    exists c. split; [exact Ec|]. destruct c; [|exact Hc].
    now replace (Z.of_nat (Datatypes.S k)) with (Z.of_nat k + 1) by lia.
  - exists res. split; [exact E|]. destruct res; [|exact Hres].
    cbn [Nat.add] in Hres. now rewrite Z2Nat.id in Hres by lia.
Qed.

Lemma NoDup_upto (n : Z) : NoDup (upto n).
Proof.
  unfold upto. generalize (seq_NoDup (Z.to_nat n) 0). generalize (seq 0 (Z.to_nat n)).
  induction l as [|x l IH]; intros Hnd; simpl; constructor; inversion Hnd; subst.
  - rewrite in_map_iff. intros (y & Hy & Hin). apply Nat2Z.inj in Hy. now subst.
  - now apply IH.
Qed.

Ltac inv_bind E :=
  let x := fresh "x" in
  let Ex := fresh "E" in
  apply bind_Ret_inv in E as (x & Ex & E).

Ltac inv_ret E := inversion E; subst; clear E.

(** Order facts on extended costs. *)
Lemma x_ltb_Fin (a b : Z) : x_ltb (Fin a) (Fin b) = (a <? b).
Proof. reflexivity. Qed.

Lemma x_ltb_irrefl (a : xcost) : x_ltb a a = false.
Proof. destruct a; simpl; auto. apply Z.ltb_irrefl. Qed.

Lemma x_eqb_eq (a b : xcost) : is_ext a -> x_eqb a b = true -> a = b.
Proof.
  intros [->|[z ->]]; destruct b; simpl; try discriminate; auto.
  intros E. apply Z.eqb_eq in E. now subst.
Qed.

Lemma x_ltb_trans_ge (a b l : xcost) :
  is_ext a -> is_ext b -> is_ext l ->
  x_ltb a l = false -> x_ltb b l = true -> x_ltb a b = false.
Proof.
  intros [->|[x ->]] [->|[y ->]] [->|[z ->]]; simpl; auto; try discriminate.
  rewrite !Z.ltb_ge, Z.ltb_lt. lia.
Qed.

Section Search.

Variables (nr nc : Z) (w u v : list xcost) (r4c : list Z).

Local Abbreviation W := (W nc w).
Local Abbreviation Uv := (Uv u).
Local Abbreviation Vv := (Vv v).
Local Abbreviation rcost := (rcost nc w u v).
Local Abbreviation live_ok := (live_ok nc).
Local Abbreviation scanned_col := (scanned_col nc w u v).
Local Abbreviation scan_inv := (scan_inv nc w u v).

Hypothesis Hw : forall i j, 0 <= i < nr -> 0 <= j < nc -> is_ext (W i j).
Hypothesis Hu : forall i, 0 <= i < nr -> is_fin (at_ (Fin 0) u i).
Hypothesis Hv : forall j, 0 <= j < nc -> is_fin (at_ (Fin 0) v j).

Lemma rcost_cases (mv i j : Z) :
  0 <= i < nr -> 0 <= j < nc ->
  (W i j = PInf /\ rcost mv i j = PInf) \/
  (exists c, W i j = Fin c /\ rcost mv i j = Fin (mv + c - Uv i - Vv j)).
Proof.
  intros Hi Hj. unfold rcost, Uv, Vv.
  destruct (Hu i Hi) as [a ->]. destruct (Hv j Hj) as [b ->].
  destruct (Hw i j Hi Hj) as [-> | [c ->]]; simpl; [left|right]; eauto.
Qed.

Lemma rcost_ext (mv i j : Z) : 0 <= i < nr -> 0 <= j < nc -> is_ext (rcost mv i j).
Proof.
  intros Hi Hj. destruct (rcost_cases mv i j Hi Hj) as [[_ ->] | (c & _ & ->)];
    [left|right]; eauto.
Qed.

Lemma scan_post (mv i nrem : Z) (rem path : list Z) (spc : list xcost)
    (s : list Z * list xcost * xcost * Z) :
  0 <= i < nr -> 0 <= nrem ->
  live_ok rem nrem ->
  (forall j, 0 <= j < nc -> is_ext (at_ (Fin 0) spc j)) ->
  for_do (upto nrem) (Crouse.scan_body IdxInt nc w u v r4c rem i (Fin mv))
         (path, spc, PInf, -1) = Ret s ->
  scan_inv mv i rem path spc nrem s.
Proof.
  intros Hi Hnrem [Hrange Hinj] Hspc E.
  apply (for_do_upto_post (scan_inv mv i rem path spc)) in E; auto.
  - (* initially *)
    cbv [scan_inv]. repeat split; auto; try (intros; lia); now left.
  - (* one column *)
    intros t [[[p s0] lowest] index] [[[p1 s1] lowest1] index1] Ht
           (Hlp & Hls & Hkeep & Hdone & Hlow & Hidx & Hmin) Eb.
    unfold Crouse.scan_body in Eb.
    inv_bind Eb. apply (rd_at 0) in E0 as [_ Ej]. subst x.
    set (j := at_ 0 rem t) in *.
    assert (Hj : 0 <= j < nc) by (apply Hrange; lia).
    assert (Hfresh : forall it, 0 <= it < t -> at_ 0 rem it <> j).
    { intros it Hit Heq. apply Hinj in Heq; lia. }
    inv_bind Eb. apply (rd_at (Fin 0)) in E0 as [_ Ec]. subst x.
    inv_bind Eb. apply (rd_at (Fin 0)) in E0 as [_ Eu]. subst x.
    inv_bind Eb. apply (rd_at (Fin 0)) in E0 as [_ Ev]. subst x.
    fold (W i j) in Eb.
    change (c_sub (c_sub (c_add (Fin mv) (W i j)) (at_ (Fin 0) u i)) (at_ (Fin 0) v j))
      with (rcost mv i j) in Eb.
    change (@c_ltb xcost exact_cost) with x_ltb in Eb.
    change (@c_eqb xcost exact_cost) with x_eqb in Eb.
    inv_bind Eb. apply (rd_at (Fin 0)) in E0 as [Hjb Eo]. subst x.
    destruct (Hkeep j Hj Hfresh) as [Hsj Hpj].
    inv_bind Eb. destruct x as [p2 s2].
    inv_bind Eb. apply (rd_at (Fin 0)) in E1 as [_ Esj]. subst x.
    inv_bind Eb.
    (* the update of column j *)
    assert (Hupd : length p2 = length path /\ length s2 = length spc /\
                   (forall j', 0 <= j' -> j' <> j ->
                               at_ (Fin 0) s2 j' = at_ (Fin 0) s0 j' /\ at_ 0 p2 j' = at_ 0 p j') /\
                   scanned_col mv i path p2 spc s2 j).
    { rewrite Hsj in E0.
      destruct (x_ltb (rcost mv i j) (at_ (Fin 0) spc j)) eqn:Elt.
      - inv_bind E0. inv_bind E0. inv_ret E0.
        apply wr_at in E2 as (_ & Hl2 & He2 & Hn2).
        apply wr_at in E3 as (_ & Hl3 & He3 & Hn3).
        repeat split; try congruence.
        + now apply Hn3.
        + now apply Hn2.
        + left. repeat split; auto.
      - inv_ret E0. repeat split; auto. right. repeat split; congruence. }
    destruct Hupd as (Hlp2 & Hls2 & Hothers & Hcol).
    assert (Hsext : is_ext (at_ (Fin 0) s2 j)).
    { destruct Hcol as [(_ & -> & _) | (_ & -> & _)]; [now apply rcost_ext|now apply Hspc]. }
    assert (Hkeep' : forall j', 0 <= j' < nc ->
                                (forall it, 0 <= it < t + 1 -> at_ 0 rem it <> j') ->
                                at_ (Fin 0) s2 j' = at_ (Fin 0) spc j' /\
                                at_ 0 p2 j' = at_ 0 path j').
    { intros j' Hj' Hf. assert (j' <> j) by (intros ->; apply (Hf t); [lia|reflexivity]).
      destruct (Hothers j' ltac:(lia) H) as [-> ->]. apply Hkeep; auto.
      intros it Hit. apply Hf. lia. }
    assert (Hdone' : forall it, 0 <= it < t + 1 ->
                                scanned_col mv i path p2 spc s2 (at_ 0 rem it)).
    { intros it Hit. destruct (Z.eq_dec it t) as [->|Hne]; [exact Hcol|].
      assert (Hit' : 0 <= it < t) by lia.
      assert (Hjj : at_ 0 rem it <> j) by now apply Hfresh.
      assert (Hr : 0 <= at_ 0 rem it < nc) by (apply Hrange; lia).
      destruct (Hothers (at_ 0 rem it) ltac:(lia) Hjj) as [Es Ep].
      unfold scanned_col. rewrite Es, Ep. now apply Hdone. }
    assert (Hsame : forall it, 0 <= it < t ->
                               at_ (Fin 0) s2 (at_ 0 rem it) = at_ (Fin 0) s0 (at_ 0 rem it)).
    { intros it Hit. assert (Hr : 0 <= at_ 0 rem it < nc) by (apply Hrange; lia).
      apply Hothers; [lia|now apply Hfresh]. }
    (* the minimum *)
    assert (Htake : forall b : bool,
               (b = true -> x_ltb (at_ (Fin 0) s2 j) lowest = true \/ at_ (Fin 0) s2 j = lowest) ->
               (b = false -> x_ltb (at_ (Fin 0) s2 j) lowest = false) ->
               (if b then Ret (p2, s2, at_ (Fin 0) s2 j, t) else Ret (p2, s2, lowest, index))
               = Ret (p1, s1, lowest1, index1) ->
               scan_inv mv i rem path spc (t + 1) (p1, s1, lowest1, index1)).
    { intros b Hb1 Hb0 Er. destruct b; injection Er as <- <- <- <-; cbv [scan_inv];
        refine (conj Hlp2 (conj Hls2 (conj Hkeep' (conj Hdone' (conj _ (conj _ _)))))); auto.
      - right. split; [lia|reflexivity].
      - intros it Hit. destruct (Z.eq_dec it t) as [->|Hne]; [apply x_ltb_irrefl|].
        rewrite Hsame by lia.
        destruct (Hb1 eq_refl) as [Hlt | Heq].
        + apply (x_ltb_trans_ge _ _ lowest); auto.
          * rewrite <- Hsame by lia.
            destruct (Hdone' it ltac:(lia)) as [(_ & -> & _) | (_ & -> & _)];
              [apply rcost_ext|apply Hspc]; auto; apply Hrange; lia.
          * apply Hmin. lia.
        + fold j. rewrite Heq. apply Hmin. lia.
      - destruct Hidx as [-> | [Hi1 Hi2]]; [now left|right]. split; [lia|].
        rewrite Hsame by lia. exact Hi2.
      - intros it Hit. destruct (Z.eq_dec it t) as [->|Hne]; [now apply Hb0|].
        rewrite Hsame by lia. apply Hmin. lia. }
    destruct (x_ltb (at_ (Fin 0) s2 j) lowest) eqn:Elt.
    + inv_ret E1. apply (Htake true); auto; discriminate.
    + destruct (x_eqb (at_ (Fin 0) s2 j) lowest) eqn:Eeq.
      * inv_bind E1. inv_ret E1. apply (Htake (at_ 0 r4c j =? Crouse.neg1 IdxInt)); auto.
        -- intros _. right. now apply x_eqb_eq.
        -- apply (rd_at 0) in E2 as [_ <-]. exact Eb.
      * inv_ret E1. apply (Htake false); auto; discriminate.
Qed.


Lemma live_remove (rem rem' : list Z) (nrem index : Z) :
  live_ok rem nrem -> 0 <= index < nrem -> nrem <= Z.of_nat (length rem) ->
  wr rem index (at_ 0 rem (nrem - 1)) = Ret rem' ->
  live_ok rem' (nrem - 1) /\
  length rem' = length rem /\
  forall j, live rem' (nrem - 1) j <-> (j <> at_ 0 rem index /\ live rem nrem j).
Proof.
  intros [Hrange Hinj] Hidx Hlen E.
  apply wr_at in E as (_ & Hl & Heq & Hneq).
  assert (Hat : forall it, 0 <= it < nrem - 1 ->
                           at_ 0 rem' it = if it =? index then at_ 0 rem (nrem - 1)
                                           else at_ 0 rem it).
  { intros it Hit. destruct (Z.eqb_spec it index) as [->|Hne]; [apply Heq|].
    apply Hneq; lia. }
  split; [split|split; [exact Hl|]].
  - intros it Hit. rewrite Hat by lia. destruct (it =? index); apply Hrange; lia.
  - intros it it' Hit Hit'. rewrite !Hat by lia.
    destruct (Z.eqb_spec it index) as [->|Hne], (Z.eqb_spec it' index) as [->|Hne'];
      auto; intros Heq'; apply Hinj in Heq'; lia.
  - intros j. split.
    + intros (it & Hit & <-). rewrite Hat by lia.
      destruct (Z.eqb_spec it index) as [->|Hne]; split.
      * intros Heq'. apply Hinj in Heq'; lia.
      * exists (nrem - 1). split; [lia|reflexivity].
      * intros Heq'. apply Hinj in Heq'; lia.
      * exists it. split; [lia|reflexivity].
    + intros [Hne (it & Hit & <-)].
      destruct (Z.eq_dec it (nrem - 1)) as [->|Hlast].
      * exists index. split.
        -- assert (index <> nrem - 1) by (intros ->; now apply Hne). lia.
        -- rewrite Hat, Z.eqb_refl; [reflexivity|].
           assert (index <> nrem - 1) by (intros ->; now apply Hne). lia.
      * exists it. split; [lia|]. rewrite Hat by lia.
        destruct (Z.eqb_spec it index) as [->|Hne']; [now contradiction Hne|reflexivity].
Qed.

End Search.

Section Progress.

Variables (nr nc : Z) (w u v : list xcost) (r4c : list Z).
Hypothesis Hlw : Z.of_nat (length w) = nr * nc.
Hypothesis Hlu : Z.of_nat (length u) = nr.
Hypothesis Hlv : Z.of_nat (length v) = nc.
Hypothesis Hlr : Z.of_nat (length r4c) = nc.

Lemma cell_in_range (i j : Z) : 0 <= i < nr -> 0 <= j < nc -> 0 <= i * nc + j < nr * nc.
Proof. intros Hi Hj. nia. Qed.

Lemma scan_progress (mv : xcost) (i nrem : Z) (rem path : list Z) (spc : list xcost)
    (lowest : xcost) (index : Z) :
  0 <= i < nr -> 0 <= nrem ->
  (forall it, 0 <= it < nrem -> 0 <= at_ 0 rem it < nc) ->
  nrem <= Z.of_nat (length rem) ->
  Z.of_nat (length path) = nc -> Z.of_nat (length spc) = nc ->
  exists s, for_do (upto nrem) (Crouse.scan_body IdxInt nc w u v r4c rem i mv)
                   (path, spc, lowest, index) = Ret s.
Proof.
  intros Hi Hnrem Hrange Hlrem Hlp Hls.
  destruct (for_do_upto_total
              (fun (_ : Z) (s : list Z * list xcost * xcost * Z) =>
                 let '(p, sp, _, _) := s in
                 Z.of_nat (length p) = nc /\ Z.of_nat (length sp) = nc)
              (Crouse.scan_body IdxInt nc w u v r4c rem i mv)
              nrem (path, spc, lowest, index)) as (s & E & _); auto.
  - intros k [[[p sp] lo] ix] Hk [Hp Hsp]. unfold Crouse.scan_body.
    pose proof (Hrange k Hk) as Hj.
    rewrite (rd_ok 0) by lia. cbn [bind].
    rewrite (rd_ok (Fin 0) w) by (rewrite Hlw; now apply cell_in_range). cbn [bind].
    rewrite (rd_ok (Fin 0) u) by lia. cbn [bind].
    rewrite (rd_ok (Fin 0) v) by lia. cbn [bind].
    rewrite (rd_ok (Fin 0) sp) by lia. cbn [bind].
    match goal with |- context [if ?b then _ else _] => destruct b end.
    + destruct (wr_ok p (at_ 0 rem k) i ltac:(lia)) as (p' & -> & Hp'). cbn [bind].
      match goal with |- context [wr sp ?j ?x] =>
        destruct (wr_ok sp j x ltac:(lia)) as (sp' & -> & Hsp') end. cbn [bind].
      rewrite (rd_ok (Fin 0) sp') by lia. cbn [bind].
      match goal with |- context [if ?b then _ else _] => destruct b end; cbn [bind].
      * eexists; split; [reflexivity|]. split; lia.
      * match goal with |- context [if ?b then _ else _] => destruct b end; cbn [bind].
        -- rewrite (rd_ok 0 r4c) by lia. cbn [bind].
           match goal with |- context [if ?b then _ else _] => destruct b end;
             (eexists; split; [reflexivity|]; split; lia).
        -- eexists; split; [reflexivity|]. split; lia.
    + cbn [bind]. rewrite (rd_ok (Fin 0) sp) by lia. cbn [bind].
      match goal with |- context [if ?b then _ else _] => destruct b end; cbn [bind].
      * eexists; split; [reflexivity|]. split; lia.
      * match goal with |- context [if ?b then _ else _] => destruct b end; cbn [bind].
        -- rewrite (rd_ok 0 r4c) by lia. cbn [bind].
           match goal with |- context [if ?b then _ else _] => destruct b end;
             (eexists; split; [reflexivity|]; split; lia).
        -- eexists; split; [reflexivity|]. split; lia.
  - eauto.
Qed.

End Progress.

Section SearchInv.

Variables (nr nc : Z) (w u v : list xcost) (r4c c4r : list Z) (cur : Z).

Hypothesis Hcur : 0 <= cur < nr.
Hypothesis Hw : forall i j, 0 <= i < nr -> 0 <= j < nc -> is_ext (W nc w i j).
Hypothesis Hu : forall i, 0 <= i < nr -> is_fin (at_ (Fin 0) u i).
Hypothesis Hv : forall j, 0 <= j < nc -> is_fin (at_ (Fin 0) v j).
Hypothesis Hm_r : forall j, 0 <= j < nc ->
  at_ 0 r4c j = -1 \/ (0 <= at_ 0 r4c j < cur /\ at_ 0 c4r (at_ 0 r4c j) = j).
Hypothesis Hm_c : forall i, 0 <= i < cur ->
  0 <= at_ 0 c4r i < nc /\ at_ 0 r4c (at_ 0 c4r i) = i.
Hypothesis Hfeas : forall i j c, 0 <= i < cur -> 0 <= j < nc ->
  W nc w i j = Fin c -> Uv u i + Vv v j <= c.

Hypothesis Len_w : Z.of_nat (length w) = nr * nc.
Hypothesis Len_u : Z.of_nat (length u) = nr.
Hypothesis Len_v : Z.of_nat (length v) = nc.
Hypothesis Len_r : Z.of_nat (length r4c) = nc.

Local Abbreviation Wc := (W nc w).
Local Abbreviation U := (Uv u).
Local Abbreviation V := (Vv v).
Local Abbreviation Dist := (Dist c4r cur).
Local Abbreviation core := (core nr nc w u v r4c c4r cur).
Local Abbreviation blocked := (blocked nr nc w r4c c4r cur).
Local Abbreviation head := (head nc r4c cur).

Lemma ext_not_lt (a : xcost) (lo : Z) :
  is_ext a -> x_ltb a (Fin lo) = false -> a = PInf \/ exists s, a = Fin s /\ lo <= s.
Proof.
  intros [->|[s ->]] E; [now left|right]. exists s. split; [reflexivity|].
  simpl in E. apply Z.ltb_ge in E. lia.
Qed.

Lemma head_row (i mv jlast t : Z) (a : @Crouse.ap_arrays xcost) :
  head i mv jlast t a -> 0 <= i < nr /\ (i = cur \/ 0 <= i < cur).
Proof. intros [(-> & _) | (_ & Hi & _)]; split; auto; lia. Qed.

(** One iteration of the search. *)
Lemma ap_body_step (nrem i mv jlast t : Z) (rank : Z -> Z) (a : @Crouse.ap_arrays xcost)
    (st : @Crouse.ap_step xcost) :
  core mv jlast t rank nrem a -> head i mv jlast t a ->
  Crouse.ap_body IdxInt nc w u v r4c nrem i (Fin mv) a = Ret st ->
  match st with
  | Crouse.ApInfeasible a' => blocked a'
  | Crouse.ApSink sink m a' =>
      exists lo rank', m = Fin lo /\ core lo sink (t + 1) rank' (nrem - 1) a' /\
                       0 <= sink < nc /\ SCof a' sink = true /\ spcof a' sink = Fin lo /\
                       at_ 0 r4c sink = -1
  | Crouse.ApAgain i' m a' =>
      exists lo rank' jl, m = Fin lo /\ core lo jl (t + 1) rank' (nrem - 1) a' /\
                          head i' lo jl (t + 1) a' /\ 0 < nrem
  end.
Proof.
  intros C Hh E.
  destruct (head_row _ _ _ _ _ Hh) as [Hi Hi'].
  destruct a as [path spc SR SC rem].
  destruct C as [Clp Cls Clsr Clsc Clrem Ccnt Clive Csl Cext P1 P2 P3 P4 P5 Pcur].
  unfold head in Hh.
  unfold SRof, SCof, spcof, pathof in *.
  cbn [Crouse.ap_path Crouse.ap_spc Crouse.ap_SR Crouse.ap_SC Crouse.ap_remaining] in *.
  unfold Crouse.ap_body in E.
  cbn [Crouse.ap_path Crouse.ap_spc Crouse.ap_SR Crouse.ap_SC Crouse.ap_remaining] in E.
  inv_bind E. rename x into SR'.
  apply wr_at in E0 as (_ & HlSR' & HSR'i & HSR'o).
  inv_bind E. destruct x as [[[path' spc'] lowest] index].
  apply (scan_post nr nc w u v r4c Hw Hu Hv) in E0; auto; try lia.
  destruct E0 as (Hlp' & Hls' & Hkeep & Hdone & Hlow & Hidx & Hmin).
  (* the columns after the scan *)
  assert (Hsc : forall j, 0 <= j < nc -> at_ false SC j = true ->
                          at_ (Fin 0) spc' j = at_ (Fin 0) spc j /\ at_ 0 path' j = at_ 0 path j).
  { intros j Hj Hscj. apply Hkeep; auto. intros it Hit Heq.
    assert (live rem nrem j) by (exists it; auto).
    apply Csl in H; auto. congruence. }
  assert (Hlv : forall j, 0 <= j < nc -> at_ false SC j = false ->
                          scanned_col nc w u v mv i path path' spc spc' j).
  { intros j Hj Hscj. apply Csl in Hscj as (it & Hit & <-); auto. }
  (* the distance of the rows *)
  assert (Hdist_i : Dist spc' i = mv).
  { unfold Dist. destruct Hh as [(-> & _ & ->) | (Ht & Hic & Hjl & Hr & Hscl & Hspl)].
    - now rewrite Z.eqb_refl.
    - destruct (Z.eqb_spec i cur); [lia|].
      destruct (Hm_r jlast Hjl) as [Hn | [_ Hc]]; [lia|].
      rewrite Hr in Hc. rewrite Hc.
      destruct (Hsc jlast Hjl Hscl) as [-> _]. now rewrite Hspl. }
  assert (Hdist : forall i', 0 <= i' < nr -> at_ false SR i' = true ->
                             Dist spc' i' = Dist spc i').
  { intros i' Hi1 Hsr. unfold Dist. destruct (Z.eqb_spec i' cur); [reflexivity|].
    destruct (P4 i' Hi1 Hsr) as [? | [Hic Hscc]]; [contradiction|].
    destruct (Hm_c i' Hic) as [Hc _]. now destruct (Hsc _ Hc Hscc) as [-> _]. }
  (* the candidates of row i *)
  assert (Hcand : forall j, 0 <= j < nc ->
            (Wc i j = PInf /\ rcost nc w u v mv i j = PInf) \/
            (exists c, Wc i j = Fin c /\ rcost nc w u v mv i j = Fin (mv + c - U i - V j) /\
                       (0 < t -> 0 <= c - U i - V j))).
  { intros j Hj. destruct (rcost_cases nr nc w u v Hw Hu Hv mv i j Hi Hj)
      as [? | (c & Hc & Hr)]; [now left|right].
    exists c. repeat split; auto. intros Ht.
    destruct Hh as [(_ & Ht0 & _) | (_ & Hic & _)]; [lia|].
    pose proof (Hfeas i j c Hic Hj Hc). lia. }
  assert (Hspc'ext : forall j, 0 <= j < nc -> is_ext (at_ (Fin 0) spc' j)).
  { intros j Hj. destruct (at_ false SC j) eqn:Hscj.
    - destruct (Hsc j Hj Hscj) as [-> _]. now apply Cext.
    - destruct (Hlv j Hj Hscj) as [(_ & -> & _) | (_ & -> & _)];
        [now apply (rcost_ext nr)|now apply Cext]. }
  assert (Hle : forall j s, 0 <= j < nc -> at_ (Fin 0) spc j = Fin s ->
                            exists s', at_ (Fin 0) spc' j = Fin s' /\ s' <= s).
  { intros j s Hj Hs. destruct (at_ false SC j) eqn:Hscj.
    - destruct (Hsc j Hj Hscj) as [-> _]. exists s. split; [exact Hs|lia].
    - destruct (Hlv j Hj Hscj) as [(Hlt & -> & _) | (_ & -> & _)].
      + rewrite Hs in Hlt.
        destruct (Hcand j Hj) as [[_ Hr] | (c & _ & Hr & _)]; rewrite Hr in *;
          [discriminate|].
        simpl in Hlt. apply Z.ltb_lt in Hlt. eexists; split; [reflexivity|lia].
      + exists s. split; [exact Hs|lia]. }
  assert (HSR' : forall i', 0 <= i' < nr ->
                            at_ false SR' i' = true <-> (i' = i \/ at_ false SR i' = true)).
  { intros i' Hi1. destruct (Z.eq_dec i' i) as [->|Hne].
    - rewrite HSR'i. tauto.
    - rewrite HSR'o by lia. split; [now right|]. now intros [?|?]. }
  assert (Hdist' : forall i', 0 <= i' < nr -> at_ false SR' i' = true ->
                              Dist spc' i' = if i' =? i then mv else Dist spc i').
  { intros i' Hi1 Hsr. destruct (Z.eqb_spec i' i) as [->|Hne]; [exact Hdist_i|].
    apply Hdist; auto. destruct (proj1 (HSR' i' Hi1) Hsr) as [? | ?]; [contradiction|assumption]. }
  assert (HP1' : forall i' j c, 0 <= i' < nr -> at_ false SR' i' = true -> 0 <= j < nc ->
             Wc i' j = Fin c ->
             exists s, at_ (Fin 0) spc' j = Fin s /\ s <= Dist spc' i' + c - U i' - V j).
  {
      intros i' j c Hi1 Hsr Hj Hc. rewrite Hdist' by auto.
      destruct (Z.eqb_spec i' i) as [->|Hne].
      + destruct (Hcand j Hj) as [[Hp _] | (c' & Hc' & Hr & Hge)]; [congruence|].
        assert (c' = c) by congruence. subst c'.
        destruct (at_ false SC j) eqn:Hscj.
        * destruct (Hsc j Hj Hscj) as [-> _].
          destruct (P3 j Hj Hscj) as ((s & Hs & Hsle) & Hrk & _).
          exists s. split; [exact Hs|]. assert (0 < t) by lia. specialize (Hge H). lia.
        * destruct (Hlv j Hj Hscj) as [(_ & -> & _) | (Hnlt & -> & _)].
          -- rewrite Hr. eexists; split; [reflexivity|lia].
          -- rewrite Hr in Hnlt. destruct (Cext j Hj) as [Hp | [s Hs]]; rewrite ?Hp, ?Hs in *;
               [discriminate|].
             simpl in Hnlt. apply Z.ltb_ge in Hnlt. exists s. split; [reflexivity|lia].
      + destruct (proj1 (HSR' i' Hi1) Hsr) as [? | Hsr0]; [contradiction|].
        destruct (P1 i' j c Hi1 Hsr0 Hj Hc) as (s & Hs & Hsle).
        destruct (Hle j s Hj Hs) as (s' & Hs' & Hle'). exists s'. split; [exact Hs'|lia]. }
  change (@c_eqb xcost exact_cost) with x_eqb in E.
  change (@c_inf xcost exact_cost) with PInf in E.
  destruct (x_eqb lowest PInf) eqn:Einf.
  { (* no column can be reached *)
    injection E as <-. apply x_eqb_eq in Einf; [|exact Hlow]. subst lowest.
    unfold blocked, SRof, SCof.
    cbn [Crouse.ap_path Crouse.ap_spc Crouse.ap_SR Crouse.ap_SC Crouse.ap_remaining].
    split; [lia|]. split; [|split; [|split]].
    - destruct Hh as [(-> & _) | (Ht & _)]; [apply HSR'i|].
      apply HSR'; [lia|]. right. now apply Pcur.
    - intros i' Hi1 Hsr. destruct (proj1 (HSR' i' Hi1) Hsr) as [-> | Hsr0].
      + destruct Hh as [(-> & _) | (_ & Hic & Hjl & Hr & Hscl & _)]; [now left|right].
        split; [exact Hic|]. destruct (Hm_r jlast Hjl) as [Hn | [_ Hc]]; [lia|].
        rewrite Hr in Hc. now rewrite Hc.
      + destruct (P4 i' Hi1 Hsr0) as [? | [Hic Hscc]]; [now left|right]. now split.
    - intros j Hj Hscj. destruct (P3 j Hj Hscj) as (_ & Hrk & Hrow).
      destruct Hrow as [-> | [Hr Hsr]].
      + destruct Hh as [(_ & Ht0 & _) | (_ & Hic & _ & Hr & _)]; [lia|].
        rewrite Hr. split; [exact Hic|]. apply HSR'; auto.
      + split; [exact Hr|]. apply HSR'; [lia|now right].
    - intros i' j Hi1 Hsr Hj Hscj.
      destruct (Hw i' j Hi1 Hj) as [? | [c Hc]]; [assumption|exfalso].
      destruct (HP1' i' j c Hi1 Hsr Hj Hc) as (s & Hs & _).
      apply Csl in Hscj as (it & Hit & <-); auto.
      specialize (Hmin it Hit). rewrite Hs in Hmin. discriminate. }
  destruct Hlow as [-> | [lo ->]]; [discriminate|].
  destruct Hidx as [Hx | [Hindex Hspcj]]; [discriminate|].
  inv_bind E. apply (rd_at 0) in E0 as [_ Ej]. subst x.
  set (js := at_ 0 rem index) in *.
  inv_bind E. apply (rd_at 0) in E0 as [_ Er4]. subst x.
  inv_bind E. rename x into SC'.
  apply wr_at in E0 as (_ & HlSC' & HSC'j & HSC'o).
  inv_bind E. apply (rd_at 0) in E0 as [_ El]. subst x.
  inv_bind E. rename x into rem'.
  destruct Clive as [Hrange Hinj].
  assert (Hjs : 0 <= js < nc) by (apply Hrange; lia).
  destruct (live_remove nc rem rem' nrem index (conj Hrange Hinj) Hindex ltac:(lia) E0)
    as (Hlive' & Hlrem' & Hlive_iff).
  assert (Hlivejs : live rem nrem js) by (exists index; split; [lia|reflexivity]).
  assert (HSCjs : at_ false SC js = false) by (apply Csl; auto).
  assert (Hlive_ge : 0 < t -> forall j, 0 <= j < nc -> at_ false SC j = false ->
                     at_ (Fin 0) spc' j = PInf \/
                     exists s, at_ (Fin 0) spc' j = Fin s /\ mv <= s).
  { intros Ht j Hj Hscj. destruct (Hlv j Hj Hscj) as [(_ & -> & _) | (_ & -> & _)].
    - destruct (Hcand j Hj) as [[_ ->] | (c & _ & -> & Hge)]; [now left|right].
      eexists; split; [reflexivity|]. specialize (Hge Ht). lia.
    - now apply P2. }
  assert (Hmono : 0 < t -> mv <= lo).
  { intros Ht. destruct (Hlive_ge Ht js Hjs HSCjs) as [Hp | (s & Hs & Hge)];
      rewrite Hspcj in *; [discriminate|]. now inversion Hs; subst. }
  (* the new arrays *)
  set (rank' := fun j => if j =? js then t else rank j).
  assert (HSC' : forall j, 0 <= j < nc ->
                           at_ false SC' j = true <-> (j = js \/ at_ false SC j = true)).
  { intros j Hj. destruct (Z.eq_dec j js) as [->|Hne].
    - rewrite HSC'j. tauto.
    - rewrite HSC'o by lia. split; [now right|]. now intros [?|?]. }
  assert (Hcore : core lo js (t + 1) rank' (nrem - 1)
                       (Crouse.mk_ap path' spc' SR' SC' rem')).
  { constructor; unfold SRof, SCof, spcof, pathof;
      cbn [Crouse.ap_path Crouse.ap_spc Crouse.ap_SR Crouse.ap_SC Crouse.ap_remaining];
      try lia; auto.
    - (* live columns are the unscanned ones *)
      intros j Hj. rewrite Hlive_iff. rewrite <- Csl by auto.
      destruct (Z.eq_dec j js) as [->|Hne].
      + rewrite HSC'j. split; [discriminate|]. now intros [? _].
      + rewrite HSC'o by lia. tauto.
    - (* P2 *)
      intros j Hj Hscj.
      assert (Hne : j <> js) by (intros ->; rewrite HSC'j in Hscj; discriminate).
      rewrite HSC'o in Hscj by lia.
      apply Csl in Hscj as (it & Hit & <-); auto.
      apply ext_not_lt; [apply Hspc'ext; apply Hrange; lia|]. now apply Hmin.
    - (* P3 *)
      intros j Hj Hscj. unfold rank'.
      destruct (Z.eqb_spec j js) as [->|Hne].
      + split; [exists lo; split; [exact Hspcj|lia]|]. split; [lia|now left].
      + rewrite HSC'o in Hscj by lia.
        destruct (P3 j Hj Hscj) as ((s & Hs & Hsle) & Hrk & Hrow).
        destruct (Hsc j Hj Hscj) as [-> _].
        split; [exists s; split; [exact Hs|]|].
        * assert (0 < t) by lia. specialize (Hmono H). lia.
        * split; [lia|]. right.
          destruct Hrow as [-> | [Hr Hsr]].
          -- destruct Hh as [(_ & Ht0 & _) | (_ & Hic & _ & Hr & _)]; [lia|].
             rewrite Hr. split; [exact Hic|]. apply HSR'; auto.
          -- split; [exact Hr|]. apply HSR'; [lia|now right].
    - (* P4 *)
      intros i' Hi1 Hsr. destruct (proj1 (HSR' i' Hi1) Hsr) as [-> | Hsr0].
      + destruct Hh as [(-> & _) | (_ & Hic & Hjl & Hr & Hscl & _)]; [now left|right].
        split; [exact Hic|]. destruct (Hm_r jlast Hjl) as [Hn | [_ Hc]]; [lia|].
        rewrite Hr in Hc. rewrite Hc. apply HSC'; auto.
      + destruct (P4 i' Hi1 Hsr0) as [? | [Hic Hscc]]; [now left|right].
        split; [exact Hic|]. apply HSC'; [now apply Hm_c|now right].
    - (* P5 *)
      intros j s Hj Hs.
      assert (Hcase : (at_ 0 path' j = i /\ at_ false SC j = false /\
                       exists c, Wc i j = Fin c /\ s = mv + c - U i - V j) \/
                      (at_ 0 path' j = at_ 0 path j /\ at_ (Fin 0) spc j = Fin s)).
      { destruct (at_ false SC j) eqn:Hscj.
        - right. destruct (Hsc j Hj Hscj) as [<- ->]. auto.
        - destruct (Hlv j Hj Hscj) as [(_ & Hr & Hp) | (_ & Hr & Hp)].
          + left. split; [exact Hp|]. split; [reflexivity|].
            rewrite Hr in Hs.
            destruct (Hcand j Hj) as [[_ Hp'] | (c & Hc & Hr' & _)]; rewrite ?Hp', ?Hr' in Hs;
              [discriminate|].
            exists c. split; [exact Hc|]. now inversion Hs.
          + right. split; [exact Hp|]. now rewrite <- Hr. }
      destruct Hcase as [(Hp & Hscj & c & Hc & Hsv) | (Hp & Hs0)]; rewrite Hp.
      + split; [exact Hi|]. split; [now rewrite HSR'i|]. split.
        * exists c. split; [exact Hc|]. rewrite Hdist_i. exact Hsv.
        * intros Hscj'. destruct (proj1 (HSC' j Hj) Hscj') as [-> | ?]; [|congruence].
          destruct Hh as [(-> & _) | (Ht & Hic & Hjl & Hr & Hscl & _)]; [now left|right].
          destruct (Hm_r jlast Hjl) as [Hn | [_ Hcc]]; [lia|].
          rewrite Hr in Hcc. rewrite Hcc. unfold rank'. rewrite Z.eqb_refl.
          destruct (Z.eqb_spec jlast js) as [Heq|_]; [congruence|].
          destruct (P3 jlast Hjl Hscl) as (_ & Hrk & _). lia.
      + destruct (P5 j s Hj Hs0) as (Hpr & Hsr & (c & Hc & Hsv) & Hrkc).
        split; [exact Hpr|]. split; [apply HSR'; [exact Hpr|now right]|]. split.
        * exists c. split; [exact Hc|]. rewrite Hdist by auto. exact Hsv.
        * intros Hscj'. unfold rank'.
          assert (Hold : at_ 0 path j = cur \/
                         (at_ false SC (at_ 0 c4r (at_ 0 path j)) = true /\
                          0 <= at_ 0 c4r (at_ 0 path j) < nc /\ at_ 0 path j < cur)).
          { destruct (P4 _ Hpr Hsr) as [? | [Hic Hscc]]; [now left|right].
            split; [exact Hscc|]. split; [now apply Hm_c|lia]. }
          destruct Hold as [? | (Hscc & Hcr & Hlt)]; [now left|right].
          destruct (Z.eqb_spec (at_ 0 c4r (at_ 0 path j)) js) as [Heq|_]; [congruence|].
          destruct (P3 _ Hcr Hscc) as (_ & Hrk & _).
          destruct (Z.eqb_spec j js) as [->|Hne]; [lia|].
          destruct (proj1 (HSC' j Hj) Hscj') as [? | Hscj0]; [contradiction|].
          destruct (Hrkc Hscj0) as [? | ?]; lia.
    - (* the row of the search *)
      intros _. destruct Hh as [(-> & _) | (Ht & _)]; [apply HSR'i|].
      apply HSR'; [lia|]. right. now apply Pcur. }
  change (Crouse.neg1 IdxInt) with (-1) in E.
  destruct (at_ 0 r4c js =? -1) eqn:Er4; injection E as <-.
  - apply Z.eqb_eq in Er4. exists lo, rank'.
    unfold SCof, spcof. cbn [Crouse.ap_SC Crouse.ap_spc].
    split; [reflexivity|]. split; [exact Hcore|]. split; [exact Hjs|].
    split; [apply HSC'j|]. split; [exact Hspcj|exact Er4].
  - apply Z.eqb_neq in Er4. exists lo, rank', js. split; [reflexivity|]. split; [exact Hcore|].
    split; [|lia]. right. destruct (Hm_r js Hjs) as [? | [Hr _]]; [contradiction|].
    unfold SCof, spcof. cbn [Crouse.ap_SC Crouse.ap_spc].
    split; [lia|]. split; [exact Hr|]. split; [exact Hjs|]. split; [reflexivity|].
    split; [apply HSC'j|exact Hspcj].
Qed.


(** The search loop. *)
Lemma ap_loop_post (n : nat) : forall (i mv jlast t : Z) (rank : Z -> Z)
    (a : @Crouse.ap_arrays xcost) (sink : Z) (om : option xcost) (a' : @Crouse.ap_arrays xcost),
  core mv jlast t rank (Z.of_nat n) a -> head i mv jlast t a ->
  Crouse.ap_loop IdxInt nc w u v r4c n i (Fin mv) a = Ret (sink, om, a') ->
  (sink = -1 /\ om = None /\ blocked a') \/
  (exists lo rank' t' nrem', om = Some (Fin lo) /\ 0 < t' /\ core lo sink t' rank' nrem' a' /\
                             0 <= sink < nc /\ SCof a' sink = true /\ spcof a' sink = Fin lo /\
                             at_ 0 r4c sink = -1).
Proof.
  induction n as [|n IH]; intros i mv jlast t rank a sink om a' C Hh E;
    cbn [Crouse.ap_loop] in E; inv_bind E;
    pose proof (ap_body_step _ _ _ _ _ _ _ _ C Hh E0) as Hst;
    destruct x as [a1 | s1 m1 a1 | i1 m1 a1].
  - injection E as <- <- <-. left. split; [reflexivity|]. split; [reflexivity|exact Hst].
  - injection E as <- <- <-. right.
    destruct Hst as (lo & rank' & -> & Hc & Hs & Hsc & Hsp & Hr).
    exists lo, rank', (t + 1), (Z.of_nat 0 - 1). pose proof (c_count _ _ _ _ _ _ _ _ _ _ _ _ _ _ C).
    repeat (split; [first [reflexivity | assumption | lia]|]). exact Hr.
  - discriminate.
  - injection E as <- <- <-. left. split; [reflexivity|]. split; [reflexivity|exact Hst].
  - injection E as <- <- <-. right.
    destruct Hst as (lo & rank' & -> & Hc & Hs & Hsc & Hsp & Hr).
    exists lo, rank', (t + 1), (Z.of_nat (S n) - 1). pose proof (c_count _ _ _ _ _ _ _ _ _ _ _ _ _ _ C).
    repeat (split; [first [reflexivity | assumption | lia]|]). exact Hr.
  - destruct Hst as (lo & rank' & jl & -> & Hc & Hh' & _).
    replace (Z.of_nat (S n) - 1) with (Z.of_nat n) in Hc by lia.
    exact (IH _ _ _ _ _ _ _ _ _ Hc Hh' E).
Qed.


Lemma at_map_const {A B : Type} (c : B) (l : list A) (i : Z) :
  at_ c (map (fun _ => c) l) i = c.
Proof.
  unfold at_. generalize (Z.to_nat i). induction l as [|x l IH]; intros [|k]; simpl; auto.
Qed.

Lemma fill_remaining_post (rem rem' : list Z) :
  Z.of_nat (length rem) = nc ->
  for_do (upto nc) (fun it rem => wr rem it (nc - it - 1)) rem = Ret rem' ->
  Z.of_nat (length rem') = nc /\ forall it, 0 <= it < nc -> at_ 0 rem' it = nc - it - 1.
Proof.
  intros Hl E.
  apply (for_do_upto_post
           (fun k r => Z.of_nat (length r) = nc /\
                       forall it, 0 <= it < k -> at_ 0 r it = nc - it - 1)) in E.
  - exact E.
  - lia.
  - split; [exact Hl|]. intros; lia.
  - intros k s0 s1 Hk [Hl0 H0] Eb. apply wr_at in Eb as (_ & Hl1 & He & Ho).
    split; [lia|]. intros it Hit. destruct (Z.eq_dec it k) as [->|Hne]; [apply He|].
    rewrite Ho by lia. apply H0. lia.
Qed.

(** The arrays as the search starts with them. *)
Lemma initial_core (path : list Z) (spc : list xcost) (SR SC : list bool) (rem1 : list Z) :
  Z.of_nat (length path) = nc -> Z.of_nat (length spc) = nc ->
  Z.of_nat (length SR) = nr -> Z.of_nat (length SC) = nc -> Z.of_nat (length rem1) = nc ->
  (forall it, 0 <= it < nc -> at_ 0 rem1 it = nc - it - 1) ->
  core 0 0 0 (fun _ => 0) (Z.of_nat (Z.to_nat nc))
       (Crouse.mk_ap path (map (fun _ => PInf) spc) (map (fun _ => false) SR)
                     (map (fun _ => false) SC) rem1).
Proof.
  intros Hlp Hls Hlsr Hlsc Hl1 Hrem1.
  assert (Hinf : forall j, 0 <= j < nc -> at_ (Fin 0) (map (fun _ : xcost => PInf) spc) j = PInf).
  { intros j Hj. unfold at_. rewrite (nth_indep _ (Fin 0) PInf) by (rewrite length_map; lia).
    apply (at_map_const PInf spc j). }
  constructor; unfold SRof, SCof, spcof, pathof;
    cbn [Crouse.ap_path Crouse.ap_spc Crouse.ap_SR Crouse.ap_SC Crouse.ap_remaining];
    rewrite ?length_map, ?Z2Nat.id by lia; try lia; auto.
  - split.
    + intros it Hit. rewrite Hrem1 by lia. lia.
    + intros it it' Hit Hit'. rewrite !Hrem1 by lia. lia.
  - intros j Hj. rewrite at_map_const. split; [intros _|reflexivity].
    exists (nc - j - 1). split; [lia|]. rewrite Hrem1 by lia. lia.
  - intros j Hj. left. now apply Hinf.
  - intros i' j c _ Hsr. rewrite at_map_const in Hsr. discriminate.
  - intros j _ Hsc. rewrite at_map_const in Hsc. discriminate.
  - intros i' _ Hsr. rewrite at_map_const in Hsr. discriminate.
  - intros j s Hj Hs. rewrite Hinf in Hs by exact Hj. discriminate.
Qed.

(** The whole search from row [cur]. *)
Lemma augmenting_path_post (path : list Z) (spc : list xcost) (SR SC : list bool)
    (rem : list Z) (sink : Z) (om : option xcost) (a' : @Crouse.ap_arrays xcost) :
  Z.of_nat (length path) = nc -> Z.of_nat (length spc) = nc ->
  Z.of_nat (length SR) = nr -> Z.of_nat (length SC) = nc -> Z.of_nat (length rem) = nc ->
  Crouse.augmenting_path IdxInt nc w u v path r4c spc cur SR SC rem = Ret (sink, om, a') ->
  (sink = -1 /\ om = None /\ blocked a') \/
  (exists lo rank' t' nrem', om = Some (Fin lo) /\ 0 < t' /\ core lo sink t' rank' nrem' a' /\
                             0 <= sink < nc /\ SCof a' sink = true /\ spcof a' sink = Fin lo /\
                             at_ 0 r4c sink = -1).
Proof.
  intros Hlp Hls Hlsr Hlsc Hlrem E. unfold Crouse.augmenting_path in E.
  inv_bind E. rename x into rem1.
  apply fill_remaining_post in E0 as [Hl1 Hrem1]; [|exact Hlrem].
  change (@c_zero xcost exact_cost) with (Fin 0) in E.
  change (@c_inf xcost exact_cost) with PInf in E.
  apply (ap_loop_post _ cur 0 0 0 (fun _ => 0)) in E; [exact E| |left; auto].
  now apply initial_core.
Qed.

(** The search does not fault. *)
Lemma ap_body_progress (nrem i mv jlast t : Z) (rank : Z -> Z) (a : @Crouse.ap_arrays xcost) :
  core mv jlast t rank nrem a -> head i mv jlast t a ->
  exists st, Crouse.ap_body IdxInt nc w u v r4c nrem i (Fin mv) a = Ret st.
Proof.
  intros C Hh.
  destruct (head_row _ _ _ _ _ Hh) as [Hi _].
  destruct a as [path spc SR SC rem].
  destruct C as [Clp Cls Clsr Clsc Clrem Ccnt [Hrange Hinj] Csl Cext _ _ _ _ _ _].
  unfold SRof, SCof, spcof, pathof in *.
  cbn [Crouse.ap_path Crouse.ap_spc Crouse.ap_SR Crouse.ap_SC Crouse.ap_remaining] in *.
  unfold Crouse.ap_body.
  cbn [Crouse.ap_path Crouse.ap_spc Crouse.ap_SR Crouse.ap_SC Crouse.ap_remaining].
  destruct (wr_ok SR i true ltac:(lia)) as (SR' & -> & _). cbn [bind].
  change (@c_inf xcost exact_cost) with PInf. change (Crouse.neg1 IdxInt) with (-1).
  destruct (scan_progress nr nc w u v r4c Len_w Len_u Len_v Len_r (Fin mv) i nrem rem path spc PInf (-1))
    as [[[[p' s'] lowest] index] E]; try lia; auto.
  rewrite E. cbn [bind].
  apply (scan_post nr nc w u v r4c Hw Hu Hv) in E; auto; try lia; [|split; auto].
  destruct E as (Hlp' & Hls' & _ & _ & _ & Hidx & _).
  change (@c_eqb xcost exact_cost) with x_eqb.
  destruct (x_eqb lowest PInf) eqn:Einf; [eexists; reflexivity|].
  destruct Hidx as [-> | [Hindex _]]; [discriminate|].
  pose proof (Hrange index Hindex) as Hj.
  rewrite (rd_ok 0 rem) by lia. cbn [bind].
  rewrite (rd_ok 0 r4c) by lia. cbn [bind].
  destruct (wr_ok SC (at_ 0 rem index) true ltac:(lia)) as (SC' & -> & _). cbn [bind].
  rewrite (rd_ok 0 rem) by lia. cbn [bind].
  destruct (wr_ok rem index (at_ 0 rem (nrem - 1)) ltac:(lia)) as (rem' & -> & _). cbn [bind].
  destruct (_ =? _); eexists; reflexivity.
Qed.

Lemma ap_loop_total (n : nat) : forall (i mv jlast t : Z) (rank : Z -> Z)
    (a : @Crouse.ap_arrays xcost),
  core mv jlast t rank (Z.of_nat n) a -> head i mv jlast t a ->
  exists res, Crouse.ap_loop IdxInt nc w u v r4c n i (Fin mv) a = Ret res.
Proof.
  induction n as [|n IH]; intros i mv jlast t rank a C Hh;
    cbn [Crouse.ap_loop];
    destruct (ap_body_progress _ _ _ _ _ _ _ C Hh) as [st E];
    pose proof (ap_body_step _ _ _ _ _ _ _ _ C Hh E) as Hst;
    rewrite E; cbn [bind]; destruct st as [a1 | s1 m1 a1 | i1 m1 a1];
    try (eexists; reflexivity).
  - destruct Hst as (lo & rank' & jl & _ & _ & _ & Hpos). simpl in Hpos. lia.
  - destruct Hst as (lo & rank' & jl & -> & Hc & Hh' & _).
    replace (Z.of_nat (S n) - 1) with (Z.of_nat n) in Hc by lia.
    exact (IH _ _ _ _ _ _ Hc Hh').
Qed.

Lemma fill_remaining_total (rem : list Z) :
  Z.of_nat (length rem) = nc ->
  exists rem', for_do (upto nc) (fun it rem => wr rem it (nc - it - 1)) rem = Ret rem'.
Proof.
  intros Hl.
  destruct (for_do_upto_total (fun (_ : Z) (r : list Z) => Z.of_nat (length r) = nc)
              (fun it rem => wr rem it (nc - it - 1)) nc rem) as (rem' & E & _);
    [lia|exact Hl| |eauto].
  intros k s0 Hk Hl0. destruct (wr_ok s0 k (nc - k - 1) ltac:(lia)) as (s1 & E1 & Hl1).
  exists s1. split; [exact E1|lia].
Qed.

(** The search returns, with a sink that satisfies the invariants or with
    the verdict that the row cannot be matched. *)
Theorem augmenting_path_spec (path : list Z) (spc : list xcost) (SR SC : list bool)
    (rem : list Z) :
  Z.of_nat (length path) = nc -> Z.of_nat (length spc) = nc ->
  Z.of_nat (length SR) = nr -> Z.of_nat (length SC) = nc -> Z.of_nat (length rem) = nc ->
  exists sink om a',
    Crouse.augmenting_path IdxInt nc w u v path r4c spc cur SR SC rem = Ret (sink, om, a') /\
    ((sink = -1 /\ om = None /\ blocked a') \/
     (exists lo rank' t' nrem', om = Some (Fin lo) /\ 0 < t' /\
                                core lo sink t' rank' nrem' a' /\
                                0 <= sink < nc /\ SCof a' sink = true /\
                                spcof a' sink = Fin lo /\ at_ 0 r4c sink = -1)).
Proof.
  intros Hlp Hls Hlsr Hlsc Hlrem.
  assert (Ht : exists res, Crouse.augmenting_path IdxInt nc w u v path r4c spc cur SR SC rem
                           = Ret res).
  { unfold Crouse.augmenting_path.
    destruct (fill_remaining_total rem Hlrem) as [rem1 E1]. rewrite E1. cbn [bind].
    apply fill_remaining_post in E1 as [Hl1 Hrem1]; [|exact Hlrem].
    change (@c_zero xcost exact_cost) with (Fin 0).
    change (@c_inf xcost exact_cost) with PInf.
    apply (ap_loop_total _ cur 0 0 0 (fun _ => 0)); [|left; auto].
    apply initial_core; auto. }
  destruct Ht as [[[sink om] a'] E]. exists sink, om, a'. split; [exact E|].
  now apply (augmenting_path_post path spc SR SC rem).
Qed.

End SearchInv.

Lemma filter_length_lt {A : Type} (f g : A -> bool) (l : list A) (a : A) :
  (forall x, g x = true -> f x = true) -> In a l -> f a = true -> g a = false ->
  (length (filter g l) < length (filter f l))%nat.
Proof.
  intros Hgf. induction l as [|x l IH]; intros Hin Hfa Hga; [destruct Hin|].
  assert (Hle : (length (filter g l) <= length (filter f l))%nat).
  { clear -Hgf. induction l as [|y l IH]; simpl; [lia|].
    destruct (g y) eqn:Eg; [rewrite (Hgf y Eg); simpl; lia|].
    destruct (f y); simpl; lia. }
  simpl. destruct Hin as [-> | Hin].
  - rewrite Hfa, Hga. simpl. lia.
  - specialize (IH Hin Hfa Hga). destruct (g x) eqn:Eg; [rewrite (Hgf x Eg); simpl; lia|].
    destruct (f x); simpl; lia.
Qed.

Section MainLoop.

Variables (nr nc : Z) (w : list xcost).

Hypothesis Len_w : Z.of_nat (length w) = nr * nc.
Hypothesis Hw : forall i j, 0 <= i < nr -> 0 <= j < nc -> is_ext (W nc w i j).

Local Abbreviation CInv := (CInv nr nc w).
Local Abbreviation unmatchable := (unmatchable nr nc w).

Section RowStep.

Variables (u v : list xcost) (r4c c4r : list Z) (cur : Z).

Hypothesis Hcur : 0 <= cur < nr.
Hypothesis Hu : forall i, 0 <= i < nr -> is_fin (at_ (Fin 0) u i).
Hypothesis Hv : forall j, 0 <= j < nc -> is_fin (at_ (Fin 0) v j).
Hypothesis Hm_r : forall j, 0 <= j < nc ->
  at_ 0 r4c j = -1 \/ (0 <= at_ 0 r4c j < cur /\ at_ 0 c4r (at_ 0 r4c j) = j).
Hypothesis Hm_c : forall i, 0 <= i < cur ->
  0 <= at_ 0 c4r i < nc /\ at_ 0 r4c (at_ 0 c4r i) = i.
Hypothesis Hfeas : forall i j c, 0 <= i < cur -> 0 <= j < nc ->
  W nc w i j = Fin c -> Uv u i + Vv v j <= c.
Hypothesis Htight : forall i, 0 <= i < cur ->
  W nc w i (at_ 0 c4r i) = Fin (Uv u i + Vv v (at_ 0 c4r i)).
Hypothesis Hvle : forall j, 0 <= j < nc -> Vv v j <= 0.
Hypothesis Hv0 : forall j, 0 <= j < nc -> at_ 0 r4c j = -1 -> Vv v j = 0.
Hypothesis Len_u : Z.of_nat (length u) = nr.
Hypothesis Len_v : Z.of_nat (length v) = nc.
Hypothesis Len_r : Z.of_nat (length r4c) = nc.
Hypothesis Len_c : Z.of_nat (length c4r) = nr.

Variables (lo sink t : Z) (rank : Z -> Z) (nrem : Z) (a : @Crouse.ap_arrays xcost).

Hypothesis Hcore : core nr nc w u v r4c c4r cur lo sink t rank nrem a.
Hypothesis Ht : 0 < t.
Hypothesis Hsink : 0 <= sink < nc.
Hypothesis Hsink_sc : SCof a sink = true.
Hypothesis Hsink_free : at_ 0 r4c sink = -1.

Local Abbreviation Wc := (W nc w).
Local Abbreviation U := (Uv u).
Local Abbreviation V := (Vv v).
Local Abbreviation D := (Dist c4r cur (Crouse.ap_spc a)).
Local Abbreviation delta_u := (delta_u c4r cur lo a).
Local Abbreviation delta_v := (delta_v lo a).
Local Abbreviation flip_inv := (flip_inv nr nc r4c c4r cur rank a).
Local Abbreviation flip_post := (flip_post nr nc r4c c4r cur a).

Lemma scanned_row_partner (i : Z) :
  0 <= i < nr -> SRof a i = true -> i <> cur ->
  0 <= i < cur /\ 0 <= at_ 0 c4r i < nc /\ SCof a (at_ 0 c4r i) = true /\
  exists s, spcof a (at_ 0 c4r i) = Fin s /\ s <= lo /\ D i = s.
Proof.
  intros Hi Hsr Hne.
  destruct (c_P4 _ _ _ _ _ _ _ _ _ _ _ _ _ _ Hcore i Hi Hsr) as [? | [Hic Hsc]]; [contradiction|].
  destruct (Hm_c i Hic) as [Hc _].
  destruct (c_P3 _ _ _ _ _ _ _ _ _ _ _ _ _ _ Hcore _ Hc Hsc) as ((s & Hs & Hle) & _).
  split; [exact Hic|]. split; [exact Hc|]. split; [exact Hsc|].
  exists s. split; [exact Hs|]. split; [exact Hle|].
  unfold Dist. destruct (Z.eqb_spec i cur); [contradiction|].
  unfold spcof in Hs. now rewrite Hs.
Qed.

Lemma scanned_col_cost (j : Z) :
  0 <= j < nc -> SCof a j = true -> exists s, spcof a j = Fin s /\ s <= lo.
Proof.
  intros Hj Hsc.
  now destruct (c_P3 _ _ _ _ _ _ _ _ _ _ _ _ _ _ Hcore _ Hj Hsc) as (Hs & _).
Qed.

Lemma dist_cur : D cur = 0.
Proof. unfold Dist. now rewrite Z.eqb_refl. Qed.

(** The update of [u]. *)
Lemma u_update (u1 : list xcost) :
  wr u cur (c_add (at_ (Fin 0) u cur) (Fin lo)) = Ret u1 ->
  exists u',
    for_do (upto nr)
      (fun i u =>
         sr <- rd (Crouse.ap_SR a) i ;;
         if (sr : bool) && negb (i =? cur)
         then c4 <- rd c4r i ;;
              spc <- rd (Crouse.ap_spc a) c4 ;;
              ui <- rd u i ;;
              wr u i (c_add ui (c_sub (Fin lo) spc))
         else Ret u)
      u1 = Ret u' /\
    Z.of_nat (length u') = nr /\
    forall i, 0 <= i < nr -> at_ (Fin 0) u' i = Fin (U i + delta_u i).
Proof.
  intros E1. apply wr_at in E1 as (_ & Hl1 & He & Ho).
  pose proof (c_len_SR _ _ _ _ _ _ _ _ _ _ _ _ _ _ Hcore) as Hlsr.
  pose proof (c_len_spc _ _ _ _ _ _ _ _ _ _ _ _ _ _ Hcore) as Hlspc.
  destruct (for_do_upto_total
              (fun k uk => Z.of_nat (length uk) = nr /\
                 forall i, 0 <= i < nr ->
                   at_ (Fin 0) uk i = if (i <? k) || (i =? cur) then Fin (U i + delta_u i)
                                      else at_ (Fin 0) u i)
              (fun i u =>
                 sr <- rd (Crouse.ap_SR a) i ;;
                 if (sr : bool) && negb (i =? cur)
                 then c4 <- rd c4r i ;;
                      spc <- rd (Crouse.ap_spc a) c4 ;;
                      ui <- rd u i ;;
                      wr u i (c_add ui (c_sub (Fin lo) spc))
                 else Ret u) nr u1) as (u' & E & Hl' & Hu').
  - lia.
  - split; [lia|]. intros i Hi. destruct (Z.ltb_spec i 0); [lia|]. cbn [orb].
    destruct (Z.eqb_spec i cur) as [->|Hne].
    + rewrite He. destruct (Hu cur Hcur) as [z Hz]. unfold Uv, delta_u. rewrite Hz.
      rewrite (c_cur _ _ _ _ _ _ _ _ _ _ _ _ _ _ Hcore Ht), dist_cur. cbn. f_equal. lia.
    + apply Ho; lia.
  - intros k uk Hk [Hlk Huk]. rewrite (rd_ok false) by lia. cbn [bind].
    fold (SRof a k).
    destruct (SRof a k) eqn:Hsr; cbn [andb].
    + destruct (Z.eqb_spec k cur) as [->|Hne]; cbn [negb].
      * exists uk. split; [reflexivity|]. split; [exact Hlk|]. intros i Hi.
        rewrite (Huk i Hi). destruct (Z.eqb_spec i cur); [now rewrite !orb_true_r|].
        rewrite !orb_false_r. destruct (Z.ltb_spec i cur), (Z.ltb_spec i (cur + 1));
          try reflexivity; lia.
      * destruct (scanned_row_partner k Hk Hsr Hne) as (Hkc & Hc & Hsc & s & Hs & Hle & Hd).
        rewrite (rd_ok 0 c4r) by lia. cbn [bind].
        rewrite (rd_ok (Fin 0) (Crouse.ap_spc a)) by lia. cbn [bind].
        rewrite (rd_ok (Fin 0) uk) by lia. cbn [bind].
        match goal with |- context [wr uk k ?x] =>
          destruct (wr_ok uk k x ltac:(lia)) as (u2 & E2 & Hl2); rewrite E2 end.
        exists u2. split; [reflexivity|]. split; [lia|]. intros i Hi.
        apply wr_at in E2 as (_ & _ & He2 & Ho2).
        destruct (Z.eq_dec i k) as [->|Hik].
        -- rewrite He2. rewrite (Huk k Hk).
           destruct (Z.ltb_spec k k); [lia|]. destruct (Z.eqb_spec k cur); [contradiction|].
           cbn [orb]. destruct (Z.ltb_spec k (k + 1)); [|lia]. cbn [orb].
           destruct (Hu k Hk) as [z Hz]. unfold Uv, delta_u. rewrite Hz, Hsr, Hd.
           unfold spcof in Hs. rewrite Hs. reflexivity.
        -- rewrite Ho2 by lia. rewrite (Huk i Hi).
           destruct (Z.ltb_spec i k), (Z.ltb_spec i (k + 1)); try reflexivity; lia.
    + exists uk. split; [reflexivity|]. split; [exact Hlk|]. intros i Hi.
      rewrite (Huk i Hi). destruct (Z.eq_dec i k) as [->|Hik].
      * destruct (Z.ltb_spec k k); [lia|]. destruct (Z.ltb_spec k (k + 1)); [|lia].
        cbn [orb]. destruct (Z.eqb_spec k cur) as [->|Hne].
        -- rewrite (c_cur _ _ _ _ _ _ _ _ _ _ _ _ _ _ Hcore Ht) in Hsr. discriminate.
        -- unfold delta_u. rewrite Hsr. destruct (Hu k Hk) as [z Hz]. unfold Uv. rewrite Hz.
           cbn. f_equal. lia.
      * destruct (Z.ltb_spec i k), (Z.ltb_spec i (k + 1)); try reflexivity; lia.
  - exists u'. split; [exact E|]. split; [exact Hl'|]. intros i Hi.
    rewrite (Hu' i Hi). destruct (Z.ltb_spec i nr); [reflexivity|lia].
Qed.


(** The update of [v]. *)
Lemma v_update :
  exists v',
    for_do (upto nc)
      (fun j v =>
         sc <- rd (Crouse.ap_SC a) j ;;
         if sc : bool
         then spc <- rd (Crouse.ap_spc a) j ;;
              vj <- rd v j ;;
              wr v j (c_sub vj (c_sub (Fin lo) spc))
         else Ret v)
      v = Ret v' /\
    Z.of_nat (length v') = nc /\
    forall j, 0 <= j < nc -> at_ (Fin 0) v' j = Fin (V j - delta_v j).
Proof.
  pose proof (c_len_SC _ _ _ _ _ _ _ _ _ _ _ _ _ _ Hcore) as Hlsc.
  pose proof (c_len_spc _ _ _ _ _ _ _ _ _ _ _ _ _ _ Hcore) as Hlspc.
  destruct (for_do_upto_total
              (fun k vk => Z.of_nat (length vk) = nc /\
                 forall j, 0 <= j < nc ->
                   at_ (Fin 0) vk j = if j <? k then Fin (V j - delta_v j)
                                      else at_ (Fin 0) v j)
              (fun j v =>
                 sc <- rd (Crouse.ap_SC a) j ;;
                 if sc : bool
                 then spc <- rd (Crouse.ap_spc a) j ;;
                      vj <- rd v j ;;
                      wr v j (c_sub vj (c_sub (Fin lo) spc))
                 else Ret v) nc v) as (v' & E & Hl' & Hv').
  - lia.
  - split; [lia|]. intros j Hj. destruct (Z.ltb_spec j 0); [lia|reflexivity].
  - intros k vk Hk [Hlk Hvk]. rewrite (rd_ok false) by lia. cbn [bind].
    fold (SCof a k). destruct (SCof a k) eqn:Hsc.
    + destruct (scanned_col_cost k Hk Hsc) as (s & Hs & Hle).
      rewrite (rd_ok (Fin 0) (Crouse.ap_spc a)) by lia. cbn [bind].
      rewrite (rd_ok (Fin 0) vk) by lia. cbn [bind].
      match goal with |- context [wr vk k ?x] =>
        destruct (wr_ok vk k x ltac:(lia)) as (v2 & E2 & Hl2); rewrite E2 end.
      exists v2. split; [reflexivity|]. split; [lia|]. intros j Hj.
      apply wr_at in E2 as (_ & _ & He2 & Ho2).
      destruct (Z.eq_dec j k) as [->|Hjk].
      * rewrite He2. rewrite (Hvk k Hk).
        destruct (Z.ltb_spec k k); [lia|]. destruct (Z.ltb_spec k (k + 1)); [|lia].
        destruct (Hv k Hk) as [z Hz]. unfold Vv, delta_v. rewrite Hz, Hsc.
        unfold spcof in *. rewrite Hs. reflexivity.
      * rewrite Ho2 by lia. rewrite (Hvk j Hj).
        destruct (Z.ltb_spec j k), (Z.ltb_spec j (k + 1)); try reflexivity; lia.
    + exists vk. split; [reflexivity|]. split; [exact Hlk|]. intros j Hj.
      rewrite (Hvk j Hj). destruct (Z.eq_dec j k) as [->|Hjk].
      * destruct (Z.ltb_spec k k); [lia|]. destruct (Z.ltb_spec k (k + 1)); [|lia].
        unfold delta_v. rewrite Hsc. destruct (Hv k Hk) as [z Hz]. unfold Vv. rewrite Hz.
        cbn. f_equal. lia.
      * destruct (Z.ltb_spec j k), (Z.ltb_spec j (k + 1)); try reflexivity; lia.
  - exists v'. split; [exact E|]. split; [exact Hl'|]. intros j Hj.
    rewrite (Hv' j Hj). destruct (Z.ltb_spec j nc); [reflexivity|lia].
Qed.

(** Feasibility of the new duals for the rows up to [cur]. *)
Lemma new_feasible (i j c : Z) :
  0 <= i <= cur -> 0 <= j < nc -> Wc i j = Fin c ->
  (U i + delta_u i) + (V j - delta_v j) <= c.
Proof.
  intros Hi Hj Hc. unfold delta_u, delta_v.
  assert (Hir : 0 <= i < nr) by lia.
  destruct (SRof a i) eqn:Hsr.
  - destruct (c_P1 _ _ _ _ _ _ _ _ _ _ _ _ _ _ Hcore i j c Hir Hsr Hj Hc) as (s & Hs & Hle).
    rewrite Hs. cbn [fv].
    destruct (SCof a j) eqn:Hsc; [lia|].
    destruct (c_P2 _ _ _ _ _ _ _ _ _ _ _ _ _ _ Hcore j Hj Hsc) as [Hp | (s' & Hs' & Hge)];
      [congruence|].
    assert (s' = s) by congruence. lia.
  - assert (Hic : 0 <= i < cur).
    { destruct (Z.eq_dec i cur) as [->|]; [|lia].
      rewrite (c_cur _ _ _ _ _ _ _ _ _ _ _ _ _ _ Hcore Ht) in Hsr. discriminate. }
    pose proof (Hfeas i j c Hic Hj Hc).
    destruct (SCof a j) eqn:Hsc; [|lia].
    destruct (scanned_col_cost j Hj Hsc) as (s & -> & Hle). cbn [fv]. lia.
Qed.

(** An old pair keeps its sum. *)
Lemma old_pair_tight (i : Z) :
  0 <= i < cur ->
  delta_u i = delta_v (at_ 0 c4r i).
Proof.
  intros Hi. destruct (Hm_c i Hi) as [Hc Hr]. unfold delta_u, delta_v.
  assert (Hir : 0 <= i < nr) by lia.
  destruct (SRof a i) eqn:Hsr.
  - destruct (scanned_row_partner i Hir Hsr ltac:(lia)) as (_ & _ & -> & s & -> & _ & ->).
    reflexivity.
  - destruct (SCof a (at_ 0 c4r i)) eqn:Hsc; [|reflexivity].
    destruct (c_P3 _ _ _ _ _ _ _ _ _ _ _ _ _ _ Hcore _ Hc Hsc) as (_ & _ & [He | [_ Hs]]).
    + rewrite He in Hr. lia.
    + rewrite Hr in Hs. congruence.
Qed.

(** An edge of the path is tight under the new duals. *)
Lemma path_edge_tight (j : Z) :
  0 <= j < nc -> SCof a j = true ->
  0 <= pathof a j < nr /\
  Wc (pathof a j) j = Fin ((U (pathof a j) + delta_u (pathof a j)) + (V j - delta_v j)).
Proof.
  intros Hj Hsc. destruct (scanned_col_cost j Hj Hsc) as (s & Hs & Hle).
  destruct (c_P5 _ _ _ _ _ _ _ _ _ _ _ _ _ _ Hcore j s Hj Hs) as (Hp & Hsr & (c & Hc & Hsv) & _).
  split; [exact Hp|]. rewrite Hc. f_equal. unfold delta_u, delta_v.
  rewrite Hsr, Hsc, Hs. cbn [fv]. lia.
Qed.


(** ** The augmentation along the path *)

Lemma flip_inv_start : flip_inv sink r4c c4r.
Proof.
  unfold flip_inv. split; [exact Hsink|]. split; [exact Hsink_sc|].
  split; [exact Len_r|]. split; [exact Len_c|]. split; [|split; [|split]].
  - intros i Hi. destruct (Hm_c i Hi) as [Hc Hr]. split; [exact Hc|]. split; [|exact Hr].
    intros He. rewrite He in Hr. lia.
  - intros j' Hj' _. now apply Hm_r.
  - intros i Hi. now left.
  - intros j' Hj' Hne Hr. split; [exact Hr|].
    destruct (SCof a j') eqn:Hsc; [|reflexivity].
    destruct (c_P3 _ _ _ _ _ _ _ _ _ _ _ _ _ _ Hcore _ Hj' Hsc) as (_ & _ & [? | [? _]]);
      [contradiction|lia].
Qed.

Lemma augment_spec (fuel : nat) : forall (j : Z) (r c : list Z),
  flip_inv j r c -> rank j < Z.of_nat fuel ->
  exists r' c', Crouse.augment fuel cur (Crouse.ap_path a) j r c = Ret (r', c') /\
                flip_post r' c'.
Proof.
  pose proof (c_len_path _ _ _ _ _ _ _ _ _ _ _ _ _ _ Hcore) as Hlp.
  induction fuel as [|fuel IH]; intros j r c (Hj & Hsc & Hlr & Hlc & Hc & Hr & Hg & Hf) Hrk.
  - destruct (c_P3 _ _ _ _ _ _ _ _ _ _ _ _ _ _ Hcore _ Hj Hsc) as (_ & ? & _). lia.
  - destruct (scanned_col_cost j Hj Hsc) as (s & Hs & _).
    destruct (c_P5 _ _ _ _ _ _ _ _ _ _ _ _ _ _ Hcore j s Hj Hs) as (Hp & Hsr & _ & Hrank).
    specialize (Hrank Hsc). unfold pathof in *.
    set (i := at_ 0 (Crouse.ap_path a) j) in *.
    cbn [Crouse.augment].
    rewrite (rd_ok 0 (Crouse.ap_path a)) by lia. cbn [bind]. fold i.
    destruct (wr_ok r j i ltac:(lia)) as (r1 & E1 & Hl1). rewrite E1. cbn [bind].
    apply wr_at in E1 as (_ & _ & Hr1e & Hr1o).
    rewrite (rd_ok 0 c) by lia. cbn [bind].
    destruct (wr_ok c i j ltac:(lia)) as (c1 & E2 & Hl2). rewrite E2. cbn [bind].
    apply wr_at in E2 as (_ & _ & Hc1e & Hc1o).
    destruct (Z.eqb_spec i cur) as [Hic | Hic].
    + (* the walk has reached the row of the search *)
      exists r1, c1. split; [reflexivity|].
      split; [lia|]. split; [lia|]. split; [|split; [|split]].
      * intros j' Hj'. destruct (Z.eq_dec j' j) as [->|Hne].
        -- right. rewrite Hr1e. split; [lia|]. rewrite Hic at 1. now rewrite <- Hic, Hc1e.
        -- rewrite Hr1o by lia. destruct (Hr j' Hj' Hne) as [? | [Hrr Hcc]]; [now left|right].
           split; [lia|]. rewrite Hc1o by lia. exact Hcc.
      * intros i' Hi'. destruct (Z.eq_dec i' i) as [->|Hne].
        -- rewrite Hc1e. split; [exact Hj|]. apply Hr1e.
        -- rewrite Hc1o by lia. destruct (Hc i' ltac:(lia)) as (Hcr & Hcj & Hrc).
           split; [exact Hcr|]. rewrite Hr1o by lia. exact Hrc.
      * intros i' Hi'. destruct (Z.eq_dec i' i) as [->|Hne].
        -- right. rewrite Hc1e. split; [exact Hsc|reflexivity].
        -- rewrite Hc1o by lia. destruct (Hg i' ltac:(lia)) as [? | (? & ? & _)];
             [left; split; [lia|assumption]|right; split; assumption].
      * intros j' Hj' Hr'. destruct (Z.eq_dec j' j) as [->|Hne].
        -- rewrite Hr1e in Hr'. lia.
        -- rewrite Hr1o in Hr' by lia. now apply Hf.
    + (* the row was matched: its old column is next *)
      destruct Hrank as [? | Hrank]; [contradiction|].
      destruct (c_P4 _ _ _ _ _ _ _ _ _ _ _ _ _ _ Hcore i Hp Hsr) as [? | [Hi Hsco]];
        [contradiction|].
      assert (Hold : at_ 0 c i = at_ 0 c4r i).
      { destruct (Hg i Hi) as [? | (_ & _ & ?)]; [assumption|lia]. }
      rewrite Hold. destruct (Hm_c i Hi) as [Hco _].
      set (old := at_ 0 c4r i) in *.
      assert (Hoj : old <> j) by (intros He; rewrite He in Hrank; lia).
      apply IH; [|lia].
      split; [exact Hco|]. split; [exact Hsco|]. split; [lia|]. split; [lia|].
      split; [|split; [|split]].
      * intros i' Hi'. destruct (Z.eq_dec i' i) as [->|Hne].
        -- rewrite Hc1e. split; [exact Hj|]. split; [congruence|]. apply Hr1e.
        -- rewrite Hc1o by lia. destruct (Hc i' Hi') as (Hcr & Hcj & Hrc).
           split; [exact Hcr|]. split.
           ++ intros He. destruct (Hc i Hi) as (_ & _ & Hri).
              rewrite Hold in Hri. rewrite <- He in Hri. lia.
           ++ rewrite Hr1o by lia. exact Hrc.
      * intros j' Hj' Hne. destruct (Z.eq_dec j' j) as [->|Hnej].
        -- right. rewrite Hr1e. split; [exact Hi|]. apply Hc1e.
        -- rewrite Hr1o by lia. destruct (Hr j' Hj' Hnej) as [? | [Hrr Hcc]]; [now left|right].
           split; [exact Hrr|]. destruct (Z.eq_dec (at_ 0 r j') i) as [He|Hnei].
           ++ rewrite He in Hcc. rewrite Hold in Hcc. unfold old in *. congruence.
           ++ rewrite Hc1o by lia. exact Hcc.
      * intros i' Hi'. destruct (Z.eq_dec i' i) as [->|Hne].
        -- right. rewrite Hc1e. split; [exact Hsc|]. split; [reflexivity|]. fold old. lia.
        -- rewrite Hc1o by lia. destruct (Hg i' Hi') as [? | (? & ? & ?)]; [now left|right].
           split; [assumption|]. split; [assumption|]. lia.
      * intros j' Hj' Hne Hr'. destruct (Z.eq_dec j' j) as [->|Hnej].
        -- rewrite Hr1e in Hr'. lia.
        -- rewrite Hr1o in Hr' by lia. now apply Hf.
Qed.


(** The row is matched: what follows the search returns, and the invariant
    holds for the next row. *)
Lemma row_tail (fuel : nat) (u1 : list xcost) :
  nc <= Z.of_nat fuel ->
  wr u cur (c_add (at_ (Fin 0) u cur) (Fin lo)) = Ret u1 ->
  exists u' v' r' c',
    for_do (upto nr)
      (fun i u =>
         sr <- rd (Crouse.ap_SR a) i ;;
         if (sr : bool) && negb (i =? cur)
         then c4 <- rd c4r i ;;
              spc <- rd (Crouse.ap_spc a) c4 ;;
              ui <- rd u i ;;
              wr u i (c_add ui (c_sub (Fin lo) spc))
         else Ret u)
      u1 = Ret u' /\
    for_do (upto nc)
      (fun j v =>
         sc <- rd (Crouse.ap_SC a) j ;;
         if sc : bool
         then spc <- rd (Crouse.ap_spc a) j ;;
              vj <- rd v j ;;
              wr v j (c_sub vj (c_sub (Fin lo) spc))
         else Ret v)
      v = Ret v' /\
    Crouse.augment fuel cur (Crouse.ap_path a) sink r4c c4r = Ret (r', c') /\
    CInv (cur + 1) (Crouse.mk_st u' v' c' r' a).
Proof.
  intros Hfuel E1.
  destruct (u_update u1 E1) as (u' & Eu & Hlu' & Hu').
  destruct v_update as (v' & Ev & Hlv' & Hv').
  destruct (augment_spec fuel sink r4c c4r flip_inv_start) as (r' & c' & Ea & Hpost).
  { destruct (c_P3 _ _ _ _ _ _ _ _ _ _ _ _ _ _ Hcore _ Hsink Hsink_sc) as (_ & ? & _).
    pose proof (c_count _ _ _ _ _ _ _ _ _ _ _ _ _ _ Hcore). lia. }
  exists u', v', r', c'. split; [exact Eu|]. split; [exact Ev|]. split; [exact Ea|].
  destruct Hpost as (Hlr' & Hlc' & Hmr' & Hmc' & Hprov & Hfree).
  assert (HU : forall i, 0 <= i < nr -> Uv u' i = U i + delta_u i).
  { intros i Hi. unfold Uv at 1. now rewrite Hu'. }
  assert (HV : forall j, 0 <= j < nc -> Vv v' j = V j - delta_v j).
  { intros j Hj. unfold Vv at 1. now rewrite Hv'. }
  assert (Hdv : forall j, 0 <= j < nc -> 0 <= delta_v j).
  { intros j Hj. unfold delta_v. destruct (SCof a j) eqn:Hsc; [|lia].
    destruct (scanned_col_cost j Hj Hsc) as (s & -> & Hle). cbn [fv]. lia. }
  constructor; cbn [Crouse.st_u Crouse.st_v Crouse.st_col4row Crouse.st_row4col Crouse.st_ap];
    try assumption; try (now destruct Hcore).
  - intros i Hi. rewrite Hu' by exact Hi. eexists; reflexivity.
  - intros j Hj. rewrite Hv' by exact Hj. eexists; reflexivity.
  - intros i j c Hi Hj Hc. rewrite HU, HV by lia. apply new_feasible; auto; lia.
  - intros i Hi. destruct (Hmc' i Hi) as [Hc _].
    rewrite HU, HV by lia.
    destruct (Hprov i Hi) as [[Hic He] | [Hsc Hp]].
    + rewrite He. rewrite Htight by lia. f_equal.
      rewrite (old_pair_tight i ltac:(lia)). lia.
    + destruct (path_edge_tight _ Hc Hsc) as [_ Hpe]. rewrite Hp in Hpe. exact Hpe.
  - intros j Hj. rewrite HV by exact Hj. specialize (Hdv j Hj). specialize (Hvle j Hj). lia.
  - intros j Hj Hr. rewrite HV by exact Hj. destruct (Hfree j Hj Hr) as [Hr0 Hsc].
    unfold delta_v. rewrite Hsc. rewrite (Hv0 j Hj Hr0). lia.
Qed.

End RowStep.

(** A stuck search shows that the rows cannot all be matched on finite
    entries: the scanned rows have more members than the columns they can use. *)
Lemma blocked_unmatchable (r4c c4r : list Z) (cur : Z) (a : @Crouse.ap_arrays xcost)
    (p : list Z) :
  0 <= cur < nr ->
  (forall j, 0 <= j < nc ->
     at_ 0 r4c j = -1 \/ (0 <= at_ 0 r4c j < cur /\ at_ 0 c4r (at_ 0 r4c j) = j)) ->
  blocked nr nc w r4c c4r cur a ->
  assignment nr nc p ->
  ~ (forall i, 0 <= i < nr -> is_fin (W nc w i (at_ 0 p i))).
Proof.
  intros Hcur Hm_r (Hlsr & Hsrc & HP4 & Hcol & Hinf) (Hlp & Hnd & Hr) Hfin.
  set (f := fun i => at_ 0 r4c (at_ 0 p i)).
  set (L := filter (fun i => SRof a i) (upto nr)).
  set (L' := filter (fun i => SRof a i && negb (i =? cur)) (upto nr)).
  assert (Hq : forall i, 0 <= i < nr -> 0 <= at_ 0 p i < nc).
  { intros i Hi. apply Hr, nth_In. lia. }
  assert (Hsc : forall i, 0 <= i < nr -> SRof a i = true -> SCof a (at_ 0 p i) = true).
  { intros i Hi Hsr. destruct (SCof a (at_ 0 p i)) eqn:E; [reflexivity|].
    destruct (Hfin i Hi) as [c Hc]. rewrite (Hinf i _ Hi Hsr (Hq i Hi) E) in Hc. discriminate. }
  assert (HL : forall i, In i L <-> 0 <= i < nr /\ SRof a i = true).
  { intros i. unfold L. now rewrite filter_In, In_upto. }
  assert (Hlen : (length (map f L) <= length L')%nat).
  { apply NoDup_incl_length.
    - apply NoDup_map_NoDup_ForallPairs; [|apply NoDup_filter, NoDup_upto].
      intros x y Hx Hy He. apply HL in Hx as [Hx Hsx]. apply HL in Hy as [Hy Hsy].
      unfold f in He.
      destruct (Hcol _ (Hq x Hx) (Hsc x Hx Hsx)) as [Hrx _].
      destruct (Hcol _ (Hq y Hy) (Hsc y Hy Hsy)) as [Hry _].
      destruct (Hm_r _ (Hq x Hx)) as [? | [_ Hcx]]; [lia|].
      destruct (Hm_r _ (Hq y Hy)) as [? | [_ Hcy]]; [lia|].
      rewrite He in Hcx. rewrite Hcx in Hcy.
      apply (proj1 (NoDup_nth p 0) Hnd) in Hcy; lia.
    - intros k Hk. apply in_map_iff in Hk as (i & <- & Hi). apply HL in Hi as [Hi Hsi].
      destruct (Hcol _ (Hq i Hi) (Hsc i Hi Hsi)) as [Hrk Hsk].
      unfold L', f. rewrite filter_In, In_upto, Hsk. split; [lia|].
      destruct (Z.eqb_spec (at_ 0 r4c (at_ 0 p i)) cur); [lia|reflexivity]. }
  assert (Hlt : (length L' < length L)%nat).
  { apply (filter_length_lt _ _ _ cur).
    - intros x Hx. now apply andb_true_iff in Hx as [? _].
    - apply In_upto. lia.
    - exact Hsrc.
    - now rewrite Z.eqb_refl, andb_false_r. }
  rewrite length_map in Hlen. lia.
Qed.

(** One row of the main loop. *)
Theorem row_body_spec (fuel : nat) (cur : Z) (s : @Crouse.solver_state xcost) :
  0 <= cur < nr -> nc <= Z.of_nat fuel -> CInv cur s ->
  exists c, Crouse.row_body IdxInt fuel nr nc w cur s = Ret c /\
            match c with
            | Leave st => st = RECTANGULAR_LSAP_INFEASIBLE /\ unmatchable
            | Next s' => CInv (cur + 1) s'
            end.
Proof.
  intros Hcur Hfuel I. destruct s as [u v c4r r4c [path spc SR SC rem]].
  destruct I as [Hlu Hlv Hlc Hlr Hlp Hls Hlsr Hlsc Hlrem Hfu Hfv Hmr Hmc Hfeas Htight Hvle Hv0].
  cbn [Crouse.st_u Crouse.st_v Crouse.st_col4row Crouse.st_row4col Crouse.st_ap
       Crouse.ap_path Crouse.ap_spc Crouse.ap_SR Crouse.ap_SC Crouse.ap_remaining] in *.
  unfold Crouse.row_body.
  cbn [Crouse.st_u Crouse.st_v Crouse.st_col4row Crouse.st_row4col Crouse.st_ap
       Crouse.ap_path Crouse.ap_spc Crouse.ap_SR Crouse.ap_SC Crouse.ap_remaining].
  destruct (augmenting_path_spec nr nc w u v r4c c4r cur Hcur Hw Hfu Hfv Hmr Hmc Hfeas
              Len_w Hlu Hlv Hlr path spc SR SC rem Hlp Hls Hlsr Hlsc Hlrem)
    as (sink & om & a' & E & H).
  rewrite E. cbn [bind].
  destruct H as [(-> & -> & Hb) | (lo & rank & t & nrem & -> & Ht & Hcore & Hsink & Hsc & Hsp & Hfree)].
  - exists (Leave RECTANGULAR_LSAP_INFEASIBLE). split; [reflexivity|]. split; [reflexivity|].
    intros p Hp. exact (blocked_unmatchable r4c c4r cur a' p Hcur Hmr Hb Hp).
  - replace (idx_is_neg IdxInt sink) with false
      by (cbn [idx_is_neg]; symmetry; apply Z.ltb_ge; lia).
    cbn [bind]. rewrite (rd_ok (Fin 0) u) by lia. cbn [bind].
    destruct (wr_ok u cur (c_add (at_ (Fin 0) u cur) (Fin lo)) ltac:(lia)) as (u1 & E1 & _).
    rewrite E1. cbn [bind].
    destruct (row_tail u v r4c c4r cur Hcur Hfu Hfv Hmr Hmc Hfeas Htight Hvle Hv0
                Hlu Hlv Hlr Hlc lo sink t rank nrem a' Hcore Ht Hsink Hsc Hfree fuel u1
                Hfuel E1) as (u' & v' & r' & c' & Eu & Ev & Ea & I').
    rewrite Eu. cbn [bind]. rewrite Ev. cbn [bind]. rewrite Ea. cbn [bind].
    eexists. split; [reflexivity|exact I'].
Qed.

Lemma at_repeat {A : Type} (d x : A) (n : nat) (i : Z) :
  0 <= i < Z.of_nat n -> at_ d (repeat x n) i = x.
Proof. intros Hi. unfold at_. apply nth_repeat_lt. lia. Qed.

Lemma initial_invariant : 0 <= nr -> 0 <= nc -> CInv 0 (Crouse.initial_state IdxInt nr nc).
Proof.
  intros Hnr Hnc. unfold Crouse.initial_state.
  change (@c_zero xcost exact_cost) with (Fin 0). change (Crouse.neg1 IdxInt) with (-1).
  constructor;
    cbn [Crouse.st_u Crouse.st_v Crouse.st_col4row Crouse.st_row4col Crouse.st_ap
         Crouse.ap_path Crouse.ap_spc Crouse.ap_SR Crouse.ap_SC Crouse.ap_remaining];
    rewrite ?repeat_length; try lia.
  - intros i Hi. rewrite at_repeat by lia. eexists; reflexivity.
  - intros j Hj. rewrite at_repeat by lia. eexists; reflexivity.
  - intros j Hj. left. apply at_repeat. lia.
  - intros j Hj. unfold Vv. rewrite at_repeat by lia. cbn. lia.
  - intros j Hj _. unfold Vv. rewrite at_repeat by lia. reflexivity.
Qed.

(** The main loop returns: with the verdict that a row cannot be matched,
    or with every row matched and duals that satisfy the invariant. *)
Theorem main_loop_spec (fuel : nat) :
  0 <= nr -> 0 <= nc -> nc <= Z.of_nat fuel ->
  exists res,
    for_each (upto nr) (Crouse.row_body IdxInt fuel nr nc w) (Crouse.initial_state IdxInt nr nc)
    = Ret res /\
    match res with
    | Leave st => st = RECTANGULAR_LSAP_INFEASIBLE /\ unmatchable
    | Next s => CInv nr s
    end.
Proof.
  intros Hnr Hnc Hfuel.
  apply (for_each_upto_total CInv (fun st => st = RECTANGULAR_LSAP_INFEASIBLE /\ unmatchable)).
  - exact Hnr.
  - now apply initial_invariant.
  - intros k s0 Hk I. now apply row_body_spec.
Qed.

End MainLoop.

(** ** Sums over lists of indices *)

Lemma zsum_app (f : Z -> Z) (l l' : list Z) : zsum f (l ++ l') = zsum f l + zsum f l'.
Proof. induction l as [|x l IH]; simpl; lia. Qed.

Lemma zsum_perm (f : Z -> Z) (l l' : list Z) : Permutation l l' -> zsum f l = zsum f l'.
Proof. induction 1; simpl; lia. Qed.

Lemma zsum_nonpos (f : Z -> Z) (l : list Z) : (forall x, In x l -> f x <= 0) -> zsum f l <= 0.
Proof.
  induction l as [|x l IH]; simpl; intros Hf; [lia|].
  pose proof (Hf x (or_introl eq_refl)). specialize (IH (fun y Hy => Hf y (or_intror Hy))). lia.
Qed.

Lemma zsum_zero (f : Z -> Z) (l : list Z) : (forall x, In x l -> f x = 0) -> zsum f l = 0.
Proof.
  induction l as [|x l IH]; simpl; intros Hf; [lia|].
  pose proof (Hf x (or_introl eq_refl)). specialize (IH (fun y Hy => Hf y (or_intror Hy))). lia.
Qed.

Lemma zsum_add (f g : Z -> Z) (l : list Z) :
  zsum (fun i => f i + g i) l = zsum f l + zsum g l.
Proof. induction l as [|x l IH]; simpl; lia. Qed.

Lemma zsum_map (f : Z -> Z) (q : Z -> Z) (l : list Z) :
  zsum f (map q l) = zsum (fun i => f (q i)) l.
Proof. induction l as [|x l IH]; simpl; lia. Qed.

Lemma zsum_le (f g : Z -> Z) (l : list Z) :
  (forall x, In x l -> f x <= g x) -> zsum f l <= zsum g l.
Proof.
  induction l as [|x l IH]; simpl; intros Hf; [lia|].
  pose proof (Hf x (or_introl eq_refl)). specialize (IH (fun y Hy => Hf y (or_intror Hy))). lia.
Qed.

Lemma existsb_eqb_In (j : Z) (p : list Z) : existsb (Z.eqb j) p = true <-> In j p.
Proof.
  rewrite existsb_exists. split.
  - intros (x & Hx & He). apply Z.eqb_eq in He. now subst.
  - intros Hin. exists j. split; [exact Hin|apply Z.eqb_refl].
Qed.

Lemma In_left_out (nc : Z) (p : list Z) (j : Z) :
  In j (left_out nc p) <-> 0 <= j < nc /\ ~ In j p.
Proof.
  unfold left_out. rewrite filter_In, In_upto, negb_true_iff, <- existsb_eqb_In.
  destruct (existsb (Z.eqb j) p); intuition congruence.
Qed.

Lemma columns_split (nc : Z) (p : list Z) :
  NoDup p -> (forall j, In j p -> 0 <= j < nc) ->
  Permutation (upto nc) (p ++ left_out nc p).
Proof.
  intros Hnd Hr. apply NoDup_Permutation.
  - apply NoDup_upto.
  - apply NoDup_app; [exact Hnd|apply NoDup_filter, NoDup_upto|].
    intros j Hj Hl. apply In_left_out in Hl. tauto.
  - intros j. rewrite In_upto, in_app_iff, In_left_out. split.
    + intros Hj. destruct (in_dec Z.eq_dec j p); [now left|right; auto].
    + intros [Hj | [Hj _]]; auto.
Qed.

Lemma zsum_columns (f : Z -> Z) (nc : Z) (p : list Z) :
  NoDup p -> (forall j, In j p -> 0 <= j < nc) ->
  zsum f (upto nc) = zsum f p + zsum f (left_out nc p).
Proof.
  intros Hnd Hr. rewrite (zsum_perm f _ _ (columns_split nc p Hnd Hr)). apply zsum_app.
Qed.

Lemma map_at_upto (p : list Z) (n : Z) :
  Z.of_nat (length p) = n -> map (fun i => at_ 0 p i) (upto n) = p.
Proof.
  intros Hl. apply (nth_ext _ _ 0 0).
  - rewrite length_map, length_upto. lia.
  - intros k Hk. rewrite length_map, length_upto in Hk.
    rewrite nth_map_upto by exact Hk. unfold at_. now rewrite Nat2Z.id.
Qed.

(** ** Totals over exact costs *)

Section Totals.

Variables (nr nc : Z) (w : list xcost).

Lemma total_from_inf (q : Z -> Z) (l : list Z) :
  (forall i, In i l -> is_ext (entry nc w i (q i))) ->
  fold_left (fun acc i => c_add acc (entry nc w i (q i))) l PInf = PInf.
Proof.
  induction l as [|x l IH]; intros Hl; simpl; [reflexivity|].
  destruct (Hl x (or_introl eq_refl)) as [-> | [c ->]]; simpl;
    apply IH; intros i Hi; apply Hl; now right.
Qed.

Lemma total_exact (q g : Z -> Z) (l : list Z) : forall a,
  (forall i, In i l -> entry nc w i (q i) = Fin (g i)) ->
  fold_left (fun acc i => c_add acc (entry nc w i (q i))) l (Fin a) = Fin (a + zsum g l).
Proof.
  induction l as [|x l IH]; intros a Hl; simpl.
  - f_equal. lia.
  - rewrite (Hl x (or_introl eq_refl)). simpl. rewrite IH by (intros i Hi; apply Hl; now right).
    f_equal. lia.
Qed.

Lemma total_bound (q g : Z -> Z) (l : list Z) : forall a,
  (forall i, In i l -> entry nc w i (q i) = PInf \/
                       exists c, entry nc w i (q i) = Fin c /\ g i <= c) ->
  fold_left (fun acc i => c_add acc (entry nc w i (q i))) l (Fin a) = PInf \/
  exists T, fold_left (fun acc i => c_add acc (entry nc w i (q i))) l (Fin a) = Fin T /\
            a + zsum g l <= T.
Proof.
  induction l as [|x l IH]; intros a Hl; simpl.
  - right. exists a. split; [reflexivity|lia].
  - destruct (Hl x (or_introl eq_refl)) as [-> | (c & -> & Hc)]; simpl.
    + left. apply total_from_inf. intros i Hi.
      destruct (Hl i (or_intror Hi)) as [-> | (c & -> & _)]; [now left|right; eauto].
    + destruct (IH (a + c) (fun i Hi => Hl i (or_intror Hi))) as [? | (T & HT & Hle)];
        [now left|right].
      exists T. split; [exact HT|lia].
Qed.

Hypothesis Hw : forall i j, 0 <= i < nr -> 0 <= j < nc -> is_ext (W nc w i j).

Variable s : @Crouse.solver_state xcost.
Hypothesis Hinv : CInv nr nc w nr s.

Local Abbreviation u := (Crouse.st_u s).
Local Abbreviation v := (Crouse.st_v s).
Local Abbreviation c4r := (Crouse.st_col4row s).
Local Abbreviation r4c := (Crouse.st_row4col s).

(** The duals certify the matching: both optimality conditions hold. *)
Lemma cinv_tight : dual_tight nr nc w u v c4r = true.
Proof.
  unfold dual_tight. apply forallb_forall. intros i Hi. apply In_upto in Hi.
  change (nth (Z.to_nat i) c4r 0) with (at_ 0 c4r i). cbv zeta.
  change (entry nc w i (at_ 0 c4r i)) with (W nc w i (at_ 0 c4r i)).
  rewrite (i_tight _ _ _ _ _ Hinv i Hi).
  destruct (i_m_c _ _ _ _ _ Hinv i Hi) as [Hc _].
  destruct (i_fin_u _ _ _ _ _ Hinv i Hi) as [a Ha].
  destruct (i_fin_v _ _ _ _ _ Hinv _ Hc) as [b Hb].
  unfold Uv, Vv. change (@c_zero xcost exact_cost) with (Fin 0).
  change (nth (Z.to_nat i) u (Fin 0)) with (at_ (Fin 0) u i).
  change (nth (Z.to_nat (at_ 0 c4r i)) v (Fin 0)) with (at_ (Fin 0) v (at_ 0 c4r i)).
  rewrite Ha, Hb. cbn. apply Z.eqb_refl.
Qed.

Lemma cinv_feasible : dual_feasible nr nc w u v = true.
Proof.
  unfold dual_feasible. apply forallb_forall. intros i Hi. apply In_upto in Hi.
  apply forallb_forall. intros j Hj. apply In_upto in Hj.
  destruct (i_fin_u _ _ _ _ _ Hinv i Hi) as [a Ha].
  destruct (i_fin_v _ _ _ _ _ Hinv j Hj) as [b Hb].
  change (@c_zero xcost exact_cost) with (Fin 0).
  change (nth (Z.to_nat i) u (Fin 0)) with (at_ (Fin 0) u i).
  change (nth (Z.to_nat j) v (Fin 0)) with (at_ (Fin 0) v j).
  change (entry nc w i j) with (W nc w i j).
  pose proof (i_feas _ _ _ _ _ Hinv i j) as Hf. unfold Uv, Vv in Hf. rewrite Ha, Hb in *.
  destruct (Hw i j Hi Hj) as [-> | [c Hc]]; [reflexivity|].
  rewrite Hc. cbn. apply Z.leb_le. apply (Hf c Hi Hj Hc).
Qed.

(** The matching is an assignment. *)
Lemma cinv_assignment : assignment nr nc c4r.
Proof.
  split; [exact (i_len_c _ _ _ _ _ Hinv)|]. split.
  - apply (NoDup_nth c4r 0). intros i j Hi Hj He.
    pose proof (i_len_c _ _ _ _ _ Hinv) as Hl.
    destruct (i_m_c _ _ _ _ _ Hinv (Z.of_nat i) ltac:(lia)) as [_ H1].
    destruct (i_m_c _ _ _ _ _ Hinv (Z.of_nat j) ltac:(lia)) as [_ H2].
    unfold at_ in H1, H2. rewrite !Nat2Z.id in H1, H2. rewrite He in H1. lia.
  - intros j Hj. apply (In_nth _ _ 0) in Hj as (k & Hk & <-).
    pose proof (i_len_c _ _ _ _ _ Hinv) as Hl.
    destruct (i_m_c _ _ _ _ _ Hinv (Z.of_nat k) ltac:(lia)) as [H1 _].
    unfold at_ in H1. now rewrite Nat2Z.id in H1.
Qed.

(** The total of the matching is the sum of the duals over its pairs. *)
Lemma cinv_total :
  rowsol_total nr nc w c4r = Fin (zsum (Uv u) (upto nr) + zsum (Vv v) c4r).
Proof.
  unfold rowsol_total. change (@c_zero xcost exact_cost) with (Fin 0).
  rewrite (total_exact (fun i => nth (Z.to_nat i) c4r 0)
             (fun i => Uv u i + Vv v (at_ 0 c4r i))).
  - rewrite Z.add_0_l, zsum_add, <- (zsum_map (Vv v) (fun i => at_ 0 c4r i)).
    rewrite map_at_upto by exact (i_len_c _ _ _ _ _ Hinv). f_equal.
  - intros i Hi. apply In_upto in Hi. exact (i_tight _ _ _ _ _ Hinv i Hi).
Qed.

(** No assignment has a smaller total. *)
Theorem cinv_optimal (p : list Z) :
  assignment nr nc p -> c_leb (rowsol_total nr nc w c4r) (rowsol_total nr nc w p) = true.
Proof.
  intros (Hlp & Hnd & Hr). rewrite cinv_total.
  destruct cinv_assignment as (_ & Hndc & Hrc).
  assert (Hsum : zsum (Vv v) c4r <= zsum (Vv v) p).
  { pose proof (zsum_columns (Vv v) nc p Hnd Hr) as Hp.
    pose proof (zsum_columns (Vv v) nc c4r Hndc Hrc) as Hc.
    assert (zsum (Vv v) (left_out nc p) <= 0).
    { apply zsum_nonpos. intros j Hj. apply In_left_out in Hj as [Hj _].
      exact (i_vle _ _ _ _ _ Hinv j Hj). }
    assert (zsum (Vv v) (left_out nc c4r) = 0).
    { apply zsum_zero. intros j Hj. apply In_left_out in Hj as [Hj Hn].
      apply (i_v0 _ _ _ _ _ Hinv j Hj).
      destruct (i_m_r _ _ _ _ _ Hinv j Hj) as [? | [Hrr Hcc]]; [assumption|].
      exfalso. apply Hn. rewrite <- Hcc. apply nth_In.
      pose proof (i_len_c _ _ _ _ _ Hinv). lia. }
    lia. }
  unfold rowsol_total at 1.
  destruct (total_bound (fun i => nth (Z.to_nat i) p 0)
              (fun i => Uv u i + Vv v (at_ 0 p i)) (upto nr) 0) as [E | (T & E & Hle)].
  - intros i Hi. apply In_upto in Hi.
    assert (Hj : 0 <= at_ 0 p i < nc) by (apply Hr, nth_In; lia).
    change (nth (Z.to_nat i) p 0) with (at_ 0 p i).
    change (entry nc w i (at_ 0 p i)) with (W nc w i (at_ 0 p i)).
    destruct (Hw i _ Hi Hj) as [? | [c Hc]]; [now left|right].
    exists c. split; [exact Hc|]. exact (i_feas _ _ _ _ _ Hinv i _ c Hi Hj Hc).
  - change (@c_zero xcost exact_cost) with (Fin 0). rewrite E. reflexivity.
  - change (@c_zero xcost exact_cost) with (Fin 0). rewrite E. cbn. apply Z.leb_le.
    rewrite zsum_add, <- (zsum_map (Vv v) (fun i => at_ 0 p i)) in Hle.
    rewrite map_at_upto in Hle by exact Hlp. lia.
Qed.

End Totals.

(** The output loop of the solver when the matrix was not transposed. *)
Lemma write_solution_rows (nr : Z) (c4r a b : list Z) :
  0 <= nr -> Z.of_nat (length c4r) = nr ->
  nr <= Z.of_nat (length a) -> nr <= Z.of_nat (length b) ->
  exists a' b', Crouse.write_solution false nr c4r a b = Ret (a', b') /\
    length a' = length a /\ length b' = length b /\
    forall i, 0 <= i < nr -> at_ 0 a' i = i /\ at_ 0 b' i = at_ 0 c4r i.
Proof.
  intros Hnr Hlc Ha Hb. unfold Crouse.write_solution.
  destruct (for_do_upto_total
              (fun k (s : list Z * list Z) =>
                 let '(a', b') := s in
                 length a' = length a /\ length b' = length b /\
                 forall i, 0 <= i < k -> at_ 0 a' i = i /\ at_ 0 b' i = at_ 0 c4r i)
              (fun i '(a0, b0) =>
                 a1 <- wr a0 i i ;; c0 <- rd c4r i ;; b1 <- wr b0 i c0 ;; Ret (a1, b1))
              nr (a, b)) as ([a' b'] & E & HP).
  - exact Hnr.
  - split; [reflexivity|]. split; [reflexivity|]. intros; lia.
  - intros k [a0 b0] Hk (Hla & Hlb & H0).
    destruct (wr_ok a0 k k ltac:(lia)) as (a1 & E1 & Hl1). rewrite E1. cbn [bind].
    rewrite (rd_ok 0 c4r) by lia. cbn [bind].
    destruct (wr_ok b0 k (at_ 0 c4r k) ltac:(lia)) as (b1 & E2 & Hl2). rewrite E2. cbn [bind].
    exists (a1, b1). split; [reflexivity|]. split; [congruence|]. split; [congruence|].
    apply wr_at in E1 as (_ & _ & Hae & Hao). apply wr_at in E2 as (_ & _ & Hbe & Hbo).
    intros i Hi. destruct (Z.eq_dec i k) as [->|Hne].
    + now rewrite Hae, Hbe.
    + rewrite Hao, Hbo by lia. apply H0. lia.
  - exists a', b'. split; [exact E|]. exact HP.
Qed.

Lemma valid_entries (nr nc : Z) (m : list xcost) :
  existsb invalid_entry m = false ->
  forall i j, 0 <= i < nr -> 0 <= j < nc -> is_ext (W nc m i j).
Proof.
  intros Hv i j Hi Hj. unfold W, at_.
  destruct (Nat.lt_ge_cases (Z.to_nat (i * nc + j)) (length m)) as [Hlt | Hge].
  - apply valid_is_ext. destruct (invalid_entry _) eqn:E; [|reflexivity].
    assert (existsb invalid_entry m = true); [|congruence].
    apply existsb_exists. eexists. split; [apply nth_In; exact Hlt|exact E].
  - rewrite nth_overflow by exact Hge. right. eauto.
Qed.

(** The run of the Crouse solver over exact costs, with the lengths of the
    buffers it returns. *)
Lemma crouse_exact_run (fuel : nat) (nr nc : Z) (m : list xcost) (a b : list Z) :
  0 < nr <= nc -> length m = Z.to_nat (nr * nc) ->
  existsb invalid_entry m = false ->
  nc <= Z.of_nat fuel -> nr <= Z.of_nat (length a) -> nr <= Z.of_nat (length b) ->
  exists status a' b',
    Crouse.solve_rectangular_linear_assignment IdxInt fuel nr nc m false a b
    = Ret (status, a', b') /\
    ((status = RECTANGULAR_LSAP_INFEASIBLE /\ a' = a /\ b' = b /\ unmatchable nr nc m) \/
     (status = 0 /\ length a' = length a /\ length b' = length b /\
      exists p, assignment nr nc p /\
                (forall i, 0 <= i < nr -> at_ 0 a' i = i /\ at_ 0 b' i = at_ 0 p i) /\
                forall q, assignment nr nc q ->
                          c_leb (rowsol_total nr nc m p) (rowsol_total nr nc m q) = true)).
Proof.
  intros Hd Hm Hvalid Hfuel Ha Hb.
  rewrite solve_unfold by (auto; lia).
  destruct (Z.ltb_spec nc nr) as [?|_]; [lia|]. cbv zeta.
  unfold working_matrix. destruct (Z.ltb_spec nc nr) as [?|_]; [lia|].
  rewrite Hvalid.
  pose proof (valid_entries nr nc m Hvalid) as Hw.
  assert (Hlm : Z.of_nat (length m) = nr * nc) by (rewrite Hm; nia).
  destruct (main_loop_spec nr nc m Hlm Hw fuel ltac:(lia) ltac:(lia) Hfuel)
    as (res & E & Hres).
  rewrite E. cbn [bind]. destruct res as [s | st].
  - destruct (write_solution_rows nr (Crouse.st_col4row s) a b ltac:(lia)
                (i_len_c _ _ _ _ _ Hres) Ha Hb) as (a' & b' & Ew & Hla & Hlb & Hab).
    rewrite Ew. cbn [bind]. exists 0, a', b'. split; [reflexivity|]. right.
    split; [reflexivity|]. split; [exact Hla|]. split; [exact Hlb|].
    exists (Crouse.st_col4row s).
    split; [exact (cinv_assignment nr nc m s Hres)|]. split; [exact Hab|].
    intros q Hq. exact (cinv_optimal nr nc m Hw s Hres q Hq).
  - destruct Hres as [-> Hun]. exists RECTANGULAR_LSAP_INFEASIBLE, a, b.
    split; [reflexivity|]. left. auto.
Qed.



(** ** Loops over an interval *)

Lemma for_do_map {S : Type} (f : Z -> Z) (body : Z -> S -> outcome S) (l : list Z) (s : S) :
  for_do (map f l) body s = for_do l (fun k => body (f k)) s.
Proof.
  revert s. induction l as [|x l IH]; intros s; simpl; [reflexivity|].
  destruct (body (f x) s); simpl; auto.
Qed.

Lemma for_each_map {S R : Type} (f : Z -> Z) (body : Z -> S -> outcome (ctl S R))
    (l : list Z) (s : S) :
  for_each (map f l) body s = for_each l (fun k => body (f k)) s.
Proof.
  revert s. induction l as [|x l IH]; intros s; simpl; [reflexivity|].
  destruct (body (f x) s) as [[s1|r]| |]; simpl; auto.
Qed.

Lemma range_upto (lo hi : Z) : range lo hi = map (fun k => lo + k) (upto (hi - lo)).
Proof. unfold range, upto. now rewrite map_map. Qed.

Lemma for_do_range_total {S : Type} (P : Z -> S -> Prop) (body : Z -> S -> outcome S)
    (lo hi : Z) (s : S) :
  lo <= hi -> P lo s ->
  (forall k s0, lo <= k < hi -> P k s0 -> exists s1, body k s0 = Ret s1 /\ P (k + 1) s1) ->
  exists s', for_do (range lo hi) body s = Ret s' /\ P hi s'.
Proof.
  intros Hle H0 Hstep. rewrite range_upto, for_do_map.
  destruct (for_do_upto_total (fun k s => P (lo + k) s) (fun k => body (lo + k)) (hi - lo) s)
    as (s' & E & HP).
  - lia.
  - now rewrite Z.add_0_r.
  - intros k s0 Hk HP. destruct (Hstep (lo + k) s0 ltac:(lia) HP) as (s1 & E1 & H1).
    exists s1. split; [exact E1|]. now replace (lo + (k + 1)) with (lo + k + 1) by lia.
  - exists s'. split; [exact E|]. now replace (lo + (hi - lo)) with hi in HP by lia.
Qed.

Lemma for_each_range_total {S R : Type} (P : Z -> S -> Prop) (Q : R -> Prop)
    (body : Z -> S -> outcome (ctl S R)) (lo hi : Z) (s : S) :
  lo <= hi -> P lo s ->
  (forall k s0, lo <= k < hi -> P k s0 ->
                exists c, body k s0 = Ret c /\
                          match c with Next s1 => P (k + 1) s1 | Leave r => Q r end) ->
  exists res, for_each (range lo hi) body s = Ret res /\
              match res with Next s' => P hi s' | Leave r => Q r end.
Proof.
  intros Hle H0 Hstep. rewrite range_upto, for_each_map.
  destruct (for_each_upto_total (fun k s => P (lo + k) s) Q (fun k => body (lo + k))
              (hi - lo) s) as (res & E & HP).
  - lia.
  - now rewrite Z.add_0_r.
  - intros k s0 Hk HP. destruct (Hstep (lo + k) s0 ltac:(lia) HP) as (c & E1 & H1).
    exists c. split; [exact E1|]. destruct c; [|exact H1].
    now replace (lo + (k + 1)) with (lo + k + 1) by lia.
  - exists res. split; [exact E|]. destruct res; [|exact HP].
    now replace (lo + (hi - lo)) with hi in HP by lia.
Qed.

(** A write that is in bounds, with what it leaves in the array. *)
Lemma wr_spec {A : Type} (l : list A) (i : Z) (x : A) :
  0 <= i < Z.of_nat (length l) ->
  exists l', wr l i x = Ret l' /\ length l' = length l /\
             (forall d, at_ d l' i = x) /\
             (forall d j, 0 <= j -> j <> i -> at_ d l' j = at_ d l j).
Proof.
  intros Hi. destruct (wr_ok l i x Hi) as (l' & E & Hl). exists l'.
  split; [exact E|]. split; [exact Hl|].
  apply wr_at in E as (_ & _ & He & Ho). split; [exact He|exact Ho].
Qed.

(** ** Exact costs that are finite *)

Lemma fin_sub (a b : Z) : c_sub (Fin a) (Fin b) = Fin (a - b).
Proof. reflexivity. Qed.

Lemma fin_add (a b : Z) : c_add (Fin a) (Fin b) = Fin (a + b).
Proof. reflexivity. Qed.

Lemma fin_ltb (a b : Z) : c_ltb (Fin a) (Fin b) = (a <? b).
Proof. reflexivity. Qed.

Lemma fin_leb (a b : Z) : c_leb (Fin a) (Fin b) = (a <=? b).
Proof. reflexivity. Qed.

Lemma fin_eqb (a b : Z) : c_eqb (Fin a) (Fin b) = (a =? b).
Proof. reflexivity. Qed.

Lemma fin_at (l : list xcost) (i : Z) : is_fin (at_ (Fin 0) l i) -> at_ (Fin 0) l i = Fin (fv (at_ (Fin 0) l i)).
Proof. intros [z ->]. reflexivity. Qed.

Lemma rd_fin (v : list xcost) (j : Z) :
  0 <= j < Z.of_nat (length v) -> is_fin (at_ (Fin 0) v j) -> rd v j = Ret (Fin (Vv v j)).
Proof.
  intros Hj [z Hz]. rewrite (rd_ok (Fin 0)) by lia. unfold Vv. now rewrite Hz.
Qed.

Section FindUmins.

Variables (dim0 dim1 : Z) (w : list xcost).

Local Abbreviation Cv := (Cv dim1 w).

Hypothesis Len_w : Z.of_nat (length w) = dim0 * dim1.
Hypothesis Hfin : forall i j, 0 <= i < dim0 -> 0 <= j < dim1 -> is_fin (W dim1 w i j).

Lemma rd_cell (i j : Z) :
  0 <= i < dim0 -> 0 <= j < dim1 -> rd w (i * dim1 + j) = Ret (Fin (Cv i j)).
Proof.
  intros Hi Hj. rewrite (rd_ok (Fin 0)) by (rewrite Len_w; nia).
  f_equal. destruct (Hfin i j Hi Hj) as [z Hz]. unfold Cv. unfold W in *. now rewrite Hz.
Qed.

(** [find_umins] on finite reduced costs below the largest [double]: the
    minimum and the second minimum of row [i], and their columns. *)
Lemma find_umins_spec (i : Z) (v : list xcost) :
  0 <= i < dim0 -> 2 <= dim1 -> Z.of_nat (length v) = dim1 ->
  (forall j, 0 <= j < dim1 -> is_fin (at_ (Fin 0) v j)) ->
  (forall j, 0 <= j < dim1 -> Cv i j - Vv v j < x_max) ->
  exists j1 j2,
    JV.find_umins dim1 i w v
    = Ret (Fin (Cv i j1 - Vv v j1), Fin (Cv i j2 - Vv v j2), j1, j2) /\
    0 <= j1 < dim1 /\ 0 <= j2 < dim1 /\ j1 <> j2 /\
    (forall j, 0 <= j < dim1 -> Cv i j1 - Vv v j1 <= Cv i j - Vv v j) /\
    (forall j, 0 <= j < dim1 -> j <> j1 -> Cv i j2 - Vv v j2 <= Cv i j - Vv v j).
Proof.
  intros Hi Hdim Hlv Hv Hmax. unfold JV.find_umins.
  rewrite (rd_cell i 0) by lia. cbn [bind]. rewrite (rd_fin v 0) by (try apply Hv; lia). cbn [bind].
  set (Hc := fun j => Cv i j - Vv v j).
  destruct (for_do_range_total
              (fun k (s : xcost * xcost * Z * Z) =>
                 let '(um, us, j1, j2) := s in
                 um = Fin (Hc j1) /\ 0 <= j1 < k /\ (forall j, 0 <= j < k -> Hc j1 <= Hc j) /\
                 ((k = 1 /\ us = Fin x_max /\ j2 = -1) \/
                  (2 <= k /\ us = Fin (Hc j2) /\ 0 <= j2 < k /\ j2 <> j1 /\
                   forall j, 0 <= j < k -> j <> j1 -> Hc j2 <= Hc j)))
              (fun j '(umin, usubmin, j1, j2) =>
                 cj <- rd w (i * dim1 + j) ;;
                 vj <- rd v j ;;
                 let h := c_sub cj vj in
                 if c_ltb h usubmin
                 then if c_leb umin h
                      then Ret (umin, h, j1, j)
                      else Ret (h, umin, j, j1)
                 else Ret (umin, usubmin, j1, j2))
              1 dim1 (c_sub (Fin (Cv i 0)) (Fin (Vv v 0)), c_max, 0, -1))
    as ([[[um us] j1] j2] & E & Hum & Hj1 & Hmin & Hsub).
  - lia.
  - split; [reflexivity|]. split; [lia|]. split.
    + intros j Hj. replace j with 0 by lia. lia.
    + left. auto.
  - intros k [[[um us] j1] j2] Hk (Hum & Hj1 & Hmin & Hsub).
    rewrite (rd_cell i k) by lia. cbn [bind]. rewrite (rd_fin v k) by (try apply Hv; lia). cbn [bind].
    cbv zeta. rewrite fin_sub. fold (Hc k). subst um.
    destruct Hsub as [(Hk1 & -> & ->) | (Hk2 & -> & Hj2 & Hne & Hsub)].
    + (* the first column after column 0 *)
      subst k. rewrite fin_ltb. pose proof (Hmax 1 ltac:(lia)) as Hlt. fold (Hc 1) in Hlt.
      destruct (Z.ltb_spec (Hc 1) x_max) as [_|?]; [|lia].
      rewrite fin_leb. destruct (Z.leb_spec (Hc j1) (Hc 1)) as [Hle|Hgt].
      * eexists. split; [reflexivity|]. split; [reflexivity|]. split; [lia|]. split.
        -- intros j Hj. destruct (Z.eq_dec j 1) as [->|]; [exact Hle|apply Hmin; lia].
        -- right. split; [lia|]. split; [reflexivity|]. split; [lia|]. split; [lia|].
           intros j Hj Hnj. replace j with 1 by lia. lia.
      * eexists. split; [reflexivity|]. split; [reflexivity|]. split; [lia|]. split.
        -- intros j Hj. destruct (Z.eq_dec j 1) as [->|]; [lia|].
           specialize (Hmin j ltac:(lia)). lia.
        -- right. split; [lia|]. split; [reflexivity|]. split; [lia|]. split; [lia|].
           intros j Hj Hnj. replace j with j1 by lia. lia.
    + rewrite fin_ltb. destruct (Z.ltb_spec (Hc k) (Hc j2)) as [Hlt|Hge].
      * rewrite fin_leb. destruct (Z.leb_spec (Hc j1) (Hc k)) as [Hle|Hgt].
        -- eexists. split; [reflexivity|]. split; [reflexivity|]. split; [lia|]. split.
           ++ intros j Hj. destruct (Z.eq_dec j k) as [->|]; [exact Hle|apply Hmin; lia].
           ++ right. split; [lia|]. split; [reflexivity|]. split; [lia|]. split; [lia|].
              intros j Hj Hnj. destruct (Z.eq_dec j k) as [->|]; [lia|].
              specialize (Hsub j ltac:(lia) Hnj). lia.
        -- eexists. split; [reflexivity|]. split; [reflexivity|]. split; [lia|]. split.
           ++ intros j Hj. destruct (Z.eq_dec j k) as [->|]; [lia|].
              specialize (Hmin j ltac:(lia)). lia.
           ++ right. split; [lia|]. split; [reflexivity|]. split; [lia|]. split; [lia|].
              intros j Hj Hnj. destruct (Z.eq_dec j j1) as [->|Hn1]; [lia|].
              specialize (Hsub j ltac:(lia) Hn1). specialize (Hmin j2 ltac:(lia)). lia.
      * eexists. split; [reflexivity|]. split; [reflexivity|]. split; [lia|]. split.
        -- intros j Hj. destruct (Z.eq_dec j k) as [->|]; [|apply Hmin; lia].
           specialize (Hmin j2 ltac:(lia)). lia.
        -- right. split; [lia|]. split; [reflexivity|]. split; [lia|]. split; [lia|].
           intros j Hj Hnj. destruct (Z.eq_dec j k) as [->|]; [lia|]. apply Hsub; lia.
  - destruct Hsub as [(Hk1 & _) | (_ & -> & Hj2 & Hne & Hsub)]; [lia|]. subst um.
    exists j1, j2. split; [exact E|]. repeat split; auto; lia.
Qed.

End FindUmins.

Section JVState.

Variables (dim0 dim1 : Z) (w : list xcost).

Local Abbreviation Cv := (Cv dim1 w).
Local Abbreviation JInv := (JInv dim0 dim1 w).

Hypothesis Hdims : 0 <= dim0 <= dim1.

Lemma all_or_some_free (colsol : list Z) (n : Z) :
  0 <= n ->
  (exists j, 0 <= j < n /\ at_ 0 colsol j = -1) \/
  (forall j, 0 <= j < n -> at_ 0 colsol j <> -1).
Proof.
  intros Hn. pattern n. apply natlike_ind; [| |exact Hn].
  - right. intros; lia.
  - intros m Hm [(j & Hj & E) | Hall].
    + left. exists j. split; [lia|exact E].
    + destruct (Z.eq_dec (at_ 0 colsol m) (-1)) as [E|E].
      * left. exists m. split; [lia|exact E].
      * right. intros j Hj. destruct (Z.eq_dec j m) as [->|]; [exact E|apply Hall; lia].
Qed.

(** While a row is pending, some column is free. *)
Lemma free_column (pend : Z -> Prop) (rowsol colsol : list Z) (v : list xcost) (i : Z) :
  JInv pend rowsol colsol v -> 0 <= i < dim0 -> pend i ->
  exists j, 0 <= j < dim1 /\ at_ 0 colsol j = -1.
Proof.
  intros J Hi Hp.
  destruct (all_or_some_free colsol dim1 ltac:(lia)) as [? | Hall]; [assumption|exfalso].
  set (L := map (fun j => at_ 0 colsol j) (upto dim1)).
  set (L' := filter (fun r => negb (r =? i)) (upto dim0)).
  assert (Hlen : (length L <= length L')%nat).
  { apply NoDup_incl_length.
    - apply NoDup_map_NoDup_ForallPairs; [|apply NoDup_upto].
      intros x y Hx Hy He. apply In_upto in Hx, Hy.
      destruct (j_col _ _ _ _ _ _ _ J x Hx) as [? | (_ & Hrx & _)]; [now apply Hall in Hx|].
      destruct (j_col _ _ _ _ _ _ _ J y Hy) as [? | (_ & Hry & _)]; [now apply Hall in Hy|].
      rewrite He in Hrx. congruence.
    - intros r Hr. apply in_map_iff in Hr as (j & <- & Hj). apply In_upto in Hj.
      destruct (j_col _ _ _ _ _ _ _ J j Hj) as [? | (Hr & _ & Hn)]; [now apply Hall in Hj|].
      unfold L'. rewrite filter_In, In_upto. split; [exact Hr|].
      destruct (Z.eqb_spec (at_ 0 colsol j) i) as [E|]; [|reflexivity].
      rewrite E in Hn. contradiction. }
  assert (Hlt : (length L' < length (filter (fun _ => true) (upto dim0)))%nat).
  { apply (filter_length_lt _ _ _ i); auto.
    - apply In_upto. exact Hi.
    - now rewrite Z.eqb_refl. }
  pose proof (filter_length_le (fun _ : Z => true) (upto dim0)) as Hle.
  unfold L in Hlen. rewrite length_map, length_upto in Hlen. rewrite length_upto in Hle. lia.
Qed.

(** Row [i], pending, takes column [jt]; the row that held [jt], if any,
    becomes pending.  Prices may have been lowered at [jt] only. *)
Lemma reassign (pend pend' : Z -> Prop) (rowsol colsol rowsol' colsol' : list Z)
    (v v' : list xcost) (i jt : Z) :
  JInv pend rowsol colsol v ->
  0 <= i < dim0 -> pend i -> 0 <= jt < dim1 ->
  (forall r, pend' r <-> (pend r /\ r <> i) \/ (0 <= at_ 0 colsol jt /\ r = at_ 0 colsol jt)) ->
  length rowsol' = length rowsol -> at_ 0 rowsol' i = jt ->
  (forall r, 0 <= r -> r <> i -> at_ 0 rowsol' r = at_ 0 rowsol r) ->
  length colsol' = length colsol -> at_ 0 colsol' jt = i ->
  (forall j, 0 <= j -> j <> jt -> at_ 0 colsol' j = at_ 0 colsol j) ->
  Z.of_nat (length v') = dim1 ->
  (forall j, 0 <= j < dim1 -> is_fin (at_ (Fin 0) v' j)) ->
  (forall j, 0 <= j < dim1 -> Vv v' j <= Vv v j) ->
  (forall j, 0 <= j < dim1 -> j <> jt -> Vv v' j = Vv v j) ->
  (forall j, 0 <= j < dim1 -> Cv i jt - Vv v' jt <= Cv i j - Vv v' j) ->
  JInv pend' rowsol' colsol' v'.
Proof.
  intros J Hi Hpi Hjt Hpend Hlr Hri Hro Hlc Hcj Hco Hlv' Hfv' Hvle Hvo Hmin.
  pose proof (j_len_row _ _ _ _ _ _ _ J) as Hlr0. pose proof (j_len_col _ _ _ _ _ _ _ J) as Hlc0.
  assert (Hi0 : at_ 0 colsol jt = -1 \/
                (0 <= at_ 0 colsol jt < dim0 /\ at_ 0 rowsol (at_ 0 colsol jt) = jt /\
                 ~ pend (at_ 0 colsol jt))) by (apply (j_col _ _ _ _ _ _ _ J); exact Hjt).
  assert (Hkeep : forall r, 0 <= r < dim0 -> ~ pend' r -> r <> i ->
                  ~ pend r /\ at_ 0 rowsol r <> jt).
  { intros r Hr Hnp Hne. assert (Hnpr : ~ pend r).
    { intros Hp. apply Hnp. apply Hpend. left. now split. }
    split; [exact Hnpr|]. intros He.
    destruct (j_row _ _ _ _ _ _ _ J r Hr Hnpr) as [_ Hc]. rewrite He in Hc.
    apply Hnp. apply Hpend. right. split; [lia|now symmetry]. }
  constructor; try lia; auto.
  - intros j Hj. specialize (Hvle j Hj). pose proof (j_vle _ _ _ _ _ _ _ J j Hj). lia.
  - intros j Hj Hc. destruct (Z.eq_dec j jt) as [->|Hne]; [rewrite Hcj in Hc; lia|].
    rewrite Hco in Hc by lia. rewrite Hvo by auto. now apply (j_v0 _ _ _ _ _ _ _ J).
  - intros j Hj. destruct (Z.eq_dec j jt) as [->|Hne].
    + right. rewrite Hcj. split; [exact Hi|]. split; [exact Hri|].
      intros Hp. apply Hpend in Hp as [[_ ?] | [Hge He]]; [contradiction|].
      destruct Hi0 as [? | (_ & _ & Hn)]; [lia|]. rewrite <- He in Hn. contradiction.
    + rewrite Hco by lia. destruct (j_col _ _ _ _ _ _ _ J j Hj) as [? | (Hr & Hrc & Hn)]; [now left|right].
      split; [exact Hr|].
      assert (Hri' : at_ 0 colsol j <> i) by (intros He; rewrite He in Hn; contradiction).
      split; [rewrite Hro by lia; exact Hrc|].
      intros Hp. apply Hpend in Hp as [[? _] | [Hge He]]; [contradiction|].
      rewrite He in Hrc. destruct Hi0 as [? | (_ & Hrc0 & _)]; [lia|]. congruence.
  - intros r Hr Hnp. destruct (Z.eq_dec r i) as [->|Hne].
    + rewrite Hri. split; [exact Hjt|exact Hcj].
    + destruct (Hkeep r Hr Hnp Hne) as [Hnpr Hrj]. rewrite Hro by lia.
      destruct (j_row _ _ _ _ _ _ _ J r Hr Hnpr) as [Hc Hcr]. split; [exact Hc|].
      rewrite Hco by lia. exact Hcr.
  - intros r j Hr Hnp Hj. destruct (Z.eq_dec r i) as [->|Hne].
    + rewrite Hri. now apply Hmin.
    + destruct (Hkeep r Hr Hnp Hne) as [Hnpr Hrj]. rewrite Hro by lia.
      destruct (j_row _ _ _ _ _ _ _ J r Hr Hnpr) as [Hc _].
      rewrite (Hvo _ Hc Hrj). pose proof (j_min _ _ _ _ _ _ _ J r j Hr Hnpr Hj).
      specialize (Hvle j Hj). lia.
Qed.

Lemma JInv_ext (pend pend' : Z -> Prop) (rowsol colsol : list Z) (v : list xcost) :
  (forall r, pend r <-> pend' r) -> JInv pend rowsol colsol v -> JInv pend' rowsol colsol v.
Proof.
  intros He [H1 H2 H3 H4 H5 H6 H7 H8 H9]. constructor; auto.
  - intros j Hj. destruct (H7 j Hj) as [? | (? & ? & Hn)]; [now left|right].
    split; [assumption|]. split; [assumption|]. now rewrite <- He.
  - intros i Hi Hn. apply H8; [exact Hi|now rewrite He].
  - intros i j Hi Hn Hj. apply H9; auto. now rewrite He.
Qed.

End JVState.

(** ** The list of free rows of the augmenting row reduction *)

Section FreeList.

Variable dim0 : Z.

Local Abbreviation free_ok := (free_ok dim0).

Lemma pend_advance (free : list Z) (numfree k prev : Z) :
  free_ok free numfree k prev -> 0 <= numfree <= k -> k < prev ->
  (forall r, pendA free numfree (k + 1) prev r <->
             pendA free numfree k prev r /\ r <> at_ 0 free k) /\
  free_ok free numfree (k + 1) prev.
Proof.
  intros [Hr Hd] Hn Hk. split; [|split].
  - intros r. split.
    + intros (p & Hp & E). assert (Hp' : idx numfree k prev p) by (unfold idx in *; lia).
      split; [exists p; auto|]. intros He. rewrite <- E in He.
      apply Hd in He; auto; unfold idx in *; lia.
    + intros [(p & Hp & E) Hne]. exists p. split; [|exact E].
      assert (p <> k) by (intros ->; congruence). unfold idx in *. lia.
  - intros p Hp. apply Hr. unfold idx in *. lia.
  - intros p q Hp Hq. apply Hd; unfold idx in *; lia.
Qed.

Lemma pend_replace (free free' : list Z) (numfree k prev i0 : Z) :
  free_ok free numfree k prev -> 0 <= numfree <= k -> k < prev ->
  0 <= i0 < dim0 -> ~ pendA free numfree k prev i0 ->
  at_ 0 free' k = i0 -> (forall p, 0 <= p -> p <> k -> at_ 0 free' p = at_ 0 free p) ->
  (forall r, pendA free' numfree k prev r <->
             (pendA free numfree k prev r /\ r <> at_ 0 free k) \/ r = i0) /\
  free_ok free' numfree k prev.
Proof.
  intros [Hr Hd] Hn Hk Hi0 Hnp He Ho.
  assert (Hk' : idx numfree k prev k) by (unfold idx; lia).
  assert (Hpos : forall p, idx numfree k prev p -> 0 <= p) by (unfold idx; lia).
  split; [|split].
  - intros r. split.
    + intros (p & Hp & E). destruct (Z.eq_dec p k) as [->|Hne].
      * right. congruence.
      * left. rewrite Ho in E by (auto using Hpos).
        split; [exists p; auto|]. intros Heq. rewrite <- E in Heq. apply Hd in Heq; auto.
    + intros [[(p & Hp & E) Hne] | ->].
      * exists p. split; [exact Hp|]. assert (p <> k) by (intros ->; congruence).
        rewrite Ho by auto using Hpos. exact E.
      * exists k. auto.
  - intros p Hp. destruct (Z.eq_dec p k) as [->|Hne]; [now rewrite He|].
    rewrite Ho by auto using Hpos. now apply Hr.
  - intros p q Hp Hq E.
    destruct (Z.eq_dec p k) as [->|Hnp'], (Z.eq_dec q k) as [->|Hnq]; auto.
    + rewrite He, Ho in E by auto using Hpos. exfalso. apply Hnp. exists q. auto.
    + rewrite He, Ho in E by auto using Hpos. exfalso. apply Hnp. exists p. auto.
    + rewrite !Ho in E by auto using Hpos. now apply Hd.
Qed.

Lemma pend_displace (free free' : list Z) (numfree k prev i0 : Z) :
  free_ok free numfree k prev -> 0 <= numfree <= k -> k < prev ->
  0 <= i0 < dim0 -> ~ pendA free numfree k prev i0 ->
  at_ 0 free' numfree = i0 ->
  (forall p, 0 <= p -> p <> numfree -> at_ 0 free' p = at_ 0 free p) ->
  (forall r, pendA free' (numfree + 1) (k + 1) prev r <->
             (pendA free numfree k prev r /\ r <> at_ 0 free k) \/ r = i0) /\
  free_ok free' (numfree + 1) (k + 1) prev.
Proof.
  intros [Hr Hd] Hn Hk Hi0 Hnp He Ho.
  assert (Hk' : idx numfree k prev k) by (unfold idx; lia).
  assert (Hold : forall p, idx (numfree + 1) (k + 1) prev p -> p <> numfree ->
                           idx numfree k prev p /\ p <> k /\ 0 <= p) by (unfold idx; lia).
  split; [|split].
  - intros r. split.
    + intros (p & Hp & E). destruct (Z.eq_dec p numfree) as [->|Hne].
      * right. congruence.
      * destruct (Hold p Hp Hne) as (Hp' & Hpk & Hp0). left. rewrite Ho in E by auto.
        split; [exists p; auto|]. intros Heq. rewrite <- E in Heq. apply Hd in Heq; auto.
    + intros [[(p & Hp & E) Hne] | ->].
      * assert (p <> k) by (intros ->; congruence).
        exists p. split; [unfold idx in *; lia|].
        rewrite Ho by (unfold idx in *; lia). exact E.
      * exists numfree. split; [unfold idx; lia|exact He].
  - intros p Hp. destruct (Z.eq_dec p numfree) as [->|Hne]; [now rewrite He|].
    destruct (Hold p Hp Hne) as (Hp' & _ & Hp0). rewrite Ho by auto. now apply Hr.
  - intros p q Hp Hq E.
    destruct (Z.eq_dec p numfree) as [->|Hnp'], (Z.eq_dec q numfree) as [->|Hnq]; auto.
    + destruct (Hold q Hq Hnq) as (Hq' & _ & Hq0). rewrite He, Ho in E by auto.
      exfalso. apply Hnp. exists q. auto.
    + destruct (Hold p Hp Hnp') as (Hp' & _ & Hp0). rewrite He, Ho in E by auto.
      exfalso. apply Hnp. exists p. auto.
    + destruct (Hold p Hp Hnp') as (Hp' & _ & Hp0).
      destruct (Hold q Hq Hnq) as (Hq' & _ & Hq0).
      rewrite !Ho in E by auto. now apply Hd.
Qed.

End FreeList.

Lemma zsum_nonneg (f : Z -> Z) (l : list Z) : (forall x, In x l -> 0 <= f x) -> 0 <= zsum f l.
Proof.
  induction l as [|x l IH]; simpl; intros Hf; [lia|].
  pose proof (Hf x (or_introl eq_refl)). specialize (IH (fun y Hy => Hf y (or_intror Hy))). lia.
Qed.

Lemma zsum_lt (f g : Z -> Z) (l : list Z) (a : Z) :
  (forall x, In x l -> f x <= g x) -> In a l -> f a < g a -> zsum f l < zsum g l.
Proof.
  induction l as [|x l IH]; simpl; intros Hf Hin Hlt; [destruct Hin|].
  pose proof (Hf x (or_introl eq_refl)).
  pose proof (zsum_le f g l (fun y Hy => Hf y (or_intror Hy))).
  destruct Hin as [->|Hin]; [lia|].
  specialize (IH (fun y Hy => Hf y (or_intror Hy)) Hin Hlt). lia.
Qed.

(** ** The augmenting row reduction *)

Section RowReduction.

Variables (dim0 dim1 : Z) (w : list xcost) (B : Z).

Hypothesis Len_w : Z.of_nat (length w) = dim0 * dim1.
Hypothesis Hfin : forall i j, 0 <= i < dim0 -> 0 <= j < dim1 -> is_fin (W dim1 w i j).
Hypothesis Hdims : 0 <= dim0 <= dim1.
Hypothesis Hdim1 : 2 <= dim1.
Hypothesis HB : 0 <= B.
Hypothesis Hbound : forall i j, 0 <= i < dim0 -> 0 <= j < dim1 -> - B <= Cv dim1 w i j <= B.
Hypothesis HmaxB : (4 * dim0 + 3) * B < x_max.

Local Abbreviation Cv := (Cv dim1 w).
Local Abbreviation JInv := (JInv dim0 dim1 w).
Local Abbreviation AInv := (AInv dim0 dim1 w B).
Local Abbreviation arr_measure := (arr_measure dim1 B).

Lemma arr_measure_nonneg (a0 prev k : Z) (s : @JV.arr_state xcost) :
  AInv a0 prev k s -> 0 <= arr_measure a0 prev k s.
Proof.
  intros A. unfold arr_measure. destruct (a_idx _ _ _ _ _ _ _ _ A) as [_ [? ?]].
  pose proof (a_a0 _ _ _ _ _ _ _ _ A).
  assert (0 <= zsum (fun j => Vv (JV.arr_v s) j + (a0 + prev + 1) * (2 * B)) (upto dim1)).
  { apply zsum_nonneg. intros j Hj. apply In_upto in Hj.
    pose proof (a_low _ _ _ _ _ _ _ _ A j Hj). nia. }
  lia.
Qed.

(** The common end of the five ways an iteration can go. *)
Lemma arr_close (a0 prev k k' : Z) (free free' : list Z) (numfree numfree' : Z)
    (rowsol rowsol' colsol colsol' : list Z) (v v' : list xcost) (jt : Z) :
  AInv a0 prev k (JV.mk_arr free numfree rowsol colsol v) -> k < prev ->
  k' = k \/ k' = k + 1 ->
  0 <= jt < dim1 ->
  (forall r, pendA free' numfree' k' prev r <->
             (pendA free numfree k prev r /\ r <> at_ 0 free k) \/
             (0 <= at_ 0 colsol jt /\ r = at_ 0 colsol jt)) ->
  free_ok dim0 free' numfree' k' prev -> length free' = length free ->
  0 <= numfree' <= k' ->
  length rowsol' = length rowsol -> at_ 0 rowsol' (at_ 0 free k) = jt ->
  (forall r, 0 <= r -> r <> at_ 0 free k -> at_ 0 rowsol' r = at_ 0 rowsol r) ->
  length colsol' = length colsol -> at_ 0 colsol' jt = at_ 0 free k ->
  (forall j, 0 <= j -> j <> jt -> at_ 0 colsol' j = at_ 0 colsol j) ->
  Z.of_nat (length v') = dim1 ->
  (forall j, 0 <= j < dim1 -> is_fin (at_ (Fin 0) v' j)) ->
  (forall j, 0 <= j < dim1 -> Vv v' j <= Vv v j) ->
  (forall j, 0 <= j < dim1 -> j <> jt -> Vv v' j = Vv v j) ->
  (forall j, 0 <= j < dim1 ->
     Cv (at_ 0 free k) jt - Vv v' jt <= Cv (at_ 0 free k) j - Vv v' j) ->
  (forall j, 0 <= j < dim1 -> - ((a0 + k' + 1) * (2 * B)) <= Vv v' j) ->
  k' = k + 1 \/ Vv v' jt < Vv v jt ->
  AInv a0 prev k' (JV.mk_arr free' numfree' rowsol' colsol' v') /\
  arr_measure a0 prev k' (JV.mk_arr free' numfree' rowsol' colsol' v')
  < arr_measure a0 prev k (JV.mk_arr free numfree rowsol colsol v).
Proof.
  intros A Hk Hk' Hjt Hpend Hfok Hlf Hnf Hlr Hri Hro Hlc Hcj Hco Hlv Hfv Hvle Hvo Hmin Hlow Hdec.
  destruct A as [J Hlfree [Hi1 Hi2] Ha0 Hfree _].
  cbn [JV.arr_free JV.arr_numfree JV.arr_rowsol JV.arr_colsol JV.arr_v] in *.
  assert (Hidx : idx numfree k prev k) by (unfold idx; lia).
  assert (Hi : 0 <= at_ 0 free k < dim0) by (apply (proj1 Hfree); exact Hidx).
  assert (Hp : pendA free numfree k prev (at_ 0 free k)) by (exists k; auto).
  split.
  - constructor; cbn [JV.arr_free JV.arr_numfree JV.arr_rowsol JV.arr_colsol JV.arr_v];
      try lia; auto.
    apply (reassign dim0 dim1 w _ _ rowsol colsol rowsol' colsol' v v' (at_ 0 free k) jt J);
      auto.
  - unfold arr_measure. cbn [JV.arr_v].
    destruct Hdec as [-> | Hlt].
    + assert (zsum (fun j => Vv v' j + (a0 + prev + 1) * (2 * B)) (upto dim1)
              <= zsum (fun j => Vv v j + (a0 + prev + 1) * (2 * B)) (upto dim1)).
      { apply zsum_le. intros j Hj. apply In_upto in Hj. specialize (Hvle j Hj). lia. }
      lia.
    + assert (zsum (fun j => Vv v' j + (a0 + prev + 1) * (2 * B)) (upto dim1)
              < zsum (fun j => Vv v j + (a0 + prev + 1) * (2 * B)) (upto dim1)).
      { apply (zsum_lt _ _ _ jt).
        - intros j Hj. apply In_upto in Hj. specialize (Hvle j Hj). lia.
        - apply In_upto. exact Hjt.
        - lia. }
      lia.
Qed.

(** One iteration of the augmenting row reduction. *)
Lemma arr_step (a0 prev k : Z) (s : @JV.arr_state xcost) :
  AInv a0 prev k s -> k < prev ->
  exists k' s',
    (forall fuel, JV.arr_loop (S fuel) dim1 w prev k s = JV.arr_loop fuel dim1 w prev k' s') /\
    AInv a0 prev k' s' /\ arr_measure a0 prev k' s' < arr_measure a0 prev k s.
Proof.
  intros A Hk. destruct s as [free numfree rowsol colsol v].
  pose proof A as A0.
  destruct A as [J Hlfree [Hi1 Hi2] Ha0 Hfree Hlow].
  cbn [JV.arr_free JV.arr_numfree JV.arr_rowsol JV.arr_colsol JV.arr_v] in *.
  pose proof (j_len_row _ _ _ _ _ _ _ J) as Hlr. pose proof (j_len_col _ _ _ _ _ _ _ J) as Hlc.
  pose proof (j_len_v _ _ _ _ _ _ _ J) as Hlv. pose proof (j_fin_v _ _ _ _ _ _ _ J) as Hfv.
  assert (Hidx : idx numfree k prev k) by (unfold idx; lia).
  set (i := at_ 0 free k) in *.
  assert (Hi : 0 <= i < dim0) by (apply (proj1 Hfree); exact Hidx).
  assert (Hp : pendA free numfree k prev i) by (exists k; auto).
  assert (Hmax : forall j, 0 <= j < dim1 -> Cv i j - Vv v j < x_max).
  { intros j Hj. pose proof (Hbound i j Hi Hj). pose proof (Hlow j Hj). nia. }
  destruct (find_umins_spec dim0 dim1 w Len_w Hfin i v Hi Hdim1 Hlv Hfv Hmax)
    as (j1 & j2 & Eu & Hj1 & Hj2 & Hne & Hmin1 & Hmin2).
  pose proof (Hmin1 j2 Hj2) as Hle12.
  assert (Hcol : forall jt, 0 <= jt < dim1 ->
            at_ 0 colsol jt = -1 \/
            (0 <= at_ 0 colsol jt < dim0 /\ ~ pendA free numfree k prev (at_ 0 colsol jt))).
  { intros jt Hjt. destruct (j_col _ _ _ _ _ _ _ J jt Hjt) as [? | (? & _ & ?)]; auto. }
  (* the code up to the branches *)
  assert (Hrun : forall fuel,
    JV.arr_loop (S fuel) dim1 w prev k (JV.mk_arr free numfree rowsol colsol v) =
    let i0 := at_ 0 colsol j1 in
    let vnew := Fin (Vv v j1 - ((Cv i j2 - Vv v j2) - (Cv i j1 - Vv v j1))) in
    let lowers := Vv v j1 - ((Cv i j2 - Vv v j2) - (Cv i j1 - Vv v j1)) <? Vv v j1 in
    '(v', j1', i0') <-
       (if lowers
        then v' <- wr v j1 vnew ;; Ret (v', j1, i0)
        else if 0 <=? i0
             then Ret (v, j2, at_ 0 colsol j2)
             else Ret (v, j1, i0)) ;;
    rowsol' <- wr rowsol i j1' ;;
    colsol' <- wr colsol j1' i ;;
    if 0 <=? i0'
    then if lowers
         then free' <- wr free (k + 1 - 1) i0' ;;
              JV.arr_loop fuel dim1 w prev (k + 1 - 1)
                          (JV.mk_arr free' numfree rowsol' colsol' v')
         else free' <- wr free numfree i0' ;;
              JV.arr_loop fuel dim1 w prev (k + 1)
                          (JV.mk_arr free' (numfree + 1) rowsol' colsol' v')
    else JV.arr_loop fuel dim1 w prev (k + 1) (JV.mk_arr free numfree rowsol' colsol' v')).
  { intros fuel.
    cbn [JV.arr_loop JV.arr_free JV.arr_numfree JV.arr_rowsol JV.arr_colsol JV.arr_v].
    destruct (Z.ltb_spec k prev) as [_|?]; [|lia].
    rewrite (rd_ok 0 free) by lia. cbn [bind]. fold i.
    rewrite Eu. cbn [bind].
    rewrite (rd_ok 0 colsol) by lia. cbn [bind].
    rewrite (rd_fin v j1) by (try apply Hfv; lia). cbn [bind].
    rewrite !fin_sub, fin_ltb. cbv zeta.
    destruct (_ <? Vv v j1); [reflexivity|].
    destruct (0 <=? at_ 0 colsol j1); [|reflexivity].
    rewrite (rd_ok 0 colsol) by lia. reflexivity. }
  cbv zeta in Hrun.
  destruct (wr_spec rowsol i j1 ltac:(lia)) as (rs1 & Ers1 & Hlrs1 & Hrs1e & Hrs1o).
  destruct (wr_spec colsol j1 i ltac:(lia)) as (cs1 & Ecs1 & Hlcs1 & Hcs1e & Hcs1o).
  destruct (wr_spec rowsol i j2 ltac:(lia)) as (rs2 & Ers2 & Hlrs2 & Hrs2e & Hrs2o).
  destruct (wr_spec colsol j2 i ltac:(lia)) as (cs2 & Ecs2 & Hlcs2 & Hcs2e & Hcs2o).
  destruct (Z.ltb_spec (Vv v j1 - ((Cv i j2 - Vv v j2) - (Cv i j1 - Vv v j1))) (Vv v j1))
    as [Hlt | Hge].
  - (* the price of column j1 is lowered *)
    destruct (wr_spec v j1 (Fin (Vv v j1 - ((Cv i j2 - Vv v j2) - (Cv i j1 - Vv v j1))))
                ltac:(lia)) as (v' & Ev' & Hlv' & Hv'e & Hv'o).
    rewrite Ev' in Hrun. cbn [bind] in Hrun. rewrite Ers1 in Hrun. cbn [bind] in Hrun.
    rewrite Ecs1 in Hrun. cbn [bind] in Hrun.
    assert (HV'1 : Vv v' j1 = Cv i j1 - (Cv i j2 - Vv v j2)).
    { unfold Vv at 1. rewrite Hv'e. cbn [fv]. lia. }
    assert (HV'o : forall j, 0 <= j < dim1 -> j <> j1 -> Vv v' j = Vv v j).
    { intros j Hj Hn. unfold Vv. now rewrite Hv'o by lia. }
    assert (Hfv' : forall j, 0 <= j < dim1 -> is_fin (at_ (Fin 0) v' j)).
    { intros j Hj. destruct (Z.eq_dec j j1) as [->|Hn]; [rewrite Hv'e; eexists; reflexivity|].
      rewrite Hv'o by lia. now apply Hfv. }
    assert (Hvle' : forall j, 0 <= j < dim1 -> Vv v' j <= Vv v j).
    { intros j Hj. destruct (Z.eq_dec j j1) as [->|Hn]; [lia|]. rewrite HV'o by auto. lia. }
    assert (Hmin' : forall j, 0 <= j < dim1 -> Cv i j1 - Vv v' j1 <= Cv i j - Vv v' j).
    { intros j Hj. destruct (Z.eq_dec j j1) as [->|Hn]; [lia|].
      rewrite (HV'o j) by auto. specialize (Hmin2 j Hj Hn). lia. }
    destruct (Z.leb_spec 0 (at_ 0 colsol j1)) as [Hi0 | Hi0].
    + (* the row that held j1 is scanned next *)
      destruct (Hcol j1 Hj1) as [? | [Hi0r Hnp]]; [lia|].
      destruct (wr_spec free (k + 1 - 1) (at_ 0 colsol j1) ltac:(lia))
        as (free' & Ef & Hlf & Hfe & Hfo).
      replace (k + 1 - 1) with k in * by lia.
      destruct (pend_replace dim0 free free' numfree k prev (at_ 0 colsol j1)
                  Hfree ltac:(lia) Hk Hi0r Hnp (Hfe 0) (Hfo 0)) as [Hpend Hfok].
      exists k, (JV.mk_arr free' numfree rs1 cs1 v').
      split; [intros fuel; rewrite Hrun, Ef; reflexivity|].
      apply (arr_close a0 prev k k free free' numfree numfree rowsol rs1 colsol cs1 v v' j1);
        auto; try lia.
      * intros r. rewrite Hpend. fold i. split; [intros [?|?]; [now left|right; auto]|].
        intros [?|[_ ?]]; auto.
      * intros j Hj. destruct (Z.eq_dec j j1) as [->|Hn].
        -- (* a free column bounds the new price *)
           destruct (free_column dim0 dim1 w Hdims _ _ _ _ i J Hi Hp) as (js & Hjs & Hfs).
           assert (js <> j1) by (intros ->; lia).
           pose proof (Hmin2 js Hjs H). rewrite (j_v0 _ _ _ _ _ _ _ J js Hjs Hfs) in H0.
           pose proof (Hbound i j1 Hi Hj1). pose proof (Hbound i js Hi Hjs). nia.
        -- rewrite HV'o by auto. apply Hlow; auto.
    + (* column j1 was free *)
      destruct (pend_advance dim0 free numfree k prev Hfree ltac:(lia) Hk) as [Hpend Hfok].
      exists (k + 1), (JV.mk_arr free numfree rs1 cs1 v').
      split; [intros fuel; rewrite Hrun; reflexivity|].
      apply (arr_close a0 prev k (k + 1) free free numfree numfree rowsol rs1 colsol cs1 v v' j1);
        auto; try lia.
      * intros r. rewrite Hpend. fold i. split; [now left|]. intros [?|[? _]]; [auto|lia].
      * intros j Hj. destruct (Z.eq_dec j j1) as [->|Hn].
        -- pose proof (Hlow j2 Hj2). pose proof (Hbound i j1 Hi Hj1).
           pose proof (Hbound i j2 Hi Hj2). nia.
        -- rewrite HV'o by auto. pose proof (Hlow j Hj). nia.
  - (* minimum and second minimum are equal *)
    assert (Heq : Cv i j2 - Vv v j2 = Cv i j1 - Vv v j1) by lia.
    assert (Hlow' : forall j, 0 <= j < dim1 -> - ((a0 + (k + 1) + 1) * (2 * B)) <= Vv v j).
    { intros j Hj. pose proof (Hlow j Hj). nia. }
    destruct (Z.leb_spec 0 (at_ 0 colsol j1)) as [Hi0 | Hi0].
    + (* j1 is taken: the row goes to j2 *)
      cbn [bind] in Hrun. rewrite Ers2 in Hrun. cbn [bind] in Hrun.
      rewrite Ecs2 in Hrun. cbn [bind] in Hrun.
      assert (Hmin' : forall j, 0 <= j < dim1 -> Cv i j2 - Vv v j2 <= Cv i j - Vv v j).
      { intros j Hj. rewrite Heq. now apply Hmin1. }
      destruct (Z.leb_spec 0 (at_ 0 colsol j2)) as [Hi2' | Hi2'].
      * destruct (Hcol j2 Hj2) as [? | [Hi0r Hnp]]; [lia|].
        destruct (wr_spec free numfree (at_ 0 colsol j2) ltac:(lia))
          as (free' & Ef & Hlf & Hfe & Hfo).
        destruct (pend_displace dim0 free free' numfree k prev (at_ 0 colsol j2)
                    Hfree ltac:(lia) Hk Hi0r Hnp (Hfe 0) (Hfo 0)) as [Hpend Hfok].
        exists (k + 1), (JV.mk_arr free' (numfree + 1) rs2 cs2 v).
        split; [intros fuel; rewrite Hrun, Ef; reflexivity|].
        apply (arr_close a0 prev k (k + 1) free free' numfree (numfree + 1)
                 rowsol rs2 colsol cs2 v v j2); auto; try lia.
        intros r. rewrite Hpend. fold i. split; [intros [?|?]; [now left|right; auto]|].
        intros [?|[_ ?]]; auto.
      * destruct (pend_advance dim0 free numfree k prev Hfree ltac:(lia) Hk) as [Hpend Hfok].
        exists (k + 1), (JV.mk_arr free numfree rs2 cs2 v).
        split; [intros fuel; rewrite Hrun; reflexivity|].
        apply (arr_close a0 prev k (k + 1) free free numfree numfree
                 rowsol rs2 colsol cs2 v v j2); auto; try lia.
        intros r. rewrite Hpend. fold i. split; [now left|]. intros [?|[? _]]; [auto|lia].
    + (* j1 is free *)
      cbn [bind] in Hrun. rewrite Ers1 in Hrun. cbn [bind] in Hrun.
      rewrite Ecs1 in Hrun. cbn [bind] in Hrun.
      destruct (Z.leb_spec 0 (at_ 0 colsol j1)) as [? | _]; [lia|].
      destruct (pend_advance dim0 free numfree k prev Hfree ltac:(lia) Hk) as [Hpend Hfok].
      exists (k + 1), (JV.mk_arr free numfree rs1 cs1 v).
      split; [intros fuel; rewrite Hrun; reflexivity|].
      apply (arr_close a0 prev k (k + 1) free free numfree numfree
               rowsol rs1 colsol cs1 v v j1); auto; try lia.
      intros r. rewrite Hpend. fold i. split; [now left|]. intros [?|[? _]]; [auto|lia].
Qed.

(** The loop of a pass returns, with every row scanned. *)
Lemma arr_loop_spec (a0 prev : Z) (fuel : nat) : forall (k : Z) (s : @JV.arr_state xcost),
  AInv a0 prev k s -> arr_measure a0 prev k s < Z.of_nat fuel ->
  exists s', JV.arr_loop fuel dim1 w prev k s = Ret s' /\ AInv a0 prev prev s'.
Proof.
  induction fuel as [|fuel IH]; intros k s A Hm.
  - pose proof (arr_measure_nonneg _ _ _ _ A). lia.
  - destruct (Z.lt_ge_cases k prev) as [Hk | Hk].
    + destruct (arr_step a0 prev k s A Hk) as (k' & s' & E & A' & Hlt).
      rewrite E. apply IH; [exact A'|lia].
    + pose proof (a_idx _ _ _ _ _ _ _ _ A) as [_ [? _]]. assert (k = prev) by lia. subst k.
      exists s. split; [|exact A]. cbn [JV.arr_loop]. now rewrite Z.ltb_irrefl.
Qed.

(** A pass starts from the rows the pass before has put back. *)
Lemma next_pass (a0 prev : Z) (s : @JV.arr_state xcost) :
  AInv a0 prev prev s -> a0 + prev <= dim0 ->
  AInv (a0 + prev) (JV.arr_numfree s) 0
       (JV.mk_arr (JV.arr_free s) 0 (JV.arr_rowsol s) (JV.arr_colsol s) (JV.arr_v s)).
Proof.
  intros [J Hl [Hi1 Hi2] Ha0 [Hr Hd] Hlow] Hle.
  assert (Hidx : forall p, idx 0 0 (JV.arr_numfree s) p <-> idx (JV.arr_numfree s) prev prev p)
    by (unfold idx; lia).
  constructor; cbn [JV.arr_free JV.arr_numfree JV.arr_rowsol JV.arr_colsol JV.arr_v];
    try lia; auto.
  - refine (JInv_ext dim0 dim1 w _ _ _ _ _ _ J).
    intros r. unfold pendA. split; intros (p & Hp & E); exists p;
      (split; [now apply Hidx|exact E]).
  - split.
    + intros p Hp. apply Hr. now apply Hidx.
    + intros p q Hp Hq. apply Hd; now apply Hidx.
  - intros j Hj. specialize (Hlow j Hj). nia.
Qed.

End RowReduction.

(** ** The list of columns of the search *)

Section ColumnList.

Variable dim1 : Z.

Local Abbreviation perm_ok := (perm_ok dim1).

(** The two writes that exchange the columns at positions [k] and [up]. *)
Lemma swap_spec (cl : list Z) (k up : Z) :
  perm_ok cl -> 0 <= up <= k -> k < dim1 ->
  exists cl1 cl2,
    wr cl k (at_ 0 cl up) = Ret cl1 /\ wr cl1 up (at_ 0 cl k) = Ret cl2 /\
    perm_ok cl2 /\
    at_ 0 cl2 up = at_ 0 cl k /\ at_ 0 cl2 k = at_ 0 cl up /\
    (forall p, 0 <= p -> p <> k -> p <> up -> at_ 0 cl2 p = at_ 0 cl p).
Proof.
  intros (Hl & Hr & Hi & Hs) Hup Hk.
  destruct (wr_spec cl k (at_ 0 cl up) ltac:(lia)) as (cl1 & E1 & Hl1 & H1e & H1o).
  destruct (wr_spec cl1 up (at_ 0 cl k) ltac:(lia)) as (cl2 & E2 & Hl2 & H2e & H2o).
  exists cl1, cl2. split; [exact E1|]. split; [exact E2|].
  assert (Hat : forall p, 0 <= p ->
            at_ 0 cl2 p = if p =? up then at_ 0 cl k else if p =? k then at_ 0 cl up
                          else at_ 0 cl p).
  { intros p Hp. destruct (Z.eqb_spec p up) as [->|Hn]; [apply H2e|].
    rewrite H2o by auto. destruct (Z.eqb_spec p k) as [->|Hn']; [apply H1e|].
    now apply H1o. }
  assert (Hup' : at_ 0 cl2 up = at_ 0 cl k) by apply H2e.
  assert (Hk' : at_ 0 cl2 k = at_ 0 cl up).
  { rewrite Hat by lia. destruct (Z.eqb_spec k up) as [->|]; [reflexivity|].
    now rewrite Z.eqb_refl. }
  assert (Ho : forall p, 0 <= p -> p <> k -> p <> up -> at_ 0 cl2 p = at_ 0 cl p).
  { intros p Hp Hnk Hnu. rewrite Hat by auto.
    destruct (Z.eqb_spec p up); [contradiction|]. now destruct (Z.eqb_spec p k). }
  (* where position [p] of the new list comes from *)
  set (src := fun p => if p =? up then k else if p =? k then up else p).
  assert (Hsrc : forall p, 0 <= p < dim1 -> at_ 0 cl2 p = at_ 0 cl (src p) /\ 0 <= src p < dim1).
  { intros p Hp. unfold src. rewrite Hat by lia.
    destruct (Z.eqb_spec p up); [split; [reflexivity|lia]|].
    destruct (Z.eqb_spec p k); split; try reflexivity; lia. }
  assert (Hinv : forall p, 0 <= p < dim1 -> src (src p) = p /\ 0 <= src p < dim1).
  { intros p Hp. unfold src.
    destruct (Z.eqb_spec p up) as [->|]; [destruct (Z.eqb_spec k up); [lia|];
      rewrite Z.eqb_refl; lia|].
    destruct (Z.eqb_spec p k) as [->|]; [rewrite Z.eqb_refl; lia|].
    destruct (Z.eqb_spec p up); [lia|]. destruct (Z.eqb_spec p k); lia. }
  split; [|auto]. split; [lia|]. split; [|split].
  - intros p Hp. destruct (Hsrc p Hp) as [-> Hs']. now apply Hr.
  - intros p q Hp Hq E. destruct (Hsrc p Hp) as [Ep Hsp]. destruct (Hsrc q Hq) as [Eq Hsq].
    rewrite Ep, Eq in E. apply Hi in E; auto.
    destruct (Hinv p Hp) as [<- _]. destruct (Hinv q Hq) as [<- _]. now rewrite E.
  - intros j Hj. destruct (Hs j Hj) as (p & Hp & E). destruct (Hinv p Hp) as [Hpp Hsp].
    exists (src p). split; [exact Hsp|]. destruct (Hsrc (src p) Hsp) as [-> _].
    now rewrite Hpp.
Qed.

End ColumnList.

(** ** The search for a new minimum *)

Section NewMinimum.

Variables (dim1 : Z) (colsol : list Z).
Hypothesis Len_c : Z.of_nat (length colsol) = dim1.

Lemma new_minimum_spec (s : @JV.sp_state xcost) :
  perm_ok dim1 (JV.sp_collist s) -> Z.of_nat (length (JV.sp_d s)) = dim1 ->
  (forall j, 0 <= j < dim1 -> is_fin (at_ (Fin 0) (JV.sp_d s) j)) ->
  0 <= JV.sp_low s -> JV.sp_up s = JV.sp_low s -> JV.sp_low s < dim1 ->
  exists found up' m cl',
    JV.sp_new_minimum dim1 colsol s
    = Ret (found, JV.mk_sp (JV.sp_low s) up' (JV.sp_low s - 1) (Fin m) (JV.sp_d s)
                           (JV.sp_pred s) cl') /\
    perm_ok dim1 cl' /\
    (forall p, 0 <= p < JV.sp_low s -> at_ 0 cl' p = at_ 0 (JV.sp_collist s) p) /\
    JV.sp_low s < up' <= dim1 /\
    (forall p, JV.sp_low s <= p < up' -> Vv (JV.sp_d s) (at_ 0 cl' p) = m) /\
    (forall p, up' <= p < dim1 -> m < Vv (JV.sp_d s) (at_ 0 cl' p)) /\
    match found with
    | Some e => exists p, JV.sp_low s <= p < up' /\ at_ 0 cl' p = e /\ at_ 0 colsol e < 0
    | None => forall p, JV.sp_low s <= p < up' -> 0 <= at_ 0 colsol (at_ 0 cl' p)
    end.
Proof.
  destruct s as [low up last mn d pred cl].
  cbn [JV.sp_low JV.sp_up JV.sp_last JV.sp_min JV.sp_d JV.sp_pred JV.sp_collist].
  intros Hperm Hld Hfd Hlow -> Hlt. unfold JV.sp_new_minimum.
  cbn [JV.sp_low JV.sp_up JV.sp_last JV.sp_min JV.sp_d JV.sp_pred JV.sp_collist].
  pose proof Hperm as (Hlc & Hrange & _).
  rewrite (rd_ok 0 cl) by lia. cbn [bind].
  rewrite (rd_fin d) by (try apply Hfd; try apply Hrange; rewrite ?Hld; try apply Hrange; lia).
  cbn [bind].
  destruct (for_do_range_total
              (fun k (st : Z * xcost * list Z) =>
                 let '(up', m', cl') := st in
                 exists m, m' = Fin m /\ perm_ok dim1 cl' /\
                   (forall p, 0 <= p < low -> at_ 0 cl' p = at_ 0 cl p) /\
                   low < up' <= k /\
                   (forall p, low <= p < up' -> Vv d (at_ 0 cl' p) = m) /\
                   (forall p, up' <= p < k -> m < Vv d (at_ 0 cl' p)))
              (fun k '(up, min, collist) =>
                 j <- rd collist k ;;
                 h <- rd d j ;;
                 if c_leb h min
                 then
                   let '(up, min) := if c_ltb h min then (low, h) else (up, min) in
                   cu <- rd collist up ;;
                   collist <- wr collist k cu ;;
                   collist <- wr collist up j ;;
                   Ret (up + 1, min, collist)
                 else Ret (up, min, collist))
              (low + 1) dim1 (low + 1, Fin (Vv d (at_ 0 cl low)), cl))
    as ([[up' m'] cl'] & E & m & -> & Hperm' & Hfix & Hup' & Htodo & Huns).
  - lia.
  - exists (Vv d (at_ 0 cl low)). split; [reflexivity|]. split; [exact Hperm|].
    split; [auto|]. split; [lia|]. split.
    + intros p Hp. replace p with low by lia. reflexivity.
    + intros; lia.
  - intros k [[up0 m0] cl0] Hk (m & -> & Hperm0 & Hfix0 & Hup0 & Htodo0 & Huns0).
    pose proof Hperm0 as (Hlc0 & Hrange0 & _).
    rewrite (rd_ok 0 cl0) by lia. cbn [bind].
    rewrite (rd_fin d) by (try apply Hfd; try apply Hrange0; rewrite ?Hld; try apply Hrange0; lia).
    cbn [bind]. rewrite fin_leb.
    set (j := at_ 0 cl0 k) in *.
    destruct (Z.leb_spec (Vv d j) m) as [Hle | Hgt].
    + rewrite fin_ltb. destruct (Z.ltb_spec (Vv d j) m) as [Hlt' | Hge'].
      * (* a new minimum: the list restarts at [low] *)
        rewrite (rd_ok 0 cl0) by lia. cbn [bind].
        destruct (swap_spec dim1 cl0 k low Hperm0 ltac:(lia) ltac:(lia))
          as (cl1 & cl2 & -> & E2 & Hperm2 & H2u & H2k & H2o).
        cbn [bind]. fold j in E2. rewrite E2. cbn [bind].
        eexists. split; [reflexivity|]. exists (Vv d j). split; [reflexivity|].
        split; [exact Hperm2|]. split; [|split; [lia|split]].
        -- intros p Hp. rewrite H2o by lia. now apply Hfix0.
        -- intros p Hp. replace p with low by lia. now rewrite H2u.
        -- intros p Hp. destruct (Z.eq_dec p k) as [->|Hn].
           ++ rewrite H2k. rewrite (Htodo0 low) by lia. lia.
           ++ rewrite H2o by lia. destruct (Z.lt_ge_cases p up0).
              ** rewrite Htodo0 by lia. lia.
              ** specialize (Huns0 p ltac:(lia)). lia.
      * (* another column at the minimum *)
        rewrite (rd_ok 0 cl0) by lia. cbn [bind].
        destruct (swap_spec dim1 cl0 k up0 Hperm0 ltac:(lia) ltac:(lia))
          as (cl1 & cl2 & -> & E2 & Hperm2 & H2u & H2k & H2o).
        cbn [bind]. fold j in E2. rewrite E2. cbn [bind].
        eexists. split; [reflexivity|]. exists m. split; [reflexivity|].
        split; [exact Hperm2|]. split; [|split; [lia|split]].
        -- intros p Hp. rewrite H2o by lia. now apply Hfix0.
        -- intros p Hp. destruct (Z.eq_dec p up0) as [->|Hn].
           ++ rewrite H2u. fold j. lia.
           ++ rewrite H2o by lia. apply Htodo0. lia.
        -- intros p Hp. destruct (Z.eq_dec p k) as [->|Hn].
           ++ rewrite H2k. apply Huns0. lia.
           ++ rewrite H2o by lia. apply Huns0. lia.
    + eexists. split; [reflexivity|]. exists m. split; [reflexivity|].
      split; [exact Hperm0|]. split; [exact Hfix0|]. split; [lia|]. split; [exact Htodo0|].
      intros p Hp. destruct (Z.eq_dec p k) as [->|Hn]; [fold j; lia|]. apply Huns0. lia.
  - rewrite E. cbn [bind].
    pose proof Hperm' as (Hlc' & Hrange' & _).
    destruct (for_each_range_total
                (fun k (_ : unit) => forall p, low <= p < k -> 0 <= at_ 0 colsol (at_ 0 cl' p))
                (fun e => exists p, low <= p < up' /\ at_ 0 cl' p = e /\ at_ 0 colsol e < 0)
                (fun k (_ : unit) =>
                   j <- rd cl' k ;;
                   cs <- rd colsol j ;;
                   if cs <? 0 then Ret (Leave j) else Ret (Next tt))
                low up' tt) as (res & E2 & Hres).
    + lia.
    + intros; lia.
    + intros k [] Hk Hall. rewrite (rd_ok 0 cl') by lia. cbn [bind].
      rewrite (rd_ok 0 colsol) by (rewrite Len_c; apply Hrange'; lia). cbn [bind].
      destruct (Z.ltb_spec (at_ 0 colsol (at_ 0 cl' k)) 0) as [Hneg | Hpos].
      * eexists. split; [reflexivity|]. exists k. split; [lia|]. split; [reflexivity|exact Hneg].
      * eexists. split; [reflexivity|]. intros p Hp.
        destruct (Z.eq_dec p k) as [->|]; [exact Hpos|apply Hall; lia].
    + rewrite E2. cbn [bind].
      exists (match res with Leave j => Some j | Next _ => None end), up', m, cl'.
      split; [reflexivity|]. split; [exact Hperm'|]. split; [exact Hfix|].
      split; [exact Hup'|]. split; [exact Htodo|]. split; [exact Huns|].
      destruct res as [[]|e]; exact Hres.
Qed.

End NewMinimum.

(** ** The shortest path search from a free row *)

Section JVSearch.

Variables (dim0 dim1 : Z) (w : list xcost).
Variables (rowsol colsol : list Z) (v : list xcost) (f : Z) (pend : Z -> Prop).

Hypothesis Len_w : Z.of_nat (length w) = dim0 * dim1.
Hypothesis Hfin : forall i j, 0 <= i < dim0 -> 0 <= j < dim1 -> is_fin (W dim1 w i j).
Hypothesis Hdims : 0 <= dim0 <= dim1.
Hypothesis J : JInv dim0 dim1 w pend rowsol colsol v.
Hypothesis Hf : 0 <= f < dim0.
Hypothesis Hpf : pend f.

Local Abbreviation Cv := (Cv dim1 w).
Local Abbreviation V := (Vv v).
Local Abbreviation rowof := (rowof colsol).
Local Abbreviation ured := (ured dim1 w rowsol v).
Local Abbreviation red := (red dim1 w rowsol v).
Local Abbreviation d0 := (d0 dim1 w v f).
Local Abbreviation SInv := (SInv dim1 w rowsol colsol v f).
Local Abbreviation SFinal := (SFinal dim1 w rowsol colsol v f).

Lemma assigned_col (j : Z) :
  0 <= j < dim1 -> 0 <= rowof j ->
  0 <= rowof j < dim0 /\ at_ 0 rowsol (rowof j) = j /\ ~ pend (rowof j).
Proof.
  intros Hj Hr. unfold rowof in *.
  destruct (j_col _ _ _ _ _ _ _ J j Hj) as [? | ?]; [lia|assumption].
Qed.

Lemma red_nonneg (jr j : Z) :
  0 <= jr < dim1 -> 0 <= rowof jr -> 0 <= j < dim1 -> 0 <= red (rowof jr) j.
Proof.
  intros Hjr Hr Hj. destruct (assigned_col jr Hjr Hr) as (Hi & _ & Hn).
  pose proof (j_min _ _ _ _ _ _ _ J (rowof jr) j Hi Hn Hj). unfold red, ured. lia.
Qed.

Lemma red_own (jr : Z) : 0 <= jr < dim1 -> 0 <= rowof jr -> red (rowof jr) jr = 0.
Proof.
  intros Hjr Hr. destruct (assigned_col jr Hjr Hr) as (_ & E & _).
  unfold red, ured. rewrite E. lia.
Qed.

Ltac sp_simpl :=
  cbn [JV.sp_low JV.sp_up JV.sp_last JV.sp_min JV.sp_d JV.sp_pred JV.sp_collist] in *.

(** The block [if (up == low)]: the next minimum, and the free column that
    ends the search if one attains it. *)
Lemma new_min_step (s : @JV.sp_state xcost) :
  SInv s -> JV.sp_up s = JV.sp_low s ->
  exists found s',
    JV.sp_new_minimum dim1 colsol s = Ret (found, s') /\
    match found with
    | None => SInv s' /\ JV.sp_low s' = JV.sp_low s /\ JV.sp_low s' < JV.sp_up s'
    | Some e => SFinal e s'
    end.
Proof.
  intros S Hup. pose proof S as S0. destruct s as [low up last mn d pred cl].
  destruct S as [Hld Hlp Hperm Hfd [m0 Hm0] [Hi1 Hi2] Hready Htodo0 Hunsc Hrelax Hd0 Hpred
                 Hlast Hlastm].
  sp_simpl. subst up mn. cbn [fv] in *.
  pose proof Hperm as (Hlc & Hrange & Hinj & Hsurj).
  pose proof (j_len_col _ _ _ _ _ _ _ J) as Hlcs.
  assert (Hlow : low < dim1).
  { destruct (free_column dim0 dim1 w Hdims _ _ _ _ f J Hf Hpf) as (js & Hjs & Hfree).
    destruct (Hsurj js Hjs) as (p & Hp & E).
    destruct (Z.lt_ge_cases p low) as [Hlt|]; [|lia].
    destruct (Hready p ltac:(lia)) as [Hr _]. unfold rowof in Hr. rewrite E in Hr. lia. }
  destruct (new_minimum_spec dim1 colsol Hlcs (JV.mk_sp low low last (Fin m0) d pred cl)
              Hperm Hld Hfd ltac:(sp_simpl; lia) eq_refl Hlow)
    as (found & up' & m & cl' & E & Hperm' & Hfix & Hup' & Htodo & Huns & Hfound).
  sp_simpl.
  pose proof Hperm' as (Hlc' & Hrange' & Hinj' & Hsurj').
  assert (Hsrc : forall k, low <= k < dim1 ->
                 exists p, low <= p < dim1 /\ at_ 0 cl' k = at_ 0 cl p).
  { intros k Hk. destruct (Hsurj (at_ 0 cl' k) (Hrange' k ltac:(lia))) as (p & Hp & Ep).
    exists p. split; [|now symmetry]. destruct (Z.lt_ge_cases p low) as [Hlt|]; [|lia].
    rewrite <- Hfix in Ep by lia. apply Hinj' in Ep; lia. }
  assert (Hgrow : 0 < low -> m0 < m).
  { intros Hpos. rewrite <- (Htodo low) by lia.
    destruct (Hsrc low ltac:(lia)) as (p & Hp & ->). apply Hunsc; lia. }
  assert (Hready' : forall k, 0 <= k < low ->
            0 <= rowof (at_ 0 cl' k) /\ Vv d (at_ 0 cl' k) <= m).
  { intros k Hk. rewrite Hfix by lia. destruct (Hready k Hk) as [Hr Hle].
    split; [exact Hr|]. specialize (Hgrow ltac:(lia)). lia. }
  assert (Hrelax' : forall k j, 0 <= k < low -> 0 <= j < dim1 ->
            Vv d j <= Vv d (at_ 0 cl' k) + red (rowof (at_ 0 cl' k)) j).
  { intros k j Hk Hj. rewrite Hfix by lia. now apply Hrelax. }
  assert (Hpred' : forall k, 0 <= k < dim1 ->
            (at_ 0 pred (at_ 0 cl' k) = f /\ Vv d (at_ 0 cl' k) = d0 (at_ 0 cl' k)) \/
            (exists ki, 0 <= ki < low /\ ki < k /\
               at_ 0 pred (at_ 0 cl' k) = rowof (at_ 0 cl' ki) /\
               Vv d (at_ 0 cl' k)
               = Vv d (at_ 0 cl' ki) + red (rowof (at_ 0 cl' ki)) (at_ 0 cl' k))).
  { intros k Hk. destruct (Z.lt_ge_cases k low) as [Hlt | Hge].
    - rewrite Hfix by lia. destruct (Hpred k Hk) as [? | (ki & Hki & Hkk & Hp & Hd)];
        [now left|right].
      exists ki. rewrite Hfix by lia. auto.
    - destruct (Hsrc k ltac:(lia)) as (p & Hp & ->).
      destruct (Hpred p ltac:(lia)) as [? | (ki & Hki & Hkk & Hp' & Hd)]; [now left|right].
      exists ki. rewrite Hfix by lia. split; [lia|]. split; [lia|]. auto. }
  exists found, (JV.mk_sp low up' (low - 1) (Fin m) d pred cl'). split; [exact E|].
  destruct found as [e|].
  - (* a free column attains the minimum *)
    destruct Hfound as (pe & Hpe & Ee & Hfree).
    assert (He : 0 <= e < dim1 /\ rowof e < 0 /\ forall k, 0 <= k < low -> at_ 0 cl' k <> e).
    { split; [rewrite <- Ee; apply Hrange'; lia|]. split; [exact Hfree|].
      intros k Hk He. rewrite <- Ee in He. apply Hinj' in He; lia. }
    assert (Hge : forall j, 0 <= j < dim1 ->
              (forall k, 0 <= k < low -> at_ 0 cl' k <> j) -> m <= Vv d j).
    { intros j Hj Hnr. destruct (Hsurj' j Hj) as (p & Hp & <-).
      destruct (Z.lt_ge_cases p low) as [Hlt|Hge]; [exfalso; apply (Hnr p); [lia|reflexivity]|].
      destruct (Z.lt_ge_cases p up') as [Hlt'|Hge'].
      * rewrite Htodo by lia. lia.
      * specialize (Huns p ltac:(lia)). lia. }
    assert (Hpr : forall k, 0 <= k < low ->
              (at_ 0 pred (at_ 0 cl' k) = f /\ Vv d (at_ 0 cl' k) = d0 (at_ 0 cl' k)) \/
              (exists ki, 0 <= ki < k /\
                 at_ 0 pred (at_ 0 cl' k) = rowof (at_ 0 cl' ki) /\
                 Vv d (at_ 0 cl' k)
                 = Vv d (at_ 0 cl' ki) + red (rowof (at_ 0 cl' ki)) (at_ 0 cl' k))).
    { intros k Hk. destruct (Hpred' k ltac:(lia)) as [? | (ki & Hki & Hkk & Hp & Hd)];
        [now left|right].
      exists ki. split; [lia|]. auto. }
    assert (Hpe' : (at_ 0 pred e = f /\ m = d0 e) \/
              (exists ki, 0 <= ki < low /\ at_ 0 pred e = rowof (at_ 0 cl' ki) /\
                 m = Vv d (at_ 0 cl' ki) + red (rowof (at_ 0 cl' ki)) e)).
    { rewrite <- Ee. rewrite <- (Htodo pe) by lia.
      destruct (Hpred' pe ltac:(lia)) as [[Hp Hd] | (ki & Hki & Hkk & Hp & Hd)];
        [left; auto|right].
      exists ki. auto. }
    constructor; sp_simpl; cbn [fv]; auto; try lia; try (eexists; reflexivity).
  - split; [|sp_simpl; lia].
    assert (Htd : forall k, low <= k < up' ->
              0 <= rowof (at_ 0 cl' k) /\ Vv d (at_ 0 cl' k) = m).
    { intros k Hk. split; [now apply Hfound|now apply Htodo]. }
    constructor; sp_simpl; cbn [fv]; auto; try lia; try (eexists; reflexivity).
Qed.

(** *** Relaxing the distances through the row of a scanned column *)

Section Relax.

Variables (low up last m : Z) (d : list xcost) (pred cl : list Z).

Hypothesis S : SInv (JV.mk_sp low up last (Fin m) d pred cl).
Hypothesis Hlt : low < up.

Local Abbreviation j1 := (at_ 0 cl low).
Local Abbreviation i := (rowof (at_ 0 cl low)).
Local Abbreviation RLInv := (RLInv dim1 w rowsol colsol v f low up m d pred cl).
Local Abbreviation written_pred := (written_pred colsol low cl).

Lemma relax_facts :
  0 <= low /\ up <= dim1 /\ 0 <= j1 < dim1 /\ 0 <= i < dim0 /\ at_ 0 rowsol i = j1 /\
  Vv d j1 = m /\ ured i = Cv i j1 - V j1.
Proof.
  destruct S as [_ _ (_ & Hrange & _) _ _ [Hi1 Hi2] _ Htodo _ _ _ _ _ _]. sp_simpl.
  cbn [fv] in *.
  assert (Hj1 : 0 <= j1 < dim1) by (apply Hrange; lia).
  destruct (Htodo low ltac:(lia)) as [Hr Hd].
  destruct (assigned_col j1 Hj1 Hr) as (Hi & Hrs & _).
  unfold ured. rewrite Hrs. repeat split; auto; lia.
Qed.

Lemma RL_start : RLInv up up d pred cl.
Proof.
  destruct relax_facts as (Hlow & Hup & _).
  destruct S as [Hld Hlp Hperm Hfd _ _ _ _ Hunsc _ _ Hpred _ _]. sp_simpl. cbn [fv] in *.
  constructor; auto; try lia.
  - intros p Hp. apply Hunsc; lia.
  - intros p Hp. destruct (Hpred p ltac:(lia)) as [? | (ki & Hki & _ & Hp' & Hd)];
      [now left|right].
    exists ki. split; [lia|]. auto.
Qed.

Lemma relax_red_nonneg (j : Z) : 0 <= j < dim1 -> 0 <= red i j.
Proof.
  intros Hj. destruct relax_facts as (_ & _ & Hj1 & _).
  destruct S as [_ _ _ _ _ _ _ Htodo _ _ _ _ _ _]. sp_simpl.
  destruct (Htodo low ltac:(lia)) as [Hr _]. now apply red_nonneg.
Qed.

Lemma Vv_other (d' d'' : list xcost) (j x c : Z) :
  written_d d' d'' j x -> 0 <= c -> c <> j -> Vv d'' c = Vv d' c.
Proof. intros (_ & _ & _ & Ho) Hc Hn. unfold Vv. now rewrite Ho. Qed.

(** The column at position [k] is not improved. *)
Lemma RL_skip (k up' : Z) (d' : list xcost) (pred' cl' : list Z) :
  RLInv k up' d' pred' cl' -> up <= k < dim1 ->
  Vv d' (at_ 0 cl' k) <= m + red i (at_ 0 cl' k) ->
  RLInv (k + 1) up' d' pred' cl'.
Proof.
  intros [R1 R2 R3 R4 R5 R6 R7 R8 R9 R10 R11 R12] Hk Hle.
  constructor; auto; try lia.
  intros p Hp. destruct (Z.eq_dec p k) as [->|]; [exact Hle|apply R10; lia].
Qed.

(** The column at position [k] is improved, to a distance above the minimum. *)
Lemma RL_far (k up' : Z) (d' d'' : list xcost) (pred' pred'' cl' : list Z) :
  RLInv k up' d' pred' cl' -> up <= k < dim1 ->
  m + red i (at_ 0 cl' k) < Vv d' (at_ 0 cl' k) ->
  m < m + red i (at_ 0 cl' k) ->
  written_d d' d'' (at_ 0 cl' k) (m + red i (at_ 0 cl' k)) ->
  written_pred pred' pred'' (at_ 0 cl' k) ->
  RLInv (k + 1) up' d'' pred'' cl'.
Proof.
  intros [R1 R2 R3 R4 R5 R6 R7 R8 R9 R10 R11 R12] Hk Hlt' Hgt Wd Wp.
  destruct relax_facts as (Hlow & Hup & Hj1 & Hi & Hrs & Hdj1 & Hu).
  pose proof R3 as (Hlc & Hrange & Hinj & Hsurj).
  set (j := at_ 0 cl' k) in *.
  assert (Hj : 0 <= j < dim1) by (apply Hrange; lia).
  assert (Hne : forall p, 0 <= p < dim1 -> p <> k -> at_ 0 cl' p <> j).
  { intros p Hp Hn E. apply Hinj in E; lia. }
  assert (Hpos : forall p, 0 <= p < dim1 -> 0 <= at_ 0 cl' p) by (intros p Hp; apply Hrange; lia).
  destruct Wd as (Hld'' & Hdj & Hfj & Hdo). destruct Wp as (Hlp'' & Hpj & Hpo).
  assert (HVo : forall c, 0 <= c -> c <> j -> Vv d'' c = Vv d' c).
  { intros c Hc Hn. unfold Vv. now rewrite Hdo. }
  constructor; auto; try lia.
  - intros c Hc. destruct (Z.eq_dec c j) as [->|Hn]; [exact Hfj|].
    rewrite Hdo by lia. now apply R4.
  - intros p Hp. rewrite <- (R6 p Hp).
    rewrite HVo, Hpo by (try apply Hpos; try apply Hne; lia).
    rewrite (R6 p Hp). now apply R7.
  - intros p Hp. rewrite HVo by (try apply Hpos; try apply Hne; lia). now apply R8.
  - intros p Hp. destruct (Z.eq_dec p k) as [->|Hn]; [fold j; lia|].
    rewrite HVo by (try apply Hpos; try apply Hne; lia). now apply R9.
  - intros p Hp. destruct (Z.eq_dec p k) as [->|Hn]; [fold j; lia|].
    rewrite HVo by (try apply Hpos; try apply Hne; lia). apply R10. lia.
  - intros c Hc. destruct (Z.eq_dec c j) as [->|Hn].
    + specialize (R11 j Hj). lia.
    + rewrite HVo by lia. now apply R11.
  - intros p Hp. destruct (Z.eq_dec p k) as [->|Hn].
    + right. exists low. fold j. split; [lia|]. split; [exact Hpj|]. lia.
    + rewrite HVo, Hpo by (try apply Hpos; try apply Hne; lia). now apply R12.
Qed.

(** The column at position [k] is found at the minimum and is assigned: it
    joins the columns to be scanned. *)
Lemma RL_near (k up' : Z) (d' d'' : list xcost) (pred' pred'' cl' cl'' : list Z) :
  RLInv k up' d' pred' cl' -> up <= k < dim1 ->
  m + red i (at_ 0 cl' k) < Vv d' (at_ 0 cl' k) ->
  red i (at_ 0 cl' k) = 0 -> 0 <= rowof (at_ 0 cl' k) ->
  written_d d' d'' (at_ 0 cl' k) (m + red i (at_ 0 cl' k)) ->
  written_pred pred' pred'' (at_ 0 cl' k) ->
  perm_ok dim1 cl'' ->
  at_ 0 cl'' up' = at_ 0 cl' k -> at_ 0 cl'' k = at_ 0 cl' up' ->
  (forall p, 0 <= p -> p <> k -> p <> up' -> at_ 0 cl'' p = at_ 0 cl' p) ->
  RLInv (k + 1) (up' + 1) d'' pred'' cl''.
Proof.
  intros [R1 R2 R3 R4 R5 R6 R7 R8 R9 R10 R11 R12] Hk Hlt' Hz Hrow Wd Wp Hperm'' Hcu Hck Hco.
  destruct relax_facts as (Hlow & Hup & Hj1 & Hi & Hrs & Hdj1 & Hu).
  pose proof R3 as (Hlc & Hrange & Hinj & Hsurj).
  set (j := at_ 0 cl' k) in *.
  assert (Hj : 0 <= j < dim1) by (apply Hrange; lia).
  assert (Hne : forall p, 0 <= p < dim1 -> p <> k -> at_ 0 cl' p <> j).
  { intros p Hp Hn E. apply Hinj in E; lia. }
  assert (Hpos : forall p, 0 <= p < dim1 -> 0 <= at_ 0 cl' p) by (intros p Hp; apply Hrange; lia).
  destruct Wd as (Hld'' & Hdj & Hfj & Hdo). destruct Wp as (Hlp'' & Hpj & Hpo).
  assert (HVo : forall c, 0 <= c -> c <> j -> Vv d'' c = Vv d' c).
  { intros c Hc Hn. unfold Vv. now rewrite Hdo. }
  (* the column at each position of the new list *)
  assert (Hcol : forall p, 0 <= p < dim1 ->
            (p = up' /\ at_ 0 cl'' p = j) \/
            (p = k /\ p <> up' /\ at_ 0 cl'' p = at_ 0 cl' up' /\ at_ 0 cl' up' <> j) \/
            (p <> k /\ p <> up' /\ at_ 0 cl'' p = at_ 0 cl' p /\ at_ 0 cl' p <> j)).
  { intros p Hp. destruct (Z.eq_dec p up') as [->|Hn1]; [left; auto|].
    destruct (Z.eq_dec p k) as [->|Hn2].
    - right; left. repeat split; auto. apply Hne; lia.
    - right; right. repeat split; auto. apply Hco; lia. }
  constructor; auto; try lia.
  - intros c Hc. destruct (Z.eq_dec c j) as [->|Hn]; [exact Hfj|].
    rewrite Hdo by lia. now apply R4.
  - intros p Hp. rewrite Hco by lia. now apply R6.
  - intros p Hp. rewrite <- (R6 p Hp).
    rewrite HVo, Hpo by (try apply Hpos; try apply Hne; lia).
    rewrite (R6 p Hp). now apply R7.
  - intros p Hp. destruct (Hcol p ltac:(lia)) as [[_ E] | [(? & ? & _) | (? & ? & E & Hn)]];
      [| lia |]; rewrite E.
    + split; [exact Hrow|lia].
    + rewrite HVo by (try apply Hpos; auto; lia). apply R8. lia.
  - intros p Hp. destruct (Hcol p ltac:(lia)) as [[? ?] | [(? & ? & E & Hn) | (? & ? & E & Hn)]];
      [lia | |]; rewrite E; rewrite HVo by (try apply Hpos; auto; lia); apply R9; lia.
  - intros p Hp. destruct (Hcol p ltac:(lia)) as [[_ E] | [(? & ? & E & Hn) | (? & ? & E & Hn)]];
      rewrite E.
    + lia.
    + rewrite HVo by (try apply Hpos; auto; lia). apply R10. lia.
    + rewrite HVo by (try apply Hpos; auto; lia). apply R10. lia.
  - intros c Hc. destruct (Z.eq_dec c j) as [->|Hn].
    + specialize (R11 j Hj). lia.
    + rewrite HVo by lia. now apply R11.
  - intros p Hp. destruct (Hcol p ltac:(lia)) as [[_ E] | [(? & ? & E & Hn) | (? & ? & E & Hn)]];
      rewrite E.
    + right. exists low. split; [lia|]. split; [exact Hpj|]. lia.
    + rewrite HVo, Hpo by (try apply Hpos; auto; lia). apply R12. lia.
    + rewrite HVo, Hpo by (try apply Hpos; auto; lia). apply R12. lia.
Qed.

(** What the columns of the first [up] positions keep, in terms of the new
    arrays. *)
Lemma RL_ready (k up' : Z) (d' : list xcost) (pred' cl' : list Z) :
  RLInv k up' d' pred' cl' ->
  (forall p, 0 <= p < low + 1 ->
     0 <= rowof (at_ 0 cl' p) /\ Vv d' (at_ 0 cl' p) <= m) /\
  (forall p, last < p < low + 1 -> Vv d' (at_ 0 cl' p) = m) /\
  (forall p c, 0 <= p < low -> 0 <= c < dim1 ->
     Vv d' c <= Vv d' (at_ 0 cl' p) + red (rowof (at_ 0 cl' p)) c) /\
  (forall c, 0 <= c < dim1 -> Vv d' c <= d0 c) /\
  (forall p, 0 <= p < up ->
     (at_ 0 pred' (at_ 0 cl' p) = f /\ Vv d' (at_ 0 cl' p) = d0 (at_ 0 cl' p)) \/
     (exists ki, 0 <= ki < low /\ ki < p /\
        at_ 0 pred' (at_ 0 cl' p) = rowof (at_ 0 cl' ki) /\
        Vv d' (at_ 0 cl' p)
        = Vv d' (at_ 0 cl' ki) + red (rowof (at_ 0 cl' ki)) (at_ 0 cl' p))) /\
  Vv d' (at_ 0 cl' low) = m /\ at_ 0 cl' low = j1 /\
  -1 <= last < low + 1.
Proof.
  intros [R1 R2 R3 R4 R5 R6 R7 R8 R9 R10 R11 R12].
  destruct relax_facts as (Hlow & Hup & Hj1 & Hi & Hrs & Hdj1 & Hu).
  destruct S as [Hld Hlp Hperm Hfd _ [Hi1 Hi2] Hready Htodo Hunsc Hrelax Hd0 Hpred
                 Hlast Hlastm]. sp_simpl. cbn [fv] in *.
  specialize (Hlast ltac:(lia)). specialize (Hlastm ltac:(lia)).
  assert (Hk : forall p, 0 <= p < up ->
            at_ 0 cl' p = at_ 0 cl p /\ Vv d' (at_ 0 cl' p) = Vv d (at_ 0 cl p) /\
            at_ 0 pred' (at_ 0 cl' p) = at_ 0 pred (at_ 0 cl p)).
  { intros p Hp. rewrite (R6 p Hp). destruct (R7 p Hp). auto. }
  repeat split.
  - destruct (Hk p ltac:(lia)) as (-> & _ & _).
    destruct (Z.lt_ge_cases p low); [apply Hready; lia|apply Htodo; lia].
  - destruct (Hk p ltac:(lia)) as (_ & -> & _).
    destruct (Z.lt_ge_cases p low) as [Hl|Hl]; [apply Hready; lia|].
    destruct (Htodo p ltac:(lia)) as [_ E]. lia.
  - intros p Hp. destruct (Hk p ltac:(lia)) as (_ & -> & _).
    destruct (Z.lt_ge_cases p low) as [Hl|Hl]; [apply Hlastm; lia|].
    apply Htodo. lia.
  - intros p c Hp Hc. destruct (Hk p ltac:(lia)) as (-> & -> & _).
    specialize (R11 c Hc). specialize (Hrelax p c Hp Hc). lia.
  - intros c Hc. specialize (R11 c Hc). specialize (Hd0 c Hc). lia.
  - intros p Hp. destruct (Hk p Hp) as (-> & -> & ->).
    destruct (Hpred p ltac:(lia)) as [Hl | (ki & Hki & Hkp & E1 & E2)]; [left; exact Hl|].
    right. exists ki. destruct (Hk ki ltac:(lia)) as (-> & -> & _). auto.
  - destruct (Hk low ltac:(lia)) as (_ & -> & _). exact Hdj1.
  - apply R6. lia.
  - lia.
  - lia.
Qed.

(** The column at position [k] is found at the minimum and is free: the
    search ends there. *)
Lemma RL_final (k up' : Z) (d' : list xcost) (pred' pred'' cl' : list Z) :
  RLInv k up' d' pred' cl' -> up <= k < dim1 ->
  red i (at_ 0 cl' k) = 0 -> rowof (at_ 0 cl' k) < 0 ->
  written_pred pred' pred'' (at_ 0 cl' k) ->
  SFinal (at_ 0 cl' k) (JV.mk_sp (low + 1) up' last (Fin m) d' pred'' cl').
Proof.
  intros R Hk Hz Hrow Wp.
  destruct (RL_ready _ _ _ _ _ R) as (Q1 & Q2 & Q3 & Q4 & Q5 & Q6 & Q7 & Q8).
  destruct R as [R1 R2 R3 R4 R5 R6 R7 R8 R9 R10 R11 R12].
  destruct relax_facts as (Hlow & Hup & Hj1 & Hi & Hrs & Hdj1 & Hu).
  pose proof R3 as (Hlc & Hrange & Hinj & Hsurj).
  set (j := at_ 0 cl' k) in *.
  assert (Hj : 0 <= j < dim1) by (apply Hrange; lia).
  assert (Hne : forall p, 0 <= p < dim1 -> p <> k -> at_ 0 cl' p <> j).
  { intros p Hp Hn E. apply Hinj in E; lia. }
  assert (Hpos : forall p, 0 <= p < dim1 -> 0 <= at_ 0 cl' p) by (intros p Hp; apply Hrange; lia).
  destruct Wp as (Hlp'' & Hpj & Hpo).
  assert (Hge : forall c, 0 <= c < dim1 ->
            (forall p, 0 <= p < low + 1 -> at_ 0 cl' p <> c) -> m <= Vv d' c).
  { intros c Hc Hnot. destruct (Hsurj c Hc) as (q & Hq & E).
    destruct (Z.lt_ge_cases q (low + 1)) as [Hl|Hl]; [exfalso; apply (Hnot q); auto; lia|].
    rewrite <- E. destruct (Z.lt_ge_cases q up) as [Hl1|Hl1].
    - destruct S as [_ _ _ _ _ _ _ Htodo _ _ _ _ _ _]. sp_simpl. cbn [fv] in *.
      rewrite (R6 q ltac:(lia)). destruct (R7 q ltac:(lia)) as [-> _].
      destruct (Htodo q ltac:(lia)) as [_ E']. lia.
    - destruct (Z.lt_ge_cases q up') as [Hl2|Hl2].
      + destruct (R8 q ltac:(lia)) as [_ E']. lia.
      + specialize (R9 q ltac:(lia)). lia. }
  assert (Hrel : forall p c, 0 <= p < low + 1 -> 0 <= c < dim1 ->
            Vv d' (at_ 0 cl' p) = m \/
            Vv d' c <= Vv d' (at_ 0 cl' p) + red (rowof (at_ 0 cl' p)) c).
  { intros p c Hp Hc. destruct (Z.eq_dec p low) as [->|Hn]; [left; exact Q6|].
    right. apply Q3; auto. lia. }
  assert (Hpr : forall p, 0 <= p < low + 1 ->
            (at_ 0 pred'' (at_ 0 cl' p) = f /\ Vv d' (at_ 0 cl' p) = d0 (at_ 0 cl' p)) \/
            (exists ki, 0 <= ki < p /\
               at_ 0 pred'' (at_ 0 cl' p) = rowof (at_ 0 cl' ki) /\
               Vv d' (at_ 0 cl' p)
               = Vv d' (at_ 0 cl' ki) + red (rowof (at_ 0 cl' ki)) (at_ 0 cl' p))).
  { intros p Hp. rewrite Hpo by (try apply Hpos; try apply Hne; lia).
    destruct (Q5 p ltac:(lia)) as [Hl | (ki & Hki & Hkp & E1 & E2)]; [left; exact Hl|].
    right. exists ki. split; [lia|]. auto. }
  assert (Hpe : (at_ 0 pred'' j = f /\ m = d0 j) \/
            (exists ki, 0 <= ki < low + 1 /\
               at_ 0 pred'' j = rowof (at_ 0 cl' ki) /\
               m = Vv d' (at_ 0 cl' ki) + red (rowof (at_ 0 cl' ki)) j)).
  { right. exists low. split; [lia|]. rewrite Q7. split; [exact Hpj|]. 
    rewrite <- Q7 at 1. rewrite Q6. lia. }
  assert (Hnot : forall p, 0 <= p < low + 1 -> at_ 0 cl' p <> j).
  { intros p Hp. apply Hne; lia. }
  constructor; sp_simpl; cbn [fv]; auto; try lia; try (eexists; reflexivity).
Qed.

(** At the end of the loop over the unscanned columns the invariant of the
    search holds again, with one more column done. *)
Lemma RL_end (up' : Z) (d' : list xcost) (pred' cl' : list Z) :
  RLInv dim1 up' d' pred' cl' ->
  SInv (JV.mk_sp (low + 1) up' last (Fin m) d' pred' cl').
Proof.
  intros R.
  destruct (RL_ready _ _ _ _ _ R) as (Q1 & Q2 & Q3 & Q4 & Q5 & Q6 & Q7 & Q8).
  destruct R as [R1 R2 R3 R4 R5 R6 R7 R8 R9 R10 R11 R12].
  destruct relax_facts as (Hlow & Hup & Hj1 & Hi & Hrs & Hdj1 & Hu).
  pose proof R3 as (Hlc & Hrange & Hinj & Hsurj).
  assert (Htodo' : forall p, low + 1 <= p < up' ->
            0 <= rowof (at_ 0 cl' p) /\ Vv d' (at_ 0 cl' p) = m).
  { intros p Hp. destruct (Z.lt_ge_cases p up) as [Hl|Hl]; [|apply R8; lia].
    destruct S as [_ _ _ _ _ _ _ Htodo _ _ _ _ _ _]. sp_simpl. cbn [fv] in *.
    rewrite (R6 p ltac:(lia)). destruct (R7 p ltac:(lia)) as [-> _]. apply Htodo. lia. }
  assert (Hrel : forall p c, 0 <= p < low + 1 -> 0 <= c < dim1 ->
            Vv d' c <= Vv d' (at_ 0 cl' p) + red (rowof (at_ 0 cl' p)) c).
  { intros p c Hp Hc. destruct (Z.eq_dec p low) as [->|Hn]; [|apply Q3; auto; lia].
    rewrite Q6, Q7. pose proof (relax_red_nonneg c Hc) as Hnn.
    destruct (Hsurj c Hc) as (q & Hq & E). rewrite <- E in *.
    destruct (Z.lt_ge_cases q up) as [Hl|Hl]; [|apply R10; lia].
    destruct (Z.lt_ge_cases q (low + 1)) as [Hl1|Hl1].
    - destruct (Q1 q ltac:(lia)). lia.
    - destruct (Htodo' q ltac:(lia)). lia. }
  assert (Hpr : forall p, 0 <= p < dim1 ->
            (at_ 0 pred' (at_ 0 cl' p) = f /\ Vv d' (at_ 0 cl' p) = d0 (at_ 0 cl' p)) \/
            (exists ki, 0 <= ki < low + 1 /\ ki < p /\
               at_ 0 pred' (at_ 0 cl' p) = rowof (at_ 0 cl' ki) /\
               Vv d' (at_ 0 cl' p)
               = Vv d' (at_ 0 cl' ki) + red (rowof (at_ 0 cl' ki)) (at_ 0 cl' p))).
  { intros p Hp. destruct (Z.lt_ge_cases p up) as [Hl|Hl].
    - destruct (Q5 p ltac:(lia)) as [Hl' | (ki & Hki & Hkp & E1 & E2)]; [left; exact Hl'|].
      right. exists ki. split; [lia|]. auto.
    - destruct (R12 p ltac:(lia)) as [Hl' | (ki & Hki & E1 & E2)]; [left; exact Hl'|].
      right. exists ki. split; [lia|]. split; [lia|].
      rewrite (R6 ki ltac:(lia)). destruct (R7 ki ltac:(lia)) as [-> _]. auto. }
  constructor; sp_simpl; cbn [fv]; auto; try lia; try (eexists; reflexivity).
Qed.

(** The block [if (!unassigned_found)]: it returns, with the invariant of the
    search and one more column done, or at a free column that ends the
    search. *)
Lemma relax_run :
  exists found s',
    JV.sp_relax dim1 w v colsol (JV.mk_sp low up last (Fin m) d pred cl) = Ret (found, s') /\
    match found with
    | None => SInv s' /\ JV.sp_low s' = low + 1
    | Some e => SFinal e s'
    end.
Proof.
  destruct relax_facts as (Hlow & Hup & Hj1 & Hi & Hrs & Hdj1 & Hu).
  pose proof (j_len_col _ _ _ _ _ _ _ J) as Hlcs.
  pose proof (j_len_v _ _ _ _ _ _ _ J) as Hlv. pose proof (j_fin_v _ _ _ _ _ _ _ J) as Hfv.
  pose proof (s_perm _ _ _ _ _ _ _ S) as (Hlc & _). sp_simpl.
  unfold JV.sp_relax. sp_simpl.
  rewrite (rd_ok 0 cl) by lia. cbn [bind].
  rewrite (rd_ok 0 colsol) by lia. cbn [bind]. fold (rowof (at_ 0 cl low)).
  rewrite (rd_cell dim0 dim1 w Len_w Hfin i j1) by lia. cbn [bind].
  rewrite (rd_fin v j1) by (try apply Hfv; lia). cbn [bind].
  rewrite !fin_sub.
  match goal with
  | |- context [for_each (range up dim1) ?body ?init] =>
      destruct (for_each_range_total
              (fun k (st : Z * list xcost * list Z * list Z) =>
                 let '(up', d', pred', cl') := st in RLInv k up' d' pred' cl')
              (fun r : Z * @JV.sp_state xcost => SFinal (fst r) (snd r))
              body up dim1 init Hup RL_start) as (res & E & Hres)
  end.
  - intros k [[[up' d'] pred'] cl'] Hk R.
    pose proof R as [R1 R2 R3 R4 R5 R6 R7 R8 R9 R10 R11 R12].
    pose proof R3 as (Hlc' & Hrange & Hinj & Hsurj).
    set (j := at_ 0 cl' k).
    assert (Hj : 0 <= j < dim1) by (apply Hrange; lia).
    rewrite (rd_ok 0 cl') by lia. cbn [bind]. fold j.
    rewrite (rd_cell dim0 dim1 w Len_w Hfin i j) by lia. cbn [bind].
    rewrite (rd_fin v j) by (try apply Hfv; lia). cbn [bind]. cbv zeta.
    rewrite (rd_fin d' j) by (try apply R4; lia). cbn [bind].
    rewrite !fin_sub, fin_ltb, fin_eqb.
    replace (Cv i j - V j - (Cv i j1 - V j1 - m)) with (m + red i j) by (unfold red; lia).
    pose proof (relax_red_nonneg j Hj) as Hnn.
    destruct (Z.ltb_spec (m + red i j) (Vv d' j)) as [Hlt'|Hge].
    + destruct (wr_spec pred' j i ltac:(lia)) as (pred'' & Ep & Hlp'' & Hpe & Hpo).
      rewrite Ep. cbn [bind].
      assert (Wp : written_pred pred' pred'' j).
      { split; [exact Hlp''|]. split; [apply Hpe|]. intros c Hc Hn. now apply Hpo. }
      assert (Wd : forall d'', wr d' j (Fin (m + red i j)) = Ret d'' ->
                written_d d' d'' j (m + red i j)).
      { intros d'' Ed. apply wr_at in Ed as (_ & Hl'' & He & Ho).
        split; [exact Hl''|]. split; [unfold Vv; now rewrite He|].
        split; [rewrite He; eexists; reflexivity|]. intros c Hc Hn. now apply Ho. }
      destruct (Z.eqb_spec (m + red i j) m) as [Heq|Hneq].
      * rewrite (rd_ok 0 colsol) by lia. cbn [bind]. fold (rowof j).
        destruct (Z.ltb_spec (rowof j) 0) as [Hfree|Hass].
        -- eexists. split; [reflexivity|]. cbn [fst snd].
           apply (RL_final k up' d' pred' pred'' cl' R Hk); auto. fold j. lia.
        -- destruct (swap_spec dim1 cl' k up' R3 ltac:(lia) ltac:(lia))
             as (cl1 & cl2 & E1 & E2 & Hperm2 & Hcu & Hck & Hco).
           rewrite (rd_ok 0 cl') by lia. cbn [bind]. rewrite E1. cbn [bind].
           fold j in E2. rewrite E2. cbn [bind].
           destruct (wr_spec d' j (Fin (m + red i j)) ltac:(lia)) as (d'' & Ed & _).
           rewrite Ed. cbn [bind]. eexists. split; [reflexivity|].
           apply (RL_near k up' d' d'' pred' pred'' cl' cl2 R Hk); auto. fold j. lia.
      * destruct (wr_spec d' j (Fin (m + red i j)) ltac:(lia)) as (d'' & Ed & _).
        rewrite Ed. cbn [bind]. eexists. split; [reflexivity|].
        apply (RL_far k up' d' d'' pred' pred'' cl' R Hk); auto. fold j. lia.
    + eexists. split; [reflexivity|]. apply (RL_skip k up' d' pred' cl' R Hk). fold j. lia.
  - rewrite E. cbn [bind]. destruct res as [[[[up' d'] pred'] cl']|[e s']].
    + eexists _, _. split; [reflexivity|]. split; [|reflexivity]. now apply RL_end.
    + eexists _, _. split; [reflexivity|]. exact Hres.
Qed.

End Relax.

Lemma relax_step (s : @JV.sp_state xcost) :
  SInv s -> JV.sp_low s < JV.sp_up s ->
  exists found s',
    JV.sp_relax dim1 w v colsol s = Ret (found, s') /\
    match found with
    | None => SInv s' /\ JV.sp_low s' = JV.sp_low s + 1
    | Some e => SFinal e s'
    end.
Proof.
  intros S Hlt. destruct s as [low up last mn d pred cl].
  destruct (s_fin_min _ _ _ _ _ _ _ S) as [m Hm]. sp_simpl. subst mn.
  exact (relax_run low up last m d pred cl S Hlt).
Qed.

(** [do ... while (!unassigned_found)] ends at a free column: every pass
    moves one more column to the done ones, and there is a free column. *)
Lemma sp_loop_spec (fuel : nat) : forall s : @JV.sp_state xcost,
  SInv s -> dim1 - JV.sp_low s < Z.of_nat fuel ->
  exists e s', JV.sp_loop fuel dim1 w v colsol s = Ret (e, s') /\ SFinal e s'.
Proof.
  induction fuel as [|fuel IH]; intros s S Hfuel.
  - pose proof (s_idx _ _ _ _ _ _ _ S). lia.
  - cbn [JV.sp_loop].
    assert (Hhead : exists found s1,
              (if JV.sp_up s =? JV.sp_low s then JV.sp_new_minimum dim1 colsol s
               else Ret (None, s)) = Ret (found, s1) /\
              match found with
              | None => SInv s1 /\ JV.sp_low s1 = JV.sp_low s /\ JV.sp_low s1 < JV.sp_up s1
              | Some e => SFinal e s1
              end).
    { destruct (Z.eqb_spec (JV.sp_up s) (JV.sp_low s)) as [Heq|Hneq].
      - exact (new_min_step s S Heq).
      - exists None, s. split; [reflexivity|]. pose proof (s_idx _ _ _ _ _ _ _ S).
        split; [exact S|]. split; [reflexivity|lia]. }
    destruct Hhead as (found & s1 & E1 & H1). rewrite E1. cbn [bind].
    destruct found as [e|]; [exists e, s1; auto|].
    destruct H1 as (S1 & Hlow1 & Hlt1).
    destruct (relax_step s1 S1 Hlt1) as (found & s2 & E2 & H2). rewrite E2. cbn [bind].
    destruct found as [e|]; [exists e, s2; auto|].
    destruct H2 as (S2 & Hlow2). apply IH; [exact S2|lia].
Qed.

(** The arrays [d], [pred] and [collist] as the first loop of the body
    leaves them. *)
Lemma search_start (d : list xcost) (pred cl : list Z) :
  Z.of_nat (length d) = dim1 -> Z.of_nat (length pred) = dim1 ->
  Z.of_nat (length cl) = dim1 ->
  (forall j, 0 <= j < dim1 ->
     at_ (Fin 0) d j = Fin (d0 j) /\ at_ 0 pred j = f /\ at_ 0 cl j = j) ->
  SInv (JV.mk_sp 0 0 0 (Fin 0) d pred cl).
Proof.
  intros Hld Hlp Hlc Hat.
  assert (Hcl : forall j, 0 <= j < dim1 -> at_ 0 cl j = j) by (intros j Hj; apply Hat; lia).
  assert (HD : forall j, 0 <= j < dim1 -> Vv d j = d0 j).
  { intros j Hj. unfold Vv. destruct (Hat j Hj) as (-> & _). reflexivity. }
  assert (Hperm : perm_ok dim1 cl).
  { split; [exact Hlc|]. split; [|split].
    - intros k Hk. rewrite Hcl; lia.
    - intros k k' Hk Hk'. rewrite !Hcl; auto.
    - intros j Hj. exists j. split; [lia|]. now apply Hcl. }
  assert (Hfd : forall j, 0 <= j < dim1 -> is_fin (at_ (Fin 0) d j)).
  { intros j Hj. destruct (Hat j Hj) as (-> & _). eexists; reflexivity. }
  assert (Hd0 : forall j, 0 <= j < dim1 -> Vv d j <= d0 j).
  { intros j Hj. rewrite HD by lia. lia. }
  assert (Hpr : forall k, 0 <= k < dim1 ->
            (at_ 0 pred (at_ 0 cl k) = f /\ Vv d (at_ 0 cl k) = d0 (at_ 0 cl k)) \/
            (exists ki, 0 <= ki < 0 /\ ki < k /\
               at_ 0 pred (at_ 0 cl k) = rowof (at_ 0 cl ki) /\
               Vv d (at_ 0 cl k)
               = Vv d (at_ 0 cl ki) + red (rowof (at_ 0 cl ki)) (at_ 0 cl k))).
  { intros k Hk. left. rewrite Hcl by lia. split; [apply Hat; lia|now apply HD]. }
  constructor; sp_simpl; cbn [fv]; auto; try lia; try (eexists; reflexivity).
Qed.

End JVSearch.

(** ** One augmentation of the Jonker-Volgenant solver *)

Section Augment.

Variables (dim0 dim1 : Z) (w : list xcost).
Variables (rowsol colsol : list Z) (v : list xcost) (f : Z) (pend : Z -> Prop).

Hypothesis Len_w : Z.of_nat (length w) = dim0 * dim1.
Hypothesis Hfin : forall i j, 0 <= i < dim0 -> 0 <= j < dim1 -> is_fin (W dim1 w i j).
Hypothesis Hdims : 0 <= dim0 <= dim1.
Hypothesis J : JInv dim0 dim1 w pend rowsol colsol v.
Hypothesis Hf : 0 <= f < dim0.
Hypothesis Hpf : pend f.

Variables (e low up last m : Z) (d : list xcost) (pred cl : list Z).

Hypothesis F : SFinal dim1 w rowsol colsol v f e (JV.mk_sp low up last (Fin m) d pred cl).

Local Abbreviation Cv := (Cv dim1 w).
Local Abbreviation V := (Vv v).
Local Abbreviation D := (Vv d).
Local Abbreviation rowof := (rowof colsol).
Local Abbreviation red := (red dim1 w rowsol v).
Local Abbreviation ured := (ured dim1 w rowsol v).
Local Abbreviation d0 := (d0 dim1 w v f).
Local Abbreviation mu := (mu m d).
Local Abbreviation pend_rest := (pend_rest f pend).
Local Abbreviation prices_at := (prices_at dim1 v m d cl).
Local Abbreviation linked := (linked e low cl).
Local Abbreviation at_rank := (at_rank e low cl).
Local Abbreviation FInv := (FInv dim0 dim1 rowsol colsol pend e low pred cl).
Local Abbreviation FPost := (FPost dim0 dim1 rowsol colsol f pend e low pred cl).

Lemma update_prices :
  exists v',
    for_do (range 0 (last + 1))
      (fun k v => j1 <- rd cl k ;; vj1 <- rd v j1 ;; dj1 <- rd d j1 ;;
                  wr v j1 (c_sub (c_add vj1 dj1) (Fin m))) v = Ret v' /\
    Z.of_nat (length v') = dim1 /\
    (forall j, 0 <= j < dim1 -> is_fin (at_ (Fin 0) v' j)) /\
    forall j, 0 <= j < dim1 -> Vv v' j = V j + mu j - m.
Proof.
  pose proof (j_len_v _ _ _ _ _ _ _ J) as Hlv. pose proof (j_fin_v _ _ _ _ _ _ _ J) as Hfv.
  destruct F as [Hld Hlp Hperm Hfd _ [Hi1 Hi2] He Hready Hlastm Hge _ _ _ _].
  cbn [JV.sp_low JV.sp_up JV.sp_last JV.sp_min JV.sp_d JV.sp_pred JV.sp_collist fv] in *.
  pose proof Hperm as (Hlc & Hrange & Hinj & Hsurj).
  destruct (for_do_range_total prices_at
              (fun k v => j1 <- rd cl k ;; vj1 <- rd v j1 ;; dj1 <- rd d j1 ;;
                          wr v j1 (c_sub (c_add vj1 dj1) (Fin m)))
              0 (last + 1) v) as (v' & E & Hl' & Hf' & Hv').
  - lia.
  - split; [exact Hlv|]. split; [exact Hfv|]. intros p Hp.
    destruct (Z.ltb_spec p 0); [lia|reflexivity].
  - intros k v0 Hk (Hl0 & Hf0 & Hv0).
    set (j := at_ 0 cl k).
    assert (Hj : 0 <= j < dim1) by (apply Hrange; lia).
    rewrite (rd_ok 0 cl) by lia. cbn [bind]. fold j.
    rewrite (rd_fin v0 j) by (try apply Hf0; lia). cbn [bind].
    rewrite (rd_fin d j) by (try apply Hfd; lia). cbn [bind].
    rewrite fin_add, fin_sub.
    destruct (wr_spec v0 j (Fin (Vv v0 j + D j - m)) ltac:(lia)) as (v1 & E1 & Hl1 & He1 & Ho1).
    exists v1. split; [exact E1|]. split; [lia|]. split.
    + intros c Hc. destruct (Z.eq_dec c j) as [->|Hn].
      * rewrite He1. eexists; reflexivity.
      * rewrite Ho1 by lia. now apply Hf0.
    + intros p Hp. destruct (Z.eq_dec p k) as [->|Hn].
      * fold j. unfold Vv at 1. rewrite He1. cbn [fv].
        specialize (Hv0 k Hp). fold j in Hv0. rewrite Hv0.
        destruct (Z.ltb_spec k k); [lia|]. destruct (Z.ltb_spec k (k + 1)); [reflexivity|lia].
      * assert (at_ 0 cl p <> j) by (intros Eq; apply Hinj in Eq; lia).
        unfold Vv at 1. rewrite Ho1 by (try apply Hrange; auto; lia).
        fold (Vv v0 (at_ 0 cl p)). rewrite (Hv0 p Hp).
        destruct (Z.ltb_spec p k), (Z.ltb_spec p (k + 1)); try reflexivity; lia.
  - exists v'. split; [exact E|]. split; [exact Hl'|]. split; [exact Hf'|].
    intros j Hj. destruct (Hsurj j Hj) as (p & Hp & Ep). rewrite <- Ep.
    rewrite (Hv' p Hp). unfold mu.
    destruct (Z.ltb_spec p (last + 1)) as [Hlt|Hgel].
    + destruct (Hready p ltac:(lia)) as [_ Hle]. lia.
    + destruct (Z.lt_ge_cases p low) as [Hlt|Hgl].
      * rewrite (Hlastm p) by lia. lia.
      * assert (m <= D (at_ 0 cl p)); [|lia].
        apply Hge; [apply Hrange; lia|]. intros q Hq Eq. apply Hinj in Eq; lia.
Qed.

Ltac sf_simpl :=
  cbn [JV.sp_low JV.sp_up JV.sp_last JV.sp_min JV.sp_d JV.sp_pred JV.sp_collist fv] in *.

Lemma mu_le (j : Z) : mu j <= D j /\ mu j <= m.
Proof. unfold mu. lia. Qed.

Lemma old_red_nonneg (i j : Z) :
  0 <= i < dim0 -> ~ pend i -> 0 <= j < dim1 -> 0 <= red i j.
Proof.
  intros Hi Hn Hj. pose proof (j_min _ _ _ _ _ _ _ J i j Hi Hn Hj).
  unfold red, ured. lia.
Qed.

(** The cut distances satisfy the triangle inequality through every
    matched row. *)
Lemma mu_relax (i j : Z) :
  0 <= i < dim0 -> ~ pend i -> 0 <= j < dim1 -> mu j <= mu (at_ 0 rowsol i) + red i j.
Proof.
  intros Hi Hn Hj. pose proof (old_red_nonneg i j Hi Hn Hj) as Hnn.
  destruct (j_row _ _ _ _ _ _ _ J i Hi Hn) as [Hjo Hback].
  destruct F as [_ _ Hperm _ _ _ _ Hready _ Hge Hrelax _ _ _]. sf_simpl.
  pose proof Hperm as (Hlc & Hrange & Hinj & Hsurj).
  set (jo := at_ 0 rowsol i) in *.
  destruct (Hsurj jo Hjo) as (p & Hp & Ep).
  pose proof (mu_le j) as [Hm1 Hm2].
  destruct (Z.lt_ge_cases p low) as [Hlt|Hgl].
  - destruct (Hready p ltac:(lia)) as [_ Hle]. rewrite Ep in Hle.
    destruct (Hrelax p j ltac:(lia) Hj) as [Heq|Hr]; rewrite Ep in *.
    + unfold mu at 2. lia.
    + unfold rowof in Hr. rewrite Hback in Hr. unfold mu at 2. lia.
  - assert (m <= D jo).
    { apply Hge; [exact Hjo|]. intros q Hq Eq. rewrite <- Ep in Eq. apply Hinj in Eq; lia. }
    unfold mu at 2. lia.
Qed.

Lemma at_rank_linked (j q : Z) : at_rank j q -> linked j /\ 0 <= j < dim1 /\ 0 <= q <= low.
Proof.
  destruct F as [_ _ (_ & Hrange & _) _ _ [Hi1 Hi2] (He & _) _ _ _ _ _ _ _]. sf_simpl.
  intros [[-> ->] | [Hq ->]].
  - split; [now left|]. split; [exact He|lia].
  - split; [right; exists q; auto|]. split; [apply Hrange; lia|lia].
Qed.

(** The predecessor of a linked column: the free row, or the row of a
    column done earlier, at the distance the search recorded. *)
Lemma linked_pred (j q : Z) :
  at_rank j q ->
  (at_ 0 pred j = f /\ mu j = d0 j) \/
  (exists ki, 0 <= ki < q /\ ki < low /\
     0 <= rowof (at_ 0 cl ki) < dim0 /\ ~ pend (rowof (at_ 0 cl ki)) /\
     at_ 0 rowsol (rowof (at_ 0 cl ki)) = at_ 0 cl ki /\
     at_ 0 pred j = rowof (at_ 0 cl ki) /\
     mu (at_ 0 cl ki) = D (at_ 0 cl ki) /\
     mu j = D (at_ 0 cl ki) + red (rowof (at_ 0 cl ki)) j).
Proof.
  destruct F as [_ _ Hperm _ _ [Hi1 Hi2] (He & Hfree & Hnot) Hready _ Hge _ _ Hpr Hpe]. sf_simpl.
  pose proof Hperm as (Hlc & Hrange & Hinj & Hsurj).
  assert (Hold : forall ki, 0 <= ki < low ->
            0 <= rowof (at_ 0 cl ki) < dim0 /\ ~ pend (rowof (at_ 0 cl ki)) /\
            at_ 0 rowsol (rowof (at_ 0 cl ki)) = at_ 0 cl ki /\
            mu (at_ 0 cl ki) = D (at_ 0 cl ki)).
  { intros ki Hki. destruct (Hready ki Hki) as [Hr Hle].
    destruct (assigned_col dim0 dim1 w rowsol colsol v pend J (at_ 0 cl ki)
                ltac:(apply Hrange; lia) Hr) as (H1 & H2 & H3).
    repeat split; auto; try lia. unfold mu. lia. }
  intros [[-> ->] | [Hq ->]].
  - assert (Hmu : mu e = m).
    { assert (m <= D e) by (apply Hge; auto). unfold mu. lia. }
    rewrite Hmu. destruct Hpe as [[H1 H2] | (ki & Hki & H1 & H2)]; [left; auto|].
    right. exists ki. destruct (Hold ki Hki) as (A1 & A2 & A3 & A4).
    repeat split; auto; lia.
  - assert (Hmu : mu (at_ 0 cl q) = D (at_ 0 cl q)) by (apply Hold; lia).
    rewrite Hmu. destruct (Hpr q Hq) as [[H1 H2] | (ki & Hki & H1 & H2)]; [left; auto|].
    right. exists ki. destruct (Hold ki ltac:(lia)) as (A1 & A2 & A3 & A4).
    repeat split; auto; lia.
Qed.

Lemma flip_start : FInv e low rowsol colsol.
Proof.
  pose proof J as [Hlr Hlc _ _ _ _ Hcol Hrow _].
  destruct F as [_ _ _ _ _ _ (He & Hfree & _) _ _ _ _ _ _ _]. sf_simpl.
  constructor; auto.
  - left. auto.
  - intros i Hi Hn. destruct (Hrow i Hi Hn) as [H1 H2]. split; [exact H1|]. split; [|exact H2].
    intros Eq. rewrite Eq in H2. unfold rowof in Hfree. lia.
Qed.

Lemma not_rest (i : Z) : ~ pend_rest i -> i = f \/ ~ pend i.
Proof.
  intros Hn. destruct (Z.eq_dec i f) as [->|Hne]; [now left|right].
  intros Hp. apply Hn. split; assumption.
Qed.

(** The walk from column [j] ends, within [q + 1] steps. *)
Lemma flip_spec (fuel : nat) : forall (j q : Z) (rs cs : list Z),
  FInv j q rs cs -> q < Z.of_nat fuel ->
  exists rs' cs', JV.flip_path fuel f pred j rs cs = Ret (rs', cs') /\ FPost rs' cs'.
Proof.
  pose proof (f_len_pred _ _ _ _ _ _ _ _ F) as Hlp.
  pose proof (f_perm _ _ _ _ _ _ _ _ F) as (Hlcl & Hrange & Hinj & Hsurj).
  pose proof (f_e _ _ _ _ _ _ _ _ F) as (He & Hefree & Henot).
  pose proof (f_idx _ _ _ _ _ _ _ _ F) as [Hlow _]. sf_simpl.
  induction fuel as [|fuel IH]; intros j q rs cs I Hfuel.
  - destruct (at_rank_linked j q (fi_at _ _ _ _ _ _ _ _ _ _ _ _ _ I)) as (_ & _ & Hq). lia.
  - destruct I as [Hlr Hlc Hat Hrows Hcols Hnew Hfree].
    destruct (at_rank_linked j q Hat) as (Hlink & Hj & Hq).
    cbn [JV.flip_path].
    rewrite (rd_ok 0 pred) by lia. cbn [bind].
    set (i := at_ 0 pred j).
    assert (Hi : 0 <= i < dim0).
    { destruct (linked_pred j q Hat) as [[H1 _] | (ki & _ & _ & H1 & _ & _ & H2 & _)];
        unfold i; [rewrite H1; exact Hf|rewrite H2; exact H1]. }
    destruct (wr_spec cs j i ltac:(lia)) as (cs' & Ecs & Hlcs' & Hcse & Hcso).
    rewrite Ecs. cbn [bind]. rewrite (rd_ok 0 rs) by lia. cbn [bind].
    destruct (wr_spec rs i j ltac:(lia)) as (rs' & Ers & Hlrs' & Hrse & Hrso).
    rewrite Ers. cbn [bind].
    destruct (Z.eqb_spec i f) as [Hif|Hif].
    + (* the free row: the walk ends *)
      exists rs', cs'. split; [reflexivity|].
      constructor; try lia.
      * intros j' Hj'. destruct (Z.eq_dec j' j) as [->|Hn].
        -- right. rewrite Hcse. split; [exact Hi|]. split; [apply Hrse|].
           rewrite Hif. intros [_ Hc]. now apply Hc.
        -- rewrite Hcso by lia. destruct (Hcols j' Hj' Hn) as [?|(H1 & H2 & H3)]; [now left|right].
           split; [exact H1|]. assert (at_ 0 cs j' <> i) by (intros Eq; rewrite Eq, Hif in H3; auto).
           split; [rewrite Hrso by lia; exact H2|]. intros [Hp _]. auto.
      * intros i' Hi' Hn'. destruct (Z.eq_dec i' i) as [->|Hne].
        -- rewrite Hrse. split; [exact Hj|apply Hcse].
        -- rewrite Hrso by lia. destruct (not_rest i' Hn') as [?|Hnp]; [congruence|].
           destruct (Hrows i' Hi' Hnp) as (H1 & H2 & H3). split; [exact H1|].
           rewrite Hcso by lia. exact H3.
      * intros i' Hi' Hn'. destruct (Z.eq_dec i' i) as [->|Hne].
        -- right. rewrite Hrse. split; [reflexivity|exact Hlink].
        -- rewrite Hrso by lia. destruct (not_rest i' Hn') as [?|Hnp]; [congruence|].
           destruct (Hnew i' Hi' Hnp) as [H1 | (H1 & H2 & _)]; [left; auto|right; auto].
      * intros j' Hj' Hfr. destruct (Z.eq_dec j' j) as [->|Hn].
        -- rewrite Hcse in Hfr. lia.
        -- rewrite Hcso in Hfr by lia. now apply Hfree.
    + (* a matched row: the walk goes on at its former column *)
      destruct (linked_pred j q Hat) as [[H1 _] | (ki & Hki & Hkl & Hri & Hnp & Hrs & Hpj & _)];
        [unfold i in Hif; contradiction|].
      fold i in Hpj. rewrite <- Hpj in Hri, Hnp, Hrs.
      set (jo := at_ 0 cl ki) in *.
      assert (Hjo : 0 <= jo < dim1) by (apply Hrange; lia).
      assert (Hrsi : at_ 0 rs i = jo).
      { destruct (Hnew i Hi Hnp) as [H1 | (_ & _ & p & Hp & H1)]; [congruence|].
        rewrite Hrs in H1. apply Hinj in H1; lia. }
      rewrite Hrsi.
      assert (Hjne : j <> jo).
      { destruct Hat as [[-> _] | [Hq' ->]].
        - intros Eq. apply (Henot ki); [lia|]. now symmetry.
        - intros Eq. apply Hinj in Eq; lia. }
      apply (IH jo ki); [|lia].
      constructor; try lia.
      * right. split; [lia|reflexivity].
      * intros i' Hi' Hn'. destruct (Z.eq_dec i' i) as [->|Hne].
        -- rewrite Hrse. split; [exact Hj|]. split; [exact Hjne|apply Hcse].
        -- rewrite Hrso by lia. destruct (Hrows i' Hi' Hn') as (H1 & H2 & H3).
           split; [exact H1|]. split.
           ++ intros Eq. destruct (Hrows i Hi Hnp) as (_ & _ & H3'). 
              rewrite Hrsi in H3'. rewrite Eq in H3. congruence.
           ++ rewrite Hcso by lia. exact H3.
      * intros j' Hj' Hn. destruct (Z.eq_dec j' j) as [->|Hnj].
        -- right. rewrite Hcse. split; [exact Hi|]. split; [apply Hrse|exact Hnp].
        -- rewrite Hcso by lia. destruct (Hcols j' Hj' Hnj) as [?|(H1 & H2 & H3)]; [now left|right].
           split; [exact H1|]. assert (at_ 0 cs j' <> i) by (intros Eq; rewrite Eq in H2; congruence).
           split; [rewrite Hrso by lia; exact H2|exact H3].
      * intros i' Hi' Hn'. destruct (Z.eq_dec i' i) as [->|Hne].
        -- right. rewrite Hrse. split; [reflexivity|]. split; [exact Hlink|].
           exists ki. split; [lia|exact Hrs].
        -- rewrite Hrso by lia.
           destruct (Hnew i' Hi' Hn') as [H1 | (H1 & H2 & p & Hp & H3)]; [left; auto|right].
           split; [exact H1|]. split; [exact H2|]. exists p. split; [lia|exact H3].
      * intros j' Hj' Hn Hfr. destruct (Z.eq_dec j' j) as [->|Hnj].
        -- rewrite Hcse in Hfr. lia.
        -- rewrite Hcso in Hfr by lia. now apply Hfree.
Qed.

(** The matching after the walk, with the updated prices, satisfies the
    invariant of the solver for the rows left to augment. *)
Lemma augmented (rs cs : list Z) (v' : list xcost) :
  FPost rs cs ->
  Z.of_nat (length v') = dim1 ->
  (forall j, 0 <= j < dim1 -> is_fin (at_ (Fin 0) v' j)) ->
  (forall j, 0 <= j < dim1 -> Vv v' j = V j + mu j - m) ->
  JInv dim0 dim1 w pend_rest rs cs v'.
Proof.
  intros [Hlr Hlc Hcols Hrows Hnew Hfree] Hlv' Hfv' Hv'.
  pose proof (f_perm _ _ _ _ _ _ _ _ F) as (Hlcl & Hrange & Hinj & Hsurj).
  pose proof (f_ready _ _ _ _ _ _ _ _ F) as Hready.
  pose proof (f_ge _ _ _ _ _ _ _ _ F) as Hge.
  pose proof (f_d0 _ _ _ _ _ _ _ _ F) as Hd0. sf_simpl.
  constructor; auto.
  - intros j Hj. rewrite Hv' by lia. pose proof (j_vle _ _ _ _ _ _ _ J j Hj).
    pose proof (mu_le j). lia.
  - intros j Hj Hfr. destruct (Hfree j Hj Hfr) as [Hold Hne].
    rewrite Hv' by lia. rewrite (j_v0 _ _ _ _ _ _ _ J j Hj Hold).
    assert (m <= D j); [|unfold mu; lia].
    apply Hge; [exact Hj|]. intros p Hp Eq. destruct (Hready p Hp) as [Hr _].
    unfold rowof in Hr. rewrite Eq in Hr. lia.
  - intros i j Hi Hn Hj. destruct (Hrows i Hi Hn) as [Hjn Hback].
    set (jn := at_ 0 rs i) in *. rewrite !Hv' by lia.
    destruct (Hnew i Hi Hn) as [[Hnp Hsame] | [Hp Hlink]].
    + fold jn in Hsame. rewrite Hsame. pose proof (mu_relax i j Hi Hnp Hj) as Hr.
      unfold red, ured in Hr. lia.
    + fold jn in Hp, Hlink.
      assert (Hat : exists q, at_rank jn q).
      { destruct Hlink as [Eq|(p & Hp' & Eq)]; [exists low; left; auto|].
        exists p. right. auto. }
      destruct Hat as [q Hat].
      destruct (linked_pred jn q Hat) as [[H1 H2] | (ki & _ & Hkl & Hri & Hnp & Hrs & Hpj & Hmo & Hmj)].
      * (* the free row *)
        assert (Eif : i = f) by congruence.
        pose proof (mu_le j) as [Hm1 _]. specialize (Hd0 j Hj).
        unfold d0 in *. rewrite Eif. lia.
      * rewrite Hp in Hpj. rewrite <- Hpj in Hri, Hnp, Hrs, Hmj.
        pose proof (mu_relax i j Hi Hnp Hj) as Hr. rewrite Hrs, Hmo in Hr.
        unfold red, ured in *. rewrite Hrs in *. lia.
Qed.

End Augment.

Section AugmentRow.

Variables (dim0 dim1 : Z) (w : list xcost).

Hypothesis Len_w : Z.of_nat (length w) = dim0 * dim1.
Hypothesis Hfin : forall i j, 0 <= i < dim0 -> 0 <= j < dim1 -> is_fin (W dim1 w i j).
Hypothesis Hdims : 0 <= dim0 <= dim1.

(** The body of [for (f = 0; f < numfree; f++)]: it returns, and the row
    [free[f]] is no longer to be augmented. *)
Theorem augment_row_spec (fuel : nat) (free : list Z) (fi : Z) (pend : Z -> Prop)
    (rowsol colsol : list Z) (v d : list xcost) (pred cl : list Z) :
  JInv dim0 dim1 w pend rowsol colsol v ->
  0 <= fi < Z.of_nat (length free) -> 0 <= at_ 0 free fi < dim0 -> pend (at_ 0 free fi) ->
  Z.of_nat (length d) = dim1 -> Z.of_nat (length pred) = dim1 ->
  Z.of_nat (length cl) = dim1 -> dim1 < Z.of_nat fuel ->
  exists rs cs v' d' pred' cl',
    JV.augment_row fuel dim1 w free fi (rowsol, colsol, v, (d, pred, cl))
    = Ret (rs, cs, v', (d', pred', cl')) /\
    JInv dim0 dim1 w (pend_rest (at_ 0 free fi) pend) rs cs v' /\
    Z.of_nat (length d') = dim1 /\ Z.of_nat (length pred') = dim1 /\
    Z.of_nat (length cl') = dim1.
Proof.
  intros J Hfi Hf Hpf Hld Hlp Hlc Hfuel.
  pose proof (j_len_v _ _ _ _ _ _ _ J) as Hlv. pose proof (j_fin_v _ _ _ _ _ _ _ J) as Hfv.
  unfold JV.augment_row. rewrite (rd_ok 0 free) by lia. cbn [bind].
  set (f := at_ 0 free fi) in *.
  (* the arrays of the search *)
  match goal with
  | |- context [for_do (upto dim1) ?body ?init] =>
      destruct (for_do_upto_total
                  (fun k (st : list xcost * list Z * list Z) =>
                     let '(d1, pred1, cl1) := st in
                     Z.of_nat (length d1) = dim1 /\ Z.of_nat (length pred1) = dim1 /\
                     Z.of_nat (length cl1) = dim1 /\
                     forall j, 0 <= j < k ->
                       at_ (Fin 0) d1 j = Fin (d0 dim1 w v f j) /\ at_ 0 pred1 j = f /\
                       at_ 0 cl1 j = j)
                  body dim1 init) as ([[d1 pred1] cl1] & E1 & Hld1 & Hlp1 & Hlc1 & Hat1)
  end.
  - lia.
  - repeat split; auto; lia.
  - intros k [[d1 pred1] cl1] Hk (Hld1 & Hlp1 & Hlc1 & Hat1).
    rewrite (rd_cell dim0 dim1 w Len_w Hfin f k) by lia. cbn [bind].
    rewrite (rd_fin v k) by (try apply Hfv; lia). cbn [bind]. rewrite fin_sub.
    destruct (wr_spec d1 k (Fin (Cv dim1 w f k - Vv v k)) ltac:(lia)) as (d2 & Ed & Hld2 & Hde & Hdo).
    destruct (wr_spec pred1 k f ltac:(lia)) as (pred2 & Ep & Hlp2 & Hpe & Hpo).
    destruct (wr_spec cl1 k k ltac:(lia)) as (cl2 & Ec & Hlc2 & Hce & Hco).
    rewrite Ed. cbn [bind]. rewrite Ep. cbn [bind]. rewrite Ec. cbn [bind].
    eexists. split; [reflexivity|]. cbn beta iota.
    split; [lia|]. split; [lia|]. split; [lia|].
    intros j Hj. destruct (Z.eq_dec j k) as [->|Hn].
    + rewrite Hde, Hpe, Hce. auto.
    + rewrite Hdo, Hpo, Hco by lia. apply Hat1. lia.
  - rewrite E1. cbn [bind].
    assert (S0 : SInv dim1 w rowsol colsol v f (JV.mk_sp 0 0 0 (Fin 0) d1 pred1 cl1)).
    { apply (search_start dim0 dim1 w rowsol colsol v f Hdims Hf); auto. }
    destruct (sp_loop_spec dim0 dim1 w rowsol colsol v f pend Len_w Hfin Hdims J Hf Hpf fuel
                _ S0 ltac:(cbn; lia)) as (e & [low up last mn d' pred' cl'] & E2 & F).
    change (@c_zero xcost exact_cost) with (Fin 0). rewrite E2. cbn [bind].
    destruct (f_fin_min _ _ _ _ _ _ _ _ F) as [m Hm].
    cbn [JV.sp_low JV.sp_up JV.sp_last JV.sp_min JV.sp_d JV.sp_pred JV.sp_collist] in *.
    subst mn.
    destruct (update_prices dim0 dim1 w rowsol colsol v f pend J e low up last m d' pred' cl' F)
      as (v' & E3 & Hlv' & Hfv' & Hv').
    rewrite E3. cbn [bind].
    pose proof (f_idx _ _ _ _ _ _ _ _ F) as [Hlow _]. cbn [JV.sp_low] in Hlow.
    destruct (flip_spec dim0 dim1 w rowsol colsol v f pend J Hf Hpf e low up last m d' pred' cl'
                F fuel e low rowsol colsol
                (flip_start dim0 dim1 w rowsol colsol v f pend J e low up last m d' pred' cl' F)
                ltac:(lia)) as (rs & cs & E4 & Post).
    rewrite E4. cbn [bind].
    exists rs, cs, v', d', pred', cl'. split; [reflexivity|].
    split; [apply (augmented dim0 dim1 w rowsol colsol v f pend J e low up last m d' pred' cl' F);
            auto|].
    split; [exact (f_len_d _ _ _ _ _ _ _ _ F)|].
    split; [exact (f_len_pred _ _ _ _ _ _ _ _ F)|].
    exact (proj1 (f_perm _ _ _ _ _ _ _ _ F)).
Qed.

End AugmentRow.

(** ** The Jonker-Volgenant solver over exact costs *)

Lemma zsum_bounded (g : Z -> Z) (c : Z) (l : list Z) :
  (forall x, In x l -> g x <= c) -> zsum g l <= Z.of_nat (length l) * c.
Proof.
  induction l as [|x l IH]; intros Hg; [simpl; lia|].
  pose proof (Hg x (or_introl eq_refl)). specialize (IH (fun y Hy => Hg y (or_intror Hy))).
  cbn [zsum fold_right length]. fold (zsum g l). lia.
Qed.

Lemma zsum_ext (g h : Z -> Z) (l : list Z) :
  (forall x, In x l -> g x = h x) -> zsum g l = zsum h l.
Proof.
  induction l as [|x l IH]; intros Hg; [reflexivity|].
  cbn [zsum fold_right]. fold (zsum g l). fold (zsum h l).
  rewrite (Hg x (or_introl eq_refl)), IH; [reflexivity|]. intros y Hy. apply Hg. now right.
Qed.

(** The first loop of [rlap]: every row is free and unassigned. *)
Lemma init_rows (dim0 : Z) (rowsol : list Z) :
  0 <= dim0 -> Z.of_nat (length rowsol) = dim0 ->
  exists free rs,
    for_do (upto dim0)
      (fun i '(free, rowsol, numfree) =>
         free <- wr free i i ;; rowsol <- wr rowsol i (-1) ;; Ret (free, rowsol, numfree + 1))
      (repeat 0 (Z.to_nat dim0), rowsol, 0) = Ret (free, rs, dim0) /\
    Z.of_nat (length free) = dim0 /\ Z.of_nat (length rs) = dim0 /\
    forall i, 0 <= i < dim0 -> at_ 0 free i = i /\ at_ 0 rs i = -1.
Proof.
  intros Hd Hlr.
  destruct (for_do_upto_total
              (fun k (st : list Z * list Z * Z) =>
                 let '(free, rs, n) := st in
                 n = k /\ Z.of_nat (length free) = dim0 /\ Z.of_nat (length rs) = dim0 /\
                 forall i, 0 <= i < k -> at_ 0 free i = i /\ at_ 0 rs i = -1)
              (fun i '(free, rowsol, numfree) =>
                 free <- wr free i i ;; rowsol <- wr rowsol i (-1) ;;
                 Ret (free, rowsol, numfree + 1))
              dim0 (repeat 0 (Z.to_nat dim0), rowsol, 0))
    as ([[free rs] n] & E & -> & Hlf & Hlrs & Hat).
  - lia.
  - rewrite repeat_length. repeat split; try lia.
  - intros k [[free rs] n] Hk (-> & Hlf & Hlrs & Hat).
    destruct (wr_spec free k k ltac:(lia)) as (free' & Ef & Hlf' & Hfe & Hfo).
    destruct (wr_spec rs k (-1) ltac:(lia)) as (rs' & Er & Hlr' & Hre & Hro).
    rewrite Ef. cbn [bind]. rewrite Er. cbn [bind]. eexists. split; [reflexivity|].
    cbn beta iota. split; [reflexivity|]. split; [lia|]. split; [lia|].
    intros i Hi. destruct (Z.eq_dec i k) as [->|Hn].
    + rewrite Hfe, Hre. auto.
    + rewrite Hfo, Hro by lia. apply Hat. lia.
  - exists free, rs. auto.
Qed.

(** The second loop: every column is unassigned. *)
Lemma init_cols (dim1 : Z) (colsol : list Z) :
  0 <= dim1 -> Z.of_nat (length colsol) = dim1 ->
  exists cs,
    for_do (upto dim1) (fun j colsol => wr colsol j (-1)) colsol = Ret cs /\
    Z.of_nat (length cs) = dim1 /\ forall j, 0 <= j < dim1 -> at_ 0 cs j = -1.
Proof.
  intros Hd Hlc.
  destruct (for_do_upto_total
              (fun k (cs : list Z) =>
                 Z.of_nat (length cs) = dim1 /\ forall j, 0 <= j < k -> at_ 0 cs j = -1)
              (fun j colsol => wr colsol j (-1)) dim1 colsol) as (cs & E & Hl & Hat).
  - lia.
  - split; [exact Hlc|]. intros; lia.
  - intros k cs Hk (Hl & Hat).
    destruct (wr_spec cs k (-1) ltac:(lia)) as (cs' & Ec & Hl' & Hce & Hco).
    exists cs'. split; [exact Ec|]. split; [lia|].
    intros j Hj. destruct (Z.eq_dec j k) as [->|Hn]; [apply Hce|].
    rewrite Hco by lia. apply Hat. lia.
  - exists cs. auto.
Qed.

Section Rlap.

Variables (dim0 dim1 : Z) (w : list xcost) (B : Z).

Hypothesis Len_w : Z.of_nat (length w) = dim0 * dim1.
Hypothesis Hfin : forall i j, 0 <= i < dim0 -> 0 <= j < dim1 -> is_fin (W dim1 w i j).
Hypothesis Hdims : 0 <= dim0 <= dim1.
Hypothesis Hdim1 : 2 <= dim1.
Hypothesis HB : 0 <= B.
Hypothesis Hbound : forall i j, 0 <= i < dim0 -> 0 <= j < dim1 -> - B <= Cv dim1 w i j <= B.
Hypothesis HmaxB : (4 * dim0 + 3) * B < x_max.

Local Abbreviation Cv := (Cv dim1 w).
Local Abbreviation JInv := (JInv dim0 dim1 w).
Local Abbreviation AInv := (AInv dim0 dim1 w B).

(** The invariant of the row reduction holds at its start, when the prices
    are zero. *)
Lemma arr_start (free rs cs : list Z) (v : list xcost) :
  Z.of_nat (length free) = dim0 -> Z.of_nat (length rs) = dim0 ->
  Z.of_nat (length cs) = dim1 -> Z.of_nat (length v) = dim1 ->
  (forall i, 0 <= i < dim0 -> at_ 0 free i = i) ->
  (forall j, 0 <= j < dim1 -> at_ 0 cs j = -1) ->
  (forall j, 0 <= j < dim1 -> at_ (Fin 0) v j = Fin 0) ->
  AInv 0 dim0 0 (JV.mk_arr free 0 rs cs v).
Proof.
  intros Hlf Hlr Hlc Hlv Hfree Hcs Hv.
  assert (HV : forall j, 0 <= j < dim1 -> Vv v j = 0).
  { intros j Hj. unfold Vv. now rewrite Hv. }
  assert (Hpend : forall i, 0 <= i < dim0 -> pendA free 0 0 dim0 i).
  { intros i Hi. exists i. split; [right; lia|now apply Hfree]. }
  constructor; cbn [JV.arr_free JV.arr_numfree JV.arr_rowsol JV.arr_colsol JV.arr_v];
    try lia.
  - constructor; auto.
    + intros j Hj. rewrite Hv by lia. eexists; reflexivity.
    + intros j Hj. rewrite HV by lia. lia.
    + intros i Hi Hn. exfalso. auto.
    + intros i j Hi Hn. exfalso. auto.
  - split.
    + intros p [Hp|Hp]; [lia|]. rewrite Hfree; lia.
    + intros p q [Hp|Hp] [Hq|Hq]; try lia. rewrite !Hfree by lia. auto.
  - intros j Hj. rewrite HV by lia. nia.
Qed.

Lemma arr_measure_bound (a0 prev : Z) (s : @JV.arr_state xcost) :
  AInv a0 prev 0 s -> a0 <= dim0 ->
  arr_measure dim1 B a0 prev 0 s <= dim0 + dim1 * (2 * dim0 + 1) * (2 * B).
Proof.
  intros A Ha0. unfold arr_measure.
  destruct (a_idx _ _ _ _ _ _ _ _ A) as [_ [_ Hprev]].
  pose proof (zsum_bounded (fun j => Vv (JV.arr_v s) j + (a0 + prev + 1) * (2 * B))
                ((2 * dim0 + 1) * (2 * B)) (upto dim1)) as Hs.
  rewrite length_upto, Z2Nat.id in Hs by lia.
  assert (zsum (fun j => Vv (JV.arr_v s) j + (a0 + prev + 1) * (2 * B)) (upto dim1)
          <= dim1 * ((2 * dim0 + 1) * (2 * B))).
  { apply Hs. intros j Hj. apply In_upto in Hj.
    pose proof (j_vle _ _ _ _ _ _ _ (a_J _ _ _ _ _ _ _ _ A) j Hj). nia. }
  lia.
Qed.

(** [for (loopcnt = 0; loopcnt < 2; loopcnt++)]: both passes return, with
    the invariant of the solver for the rows left in the free list. *)
Lemma arr_passes (fuel : nat) (free rs cs : list Z) (v : list xcost) :
  AInv 0 dim0 0 (JV.mk_arr free 0 rs cs v) ->
  dim0 + dim1 * (2 * dim0 + 1) * (2 * B) < Z.of_nat fuel ->
  exists s,
    for_do (upto 2)
      (fun (loopcnt : Z) s =>
         JV.arr_loop fuel dim1 w (JV.arr_numfree s) 0
           (JV.mk_arr (JV.arr_free s) 0 (JV.arr_rowsol s) (JV.arr_colsol s) (JV.arr_v s)))
      (JV.mk_arr free dim0 rs cs v) = Ret s /\
    JInv (pendF (JV.arr_free s) (JV.arr_numfree s) 0)
         (JV.arr_rowsol s) (JV.arr_colsol s) (JV.arr_v s) /\
    Z.of_nat (length (JV.arr_free s)) = dim0 /\ 0 <= JV.arr_numfree s <= dim0 /\
    (forall p, 0 <= p < JV.arr_numfree s -> 0 <= at_ 0 (JV.arr_free s) p < dim0) /\
    (forall p q, 0 <= p < JV.arr_numfree s -> 0 <= q < JV.arr_numfree s ->
                 at_ 0 (JV.arr_free s) p = at_ 0 (JV.arr_free s) q -> p = q).
Proof.
  intros A0 Hfuel.
  change (upto 2) with [0; 1]. cbn [for_do JV.arr_free JV.arr_numfree JV.arr_rowsol JV.arr_colsol JV.arr_v].
  pose proof (arr_measure_bound 0 dim0 _ A0 ltac:(lia)) as Hm0.
  destruct (arr_loop_spec dim0 dim1 w B Len_w Hfin Hdims Hdim1 HB Hbound HmaxB 0 dim0 fuel 0 _ A0
              ltac:(lia)) as (s1 & E1 & A1).
  rewrite E1. cbn [bind].
  pose proof (next_pass dim0 dim1 w B 0 dim0 s1 A1 ltac:(lia)) as A1'.
  pose proof (arr_measure_bound _ _ _ A1' ltac:(lia)) as Hm1.
  destruct (arr_loop_spec dim0 dim1 w B Len_w Hfin Hdims Hdim1 HB Hbound HmaxB (0 + dim0)
              (JV.arr_numfree s1) fuel 0 _ A1' ltac:(lia)) as (s2 & E2 & A2).
  rewrite E2. cbn [bind]. exists s2. split; [reflexivity|].
  destruct A2 as [J2 Hl2 [Hi1 [Hi2 Hi3]] _ [Hr Hd] _].
  assert (Hidx : forall p, idx (JV.arr_numfree s2) (JV.arr_numfree s1) (JV.arr_numfree s1) p
                           <-> 0 <= p < JV.arr_numfree s2) by (unfold idx; lia).
  split; [|split; [exact Hl2|split; [lia|split]]].
  - refine (JInv_ext dim0 dim1 w _ _ _ _ _ _ J2).
    intros r. unfold pendA, pendF. split; intros (p & Hp & E); exists p;
      (split; [now apply Hidx|exact E]).
  - intros p Hp. apply Hr. now apply Hidx.
  - intros p q Hp Hq. apply Hd; now apply Hidx.
Qed.

(** [for (f = 0; f < numfree; f++)]: every free row is augmented. *)
Lemma augment_all (fuel : nat) (free : list Z) (numfree : Z) (rs cs : list Z) (v d : list xcost)
    (pred cl : list Z) :
  JInv (pendF free numfree 0) rs cs v ->
  Z.of_nat (length free) = dim0 -> 0 <= numfree <= dim0 ->
  (forall p, 0 <= p < numfree -> 0 <= at_ 0 free p < dim0) ->
  (forall p q, 0 <= p < numfree -> 0 <= q < numfree -> at_ 0 free p = at_ 0 free q -> p = q) ->
  Z.of_nat (length d) = dim1 -> Z.of_nat (length pred) = dim1 ->
  Z.of_nat (length cl) = dim1 -> dim1 < Z.of_nat fuel ->
  exists rs' cs' v' rest,
    for_do (upto numfree) (JV.augment_row fuel dim1 w free) (rs, cs, v, (d, pred, cl))
    = Ret (rs', cs', v', rest) /\
    JInv (fun _ => False) rs' cs' v'.
Proof.
  intros J0 Hlf Hnf Hr Hinj Hld Hlp Hlc Hfuel.
  destruct (for_do_upto_total
              (fun k (st : list Z * list Z * list xcost * (list xcost * list Z * list Z)) =>
                 let '(rs1, cs1, v1, (d1, pred1, cl1)) := st in
                 JInv (pendF free numfree k) rs1 cs1 v1 /\
                 Z.of_nat (length d1) = dim1 /\ Z.of_nat (length pred1) = dim1 /\
                 Z.of_nat (length cl1) = dim1)
              (JV.augment_row fuel dim1 w free) numfree (rs, cs, v, (d, pred, cl)))
    as ([[[rs' cs'] v'] rest] & E & Hpost).
  - lia.
  - auto.
  - intros k [[[rs1 cs1] v1] [[d1 pred1] cl1]] Hk (J1 & Hld1 & Hlp1 & Hlc1).
    destruct (augment_row_spec dim0 dim1 w Len_w Hfin Hdims fuel free k
                (pendF free numfree k) rs1 cs1 v1 d1 pred1 cl1 J1 ltac:(lia)
                (Hr k Hk) ltac:(exists k; split; [lia|reflexivity]) Hld1 Hlp1 Hlc1 Hfuel)
      as (rs2 & cs2 & v2 & d2 & pred2 & cl2 & E & J2 & Hld2 & Hlp2 & Hlc2).
    eexists. split; [exact E|]. cbn beta iota. split; [|auto].
    refine (JInv_ext dim0 dim1 w _ _ _ _ _ _ J2).
    intros r. unfold pend_rest, pendF. split.
    + intros [(p & Hp & Ep) Hne]. exists p. split; [|exact Ep].
      assert (p <> k) by (intros ->; congruence). lia.
    + intros (p & Hp & Ep). split; [exists p; split; [lia|exact Ep]|].
      intros Eq. rewrite <- Ep in Eq. apply Hinj in Eq; lia.
  - exists rs', cs', v', rest. split; [exact E|].
    destruct rest as [[d1 pred1] cl1]. destruct Hpost as (J1 & _).
    refine (JInv_ext dim0 dim1 w _ _ _ _ _ _ J1).
    intros r. unfold pendF. split; [intros (p & Hp & _); lia|contradiction].
Qed.

(** The last loop returns. *)
Lemma optimal_cost_total (rs cs : list Z) (v u : list xcost) :
  JInv (fun _ => False) rs cs v -> Z.of_nat (length u) = dim0 ->
  exists u' total, JV.optimal_cost dim0 dim1 w rs v u = Ret (u', total).
Proof.
  intros J Hlu. unfold JV.optimal_cost.
  destruct (for_do_upto_total
              (fun (k : Z) (st : list xcost * xcost) => Z.of_nat (length (fst st)) = dim0)
              (fun i '(u, rlapcost) =>
                 j <- rd rs i ;; cij <- rd w (i * dim1 + j) ;; vj <- rd v j ;;
                 u <- wr u i (c_sub cij vj) ;; Ret (u, c_add rlapcost cij))
              dim0 (u, c_zero)) as ([u' total] & E & _).
  - lia.
  - exact Hlu.
  - intros k [u1 acc] Hk Hl. cbn [fst] in Hl.
    destruct (j_row _ _ _ _ _ _ _ J k Hk ltac:(auto)) as [Hj _].
    rewrite (rd_ok 0 rs) by (rewrite (j_len_row _ _ _ _ _ _ _ J); lia). cbn [bind].
    rewrite (rd_cell dim0 dim1 w Len_w Hfin k _ Hk Hj). cbn [bind].
    rewrite (rd_fin v) by (try apply (j_fin_v _ _ _ _ _ _ _ J);
                           rewrite ?(j_len_v _ _ _ _ _ _ _ J); lia). cbn [bind].
    destruct (wr_ok u1 k (c_sub (Fin (Cv k (at_ 0 rs k))) (Fin (Vv v (at_ 0 rs k))))
                ltac:(lia)) as (u2 & Eu & Hl2).
    rewrite Eu. cbn [bind]. eexists. split; [reflexivity|]. cbn [fst]. lia.
  - exists u', total. exact E.
Qed.

End Rlap.

(** *** What the invariant gives when no row is left to augment *)

Section JVOptimal.

Variables (dim0 dim1 : Z) (w : list xcost) (rs cs : list Z) (v : list xcost).

Hypothesis Len_w : Z.of_nat (length w) = dim0 * dim1.
Hypothesis Hfin : forall i j, 0 <= i < dim0 -> 0 <= j < dim1 -> is_fin (W dim1 w i j).
Hypothesis Hdims : 0 <= dim0 <= dim1.
Hypothesis J : JInv dim0 dim1 w (fun _ => False) rs cs v.

Local Abbreviation Cv := (Cv dim1 w).
Local Abbreviation V := (Vv v).

Lemma jv_row (i : Z) :
  0 <= i < dim0 -> 0 <= at_ 0 rs i < dim1 /\ at_ 0 cs (at_ 0 rs i) = i.
Proof. intros Hi. apply (j_row _ _ _ _ _ _ _ J i Hi). auto. Qed.

Lemma jv_assignment : assignment dim0 dim1 rs.
Proof.
  pose proof (j_len_row _ _ _ _ _ _ _ J) as Hl.
  split; [exact Hl|]. split.
  - apply (NoDup_nth rs 0). intros i j Hi Hj He.
    destruct (jv_row (Z.of_nat i) ltac:(lia)) as [_ H1].
    destruct (jv_row (Z.of_nat j) ltac:(lia)) as [_ H2].
    unfold at_ in H1, H2. rewrite !Nat2Z.id in H1, H2. rewrite He in H1. lia.
  - intros j Hj. apply (In_nth _ _ 0) in Hj as (k & Hk & <-).
    destruct (jv_row (Z.of_nat k) ltac:(lia)) as [H1 _].
    unfold at_ in H1. now rewrite Nat2Z.id in H1.
Qed.

Lemma entry_fin (i j : Z) :
  0 <= i < dim0 -> 0 <= j < dim1 -> entry dim1 w i j = Fin (Cv i j).
Proof.
  intros Hi Hj. change (entry dim1 w i j) with (W dim1 w i j).
  destruct (Hfin i j Hi Hj) as [c Hc]. unfold Cv. now rewrite Hc.
Qed.

Lemma total_of (q : list Z) :
  assignment dim0 dim1 q ->
  rowsol_total dim0 dim1 w q = Fin (zsum (fun i => Cv i (at_ 0 q i)) (upto dim0)).
Proof.
  intros (Hlq & _ & Hr). unfold rowsol_total. change (@c_zero xcost exact_cost) with (Fin 0).
  rewrite (total_exact dim1 w (fun i => nth (Z.to_nat i) q 0) (fun i => Cv i (at_ 0 q i))).
  - now rewrite Z.add_0_l.
  - intros i Hi. apply In_upto in Hi. apply entry_fin; [exact Hi|].
    apply Hr, nth_In. lia.
Qed.

(** No assignment has a smaller total. *)
Theorem jv_optimal (q : list Z) :
  assignment dim0 dim1 q ->
  c_leb (rowsol_total dim0 dim1 w rs) (rowsol_total dim0 dim1 w q) = true.
Proof.
  intros Hq. rewrite (total_of rs jv_assignment), (total_of q Hq).
  cbn. apply Z.leb_le.
  destruct Hq as (Hlq & Hnd & Hr). destruct jv_assignment as (Hlr & Hndr & Hrr).
  set (U := fun i => Cv i (at_ 0 rs i) - V (at_ 0 rs i)).
  assert (H1 : zsum (fun i => Cv i (at_ 0 rs i)) (upto dim0)
               = zsum U (upto dim0) + zsum V rs).
  { replace (zsum V rs) with (zsum V (map (fun i => at_ 0 rs i) (upto dim0)))
      by (now rewrite map_at_upto).
    rewrite zsum_map, <- zsum_add. apply zsum_ext. intros i _. unfold U. lia. }
  assert (H2 : zsum U (upto dim0) + zsum V q
               <= zsum (fun i => Cv i (at_ 0 q i)) (upto dim0)).
  { replace (zsum V q) with (zsum V (map (fun i => at_ 0 q i) (upto dim0)))
      by (now rewrite map_at_upto).
    rewrite zsum_map, <- zsum_add. apply zsum_le. intros i Hi. apply In_upto in Hi.
    assert (Hj : 0 <= at_ 0 q i < dim1) by (apply Hr, nth_In; lia).
    pose proof (j_min _ _ _ _ _ _ _ J i (at_ 0 q i) Hi ltac:(auto) Hj). unfold U. lia. }
  assert (H3 : zsum V rs <= zsum V q).
  { pose proof (zsum_columns V dim1 q Hnd Hr) as Hp.
    pose proof (zsum_columns V dim1 rs Hndr Hrr) as Hc.
    assert (zsum V (left_out dim1 q) <= 0).
    { apply zsum_nonpos. intros j Hj. apply In_left_out in Hj as [Hj _].
      exact (j_vle _ _ _ _ _ _ _ J j Hj). }
    assert (zsum V (left_out dim1 rs) = 0).
    { apply zsum_zero. intros j Hj. apply In_left_out in Hj as [Hj Hn].
      apply (j_v0 _ _ _ _ _ _ _ J j Hj).
      destruct (j_col _ _ _ _ _ _ _ J j Hj) as [? | (Hrr' & Hcc & _)]; [assumption|].
      exfalso. apply Hn. rewrite <- Hcc. apply nth_In. lia. }
    lia. }
  lia.
Qed.

(** The duals certify the matching: both optimality conditions hold for the
    [u] the last loop recovers. *)
Lemma jv_duals (u : list xcost) :
  (forall i, 0 <= i < dim0 ->
     nth (Z.to_nat i) u c_zero
     = c_sub (entry dim1 w i (nth (Z.to_nat i) rs 0))
             (nth (Z.to_nat (nth (Z.to_nat i) rs 0)) v c_zero)) ->
  dual_tight dim0 dim1 w u v rs = true /\ dual_feasible dim0 dim1 w u v = true.
Proof.
  intros Hu.
  assert (Hu' : forall i, 0 <= i < dim0 ->
            nth (Z.to_nat i) u c_zero = Fin (Cv i (at_ 0 rs i) - V (at_ 0 rs i))).
  { intros i Hi. rewrite (Hu i Hi). destruct (jv_row i Hi) as [Hj _].
    change (nth (Z.to_nat i) rs 0) with (at_ 0 rs i).
    rewrite (entry_fin i _ Hi Hj).
    destruct (j_fin_v _ _ _ _ _ _ _ J _ Hj) as [b Hb].
    change (@c_zero xcost exact_cost) with (Fin 0).
    change (nth (Z.to_nat (at_ 0 rs i)) v (Fin 0)) with (at_ (Fin 0) v (at_ 0 rs i)).
    unfold Vv. rewrite Hb. reflexivity. }
  assert (Hv' : forall j, 0 <= j < dim1 -> nth (Z.to_nat j) v c_zero = Fin (V j)).
  { intros j Hj. destruct (j_fin_v _ _ _ _ _ _ _ J _ Hj) as [b Hb].
    change (@c_zero xcost exact_cost) with (Fin 0).
    change (nth (Z.to_nat j) v (Fin 0)) with (at_ (Fin 0) v j).
    unfold Vv. rewrite Hb. reflexivity. }
  split.
  - unfold dual_tight. apply forallb_forall. intros i Hi. apply In_upto in Hi. cbv zeta.
    destruct (jv_row i Hi) as [Hj _].
    change (nth (Z.to_nat i) rs 0) with (at_ 0 rs i).
    rewrite (entry_fin i _ Hi Hj), (Hu' i Hi), (Hv' _ Hj). cbn. apply Z.eqb_eq. lia.
  - unfold dual_feasible. apply forallb_forall. intros i Hi. apply In_upto in Hi.
    apply forallb_forall. intros j Hj. apply In_upto in Hj.
    rewrite (entry_fin i j Hi Hj), (Hu' i Hi), (Hv' j Hj). cbn. apply Z.leb_le.
    pose proof (j_min _ _ _ _ _ _ _ J i j Hi ltac:(auto) Hj). lia.
Qed.

End JVOptimal.

(** [rlap] over exact costs, on a matrix with at least as many columns as
    rows, at least two columns, entries bounded by [B], and prices that are
    zero on entry: it returns, [rowsol] is an assignment of the rows to
    distinct columns with [colsol] its inverse, the value returned is the
    total of this assignment, no assignment has a smaller total, and the
    duals certify it. *)
Lemma rlap_exact_run (fuel : nat) (dim0 dim1 B : Z) (w : list xcost) (verbose : bool)
    (rowsol colsol : list Z) (u v : list xcost) :
  0 <= dim0 <= dim1 -> 2 <= dim1 -> 0 <= B -> (4 * dim0 + 3) * B < x_max ->
  Z.of_nat (length w) = dim0 * dim1 ->
  (forall i j, 0 <= i < dim0 -> 0 <= j < dim1 ->
     exists c, W dim1 w i j = Fin c /\ - B <= c <= B) ->
  Z.of_nat (length rowsol) = dim0 -> Z.of_nat (length colsol) = dim1 ->
  Z.of_nat (length u) = dim0 -> Z.of_nat (length v) = dim1 ->
  (forall j, 0 <= j < dim1 -> at_ (Fin 0) v j = Fin 0) ->
  dim0 + dim1 * (2 * dim0 + 1) * (2 * B) + dim1 < Z.of_nat fuel ->
  exists total rs cs u' v',
    JV.rlap fuel dim0 dim1 w verbose rowsol colsol u v = Ret (total, rs, cs, u', v') /\
    assignment dim0 dim1 rs /\
    (forall i, 0 <= i < dim0 -> at_ 0 cs (at_ 0 rs i) = i) /\
    total = rowsol_total dim0 dim1 w rs /\
    dual_tight dim0 dim1 w u' v' rs = true /\
    dual_feasible dim0 dim1 w u' v' = true /\
    forall q, assignment dim0 dim1 q ->
              c_leb total (rowsol_total dim0 dim1 w q) = true.
Proof.
  intros Hdims Hdim1 HB Hmax Len_w Hw Hlr Hlc Hlu Hlv Hv0 Hfuel.
  assert (Hfin : forall i j, 0 <= i < dim0 -> 0 <= j < dim1 -> is_fin (W dim1 w i j)).
  { intros i j Hi Hj. destruct (Hw i j Hi Hj) as (c & Hc & _). now exists c. }
  assert (Hbound : forall i j, 0 <= i < dim0 -> 0 <= j < dim1 -> - B <= Cv dim1 w i j <= B).
  { intros i j Hi Hj. destruct (Hw i j Hi Hj) as (c & Hc & Hb). unfold Cv. now rewrite Hc. }
  assert (Hnn : 0 <= dim1 * (2 * dim0 + 1) * (2 * B)) by nia.
  destruct (init_rows dim0 rowsol ltac:(lia) Hlr) as (free & rs0 & E1 & Hlf & Hlrs & Hat).
  destruct (init_cols dim1 colsol ltac:(lia) Hlc) as (cs0 & E2 & Hlcs & Hcs).
  pose proof (arr_start dim0 dim1 w B Hdims Hdim1 HB free rs0 cs0 v Hlf Hlrs Hlcs Hlv
                (fun i Hi => proj1 (Hat i Hi)) Hcs Hv0) as A0.
  destruct (arr_passes dim0 dim1 w B Len_w Hfin Hdims Hdim1 HB Hbound Hmax fuel free rs0 cs0 v A0
              ltac:(lia)) as (s & E3 & J0 & Hlf2 & Hnf & Hr & Hinj).
  destruct (augment_all dim0 dim1 w Len_w Hfin Hdims fuel (JV.arr_free s) (JV.arr_numfree s)
              (JV.arr_rowsol s) (JV.arr_colsol s) (JV.arr_v s)
              (repeat c_zero (Z.to_nat dim1)) (repeat 0 (Z.to_nat dim1))
              (repeat 0 (Z.to_nat dim1)) J0 Hlf2 Hnf Hr Hinj
              ltac:(rewrite repeat_length; lia) ltac:(rewrite repeat_length; lia)
              ltac:(rewrite repeat_length; lia) ltac:(lia))
    as (rs & cs & v' & rest & E4 & J).
  destruct (optimal_cost_total dim0 dim1 w Len_w Hfin Hdims rs cs v' u J Hlu)
    as (u' & total & E5).
  exists total, rs, cs, u', v'.
  destruct (optimal_cost_spec dim0 dim1 w rs v' u u' total E5) as [Htot Hu].
  split.
  - unfold JV.rlap. cbv zeta. rewrite E1. cbn [bind]. rewrite E2. cbn [bind].
    rewrite E3. cbn [bind]. rewrite E4. cbn [bind]. rewrite E5. reflexivity.
  - split; [exact (jv_assignment dim0 dim1 w rs cs v' J)|].
    split; [intros i Hi; apply (jv_row dim0 dim1 w rs cs v' J i Hi)|].
    split; [exact Htot|].
    destruct (jv_duals dim0 dim1 w rs cs v' Hfin J u' Hu) as [Ht Hf].
    split; [exact Ht|]. split; [exact Hf|].
    intros q Hq. rewrite Htot. exact (jv_optimal dim0 dim1 w rs cs v' Hfin J q Hq).
Qed.

(** ** The two solvers over exact costs *)

Lemma fold_left_map_in {A B C : Type} (f : A -> C -> A) (g : B -> C) (l : list B) : forall a,
  fold_left f (map g l) a = fold_left (fun a x => f a (g x)) l a.
Proof. induction l as [|x l IH]; intros a; simpl; [reflexivity|apply IH]. Qed.

Lemma fold_left_ext_in {A B : Type} (f g : A -> B -> A) (l : list B) : forall a,
  (forall x acc, In x l -> f acc x = g acc x) -> fold_left f l a = fold_left g l a.
Proof.
  induction l as [|x l IH]; intros a Hfg; simpl; [reflexivity|].
  rewrite (Hfg x a (or_introl eq_refl)). apply IH. intros y acc Hy. apply Hfg. now right.
Qed.

(** The total of the pairs [(i, b[i])] is the total of the assignment [b]. *)
Lemma pairs_total_rows {Cost : Type} `{CostType Cost} (n nc : Z) (m : list Cost) (a b : list Z) :
  Z.of_nat (length a) = n -> Z.of_nat (length b) = n ->
  (forall i, 0 <= i < n -> at_ 0 a i = i) ->
  pairs_total nc m a b = rowsol_total n nc m b.
Proof.
  intros Hla Hlb Ha. unfold pairs_total, rowsol_total.
  assert (Hc : combine a b = map (fun i => (i, nth (Z.to_nat i) b 0)) (upto n)).
  { apply (nth_ext _ _ (0, 0) (0, 0)).
    - rewrite length_combine, length_map, length_upto. lia.
    - intros k Hk. rewrite length_combine in Hk.
      rewrite combine_nth by lia.
      rewrite (nth_map_upto (fun i => (i, nth (Z.to_nat i) b 0)) n k (0, 0)) by lia.
      rewrite Nat2Z.id. f_equal.
      specialize (Ha (Z.of_nat k) ltac:(lia)). unfold at_ in Ha. now rewrite Nat2Z.id in Ha. }
  rewrite Hc, fold_left_map_in. reflexivity.
Qed.

(** With finite entries the rows can be assigned on finite entries. *)
Lemma finite_matchable (nr nc : Z) (m : list xcost) :
  0 <= nr <= nc ->
  (forall i j, 0 <= i < nr -> 0 <= j < nc -> is_fin (W nc m i j)) ->
  ~ unmatchable nr nc m.
Proof.
  intros Hd Hf Hun. apply (Hun (upto nr)).
  - split; [rewrite length_upto; lia|]. split; [apply NoDup_upto|].
    intros j Hj. apply In_upto in Hj. lia.
  - intros i Hi. apply Hf; [exact Hi|].
    assert (In (at_ 0 (upto nr) i) (upto nr)) by (apply nth_In; rewrite length_upto; lia).
    apply In_upto in H. lia.
Qed.

Lemma finite_valid_entries (n : Z) (m : list xcost) :
  0 <= n -> Z.of_nat (length m) = n * n ->
  (forall i j, 0 <= i < n -> 0 <= j < n -> is_fin (W n m i j)) ->
  existsb invalid_entry m = false.
Proof.
  intros Hn Hl Hf. destruct (existsb invalid_entry m) eqn:E; [|reflexivity].
  apply existsb_exists in E as (x & Hx & Hinv).
  apply (In_nth _ _ (Fin 0)) in Hx as (k & Hk & Hnth).
  assert (Hpos : 0 < n) by nia.
  assert (Hcell : is_fin (W n m (Z.of_nat k / n) (Z.of_nat k mod n))).
  { apply Hf.
    - split; [apply Z.div_pos; lia|]. apply Z.div_lt_upper_bound; nia.
    - apply Z.mod_pos_bound. lia. }
  unfold W, at_ in Hcell.
  replace (Z.of_nat k / n * n + Z.of_nat k mod n) with (Z.of_nat k) in Hcell
    by (rewrite (Z.div_mod (Z.of_nat k) n) at 1; lia).
  rewrite Nat2Z.id, Hnth in Hcell. destruct Hcell as [c ->].
  unfold invalid_entry in Hinv. cbn in Hinv. rewrite Z.eqb_refl in Hinv. discriminate.
Qed.

(** Over exact costs, on a square matrix with finite entries, both solvers
    return and the value of [rlap] is the total of the pairs the Crouse solver
    returns. *)
Lemma exact_totals_agree (fuel : nat) (n B : Z) (m : list xcost)
    (rowsol colsol a b : list Z) (u v : list xcost) :
  2 <= n -> 0 <= B -> (4 * n + 3) * B < x_max ->
  Z.of_nat (length m) = n * n ->
  (forall i j, 0 <= i < n -> 0 <= j < n -> exists c, W n m i j = Fin c /\ - B <= c <= B) ->
  Z.of_nat (length rowsol) = n -> Z.of_nat (length colsol) = n ->
  Z.of_nat (length a) = n -> Z.of_nat (length b) = n ->
  Z.of_nat (length u) = n -> Z.of_nat (length v) = n ->
  (forall j, 0 <= j < n -> at_ (Fin 0) v j = Fin 0) ->
  n + n * (2 * n + 1) * (2 * B) + n < Z.of_nat fuel ->
  exists t rs cs u' v' a' b',
    JV.rlap fuel n n m false rowsol colsol u v = Ret (t, rs, cs, u', v') /\
    Crouse.solve_rectangular_linear_assignment IdxInt fuel n n m false a b = Ret (0, a', b') /\
    t = pairs_total n m a' b'.
Proof.
  intros Hn HB Hmax Hlm Hw Hlr Hlc Hla Hlb Hlu Hlv Hv0 Hfuel.
  assert (Hfin : forall i j, 0 <= i < n -> 0 <= j < n -> is_fin (W n m i j)).
  { intros i j Hi Hj. destruct (Hw i j Hi Hj) as (c & Hc & _). now exists c. }
  assert (Hnn : 0 <= n * (2 * n + 1) * (2 * B)) by nia.
  destruct (rlap_exact_run fuel n n B m false rowsol colsol u v ltac:(lia) Hn HB Hmax Hlm Hw
              Hlr Hlc Hlu Hlv Hv0 Hfuel)
    as (t & rs & cs & u' & v' & E1 & Hass & _ & Ht & _ & _ & Hopt).
  destruct (crouse_exact_run fuel n n m a b ltac:(lia) ltac:(lia)
              (finite_valid_entries n m ltac:(lia) Hlm Hfin) ltac:(lia) ltac:(lia) ltac:(lia))
    as (status & a' & b' & E2 & [(_ & _ & _ & Hun) | (-> & Hla' & Hlb' & p & Hp & Hab & Hoptc)]).
  - exfalso. exact (finite_matchable n n m ltac:(lia) Hfin Hun).
  - exists t, rs, cs, u', v', a', b'. split; [exact E1|]. split; [exact E2|].
    rewrite (pairs_total_rows n n m a' b') by (try lia; intros i Hi; apply Hab; exact Hi).
    assert (Hb' : rowsol_total n n m b' = rowsol_total n n m p).
    { unfold rowsol_total. apply fold_left_ext_in. intros i acc Hi. f_equal. apply In_upto in Hi.
      destruct (Hab i Hi) as [_ Hbi]. unfold at_ in Hbi. now rewrite Hbi. }
    rewrite Hb'.
    pose proof (Hopt p Hp) as H1. pose proof (Hoptc rs Hass) as H2. rewrite Ht in *.
    rewrite (total_of n n m Hfin rs Hass) in *. rewrite (total_of n n m Hfin p Hp) in *.
    cbn in H1, H2. apply Z.leb_le in H1, H2. f_equal. lia.
Qed.

Lemma bounded_entries (dim0 dim1 B : Z) (w : list xcost) :
  0 <= dim0 -> 0 <= dim1 -> Z.of_nat (length w) = dim0 * dim1 ->
  forallb (bounded_entry B) w = true ->
  forall i j, 0 <= i < dim0 -> 0 <= j < dim1 ->
              exists c, W dim1 w i j = Fin c /\ - B <= c <= B.
Proof.
  intros H0 H1 Hl Hb i j Hi Hj. unfold W, at_.
  assert (Hin : In (nth (Z.to_nat (i * dim1 + j)) w (Fin 0)) w) by (apply nth_In; nia).
  pose proof (proj1 (forallb_forall _ _) Hb _ Hin) as Hx.
  destruct (nth (Z.to_nat (i * dim1 + j)) w (Fin 0)) as [c| | |]; try discriminate.
  exists c. split; [reflexivity|]. cbn in Hx. apply andb_true_iff in Hx as [Ha Hc].
  apply Z.leb_le in Ha, Hc. lia.
Qed.

Lemma at_zeros (n : nat) (j : Z) : at_ (Fin 0) (repeat (Fin 0) n) j = Fin 0.
Proof.
  unfold at_. destruct (Nat.lt_ge_cases (Z.to_nat j) n) as [Hlt|Hge].
  - now apply nth_repeat_lt.
  - apply nth_overflow. now rewrite repeat_length.
Qed.



(** Both totals over exact costs, with the hypotheses in checkable form. *)
Lemma exact_totals_agree_bounded (fuel : nat) (n B : Z) (m : list xcost)
    (rowsol colsol a b : list Z) (u : list xcost) :
  2 <= n -> 0 <= B -> (4 * n + 3) * B < x_max ->
  Z.of_nat (length m) = n * n -> forallb (bounded_entry B) m = true ->
  Z.of_nat (length rowsol) = n -> Z.of_nat (length colsol) = n ->
  Z.of_nat (length a) = n -> Z.of_nat (length b) = n -> Z.of_nat (length u) = n ->
  n + n * (2 * n + 1) * (2 * B) + n < Z.of_nat fuel ->
  exists t rs cs u' v' a' b',
    JV.rlap fuel n n m false rowsol colsol u (repeat (Fin 0) (Z.to_nat n))
    = Ret (t, rs, cs, u', v') /\
    Crouse.solve_rectangular_linear_assignment IdxInt fuel n n m false a b = Ret (0, a', b') /\
    t = pairs_total n m a' b'.
Proof.
  intros Hn HB Hmax Hlm Hb Hlr Hlc Hla Hlb Hlu Hfuel.
  apply (exact_totals_agree fuel n B m rowsol colsol a b u _ Hn HB Hmax Hlm
           (bounded_entries n n B m ltac:(lia) ltac:(lia) Hlm Hb) Hlr Hlc Hla Hlb Hlu);
    [rewrite repeat_length; lia|intros j _; apply at_zeros|exact Hfuel].
Qed.

(** ** The two solvers compared *)







(** ** The entry point of the Jonker-Volgenant solver *)




(** ** What [rlap] reads *)

Lemma bind_ext {A B : Type} (m : outcome A) (f g : A -> outcome B) :
  (forall a, f a = g a) -> bind m f = bind m g.
Proof. intros E. destruct m; simpl; auto. Qed.

Lemma list_at_ext {A : Type} (d : A) (l l' : list A) :
  length l = length l' ->
  (forall i, 0 <= i < Z.of_nat (length l) -> at_ d l i = at_ d l' i) -> l = l'.
Proof.
  intros Hl Hat. apply (nth_ext _ _ d d); [exact Hl|].
  intros k Hk. specialize (Hat (Z.of_nat k) ltac:(lia)). unfold at_ in Hat.
  now rewrite Nat2Z.id in Hat.
Qed.

(** A loop that writes cell [k] in round [k], from two arrays that agree
    below [k]: both runs end alike. *)
Lemma for_do_seq_sim {S : Type} (R : nat -> S -> S -> Prop) (body : Z -> S -> outcome S)
    (n : nat) : forall (a : nat) (s1 s2 : S),
  R a s1 s2 ->
  (forall k t1 t2, (a <= k < a + n)%nat -> R k t1 t2 ->
     (exists r1 r2, body (Z.of_nat k) t1 = Ret r1 /\ body (Z.of_nat k) t2 = Ret r2 /\
                    R (Datatypes.S k) r1 r2) \/
     (body (Z.of_nat k) t1 = Fault /\ body (Z.of_nat k) t2 = Fault) \/
     (body (Z.of_nat k) t1 = Timeout /\ body (Z.of_nat k) t2 = Timeout)) ->
  (exists r1 r2, for_do (map Z.of_nat (seq a n)) body s1 = Ret r1 /\
                 for_do (map Z.of_nat (seq a n)) body s2 = Ret r2 /\ R (a + n)%nat r1 r2) \/
  (for_do (map Z.of_nat (seq a n)) body s1 = Fault /\
   for_do (map Z.of_nat (seq a n)) body s2 = Fault) \/
  (for_do (map Z.of_nat (seq a n)) body s1 = Timeout /\
   for_do (map Z.of_nat (seq a n)) body s2 = Timeout).
Proof.
  induction n as [|n IH]; intros a s1 s2 HR Hstep; simpl.
  - left. exists s1, s2. rewrite Nat.add_0_r. auto.
  - destruct (Hstep a s1 s2 ltac:(lia) HR) as [(r1 & r2 & E1 & E2 & HR') | [[E1 E2] | [E1 E2]]];
      rewrite E1, E2; simpl; auto.
    replace (a + Datatypes.S n)%nat with (Datatypes.S a + n)%nat by lia.
    apply IH; [exact HR'|]. intros k t1 t2 Hk. apply Hstep. lia.
Qed.

Section RlapReads.

Context {Cost : Type} `{CostType Cost}.

(** The last loop of [rlap] writes every cell of [u] and reads none. *)
Lemma optimal_cost_ignores_u (dim0 dim1 : Z) (cost : list Cost) (rowsol : list Z)
    (v u u' : list Cost) :
  0 <= dim0 -> Z.of_nat (length u) = dim0 -> Z.of_nat (length u') = dim0 ->
  JV.optimal_cost dim0 dim1 cost rowsol v u = JV.optimal_cost dim0 dim1 cost rowsol v u'.
Proof.
  intros Hd Hl Hl'. unfold JV.optimal_cost, upto.
  destruct (for_do_seq_sim
                (fun k (s1 s2 : list Cost * Cost) =>
                   snd s1 = snd s2 /\ length (fst s1) = length u /\
                   length (fst s2) = length u /\
                   forall i, (i < k)%nat -> nth i (fst s1) c_zero = nth i (fst s2) c_zero)
                (fun i '(u, rlapcost) =>
                   j <- rd rowsol i ;;
                   cij <- rd cost (i * dim1 + j) ;;
                   vj <- rd v j ;;
                   u <- wr u i (c_sub cij vj) ;;
                   Ret (u, c_add rlapcost cij))
                (Z.to_nat dim0) 0%nat (u, c_zero) (u', c_zero))
    as [([u1 t1] & [u2 t2] & E1 & E2 & Ht & Hl1 & Hl2 & Hag) | [[E1 E2] | [E1 E2]]].
  - cbn [fst snd]. repeat split; auto; try lia.
  - intros k [ua ta] [ub tb] Hk (Ht & Hla & Hlb & Hag). cbn [fst snd] in *. subst tb.
    destruct (rd rowsol (Z.of_nat k)) as [j| |]; cbn [bind]; auto.
    destruct (rd cost (Z.of_nat k * dim1 + j)) as [cij| |]; cbn [bind]; auto.
    destruct (rd v j) as [vj| |]; cbn [bind]; auto.
    unfold wr. destruct (Z.of_nat k <? 0) eqn:En; [apply Z.ltb_lt in En; lia|].
    rewrite Nat2Z.id, Hla, Hlb.
    destruct (Nat.ltb_spec k (length u)); cbn [bind]; auto.
    left. do 2 eexists. split; [reflexivity|]. split; [reflexivity|].
    cbn [fst snd]. rewrite !length_set_nth.
    split; [reflexivity|]. split; [lia|]. split; [lia|].
    intros i Hi. destruct (Nat.eq_dec i k) as [->|Hne].
    + rewrite !nth_set_nth_eq by lia. reflexivity.
    + rewrite !nth_set_nth_neq by lia. apply Hag. lia.
  - cbn [Nat.add] in *. rewrite E1, E2. cbn [fst snd] in *. subst t2.
    f_equal. f_equal. apply (nth_ext _ _ c_zero c_zero); [lia|].
    intros k Hk. apply Hag. lia.
  - cbn [Nat.add] in *. now rewrite E1, E2.
  - cbn [Nat.add] in *. now rewrite E1, E2.
Qed.

End RlapReads.

Section RlapBuffers.

Context {Cost : Type} `{CostType Cost}.

Lemma rlap_buffers (fuel : nat) (dim0 dim1 : Z) (cost : list Cost) (verbose verbose' : bool)
    (rowsol rowsol' colsol colsol' : list Z) (u u' v : list Cost) :
  0 <= dim0 -> 0 <= dim1 ->
  Z.of_nat (length rowsol) = dim0 -> Z.of_nat (length rowsol') = dim0 ->
  Z.of_nat (length colsol) = dim1 -> Z.of_nat (length colsol') = dim1 ->
  Z.of_nat (length u) = dim0 -> Z.of_nat (length u') = dim0 ->
  JV.rlap fuel dim0 dim1 cost verbose rowsol colsol u v
  = JV.rlap fuel dim0 dim1 cost verbose' rowsol' colsol' u' v.
Proof.
  intros Hd0 Hd1 Hr Hr' Hc Hc' Hu Hu'. unfold JV.rlap.
  destruct (init_rows dim0 rowsol Hd0 Hr) as (free & rs & E & Hlf & Hlr & Hat).
  destruct (init_rows dim0 rowsol' Hd0 Hr') as (free' & rs' & E' & Hlf' & Hlr' & Hat').
  rewrite E, E'. cbn [bind].
  destruct (init_cols dim1 colsol Hd1 Hc) as (cs & Ec & Hlc & Hatc).
  destruct (init_cols dim1 colsol' Hd1 Hc') as (cs' & Ec' & Hlc' & Hatc').
  rewrite Ec, Ec'. cbn [bind].
  assert (free' = free) as ->.
  { apply (list_at_ext 0); [lia|]. intros i Hi.
    rewrite (proj1 (Hat i ltac:(lia))), (proj1 (Hat' i ltac:(lia))). reflexivity. }
  assert (rs' = rs) as ->.
  { apply (list_at_ext 0); [lia|]. intros i Hi.
    rewrite (proj2 (Hat i ltac:(lia))), (proj2 (Hat' i ltac:(lia))). reflexivity. }
  assert (cs' = cs) as ->.
  { apply (list_at_ext 0); [lia|]. intros i Hi.
    rewrite Hatc, Hatc' by lia. reflexivity. }
  apply bind_ext. intros s. apply bind_ext. intros [[[rs1 cs1] v1] w1].
  rewrite (optimal_cost_ignores_u dim0 dim1 cost rs1 v1 u u') by assumption.
  reflexivity.
Qed.

End RlapBuffers.

(** [rlap] overwrites [rowsol], [colsol] and [u] before it reads them, and
    reads [v] as it finds it.  Two calls that differ only in what the three
    overwritten buffers held (each of its exact size) and in [verbose] end
    alike, for every cost type; [solve_lap] passes a [v] that was allocated
    and not initialised, and what that memory holds can change the assignment
    returned: on [[1, 2, 9], [3, 5, 9]] it returns the total 5 from zeros and
    the total 10 when the third cell holds 5. *)
Theorem rlap_reads_v_only :
  (forall {Cost : Type} `{CostType Cost} (fuel : nat) (dim0 dim1 : Z) (cost : list Cost)
          (verbose verbose' : bool) (rowsol rowsol' colsol colsol' : list Z)
          (u u' v : list Cost),
      0 <= dim0 -> 0 <= dim1 ->
      Z.of_nat (length rowsol) = dim0 -> Z.of_nat (length rowsol') = dim0 ->
      Z.of_nat (length colsol) = dim1 -> Z.of_nat (length colsol') = dim1 ->
      Z.of_nat (length u) = dim0 -> Z.of_nat (length u') = dim0 ->
      JV.rlap fuel dim0 dim1 cost verbose rowsol colsol u v
      = JV.rlap fuel dim0 dim1 cost verbose' rowsol' colsol' u' v) /\
  solve_lap 20 [0; 0]%float [0; 0; 0]%float 2 3 [1; 2; 9; 3; 5; 9]%float [0; 0] [0; 0; 0]
  = Ret (5%float, [1; 0], [1; 0; -1]) /\
  solve_lap 20 [0; 0]%float [0; 0; 5]%float 2 3 [1; 2; 9; 3; 5; 9]%float [0; 0] [0; 0; 0]
  = Ret (10%float, [0; 2], [0; -1; 1]).
Proof.
  split; [|split; vm_compute; reflexivity].
  intros. now apply rlap_buffers.
Qed.

Lemma rlap_reads_v_only_witness :
  JV.rlap 20 2 2 [1; 2; 3; 5]%float false [7; 8] [9; 9] [nan; infinity]%float [0; 0]%float
  = JV.rlap 20 2 2 [1; 2; 3; 5]%float true [0; 0] [0; 0] [0; 0]%float [0; 0]%float.
Proof.
  apply (proj1 rlap_reads_v_only); simpl; lia.
Defined.

(** ** The sort of the output loop *)

Section Argsort.

Variable v : list Z.

Local Abbreviation key := (fun i : Z => nth (Z.to_nat i) v 0).

Lemma argsort_insert_perm (i : Z) (l : list Z) :
  Permutation (Crouse.argsort_insert v i l) (i :: l).
Proof.
  induction l as [|j l IH]; simpl; [reflexivity|].
  destruct (key i <? key j); [reflexivity|].
  rewrite IH. apply perm_swap.
Qed.

Lemma argsort_insert_sorted (i : Z) (l : list Z) :
  ForallOrdPairs (fun x y => key x < key y) l ->
  (forall x, In x l -> key x <> key i) ->
  ForallOrdPairs (fun x y => key x < key y) (Crouse.argsort_insert v i l).
Proof.
  induction l as [|j l IH]; intros Hs Hd; simpl.
  - constructor; constructor.
  - inversion Hs as [|? ? Hj Hl]; subst.
    destruct (Z.ltb_spec (key i) (key j)) as [Hlt | Hge].
    + constructor; [|exact Hs]. constructor; [exact Hlt|].
      rewrite Forall_forall in *. intros x Hx. specialize (Hj x Hx). lia.
    + constructor.
      * rewrite Forall_forall in *. intros x Hx.
        apply (Permutation_in _ (argsort_insert_perm i l)) in Hx as [<- | Hx].
        -- specialize (Hd j (or_introl eq_refl)). lia.
        -- now apply Hj.
      * apply IH; [exact Hl|]. intros x Hx. apply Hd. now right.
Qed.

Lemma argsort_fold (ks : list Z) : forall acc,
  ForallOrdPairs (fun x y => key x < key y) acc ->
  NoDup (map key (ks ++ acc)) ->
  Permutation (fold_left (fun sorted i => Crouse.argsort_insert v i sorted) ks acc) (ks ++ acc) /\
  ForallOrdPairs (fun x y => key x < key y)
                 (fold_left (fun sorted i => Crouse.argsort_insert v i sorted) ks acc).
Proof.
  induction ks as [|k ks IH]; intros acc Hs Hnd; simpl.
  - split; [reflexivity|exact Hs].
  - simpl in Hnd. inversion Hnd as [|? ? Hk Hrest]; subst.
    destruct (IH (Crouse.argsort_insert v k acc)) as [Hp Hso].
    + apply argsort_insert_sorted; [exact Hs|].
      intros x Hx E. apply Hk. rewrite <- E.
      exact (in_map key _ x (in_or_app _ _ _ (or_intror Hx))).
    + apply (Permutation_NoDup (l := map key (k :: ks ++ acc))); [|exact Hnd].
      apply Permutation_map. rewrite argsort_insert_perm.
      apply Permutation_middle.
    + split; [|exact Hso]. rewrite Hp, argsort_insert_perm.
      symmetry. apply Permutation_middle.
Qed.

(** Sorting a list of pairwise distinct keys: a permutation of the indices,
    increasing in the keys. *)
Lemma argsort_iter_spec :
  NoDup v ->
  Permutation (Crouse.argsort_iter v) (upto (Z.of_nat (length v))) /\
  ForallOrdPairs (fun x y => key x < key y) (Crouse.argsort_iter v).
Proof.
  intros Hnd. unfold Crouse.argsort_iter.
  destruct (argsort_fold (upto (Z.of_nat (length v))) []) as [Hp Hs].
  - constructor.
  - rewrite app_nil_r, upto_of_nat, map_map.
    replace (map (fun x => key (Z.of_nat x)) (seq 0 (length v))) with v; [exact Hnd|].
    apply (nth_ext _ _ 0 0).
    + now rewrite length_map, length_seq.
    + intros n Hn.
      transitivity (nth n (map (fun x => key (Z.of_nat x)) (seq 0 (length v)))
                        (key (Z.of_nat 0)));
        [|apply nth_indep; now rewrite length_map, length_seq].
      rewrite (map_nth (fun x => key (Z.of_nat x)) (seq 0 (length v)) 0%nat n).
      rewrite seq_nth by exact Hn. now rewrite Nat2Z.id.
  - rewrite app_nil_r in Hp. split; [exact Hp|exact Hs].
Qed.

End Argsort.

Lemma ordpairs_nth {A : Type} (R : A -> A -> Prop) (d : A) (l : list A) :
  ForallOrdPairs R l ->
  forall k k', (k < k')%nat -> (k' < length l)%nat -> R (nth k l d) (nth k' l d).
Proof.
  induction 1 as [|a l Ha Hl IH]; intros k k' Hk Hk'; simpl in *; [lia|].
  destruct k as [|k], k' as [|k']; try lia.
  - rewrite Forall_forall in Ha. apply Ha, nth_In. lia.
  - apply IH; lia.
Qed.

(** ** The output loop of the solver when the matrix was transposed *)

Lemma write_solution_walk (c4r : list Z) (L : list Z) : forall (i : Z) (a b : list Z),
  0 <= i -> (forall x, In x L -> 0 <= x < Z.of_nat (length c4r)) ->
  i + Z.of_nat (length L) <= Z.of_nat (length a) ->
  i + Z.of_nat (length L) <= Z.of_nat (length b) ->
  exists a' b',
    for_do L (fun v '(i, a, b) =>
                c <- rd c4r v ;; a <- wr a i c ;; b <- wr b i v ;; Ret (i + 1, a, b))
           (i, a, b) = Ret (i + Z.of_nat (length L), a', b') /\
    length a' = length a /\ length b' = length b /\
    (forall t, 0 <= t < Z.of_nat (length L) ->
       at_ 0 a' (i + t) = at_ 0 c4r (at_ 0 L t) /\ at_ 0 b' (i + t) = at_ 0 L t) /\
    (forall k, 0 <= k < i -> at_ 0 a' k = at_ 0 a k /\ at_ 0 b' k = at_ 0 b k).
Proof.
  induction L as [|x L IH]; intros i a b Hi Hin Ha Hb.
  - exists a, b. simpl. rewrite Z.add_0_r. repeat split; auto. all: simpl in *; lia.
  - cbn [for_do length] in *.
    rewrite (rd_ok 0 c4r) by (apply Hin; now left). cbn [bind].
    destruct (wr_spec a i (at_ 0 c4r x) ltac:(lia)) as (a1 & E1 & Hl1 & Hae & Hao).
    rewrite E1. cbn [bind].
    destruct (wr_spec b i x ltac:(lia)) as (b1 & E2 & Hl2 & Hbe & Hbo).
    rewrite E2. cbn [bind].
    destruct (IH (i + 1) a1 b1 ltac:(lia) (fun y Hy => Hin y (or_intror Hy)) ltac:(lia)
                 ltac:(lia)) as (a' & b' & E & Hla & Hlb & Hnew & Hold).
    exists a', b'. rewrite E. split; [do 3 f_equal; lia|].
    split; [congruence|]. split; [congruence|]. split.
    + intros t Ht. destruct (Z.eq_dec t 0) as [->|Hne].
      * rewrite Z.add_0_r. destruct (Hold i ltac:(lia)) as [-> ->].
        rewrite Hae, Hbe. split; reflexivity.
      * destruct (Hnew (t - 1) ltac:(lia)) as [Ea Eb].
        replace (i + 1 + (t - 1)) with (i + t) in * by lia.
        rewrite Ea, Eb. unfold at_.
        replace (Z.to_nat t) with (S (Z.to_nat (t - 1))) by lia. split; reflexivity.
    + intros k Hk. destruct (Hold k ltac:(lia)) as [-> ->].
      rewrite Hao, Hbo by lia. split; reflexivity.
Qed.

Lemma at_firstn {A : Type} (d : A) (l : list A) (n : nat) (k : Z) :
  0 <= k < Z.of_nat n -> at_ d (firstn n l) k = at_ d l k.
Proof.
  intros Hk. unfold at_. rewrite nth_firstn.
  destruct (Nat.ltb_spec (Z.to_nat k) n); [reflexivity|lia].
Qed.

(** The transposed output: [b] lists the columns of the transposed problem in
    the order of the rows they are matched to, which [a] lists increasingly. *)
Lemma write_solution_cols (n : Z) (c4r a b : list Z) :
  0 <= n -> Z.of_nat (length c4r) = n -> NoDup c4r ->
  n <= Z.of_nat (length a) -> n <= Z.of_nat (length b) ->
  exists a' b', Crouse.write_solution true n c4r a b = Ret (a', b') /\
    length a' = length a /\ length b' = length b /\
    Permutation (firstn (Z.to_nat n) b') (upto n) /\
    (forall k, 0 <= k < n -> at_ 0 a' k = at_ 0 c4r (at_ 0 b' k)) /\
    (forall k k', 0 <= k < k' -> k' < n -> at_ 0 a' k < at_ 0 a' k').
Proof.
  intros Hn Hl Hnd Ha Hb. unfold Crouse.write_solution.
  destruct (argsort_iter_spec c4r Hnd) as [Hp Hs]. rewrite Hl in Hp.
  set (L := Crouse.argsort_iter c4r) in *.
  assert (HL : Z.of_nat (length L) = n).
  { rewrite (Permutation_length Hp), length_upto. lia. }
  destruct (write_solution_walk c4r L 0 a b ltac:(lia)) as (a' & b' & E & Hla & Hlb & Hnew & _).
  - intros x Hx. apply (Permutation_in _ Hp), In_upto in Hx. lia.
  - lia.
  - lia.
  - rewrite E. cbn [bind]. exists a', b'. split; [reflexivity|].
    split; [exact Hla|]. split; [exact Hlb|].
    assert (Hb' : forall k, 0 <= k < n -> at_ 0 b' k = at_ 0 L k).
    { intros k Hk. apply (Hnew k). lia. }
    assert (Ha' : forall k, 0 <= k < n -> at_ 0 a' k = at_ 0 c4r (at_ 0 L k)).
    { intros k Hk. apply (Hnew k). lia. }
    split; [|split].
    + replace (firstn (Z.to_nat n) b') with L; [exact Hp|].
      apply (list_at_ext 0).
      * rewrite length_firstn. lia.
      * intros k Hk. rewrite at_firstn by lia. symmetry. apply Hb'. lia.
    + intros k Hk. rewrite Ha', Hb' by lia. reflexivity.
    + intros k k' Hk Hk'. rewrite !Ha' by lia.
      apply (ordpairs_nth _ 0 L Hs (Z.to_nat k) (Z.to_nat k')); lia.
Qed.

(** ** Negated and transposed matrices over exact costs *)

Lemma x_opp_add (a b : xcost) : x_opp (x_add a b) = x_add (x_opp a) (x_opp b).
Proof. destruct a, b; cbn; try reflexivity. f_equal. lia. Qed.

Lemma x_leb_opp (a b : xcost) : x_leb (x_opp a) (x_opp b) = x_leb b a.
Proof.
  destruct a, b; cbn; try reflexivity.
  apply eq_iff_eq_true. rewrite !Z.leb_le. lia.
Qed.

Lemma x_opp_fin (a : xcost) : is_fin (x_opp a) <-> is_fin a.
Proof.
  destruct a; cbn; split; intros [c Hc]; try discriminate; eexists; reflexivity.
Qed.

Lemma entry_map_opp (nc : Z) (m : list xcost) (i j : Z) :
  entry nc (map x_opp m) i j = x_opp (entry nc m i j).
Proof. unfold entry. apply (map_nth x_opp m (Fin 0)). Qed.

Lemma total_opp (f : Z -> xcost) (l : list Z) : forall a,
  fold_left (fun acc i => c_add acc (x_opp (f i))) l (x_opp a)
  = x_opp (fold_left (fun acc i => c_add acc (f i)) l a).
Proof.
  induction l as [|x l IH]; intros a; simpl; [reflexivity|].
  rewrite <- x_opp_add. apply IH.
Qed.

Lemma fold_left_ext_on {S : Type} (f g : S -> Z -> S) (l : list Z) : forall a,
  (forall s x, In x l -> f s x = g s x) -> fold_left f l a = fold_left g l a.
Proof.
  induction l as [|x l IH]; intros a E; simpl; [reflexivity|].
  rewrite (E a x (or_introl eq_refl)). apply IH. intros s y Hy. apply E. now right.
Qed.

Lemma rowsol_total_opp (nr nc : Z) (m : list xcost) (p : list Z) :
  rowsol_total nr nc (map x_opp m) p = x_opp (rowsol_total nr nc m p).
Proof.
  unfold rowsol_total. change (@c_zero xcost exact_cost) with (Fin 0).
  rewrite <- (total_opp (fun i => entry nc m i (nth (Z.to_nat i) p 0))). cbn [x_opp].
  apply fold_left_ext_on. intros s x _. now rewrite entry_map_opp.
Qed.

Lemma entry_transposed (nr nc : Z) (m : list xcost) (i j : Z) :
  0 <= i < nr -> 0 <= j < nc ->
  entry nr (transposed nr nc m) j i = entry nc m i j.
Proof.
  intros Hi Hj. unfold entry, transposed.
  destruct (transpose_index nr nc i j Hi Hj) as (M1 & M2 & M3).
  change (@c_zero xcost exact_cost) with (Fin 0).
  rewrite nth_map_upto by lia. rewrite Z2Nat.id by lia. now rewrite M1, M2.
Qed.

(** The total of a choice of rows for the columns, read off the transposed
    matrix. *)
Lemma rowsol_total_transposed (nr nc : Z) (m : list xcost) (p : list Z) :
  assignment nc nr p ->
  rowsol_total nc nr (transposed nr nc m) p = colsol_total nc m p.
Proof.
  intros (Hl & _ & Hr). unfold rowsol_total, colsol_total.
  apply fold_left_ext_on. intros s j Hj. apply In_upto in Hj. f_equal.
  apply entry_transposed; [|exact Hj]. apply Hr, nth_In. lia.
Qed.

Lemma colsol_total_opp (nc : Z) (m : list xcost) (p : list Z) :
  colsol_total nc (map x_opp m) p = x_opp (colsol_total nc m p).
Proof.
  unfold colsol_total. change (@c_zero xcost exact_cost) with (Fin 0).
  rewrite <- (total_opp (fun j => entry nc m (nth (Z.to_nat j) p 0) j)). cbn [x_opp].
  apply fold_left_ext_on. intros s x _. now rewrite entry_map_opp.
Qed.

(** ** The Crouse solver over exact costs: maximization *)



(** ** The Crouse solver over exact costs: more rows than columns *)



(** ** Index values at the two index kinds *)

Lemma idx_of_int_nonneg (K : IdxKind) (x : Z) : 0 <= x < 2 ^ 63 -> idx_of_int K x = x.
Proof. intros Hx. destruct K; cbn; [reflexivity|]. apply Z.mod_small. lia. Qed.

Lemma idx_of_int_is_neg1 (K : IdxKind) (x : Z) :
  -1 <= x < 2 ^ 63 -> (idx_of_int K x =? Crouse.neg1 K) = (x =? -1).
Proof.
  intros Hx. unfold Crouse.neg1. destruct K; cbn [idx_of_int]; [reflexivity|].
  destruct (Z.eqb_spec x (-1)) as [->|Hne]; [apply Z.eqb_refl|].
  rewrite (Z.mod_small x) by lia. apply Z.eqb_neq.
  change ((-1) mod 2 ^ 64) with (2 ^ 64 - 1). lia.
Qed.

Lemma as_kind_int (l : list Z) : as_kind IdxInt l = l.
Proof. unfold as_kind. cbn. apply map_id. Qed.

Lemma length_as_kind (K : IdxKind) (l : list Z) : length (as_kind K l) = length l.
Proof. apply length_map. Qed.

Lemma at_as_kind (K : IdxKind) (l : list Z) (i : Z) :
  0 <= i < Z.of_nat (length l) -> at_ 0 (as_kind K l) i = idx_of_int K (at_ 0 l i).
Proof.
  intros Hi. unfold at_, as_kind.
  rewrite (nth_indep _ 0 (idx_of_int K 0)) by (rewrite length_map; lia).
  apply map_nth.
Qed.

Lemma rd_as_kind (K : IdxKind) (l : list Z) (i : Z) :
  0 <= i < Z.of_nat (length l) -> rd (as_kind K l) i = Ret (idx_of_int K (at_ 0 l i)).
Proof.
  intros Hi. rewrite (rd_ok 0) by (rewrite length_as_kind; exact Hi).
  now rewrite at_as_kind.
Qed.

Lemma set_nth_map {A B : Type} (f : A -> B) (l : list A) : forall (n : nat) (x : A),
  set_nth (map f l) n (f x) = map f (set_nth l n x).
Proof. induction l as [|h t IH]; intros [|n] x; simpl; auto. now rewrite IH. Qed.

Lemma wr_as_kind (K : IdxKind) (l : list Z) (i x : Z) :
  0 <= i < Z.of_nat (length l) -> 0 <= x < 2 ^ 63 ->
  wr (as_kind K l) i x = Ret (as_kind K (set_nth l (Z.to_nat i) x)).
Proof.
  intros Hi Hx. rewrite wr_set by (rewrite length_as_kind; exact Hi).
  unfold as_kind. rewrite <- set_nth_map. now rewrite idx_of_int_nonneg.
Qed.

Lemma as_kind_nonneg (K : IdxKind) (l : list Z) :
  (forall x, In x l -> 0 <= x < 2 ^ 63) -> as_kind K l = l.
Proof.
  intros Hl. unfold as_kind. rewrite <- (map_id l) at 2.
  apply map_ext_in. intros x Hx. apply idx_of_int_nonneg, Hl, Hx.
Qed.

Lemma as_kind_repeat (K : IdxKind) (x : Z) (n : nat) :
  as_kind K (repeat x n) = repeat (idx_of_int K x) n.
Proof. unfold as_kind. apply map_repeat. Qed.

Lemma st_as_kind_int {Cost : Type} `{CostType Cost} (s : @Crouse.solver_state Cost) :
  st_as_kind IdxInt s = s.
Proof.
  destruct s as [u v c r [p sp SR SC rem]]. unfold st_as_kind, ap_as_kind. cbn -[as_kind].
  now rewrite !as_kind_int.
Qed.

(** ** Loops run at every index kind *)

Lemma for_do_seq_kinds {S : Type} (P : nat -> S -> Prop) (body : IdxKind -> Z -> S -> outcome S)
    (c : IdxKind -> S -> S) (n : nat) : forall (a : nat) (s : S),
  P a s ->
  (forall k s0, (a <= k < a + n)%nat -> P k s0 ->
     exists s1, P (Datatypes.S k) s1 /\ forall K, body K (Z.of_nat k) (c K s0) = Ret (c K s1)) ->
  exists s', P (a + n)%nat s' /\
             forall K, for_do (map Z.of_nat (seq a n)) (body K) (c K s) = Ret (c K s').
Proof.
  induction n as [|n IH]; intros a s Ha Hstep; simpl.
  - exists s. rewrite Nat.add_0_r. auto.
  - destruct (Hstep a s ltac:(lia) Ha) as (s1 & H1 & E1).
    destruct (IH (Datatypes.S a) s1 H1) as (s' & H' & E').
    + intros k s0 Hk. apply Hstep. lia.
    + exists s'. split.
      * now replace (a + Datatypes.S n)%nat with (Datatypes.S a + n)%nat by lia.
      * intros K. rewrite E1. cbn [bind]. apply E'.
Qed.

Lemma for_do_upto_kinds {S : Type} (P : Z -> S -> Prop) (body : IdxKind -> Z -> S -> outcome S)
    (c : IdxKind -> S -> S) (n : Z) (s : S) :
  0 <= n -> P 0 s ->
  (forall k s0, 0 <= k < n -> P k s0 ->
     exists s1, P (k + 1) s1 /\ forall K, body K k (c K s0) = Ret (c K s1)) ->
  exists s', P n s' /\ forall K, for_do (upto n) (body K) (c K s) = Ret (c K s').
Proof.
  intros Hn H0 Hstep. unfold upto.
  destruct (for_do_seq_kinds (fun k s => P (Z.of_nat k) s) body c (Z.to_nat n) 0 s)
    as (s' & HP & E).
  - exact H0.
  - intros k s0 Hk HP. destruct (Hstep (Z.of_nat k) s0 ltac:(lia) HP) as (s1 & H1 & E1).
    exists s1. split; [|exact E1].
    now replace (Z.of_nat (Datatypes.S k)) with (Z.of_nat k + 1) by lia.
  - exists s'. split; [|exact E]. cbn [Nat.add] in HP. now rewrite Z2Nat.id in HP by lia.
Qed.

(** ** The search of the Crouse solver over any cost type *)

Section GenericSearch.

Context {Cost : Type} `{CostType Cost}.
Hypothesis Hinf : c_eqb c_inf c_inf = true.

Variables (nr nc : Z) (w u v : list Cost) (r4c : list Z) (cur : Z).
Hypothesis Hnr : nr < 2 ^ 63.
Hypothesis Hnc : nc < 2 ^ 63.
Hypothesis Hcur : 0 <= cur < nr.
Hypothesis Len_w : Z.of_nat (length w) = nr * nc.
Hypothesis Len_u : Z.of_nat (length u) = nr.
Hypothesis Len_v : Z.of_nat (length v) = nc.
Hypothesis Len_r : Z.of_nat (length r4c) = nc.
Hypothesis Hm_r : forall j, 0 <= j < nc -> -1 <= at_ 0 r4c j < cur.

Lemma rows_of_range (sel : list Z) (i : Z) :
  (forall x, In x sel -> 0 <= x < nc /\ 0 <= at_ 0 r4c x) ->
  In i (rows_of r4c cur sel) -> 0 <= i <= cur.
Proof.
  intros Hsel [<- | Hi]; [lia|].
  apply in_map_iff in Hi as (x & <- & Hx). destruct (Hsel x Hx) as [Hx1 Hx2].
  specialize (Hm_r x Hx1). lia.
Qed.

Lemma rows_of_cons (sel : list Z) (j i : Z) :
  In i (rows_of r4c cur sel) -> In i (rows_of r4c cur (j :: sel)).
Proof. intros [<- | Hi]; [now left|]. right. now right. Qed.

Lemma chain_ext (p p' : list Z) (sel : list Z) :
  (forall x, In x sel -> at_ 0 p' x = at_ 0 p x) ->
  chain p r4c cur sel -> chain p' r4c cur sel.
Proof.
  induction sel as [|j sel IH]; intros He; simpl; [auto|].
  intros [Hj Hc]. split.
  - rewrite He by now left. exact Hj.
  - apply IH; [|exact Hc]. intros x Hx. apply He. now right.
Qed.

(** The scan of the remaining columns from row [i]. *)
Lemma scan_spec (a : @Crouse.ap_arrays Cost) (n i : Z) (sel : list Z) (minVal : Cost) :
  GSearch nr nc r4c cur n i sel a ->
  exists path' spc' lowest index,
    (forall K,
        for_do (upto n)
               (Crouse.scan_body K nc w u v (as_kind K r4c) (Crouse.ap_remaining a) i minVal)
               (as_kind K (Crouse.ap_path a), Crouse.ap_spc a, c_inf, Crouse.neg1 K)
        = Ret (as_kind K path', spc', lowest, idx_of_int K index)) /\
    Z.of_nat (length path') = nc /\ Z.of_nat (length spc') = nc /\
    ((index = -1 /\ lowest = c_inf) \/
     (0 <= index < n /\ lowest = at_ c_zero spc' (at_ 0 (Crouse.ap_remaining a) index))) /\
    (forall j, 0 <= j < nc -> -1 <= at_ 0 path' j < nr) /\
    (forall j, 0 <= j < nc ->
       (at_ 0 path' j = at_ 0 (Crouse.ap_path a) j /\
        at_ c_zero spc' j = at_ c_zero (Crouse.ap_spc a) j) \/
       (at_ 0 path' j = i /\ exists t, 0 <= t < n /\ at_ 0 (Crouse.ap_remaining a) t = j)).
Proof.
  intros G. destruct G as [[Hlp Hls Hlsr Hlsc Hlrem Hpath HSR] Hn Hlive Hdist Hrow Hsel Hnd Hch Hfr].
  destruct a as [path spc SR SC rem].
  cbn [Crouse.ap_path Crouse.ap_spc Crouse.ap_SR Crouse.ap_SC Crouse.ap_remaining] in *.
  pose proof (rows_of_range sel i Hsel Hrow) as Hi.
  destruct (for_do_upto_kinds
              (fun k (s : list Z * list Cost * Cost * Z) =>
                 let '(p, sp, lo, ix) := s in
                 Z.of_nat (length p) = nc /\ Z.of_nat (length sp) = nc /\
                 ((ix = -1 /\ lo = c_inf) \/
                  (0 <= ix < k /\ lo = at_ c_zero sp (at_ 0 rem ix))) /\
                 (forall j, 0 <= j < nc -> -1 <= at_ 0 p j < nr) /\
                 (forall j, 0 <= j < nc ->
                    (at_ 0 p j = at_ 0 path j /\ at_ c_zero sp j = at_ c_zero spc j) \/
                    (at_ 0 p j = i /\ exists t, 0 <= t < k /\ at_ 0 rem t = j)))
              (fun K => Crouse.scan_body K nc w u v (as_kind K r4c) rem i minVal)
              (fun K '(p, sp, lo, ix) => (as_kind K p, sp, lo, idx_of_int K ix))
              n (path, spc, c_inf, -1))
    as ([[[p sp] lo] ix] & HP & E).
  - lia.
  - split; [exact Hlp|]. split; [exact Hls|]. split; [now left|]. split; [exact Hpath|].
    intros j Hj. left. auto.
  - intros k [[[p sp] lo] ix] Hk (Hl1 & Hl2 & Hix & Hpr & Hch').
    set (j := at_ 0 rem k).
    assert (Hj : 0 <= j < nc) by (apply Hlive; lia).
    set (r := c_sub (c_sub (c_add minVal (at_ c_zero w (i * nc + j))) (at_ c_zero u i))
                    (at_ c_zero v j)).
    set (b := c_ltb r (at_ c_zero sp j)).
    set (p1 := if b then set_nth p (Z.to_nat j) i else p).
    set (sp1 := if b then set_nth sp (Z.to_nat j) r else sp).
    set (sj := at_ c_zero sp1 j).
    set (take := if c_ltb sj lo then true
                 else if c_eqb sj lo then at_ 0 r4c j =? -1 else false).
    exists (if take then (p1, sp1, sj, k) else (p1, sp1, lo, ix)).
    assert (Hlp1 : Z.of_nat (length p1) = nc).
    { unfold p1. destruct b; rewrite ?length_set_nth; exact Hl1. }
    assert (Hls1 : Z.of_nat (length sp1) = nc).
    { unfold sp1. destruct b; rewrite ?length_set_nth; exact Hl2. }
    assert (Hp1o : forall j', 0 <= j' -> j' <> j -> at_ 0 p1 j' = at_ 0 p j').
    { intros j' H0 Hne. unfold p1. destruct b; [|reflexivity]. apply at_set_neq; lia. }
    assert (Hs1o : forall j', 0 <= j' -> j' <> j -> at_ c_zero sp1 j' = at_ c_zero sp j').
    { intros j' H0 Hne. unfold sp1. destruct b; [|reflexivity]. apply at_set_neq; lia. }
    split.
    + assert (Hcommon :
        Z.of_nat (length p1) = nc /\ Z.of_nat (length sp1) = nc /\
        (forall j', 0 <= j' < nc -> -1 <= at_ 0 p1 j' < nr) /\
        (forall j', 0 <= j' < nc ->
           (at_ 0 p1 j' = at_ 0 path j' /\ at_ c_zero sp1 j' = at_ c_zero spc j') \/
           (at_ 0 p1 j' = i /\ exists t, 0 <= t < k + 1 /\ at_ 0 rem t = j'))).
      { split; [exact Hlp1|]. split; [exact Hls1|]. split.
        - intros j' Hj'. destruct (Z.eq_dec j' j) as [->|Hne].
          + unfold p1. destruct b; [|now apply Hpr]. rewrite at_set_eq by lia. lia.
          + rewrite Hp1o by lia. now apply Hpr.
        - intros j' Hj'. destruct (Z.eq_dec j' j) as [->|Hne].
          + unfold p1, sp1. destruct b.
            * right. rewrite at_set_eq by lia. split; [reflexivity|]. exists k. split; [lia|reflexivity].
            * destruct (Hch' j Hj) as [? | (? & t & ? & ?)]; [now left|right].
              split; [assumption|]. exists t. split; [lia|assumption].
          + rewrite Hp1o, Hs1o by lia.
            destruct (Hch' j' Hj') as [? | (? & t & ? & ?)]; [now left|right].
            split; [assumption|]. exists t. split; [lia|assumption]. }
      destruct Hcommon as (C1 & C2 & C3 & C4).
      destruct take.
      * split; [exact C1|]. split; [exact C2|]. split; [|split; [exact C3|exact C4]].
        right. split; [lia|reflexivity].
      * split; [exact C1|]. split; [exact C2|]. split; [|split; [exact C3|exact C4]].
        destruct Hix as [? | [Hr0 Hr1]]; [now left|right]. split; [lia|].
        rewrite Hs1o; [exact Hr1|apply Hlive; lia|].
        intros He. apply (Hdist ix k) in He; lia.
    + intros K. unfold Crouse.scan_body.
      rewrite (rd_ok 0 rem) by lia. cbn [bind]. fold j.
      rewrite (rd_ok c_zero w) by nia. cbn [bind].
      rewrite (rd_ok c_zero u) by lia. cbn [bind].
      rewrite (rd_ok c_zero v) by lia. cbn [bind].
      rewrite (rd_ok c_zero sp) by lia. cbn [bind]. fold r. fold b.
      assert (Eb : (if b
                    then path' <- wr (as_kind K p) j i ;;
                         spc' <- wr sp j r ;; Ret (path', spc')
                    else Ret (as_kind K p, sp)) = Ret (as_kind K p1, sp1)).
      { unfold p1, sp1. destruct b; [|reflexivity].
        rewrite wr_as_kind by lia. cbn [bind]. rewrite wr_set by lia. reflexivity. }
      rewrite Eb. cbn [bind].
      rewrite (rd_ok c_zero sp1) by lia. cbn [bind]. fold sj.
      assert (Et : (if c_ltb sj lo then Ret true
                    else if c_eqb sj lo
                         then r4 <- rd (as_kind K r4c) j ;; Ret (r4 =? Crouse.neg1 K)
                         else Ret false) = Ret take).
      { unfold take. destruct (c_ltb sj lo); [reflexivity|].
        destruct (c_eqb sj lo); [|reflexivity].
        rewrite rd_as_kind by lia. cbn [bind].
        rewrite idx_of_int_is_neg1; [reflexivity|]. specialize (Hm_r j Hj). lia. }
      rewrite Et. cbn [bind].
      destruct take; [|reflexivity]. now rewrite (idx_of_int_nonneg K k) by lia.
  - exists p, sp, lo, ix. destruct HP as (H1 & H2 & H3 & H4 & H5).
    split; [|auto 6]. intros K. apply E.
Qed.

(** One iteration of [while (sink == -1)]. *)
Lemma ap_body_spec (a : @Crouse.ap_arrays Cost) (n i : Z) (sel : list Z) (minVal : Cost) :
  GSearch nr nc r4c cur n i sel a ->
  exists st,
    (forall K, Crouse.ap_body K nc w u v (as_kind K r4c) n i minVal (ap_as_kind K a)
               = Ret (step_as_kind K st)) /\
    match st with
    | Crouse.ApInfeasible a' => GArrays nr nc cur a'
    | Crouse.ApSink sink _ a' => GFound nr nc r4c cur sink sel a'
    | Crouse.ApAgain i' _ a' =>
        0 < n /\ exists j, GSearch nr nc r4c cur (n - 1) i' (j :: sel) a'
    end.
Proof.
  intros G.
  destruct (scan_spec a n i sel minVal G)
    as (path' & spc' & lowest & index & Escan & Hlp' & Hls' & Hix & Hpr' & Hch').
  destruct G as [[Hlp Hls Hlsr Hlsc Hlrem Hpath HSR] Hn Hlive Hdist Hrow Hsel Hnd Hch Hfr].
  destruct a as [path spc SR SC rem].
  cbn [Crouse.ap_path Crouse.ap_spc Crouse.ap_SR Crouse.ap_SC Crouse.ap_remaining] in *.
  pose proof (rows_of_range sel i Hsel Hrow) as Hi.
  set (SR' := set_nth SR (Z.to_nat i) true).
  assert (HlSR' : Z.of_nat (length SR') = nr) by (unfold SR'; now rewrite length_set_nth).
  assert (HSR' : forall i', 0 <= i' < nr -> at_ false SR' i' = true -> i' <= cur).
  { intros i' Hi' Ht. destruct (Z.eq_dec i' i) as [->|Hne]; [lia|].
    unfold SR' in Ht. rewrite at_set_neq in Ht by lia. now apply HSR. }
  assert (Hfr' : forall j, 0 <= j < nc ->
                           at_ c_zero spc' j = c_inf \/ In (at_ 0 path' j) (rows_of r4c cur sel)).
  { intros j Hj. destruct (Hch' j Hj) as [[-> ->] | [-> _]]; [now apply Hfr|now right]. }
  assert (Hchain' : chain path' r4c cur sel).
  { apply (chain_ext path); [|exact Hch]. intros x Hx.
    destruct (Hch' x (proj1 (Hsel x Hx))) as [[? _] | (_ & t & Ht & Et)]; [assumption|].
    exfalso. apply (proj2 (Hlive t Ht)). now rewrite Et. }
  assert (Hstart : forall K,
             Crouse.ap_body K nc w u v (as_kind K r4c) n i minVal
                            (ap_as_kind K (Crouse.mk_ap path spc SR SC rem))
             = (let minVal := lowest in
                if c_eqb minVal c_inf
                then Ret (Crouse.ApInfeasible (Crouse.mk_ap (as_kind K path') spc' SR' SC rem))
                else
                  j <- rd rem (idx_of_int K index) ;;
                  r4 <- rd (as_kind K r4c) j ;;
                  SC <- wr SC j true ;;
                  last <- rd rem (n - 1) ;;
                  remaining <- wr rem (idx_of_int K index) last ;;
                  let a' := Crouse.mk_ap (as_kind K path') spc' SR' SC remaining in
                  if r4 =? Crouse.neg1 K then Ret (Crouse.ApSink j minVal a')
                  else Ret (Crouse.ApAgain r4 minVal a'))).
  { intros K. unfold Crouse.ap_body, ap_as_kind.
    cbn [Crouse.ap_path Crouse.ap_spc Crouse.ap_SR Crouse.ap_SC Crouse.ap_remaining].
    rewrite wr_set by lia. cbn [bind]. fold SR'. rewrite (Escan K). reflexivity. }
  destruct (c_eqb lowest c_inf) eqn:Elow.
  - exists (Crouse.ApInfeasible (Crouse.mk_ap path' spc' SR' SC rem)). split.
    + intros K. rewrite Hstart. cbv zeta. rewrite Elow. reflexivity.
    + constructor; cbn [Crouse.ap_path Crouse.ap_spc Crouse.ap_SR Crouse.ap_SC
                        Crouse.ap_remaining]; assumption.
  - destruct Hix as [[_ ->] | [Hix Hlow]]; [congruence|].
    set (j := at_ 0 rem index) in *.
    destruct (Hlive index Hix) as [Hj Hjsel]. fold j in Hj, Hjsel.
    assert (Hfrom : In (at_ 0 path' j) (rows_of r4c cur sel)).
    { destruct (Hfr' j Hj) as [E | ?]; [|assumption]. congruence. }
    set (SC' := set_nth SC (Z.to_nat j) true).
    set (rem' := set_nth rem (Z.to_nat index) (at_ 0 rem (n - 1))).
    assert (Hbody : forall K,
               Crouse.ap_body K nc w u v (as_kind K r4c) n i minVal
                              (ap_as_kind K (Crouse.mk_ap path spc SR SC rem))
               = if at_ 0 r4c j =? -1
                 then Ret (Crouse.ApSink j lowest (Crouse.mk_ap (as_kind K path') spc' SR' SC' rem'))
                 else Ret (Crouse.ApAgain (at_ 0 r4c j) lowest
                             (Crouse.mk_ap (as_kind K path') spc' SR' SC' rem'))).
    { intros K. rewrite Hstart. cbv zeta. rewrite Elow.
      rewrite (idx_of_int_nonneg K index) by lia.
      rewrite (rd_ok 0 rem) by lia. cbn [bind]. fold j.
      rewrite rd_as_kind by lia. cbn [bind].
      rewrite wr_set by lia. cbn [bind]. fold SC'.
      rewrite (rd_ok 0 rem) by lia. cbn [bind].
      rewrite wr_set by lia. cbn [bind]. fold rem'.
      pose proof (Hm_r j Hj) as Hr.
      rewrite idx_of_int_is_neg1 by lia.
      destruct (Z.eqb_spec (at_ 0 r4c j) (-1)); [reflexivity|].
      now rewrite idx_of_int_nonneg by lia. }
    assert (Harr : GArrays nr nc cur (Crouse.mk_ap path' spc' SR' SC' rem')).
    { constructor; cbn [Crouse.ap_path Crouse.ap_spc Crouse.ap_SR Crouse.ap_SC
                        Crouse.ap_remaining]; try assumption.
      - unfold SC'. now rewrite length_set_nth.
      - unfold rem'. now rewrite length_set_nth. }
    destruct (Z.eqb_spec (at_ 0 r4c j) (-1)) as [Hfree | Hmatched].
    + exists (Crouse.ApSink j lowest (Crouse.mk_ap path' spc' SR' SC' rem')). split.
      * intros K. rewrite Hbody. reflexivity.
      * constructor; cbn [Crouse.ap_path]; assumption.
    + exists (Crouse.ApAgain (at_ 0 r4c j) lowest (Crouse.mk_ap path' spc' SR' SC' rem')). split.
      * intros K. rewrite Hbody. reflexivity.
      * split; [lia|]. exists j.
        assert (Hrem' : forall t, 0 <= t < n - 1 ->
                   exists t', 0 <= t' < n /\ t' <> index /\ at_ 0 rem' t = at_ 0 rem t' /\
                              (t' = t \/ (t = index /\ t' = n - 1))).
        { intros t Ht. destruct (Z.eq_dec t index) as [->|Hne].
          - exists (n - 1). unfold rem'. rewrite at_set_eq by lia. repeat split; try lia.
          - exists t. unfold rem'. rewrite at_set_neq by lia. repeat split; try lia. }
        constructor; cbn [Crouse.ap_path Crouse.ap_spc Crouse.ap_SR Crouse.ap_SC
                          Crouse.ap_remaining].
        -- exact Harr.
        -- lia.
        -- intros t Ht. destruct (Hrem' t Ht) as (t' & Ht' & Hne & -> & _).
           destruct (Hlive t' Ht') as [Hr Hs]. split; [exact Hr|].
           intros [He | Hin]; [|contradiction].
           apply (Hdist index t') in He; lia.
        -- intros t1 t2 Ht1 Ht2 He.
           destruct (Hrem' t1 Ht1) as (t1' & Ht1' & Hne1 & E1 & Hc1).
           destruct (Hrem' t2 Ht2) as (t2' & Ht2' & Hne2 & E2 & Hc2).
           rewrite E1, E2 in He. apply (Hdist t1' t2') in He; lia.
        -- right. now left.
        -- intros x [<- | Hx]; [|now apply Hsel].
           split; [exact Hj|]. specialize (Hm_r j Hj). lia.
        -- constructor; assumption.
        -- split; [exact Hfrom|exact Hchain'].
        -- intros j' Hj'. destruct (Hfr' j' Hj') as [? | ?]; [now left|right].
           now apply rows_of_cons.
Qed.

(** [while (sink == -1)] returns: with no sink, or with a free column. *)
Lemma ap_loop_spec (n : nat) : forall (i : Z) (minVal : Cost) (sel : list Z)
    (a : @Crouse.ap_arrays Cost),
  GSearch nr nc r4c cur (Z.of_nat n) i sel a ->
  exists sink om a',
    (forall K, Crouse.ap_loop K nc w u v (as_kind K r4c) n i minVal (ap_as_kind K a)
               = Ret (idx_of_int K sink, om, ap_as_kind K a')) /\
    ((sink = -1 /\ om = None /\ GArrays nr nc cur a') \/
     (exists mv sel', om = Some mv /\ GFound nr nc r4c cur sink sel' a')).
Proof.
  induction n as [|n IH]; intros i minVal sel a G.
  - destruct (ap_body_spec a 0 i sel minVal G) as (st & E & Hst).
    destruct st as [a' | sink mv a' | i' mv a'].
    + exists (-1), None, a'. split; [|left; auto].
      intros K. cbn [Crouse.ap_loop]. change (Z.of_nat 0) with 0. rewrite E. reflexivity.
    + exists sink, (Some mv), a'. split; [|right; eauto].
      intros K. cbn [Crouse.ap_loop]. change (Z.of_nat 0) with 0. rewrite E. cbn.
      rewrite idx_of_int_nonneg; [reflexivity|]. destruct Hst. lia.
    + destruct Hst as [? _]. lia.
  - destruct (ap_body_spec a (Z.of_nat (S n)) i sel minVal G) as (st & E & Hst).
    destruct st as [a' | sink mv a' | i' mv a'].
    + exists (-1), None, a'. split; [|left; auto].
      intros K. cbn [Crouse.ap_loop]. rewrite E. reflexivity.
    + exists sink, (Some mv), a'. split; [|right; eauto].
      intros K. cbn [Crouse.ap_loop]. rewrite E. cbn.
      rewrite idx_of_int_nonneg; [reflexivity|]. destruct Hst. lia.
    + destruct Hst as (_ & j & G').
      replace (Z.of_nat (S n) - 1) with (Z.of_nat n) in G' by lia.
      destruct (IH i' mv (j :: sel) a' G') as (sink & om & a'' & E' & H').
      exists sink, om, a''. split; [|exact H'].
      intros K. cbn [Crouse.ap_loop]. rewrite E. cbn [bind step_as_kind]. apply E'.
Qed.

Lemma at_map_const_in {A B : Type} (d c : B) (l : list A) (i : Z) :
  0 <= i < Z.of_nat (length l) -> at_ d (map (fun _ => c) l) i = c.
Proof.
  intros Hi. unfold at_. rewrite (nth_indep _ d c) by (rewrite length_map; lia).
  apply (at_map_const c l i).
Qed.

Lemma remaining_filled (rem : list Z) :
  Z.of_nat (length rem) = nc ->
  exists rem', for_do (upto nc) (fun it rem => wr rem it (nc - it - 1)) rem = Ret rem' /\
               Z.of_nat (length rem') = nc /\
               forall it, 0 <= it < nc -> at_ 0 rem' it = nc - it - 1.
Proof.
  intros Hl.
  destruct (for_do_upto_total
              (fun k (r : list Z) =>
                 Z.of_nat (length r) = nc /\ forall it, 0 <= it < k -> at_ 0 r it = nc - it - 1)
              (fun it rem => wr rem it (nc - it - 1)) nc rem) as (rem' & E & HP).
  - lia.
  - split; [exact Hl|]. intros; lia.
  - intros k r Hk [Hlr Hr].
    destruct (wr_spec r k (nc - k - 1) ltac:(lia)) as (r' & E & Hl' & He & Ho).
    exists r'. split; [exact E|]. split; [lia|].
    intros it Hit. destruct (Z.eq_dec it k) as [->|Hne]; [apply He|].
    rewrite Ho by lia. apply Hr. lia.
  - exists rem'. split; [exact E|exact HP].
Qed.

(** [augmenting_path] for row [cur] returns, at every index kind alike: with
    no sink and nothing stored through [p_minVal], or with a free column. *)
Lemma augmenting_path_kinds (path : list Z) (spc : list Cost) (SR SC : list bool)
    (rem : list Z) :
  Z.of_nat (length path) = nc -> Z.of_nat (length spc) = nc ->
  Z.of_nat (length SR) = nr -> Z.of_nat (length SC) = nc -> Z.of_nat (length rem) = nc ->
  (forall j, 0 <= j < nc -> -1 <= at_ 0 path j < nr) ->
  exists sink om a',
    (forall K, Crouse.augmenting_path K nc w u v (as_kind K path) (as_kind K r4c) spc cur
                                      SR SC rem
               = Ret (idx_of_int K sink, om, ap_as_kind K a')) /\
    ((sink = -1 /\ om = None /\ GArrays nr nc cur a') \/
     (exists mv sel', om = Some mv /\ GFound nr nc r4c cur sink sel' a')).
Proof.
  intros Hlp Hls Hlsr Hlsc Hlrem Hpath.
  destruct (remaining_filled rem Hlrem) as (rem0 & E0 & Hl0 & Hrem0).
  set (a0 := Crouse.mk_ap path (map (fun _ => c_inf) spc) (map (fun _ => false) SR)
                          (map (fun _ => false) SC) rem0).
  assert (G : GSearch nr nc r4c cur (Z.of_nat (Z.to_nat nc)) cur [] a0).
  { rewrite Z2Nat.id by lia.
    constructor; cbn [a0 Crouse.ap_path Crouse.ap_spc Crouse.ap_SR Crouse.ap_SC
                      Crouse.ap_remaining].
    - constructor; cbn [a0 Crouse.ap_path Crouse.ap_spc Crouse.ap_SR Crouse.ap_SC
                        Crouse.ap_remaining]; rewrite ?length_map; try assumption.
      intros i Hi Ht. rewrite at_map_const in Ht. discriminate.
    - lia.
    - intros t Ht. rewrite Hrem0 by lia. split; [lia|]. intros [].
    - intros t t' Ht Ht'. rewrite !Hrem0 by lia. lia.
    - now left.
    - intros x [].
    - constructor.
    - exact I.
    - intros j Hj. left. apply at_map_const_in. lia. }
  destruct (ap_loop_spec (Z.to_nat nc) cur c_zero [] a0 G) as (sink & om & a' & E & Hres).
  exists sink, om, a'. split; [|exact Hres].
  intros K. unfold Crouse.augmenting_path. rewrite E0. cbn [bind]. apply E.
Qed.

End GenericSearch.

(** ** The augmentation over any cost type *)

Lemma chain_app_r (path r4c : list Z) (cur : Z) (pre suf : list Z) :
  chain path r4c cur (pre ++ suf) -> chain path r4c cur suf.
Proof. induction pre as [|x pre IH]; simpl; [auto|]. intros [_ Hc]. now apply IH. Qed.

Section GenericWalk.

Variables (nr nc : Z) (path r4c : list Z) (cur : Z).
Hypothesis Hnr : nr < 2 ^ 63.
Hypothesis Hnc : nc < 2 ^ 63.
Hypothesis Hcur : 0 <= cur < nr.
Hypothesis Len_path : Z.of_nat (length path) = nc.

Lemma augment_kinds (fuel : nat) : forall (j : Z) (suf r c : list Z),
  GWalk nr nc path r4c cur j suf r c -> (length suf < fuel)%nat ->
  exists r' c',
    (forall K, Crouse.augment fuel cur (as_kind K path) j (as_kind K r) (as_kind K c)
               = Ret (as_kind K r', as_kind K c')) /\
    GMatched nr nc cur r' c'.
Proof.
  induction fuel as [|fuel IH]; intros j suf r c G Hfuel; [lia|].
  destruct G as [Hj Hnew Hfrom Hsel Hnd Hch Hlr Hlc Hc Hmc Hmr].
  set (i := at_ 0 path j) in *.
  assert (Hi : 0 <= i <= cur).
  { destruct Hfrom as [<- | Hin]; [lia|].
    apply in_map_iff in Hin as (x & <- & Hx). destruct (Hsel x Hx) as (_ & ? & _). lia. }
  set (r1 := set_nth r (Z.to_nat j) i).
  set (c1 := set_nth c (Z.to_nat i) j).
  assert (Hr1e : at_ 0 r1 j = i) by (apply at_set_eq; lia).
  assert (Hr1o : forall j', 0 <= j' -> j' <> j -> at_ 0 r1 j' = at_ 0 r j')
    by (intros; apply at_set_neq; lia).
  assert (Hc1e : at_ 0 c1 i = j) by (apply at_set_eq; lia).
  assert (Hc1o : forall i', 0 <= i' -> i' <> i -> at_ 0 c1 i' = at_ 0 c i')
    by (intros; apply at_set_neq; lia).
  assert (Hlr1 : Z.of_nat (length r1) = nc) by (unfold r1; now rewrite length_set_nth).
  assert (Hlc1 : Z.of_nat (length c1) = nr) by (unfold c1; now rewrite length_set_nth).
  assert (Hc1 : forall i', 0 <= i' < nr -> -1 <= at_ 0 c1 i' < nc).
  { intros i' Hi'. destruct (Z.eq_dec i' i) as [->|Hne]; [lia|].
    rewrite Hc1o by lia. now apply Hc. }
  assert (Hstep : forall K,
             Crouse.augment (S fuel) cur (as_kind K path) j (as_kind K r) (as_kind K c)
             = if i =? cur then Ret (as_kind K r1, as_kind K c1)
               else Crouse.augment fuel cur (as_kind K path) (idx_of_int K (at_ 0 c i))
                                   (as_kind K r1) (as_kind K c1)).
  { intros K. cbn [Crouse.augment].
    rewrite rd_as_kind by lia. cbn [bind]. fold i.
    rewrite (idx_of_int_nonneg K i) by lia.
    rewrite wr_as_kind by lia. cbn [bind]. fold r1.
    rewrite rd_as_kind by lia. cbn [bind].
    rewrite wr_as_kind by lia. cbn [bind]. fold c1. reflexivity. }
  destruct (Z.eqb_spec i cur) as [Hic | Hic].
  - exists r1, c1. split; [intros K; rewrite Hstep; reflexivity|].
    split; [exact Hlr1|]. split; [exact Hlc1|]. split; [exact Hc1|]. split.
    + intros j' Hj'. destruct (Z.eq_dec j' j) as [->|Hne].
      * right. rewrite Hr1e. split; [lia|exact Hc1e].
      * rewrite Hr1o by lia. destruct (Hmr j' Hj' Hne) as [? | [Hrr Hcc]]; [now left|right].
        split; [lia|]. rewrite Hc1o by lia. exact Hcc.
    + intros i' Hi'. destruct (Z.eq_dec i' i) as [->|Hne].
      * rewrite Hc1e. split; [exact Hj|exact Hr1e].
      * rewrite Hc1o by lia. destruct (Hmc i' ltac:(lia)) as (Hcr & Hcj & Hrc).
        split; [exact Hcr|]. rewrite Hr1o by lia. exact Hrc.
  - destruct Hfrom as [? | Hin]; [congruence|].
    apply in_map_iff in Hin as (x & Hx & Hxs). fold i in Hx.
    destruct (Hsel x Hxs) as (Hxr & Hrx & Hcx). rewrite Hx in Hrx, Hcx.
    apply in_split in Hxs as (pre & suf' & ->).
    assert (Hx1 : ~ In x suf').
    { apply NoDup_remove_2 in Hnd. intros Hin. apply Hnd, in_or_app. now right. }
    assert (G' : GWalk nr nc path r4c cur x suf' r1 c1).
    { constructor.
      - exact Hxr.
      - exact Hx1.
      - apply chain_app_r in Hch. exact (proj1 Hch).
      - intros y Hy.
        assert (Hy' : In y (pre ++ x :: suf')) by (apply in_or_app; right; now right).
        destruct (Hsel y Hy') as (Hy1 & Hy2 & Hy3).
        split; [exact Hy1|]. split; [exact Hy2|].
        rewrite Hc1o; [exact Hy3|lia|]. intros He. rewrite He in Hy3.
        apply Hx1. replace x with y by congruence. exact Hy.
      - apply NoDup_remove_1 in Hnd. apply NoDup_app_remove_l in Hnd. exact Hnd.
      - apply chain_app_r in Hch. exact (proj2 Hch).
      - exact Hlr1.
      - exact Hlc1.
      - exact Hc1.
      - intros i' Hi'. destruct (Z.eq_dec i' i) as [->|Hne].
        + rewrite Hc1e. split; [exact Hj|]. split; [|exact Hr1e].
          intros ->. apply Hnew, in_or_app. right. now left.
        + rewrite Hc1o by lia. destruct (Hmc i' Hi') as (Hcr & Hcj & Hrc).
          split; [exact Hcr|]. split.
          * intros He. rewrite He in Hrc.
            destruct (Hmc i ltac:(lia)) as (_ & _ & Hri). rewrite Hcx in Hri. congruence.
          * rewrite Hr1o by lia. exact Hrc.
      - intros j' Hj' Hne. destruct (Z.eq_dec j' j) as [->|Hnj].
        + right. rewrite Hr1e. split; [lia|exact Hc1e].
        + rewrite Hr1o by lia. destruct (Hmr j' Hj' Hnj) as [? | [Hrr Hcc]]; [now left|right].
          split; [exact Hrr|]. rewrite Hc1o; [exact Hcc|lia|].
          intros He. rewrite He in Hcc. congruence. }
    destruct (IH x suf' r1 c1 G') as (r' & c' & E & HM).
    + rewrite length_app in Hfuel. simpl in Hfuel. lia.
    + exists r', c'. split; [|exact HM].
      intros K. rewrite Hstep. destruct (Z.eqb_spec i cur); [contradiction|].
      rewrite Hcx, (idx_of_int_nonneg K x) by lia. apply E.
Qed.

End GenericWalk.

(** ** The main loop of the Crouse solver over any cost type *)

Lemma for_each_seq_kinds {S R : Type} (P : nat -> S -> Prop) (r0 : R)
    (body : IdxKind -> Z -> S -> outcome (ctl S R)) (c : IdxKind -> S -> S) (n : nat) :
  forall (a : nat) (s : S),
  P a s ->
  (forall k s0, (a <= k < a + n)%nat -> P k s0 ->
     (exists s1, P (Datatypes.S k) s1 /\
                 forall K, body K (Z.of_nat k) (c K s0) = Ret (Next (c K s1))) \/
     (body IdxInt (Z.of_nat k) (c IdxInt s0) = Ret (Leave r0) /\
      body IdxSizeT (Z.of_nat k) (c IdxSizeT s0) = Fault)) ->
  (exists s', P (a + n)%nat s' /\
              forall K, for_each (map Z.of_nat (seq a n)) (body K) (c K s)
                        = Ret (Next (c K s'))) \/
  (for_each (map Z.of_nat (seq a n)) (body IdxInt) (c IdxInt s) = Ret (Leave r0) /\
   for_each (map Z.of_nat (seq a n)) (body IdxSizeT) (c IdxSizeT s) = Fault).
Proof.
  induction n as [|n IH]; intros a s Ha Hstep; simpl.
  - left. exists s. rewrite Nat.add_0_r. auto.
  - destruct (Hstep a s ltac:(lia) Ha) as [(s1 & H1 & E1) | [E1 E2]].
    + destruct (IH (Datatypes.S a) s1 H1) as [(s' & H' & E') | [E' E'']].
      * intros k s0 Hk. apply Hstep. lia.
      * left. exists s'. split.
        -- now replace (a + Datatypes.S n)%nat with (Datatypes.S a + n)%nat by lia.
        -- intros K. rewrite E1. cbn [bind]. apply E'.
      * right. rewrite !E1. cbn [bind]. auto.
    + right. rewrite E1, E2. cbn [bind]. auto.
Qed.

Section GenericRows.

Context {Cost : Type} `{CostType Cost}.
Hypothesis Hinf : c_eqb c_inf c_inf = true.

Variables (nr nc : Z) (w : list Cost).
Hypothesis Hnr : nr < 2 ^ 63.
Hypothesis Hnc : nc < 2 ^ 63.
Hypothesis Len_w : Z.of_nat (length w) = nr * nc.

Lemma selected_length (sel : list Z) (sink : Z) :
  NoDup sel -> (forall x, In x sel -> 0 <= x < nc) -> 0 <= sink < nc -> ~ In sink sel ->
  (length sel < Z.to_nat nc)%nat.
Proof.
  intros Hnd Hr Hs Hn.
  assert (Hle : (length (sink :: sel) <= length (upto nc))%nat).
  { apply NoDup_incl_length; [now constructor|].
    intros x [<- | Hx]; apply In_upto; auto. }
  rewrite length_upto in Hle. simpl in Hle. lia.
Qed.

(** One row: matched at every index kind alike, or not matchable, which the
    run over [int] reports and the run over [size_t] does not survive. *)
Lemma row_body_kinds (fuel : nat) (cur : Z) (s : @Crouse.solver_state Cost) :
  0 <= cur < nr -> nc <= Z.of_nat fuel -> GState nr nc cur s ->
  (exists s', GState nr nc (cur + 1) s' /\
              forall K, Crouse.row_body K fuel nr nc w cur (st_as_kind K s)
                        = Ret (Next (st_as_kind K s'))) \/
  (Crouse.row_body IdxInt fuel nr nc w cur (st_as_kind IdxInt s)
   = Ret (Leave RECTANGULAR_LSAP_INFEASIBLE) /\
   Crouse.row_body IdxSizeT fuel nr nc w cur (st_as_kind IdxSizeT s) = Fault).
Proof.
  intros Hcur Hfuel G. destruct s as [u v c4r r4c [path spc SR SC rem]].
  destruct G as [Hlu Hlv Hlc Hlr Hlp Hls Hlsr Hlsc Hlrem Hpath Hc Hmr Hmc].
  cbn [Crouse.st_u Crouse.st_v Crouse.st_col4row Crouse.st_row4col Crouse.st_ap
       Crouse.ap_path Crouse.ap_spc Crouse.ap_SR Crouse.ap_SC Crouse.ap_remaining] in *.
  assert (Hmr' : forall j, 0 <= j < nc -> -1 <= at_ 0 r4c j < cur).
  { intros j Hj. destruct (Hmr j Hj) as [-> | [? _]]; lia. }
  destruct (augmenting_path_kinds Hinf nr nc w u v r4c cur Hnr Hnc Hcur Len_w Hlu Hlv Hlr Hmr'
              path spc SR SC rem Hlp Hls Hlsr Hlsc Hlrem Hpath)
    as (sink & om & a' & E & Hres).
  assert (Hrun : forall K,
             Crouse.row_body K fuel nr nc w cur
                             (st_as_kind K (Crouse.mk_st u v c4r r4c
                                              (Crouse.mk_ap path spc SR SC rem)))
             = (let ap := ap_as_kind K a' in
                if idx_is_neg K (idx_of_int K sink) then Ret (Leave RECTANGULAR_LSAP_INFEASIBLE)
                else
                  minVal <- match om with Some m => Ret m | None => Fault end ;;
                  ucur <- rd u cur ;;
                  u1 <- wr u cur (c_add ucur minVal) ;;
                  u2 <- for_do (upto nr)
                          (fun i u0 =>
                             sr <- rd (Crouse.ap_SR ap) i ;;
                             if (sr : bool) && negb (i =? cur)
                             then c4 <- rd (as_kind K c4r) i ;;
                                  sp <- rd (Crouse.ap_spc ap) c4 ;;
                                  ui <- rd u0 i ;;
                                  wr u0 i (c_add ui (c_sub minVal sp))
                             else Ret u0)
                          u1 ;;
                  v1 <- for_do (upto nc)
                          (fun j v0 =>
                             sc <- rd (Crouse.ap_SC ap) j ;;
                             if sc : bool
                             then sp <- rd (Crouse.ap_spc ap) j ;;
                                  vj <- rd v0 j ;;
                                  wr v0 j (c_sub vj (c_sub minVal sp))
                             else Ret v0)
                          v ;;
                  '(row4col, col4row) <-
                     Crouse.augment fuel cur (Crouse.ap_path ap) (idx_of_int K sink)
                                    (as_kind K r4c) (as_kind K c4r) ;;
                  Ret (Next (Crouse.mk_st u2 v1 col4row row4col ap)))).
  { intros K. unfold Crouse.row_body, st_as_kind.
    cbn [Crouse.st_u Crouse.st_v Crouse.st_col4row Crouse.st_row4col Crouse.st_ap
         Crouse.ap_path Crouse.ap_spc Crouse.ap_SR Crouse.ap_SC Crouse.ap_remaining
         ap_as_kind].
    rewrite (E K). reflexivity. }
  destruct Hres as [(-> & -> & Harr) | (mv & sel & -> & F)].
  - right. rewrite !Hrun. split; reflexivity.
  - left. destruct F as [Harr Hsink Hfree Hnew Hfrom Hsel Hnd Hch].
    destruct a' as [path' spc' SR' SC' rem'].
    destruct Harr as [Hlp' Hls' Hlsr' Hlsc' Hlrem' Hpath' HSR'].
    cbn [Crouse.ap_path Crouse.ap_spc Crouse.ap_SR Crouse.ap_SC Crouse.ap_remaining] in *.
    destruct (wr_ok u cur (c_add (at_ c_zero u cur) mv) ltac:(lia)) as (u1 & Eu1 & Hlu1).
    destruct (for_do_upto_kinds
                (fun (_ : Z) (u0 : list Cost) => Z.of_nat (length u0) = nr)
                (fun K i u0 =>
                   sr <- rd SR' i ;;
                   if (sr : bool) && negb (i =? cur)
                   then c4 <- rd (as_kind K c4r) i ;;
                        sp <- rd spc' c4 ;;
                        ui <- rd u0 i ;;
                        wr u0 i (c_add ui (c_sub mv sp))
                   else Ret u0)
                (fun _ u0 => u0) nr u1) as (u2 & Hlu2 & Eu2).
    + lia.
    + lia.
    + intros k u0 Hk Hl0. rewrite (rd_ok false SR') by lia. cbn [bind].
      destruct (at_ false SR' k && negb (k =? cur)) eqn:Eb.
      * apply andb_true_iff in Eb as [Esr Ene]. apply negb_true_iff, Z.eqb_neq in Ene.
        pose proof (HSR' k Hk Esr) as Hle.
        destruct (Hmc k ltac:(lia)) as [Hck _].
        destruct (wr_ok u0 k (c_add (at_ c_zero u0 k) (c_sub mv (at_ c_zero spc' (at_ 0 c4r k))))
                        ltac:(lia)) as (u0' & Eu0 & Hl0').
        exists u0'. split; [lia|]. intros K.
        rewrite rd_as_kind by lia. cbn [bind].
        rewrite idx_of_int_nonneg by lia.
        rewrite (rd_ok c_zero spc') by lia. cbn [bind].
        rewrite (rd_ok c_zero u0) by lia. cbn [bind]. exact Eu0.
      * exists u0. split; [exact Hl0|reflexivity].
    + destruct (for_do_upto_total
                  (fun (_ : Z) (v0 : list Cost) => Z.of_nat (length v0) = nc)
                  (fun j v0 =>
                     sc <- rd SC' j ;;
                     if sc : bool
                     then sp <- rd spc' j ;;
                          vj <- rd v0 j ;;
                          wr v0 j (c_sub vj (c_sub mv sp))
                     else Ret v0)
                  nc v) as (v1 & Ev1 & Hlv1).
      * lia.
      * exact Hlv.
      * intros k v0 Hk Hl0. rewrite (rd_ok false SC') by lia. cbn [bind].
        destruct (at_ false SC' k); [|exists v0; auto].
        rewrite (rd_ok c_zero spc') by lia. cbn [bind].
        rewrite (rd_ok c_zero v0) by lia. cbn [bind].
        destruct (wr_ok v0 k (c_sub (at_ c_zero v0 k) (c_sub mv (at_ c_zero spc' k)))
                        ltac:(lia)) as (v0' & Ev0 & Hl0').
        exists v0'. split; [exact Ev0|lia].
      * assert (W : GWalk nr nc path' r4c cur sink sel r4c c4r).
        { constructor; try assumption.
          - intros x Hx. destruct (Hsel x Hx) as [Hx1 Hx2]. split; [exact Hx1|].
            destruct (Hmr x Hx1) as [? | [? ?]]; [lia|]. split; assumption.
          - intros i Hi. destruct (Hmc i Hi) as [Hci Hri]. split; [exact Hci|].
            split; [|exact Hri]. intros He. rewrite He in Hri. lia.
          - intros j' Hj' _. now apply Hmr. }
        destruct (augment_kinds nr nc path' r4c cur Hnr Hnc Hcur Hlp' fuel sink sel r4c c4r W)
          as (r' & c' & Ea & HM).
        { pose proof (selected_length sel sink Hnd (fun x Hx => proj1 (Hsel x Hx)) Hsink Hnew).
          lia. }
        destruct HM as (Hlr' & Hlc' & Hc' & Hmr1 & Hmc1).
        exists (Crouse.mk_st u2 v1 c' r' (Crouse.mk_ap path' spc' SR' SC' rem')). split.
        -- constructor;
             cbn [Crouse.st_u Crouse.st_v Crouse.st_col4row Crouse.st_row4col Crouse.st_ap
                  Crouse.ap_path Crouse.ap_spc Crouse.ap_SR Crouse.ap_SC Crouse.ap_remaining];
             assumption.
        -- intros K. rewrite Hrun. cbv zeta.
           cbn [ap_as_kind Crouse.ap_path Crouse.ap_spc Crouse.ap_SR Crouse.ap_SC
                Crouse.ap_remaining].
           rewrite (idx_of_int_nonneg K sink) by lia.
           replace (idx_is_neg K sink) with false
             by (destruct K; cbn [idx_is_neg]; [symmetry; apply Z.ltb_ge; lia|reflexivity]).
           cbn [bind]. rewrite (rd_ok c_zero u) by lia. cbn [bind].
           rewrite Eu1. cbn [bind]. rewrite (Eu2 K). cbn [bind].
           rewrite Ev1. cbn [bind]. rewrite (Ea K). cbn [bind].
           reflexivity.
Qed.

End GenericRows.

Section GenericSolve.

Context {Cost : Type} `{CostType Cost}.
Hypothesis Hinf : c_eqb c_inf c_inf = true.

Lemma initial_state_as_kind (K : IdxKind) (nr nc : Z) :
  @Crouse.initial_state Cost _ K nr nc = st_as_kind K (Crouse.initial_state IdxInt nr nc).
Proof.
  unfold Crouse.initial_state, st_as_kind, ap_as_kind.
  cbn [Crouse.st_u Crouse.st_v Crouse.st_col4row Crouse.st_row4col Crouse.st_ap
       Crouse.ap_path Crouse.ap_spc Crouse.ap_SR Crouse.ap_SC Crouse.ap_remaining].
  now rewrite !as_kind_repeat.
Qed.

Lemma at_repeat_in {A : Type} (d x : A) (n : nat) (i : Z) :
  0 <= i < Z.of_nat n -> at_ d (repeat x n) i = x.
Proof. intros Hi. unfold at_. apply nth_repeat_lt. lia. Qed.

Lemma initial_shape (nr nc : Z) :
  0 <= nr -> 0 <= nc -> GState nr nc 0 (@Crouse.initial_state Cost _ IdxInt nr nc).
Proof.
  intros Hnr Hnc. unfold Crouse.initial_state. change (Crouse.neg1 IdxInt) with (-1).
  constructor;
    cbn [Crouse.st_u Crouse.st_v Crouse.st_col4row Crouse.st_row4col Crouse.st_ap
         Crouse.ap_path Crouse.ap_spc Crouse.ap_SR Crouse.ap_SC Crouse.ap_remaining];
    rewrite ?repeat_length; try lia.
  - intros j Hj. rewrite at_repeat_in by lia. lia.
  - intros i Hi. rewrite at_repeat_in by lia. lia.
  - intros j Hj. left. apply at_repeat_in. lia.
Qed.

(** The main loop: every row matched, at every index kind alike, or a row
    that cannot be matched. *)
Lemma rows_kinds (fuel : nat) (nr nc : Z) (w : list Cost) :
  0 <= nr < 2 ^ 63 -> 0 <= nc < 2 ^ 63 -> Z.of_nat (length w) = nr * nc ->
  nc <= Z.of_nat fuel ->
  (exists s, GState nr nc nr s /\
             forall K, for_each (upto nr) (Crouse.row_body K fuel nr nc w)
                                (Crouse.initial_state K nr nc)
                       = Ret (Next (st_as_kind K s))) \/
  (for_each (upto nr) (Crouse.row_body IdxInt fuel nr nc w) (Crouse.initial_state IdxInt nr nc)
   = Ret (Leave RECTANGULAR_LSAP_INFEASIBLE) /\
   for_each (upto nr) (Crouse.row_body IdxSizeT fuel nr nc w)
            (Crouse.initial_state IdxSizeT nr nc) = Fault).
Proof.
  intros Hnr Hnc Hlw Hfuel.
  destruct (for_each_seq_kinds
              (fun k (s : @Crouse.solver_state Cost) => GState nr nc (Z.of_nat k) s)
              RECTANGULAR_LSAP_INFEASIBLE
              (fun K => Crouse.row_body K fuel nr nc w) st_as_kind
              (Z.to_nat nr) 0 (Crouse.initial_state IdxInt nr nc))
    as [(s & G & E) | [E1 E2]].
  - apply initial_shape; lia.
  - intros k s0 Hk G.
    destruct (row_body_kinds Hinf nr nc w ltac:(lia) ltac:(lia) Hlw fuel (Z.of_nat k) s0
                ltac:(lia) Hfuel G) as [(s1 & G1 & E1) | [E1 E2]].
    + left. exists s1. split; [|exact E1].
      now replace (Z.of_nat (Datatypes.S k)) with (Z.of_nat k + 1) by lia.
    + right. auto.
  - left. exists s. cbn [Nat.add] in G. rewrite Z2Nat.id in G by lia. split; [exact G|].
    intros K. rewrite initial_state_as_kind. apply E.
  - right. rewrite (initial_state_as_kind IdxInt), (initial_state_as_kind IdxSizeT). auto.
Qed.

Lemma matched_nodup (nr nc : Z) (s : @Crouse.solver_state Cost) :
  GState nr nc nr s ->
  NoDup (Crouse.st_col4row s) /\
  (forall i, 0 <= i < nr -> 0 <= at_ 0 (Crouse.st_col4row s) i < nc) /\
  forall x, In x (Crouse.st_col4row s) -> 0 <= x < nc.
Proof.
  intros G. pose proof (g_len_c _ _ _ _ G) as Hl.
  assert (Hr : forall i, 0 <= i < nr -> 0 <= at_ 0 (Crouse.st_col4row s) i < nc).
  { intros i Hi. apply (g_m_c _ _ _ _ G i Hi). }
  split; [|split; [exact Hr|]].
  - apply (NoDup_nth (Crouse.st_col4row s) 0). intros i j Hi Hj He.
    destruct (g_m_c _ _ _ _ G (Z.of_nat i) ltac:(lia)) as [_ H1].
    destruct (g_m_c _ _ _ _ G (Z.of_nat j) ltac:(lia)) as [_ H2].
    unfold at_ in H1, H2. rewrite !Nat2Z.id in H1, H2. rewrite He in H1. lia.
  - intros x Hx. apply (In_nth _ _ 0) in Hx as (k & Hk & <-).
    specialize (Hr (Z.of_nat k) ltac:(lia)). unfold at_ in Hr. now rewrite Nat2Z.id in Hr.
Qed.

End GenericSolve.

(** ** The Crouse solver over any cost type *)

Section GenericEntry.

Context {Cost : Type} `{CostType Cost}.
Hypothesis Hinf : c_eqb c_inf c_inf = true.

(** What the buffers hold after a call that returned 0 on an [nr] by [nc]
    matrix: in their first [min nr nc] cells, pairs of a row and a column, the
    rows increasing and the columns distinct; every row occurs when there are
    no more rows than columns, every column otherwise. *)
Lemma crouse_kinds_run (fuel : nat) (nr nc : Z) (m : list Cost) (maximize : bool)
    (a b : list Z) :
  0 < nr < 2 ^ 63 -> 0 < nc < 2 ^ 63 -> length m = Z.to_nat (nr * nc) ->
  Z.max nr nc <= Z.of_nat fuel ->
  Z.min nr nc <= Z.of_nat (length a) -> Z.min nr nc <= Z.of_nat (length b) ->
  (existsb invalid_entry (working_matrix nr nc m maximize) = true /\
   forall K, Crouse.solve_rectangular_linear_assignment K fuel nr nc m maximize a b
             = Ret (idx_of_int K RECTANGULAR_LSAP_INVALID, a, b)) \/
  (existsb invalid_entry (working_matrix nr nc m maximize) = false /\
   Crouse.solve_rectangular_linear_assignment IdxInt fuel nr nc m maximize a b
   = Ret (RECTANGULAR_LSAP_INFEASIBLE, a, b) /\
   Crouse.solve_rectangular_linear_assignment IdxSizeT fuel nr nc m maximize a b = Fault) \/
  (existsb invalid_entry (working_matrix nr nc m maximize) = false /\
   exists a' b',
     (forall K, Crouse.solve_rectangular_linear_assignment K fuel nr nc m maximize a b
                = Ret (0, a', b')) /\
     length a' = length a /\ length b' = length b /\
     (forall k, 0 <= k < Z.min nr nc -> 0 <= at_ 0 a' k < nr /\ 0 <= at_ 0 b' k < nc) /\
     (forall k k', 0 <= k < k' -> k' < Z.min nr nc -> at_ 0 a' k < at_ 0 a' k') /\
     NoDup (firstn (Z.to_nat (Z.min nr nc)) b') /\
     (nr <= nc -> forall k, 0 <= k < nr -> at_ 0 a' k = k) /\
     (nc < nr -> Permutation (firstn (Z.to_nat nc) b') (upto nc))).
Proof.
  intros Hnr Hnc Hm Hfuel Ha Hb.
  assert (Hun : forall K,
             Crouse.solve_rectangular_linear_assignment K fuel nr nc m maximize a b
             = _) by (intros K; apply solve_unfold; lia || assumption).
  cbv zeta in Hun.
  set (w := working_matrix nr nc m maximize) in *.
  set (nr' := if nc <? nr then nc else nr) in *.
  set (nc' := if nc <? nr then nr else nc) in *.
  assert (Hd : 0 < nr' < 2 ^ 63 /\ 0 < nc' < 2 ^ 63 /\ nr' * nc' = nr * nc /\
               nr' = Z.min nr nc /\ nc' = Z.max nr nc).
  { unfold nr', nc'. destruct (Z.ltb_spec nc nr); lia. }
  destruct Hd as (Hnr' & Hnc' & Hprod & Hmin & Hmax).
  destruct (existsb invalid_entry w) eqn:Ev.
  { left. split; [reflexivity|]. intros K. now rewrite Hun. }
  right.
  assert (Hlw : Z.of_nat (length w) = nr' * nc').
  { unfold w. rewrite working_matrix_length by exact Hm. lia. }
  destruct (rows_kinds Hinf fuel nr' nc' w ltac:(lia) ltac:(lia) Hlw ltac:(lia))
    as [(s & G & E) | [E1 E2]].
  - right. split; [reflexivity|].
    destruct (matched_nodup nr' nc' s G) as (Hnd & Hat & Hin).
    pose proof (g_len_c _ _ _ _ G) as Hlc.
    assert (Hsame : forall K, Crouse.st_col4row (st_as_kind K s) = Crouse.st_col4row s).
    { intros K. unfold st_as_kind. cbn [Crouse.st_col4row].
      apply as_kind_nonneg. intros x Hx. specialize (Hin x Hx). lia. }
    destruct (Z.ltb_spec nc nr) as [Htall | Hwide].
    + destruct (write_solution_cols nr' (Crouse.st_col4row s) a b ltac:(lia) Hlc Hnd
                  ltac:(lia) ltac:(lia))
        as (a' & b' & Es & Hla & Hlb & Hperm & Hpair & Hinc).
      assert (Hbr : forall k, 0 <= k < nr' -> 0 <= at_ 0 b' k < nr').
      { intros k Hk. apply In_upto. apply (Permutation_in _ Hperm).
        rewrite <- (at_firstn 0 b' (Z.to_nat nr') k) by lia.
        apply nth_In. rewrite (Permutation_length Hperm), length_upto. lia. }
      exists a', b'. split.
      { intros K. rewrite Hun, (E K). cbn [bind]. rewrite Hsame, Es. cbn [bind].
        now rewrite idx_of_int_0. }
      split; [exact Hla|]. split; [exact Hlb|]. rewrite <- Hmin.
      split; [|split; [exact Hinc|split; [|split; [lia|]]]].
      * intros k Hk. specialize (Hbr k Hk). split; [|lia].
        rewrite Hpair by exact Hk. specialize (Hat _ Hbr). lia.
      * apply (Permutation_NoDup (Permutation_sym Hperm)), NoDup_upto.
      * intros _. replace nc with nr' by lia. exact Hperm.
    + destruct (write_solution_rows nr' (Crouse.st_col4row s) a b ltac:(lia) Hlc
                  ltac:(lia) ltac:(lia))
        as (a' & b' & Es & Hla & Hlb & Hab).
      exists a', b'. split.
      { intros K. rewrite Hun, (E K). cbn [bind]. rewrite Hsame, Es. cbn [bind].
        now rewrite idx_of_int_0. }
      split; [exact Hla|]. split; [exact Hlb|]. rewrite <- Hmin.
      split; [|split; [|split; [|split; [|lia]]]].
      * intros k Hk. destruct (Hab k Hk) as [-> ->]. specialize (Hat k Hk). lia.
      * intros k k' Hk Hk'. destruct (Hab k ltac:(lia)) as [-> _].
        destruct (Hab k' ltac:(lia)) as [-> _]. lia.
      * replace (firstn (Z.to_nat nr') b') with (Crouse.st_col4row s); [exact Hnd|].
        apply (list_at_ext 0).
        -- rewrite length_firstn. lia.
        -- intros k Hk. rewrite at_firstn by lia. symmetry. apply Hab. lia.
      * intros _ k Hk. apply Hab. lia.
  - left. split; [reflexivity|]. rewrite !Hun, E1, E2. cbn [bind]. split; reflexivity.
Qed.

End GenericEntry.

(** For every cost type whose infinity equals itself, as that of [double]
    does, the Crouse solver over [int] indices returns on every non-empty
    matrix, whatever its entries: it reads and writes inside its arrays and
    its loops end within the budget [max nr nc].  It returns -2 with the
    buffers untouched exactly when an entry of the working matrix is NaN or
    -infinity; otherwise -1 with the buffers untouched, or 0 with, in the
    first [min nr nc] cells of the buffers, pairs of a row and a column: the
    rows increasing, the columns distinct, every row present when there are
    no more rows than columns and every column present otherwise. *)
Theorem crouse_always_returns {Cost : Type} `{CostType Cost} (fuel : nat) (nr nc : Z)
    (m : list Cost) (maximize : bool) (a b : list Z) :
  c_eqb c_inf c_inf = true ->
  0 < nr < 2 ^ 63 -> 0 < nc < 2 ^ 63 -> length m = Z.to_nat (nr * nc) ->
  Z.max nr nc <= Z.of_nat fuel ->
  Z.min nr nc <= Z.of_nat (length a) -> Z.min nr nc <= Z.of_nat (length b) ->
  exists status a' b',
    Crouse.solve_rectangular_linear_assignment IdxInt fuel nr nc m maximize a b
    = Ret (status, a', b') /\
    ((status = RECTANGULAR_LSAP_INVALID /\ a' = a /\ b' = b /\
      existsb invalid_entry (working_matrix nr nc m maximize) = true) \/
     (status = RECTANGULAR_LSAP_INFEASIBLE /\ a' = a /\ b' = b /\
      existsb invalid_entry (working_matrix nr nc m maximize) = false) \/
     (status = 0 /\ existsb invalid_entry (working_matrix nr nc m maximize) = false /\
      length a' = length a /\ length b' = length b /\
      (forall k, 0 <= k < Z.min nr nc -> 0 <= at_ 0 a' k < nr /\ 0 <= at_ 0 b' k < nc) /\
      (forall k k', 0 <= k < k' -> k' < Z.min nr nc -> at_ 0 a' k < at_ 0 a' k') /\
      NoDup (firstn (Z.to_nat (Z.min nr nc)) b') /\
      (nr <= nc -> forall k, 0 <= k < nr -> at_ 0 a' k = k) /\
      (nc < nr -> Permutation (firstn (Z.to_nat nc) b') (upto nc)))).
Proof.
  intros Hinf Hnr Hnc Hm Hfuel Ha Hb.
  destruct (crouse_kinds_run Hinf fuel nr nc m maximize a b Hnr Hnc Hm Hfuel Ha Hb)
    as [[Ev E] | [(Ev & E & _) | (Ev & a' & b' & E & Hshape)]].
  - exists RECTANGULAR_LSAP_INVALID, a, b. split; [exact (E IdxInt)|]. left. auto.
  - exists RECTANGULAR_LSAP_INFEASIBLE, a, b. split; [exact E|]. right. left. auto.
  - exists 0, a', b'. split; [exact (E IdxInt)|]. right. right. auto.
Qed.

Lemma crouse_always_returns_witness :
  exists status a' b',
    Crouse.solve_rectangular_linear_assignment IdxInt 3 3 2
      [1; nan; 3; 5; neg_infinity; 0]%float true [7; 8] [9; 9]
    = Ret (status, a', b') /\
    ((status = RECTANGULAR_LSAP_INVALID /\ a' = [7; 8] /\ b' = [9; 9] /\
      existsb invalid_entry
              (working_matrix 3 2 [1; nan; 3; 5; neg_infinity; 0]%float true) = true) \/
     (status = RECTANGULAR_LSAP_INFEASIBLE /\ a' = [7; 8] /\ b' = [9; 9] /\
      existsb invalid_entry
              (working_matrix 3 2 [1; nan; 3; 5; neg_infinity; 0]%float true) = false) \/
     (status = 0 /\
      existsb invalid_entry
              (working_matrix 3 2 [1; nan; 3; 5; neg_infinity; 0]%float true) = false /\
      length a' = length [7; 8] /\ length b' = length [9; 9] /\
      (forall k, 0 <= k < Z.min 3 2 -> 0 <= at_ 0 a' k < 3 /\ 0 <= at_ 0 b' k < 2) /\
      (forall k k', 0 <= k < k' -> k' < Z.min 3 2 -> at_ 0 a' k < at_ 0 a' k') /\
      NoDup (firstn (Z.to_nat (Z.min 3 2)) b') /\
      (3 <= 2 -> forall k, 0 <= k < 3 -> at_ 0 a' k = k) /\
      (2 < 3 -> Permutation (firstn (Z.to_nat 2) b') (upto 2)))).
Proof.
  apply (crouse_always_returns 3 3 2 [1; nan; 3; 5; neg_infinity; 0]%float true [7; 8] [9; 9]);
    [reflexivity|lia|lia|reflexivity|simpl; lia|simpl; lia|simpl; lia].
Defined.

(** The instantiation at [size_t] against the one at [int], for every cost
    type whose infinity equals itself and every non-empty matrix: where the
    run over [int] returns 0 or -2, the run over [size_t] returns the same
    buffers and the same status converted to [size_t]; where the run over
    [int] returns -1 (infeasible), the run over [size_t] does not return: the
    test [sink < 0] is never true of a [size_t], and the run goes on to read
    [minVal], which was never stored. *)
Theorem crouse_size_t_entry {Cost : Type} `{CostType Cost} (fuel : nat) (nr nc : Z)
    (m : list Cost) (maximize : bool) (a b : list Z) :
  c_eqb c_inf c_inf = true ->
  0 < nr < 2 ^ 63 -> 0 < nc < 2 ^ 63 -> length m = Z.to_nat (nr * nc) ->
  Z.max nr nc <= Z.of_nat fuel ->
  Z.min nr nc <= Z.of_nat (length a) -> Z.min nr nc <= Z.of_nat (length b) ->
  exists status a' b',
    Crouse.solve_rectangular_linear_assignment IdxInt fuel nr nc m maximize a b
    = Ret (status, a', b') /\
    Crouse.solve_rectangular_linear_assignment IdxSizeT fuel nr nc m maximize a b
    = if status =? RECTANGULAR_LSAP_INFEASIBLE then Fault
      else Ret (status mod 2 ^ 64, a', b').
Proof.
  intros Hinf Hnr Hnc Hm Hfuel Ha Hb.
  destruct (crouse_kinds_run Hinf fuel nr nc m maximize a b Hnr Hnc Hm Hfuel Ha Hb)
    as [[Ev E] | [(Ev & E1 & E2) | (Ev & a' & b' & E & Hshape)]].
  - exists RECTANGULAR_LSAP_INVALID, a, b. split; [exact (E IdxInt)|]. exact (E IdxSizeT).
  - exists RECTANGULAR_LSAP_INFEASIBLE, a, b. split; [exact E1|exact E2].
  - exists 0, a', b'. split; [exact (E IdxInt)|exact (E IdxSizeT)].
Qed.

Lemma crouse_size_t_entry_witness :
  exists status a' b',
    Crouse.solve_rectangular_linear_assignment IdxInt 2 2 2
      [infinity; infinity; 1; 2]%float false [7; 8] [9; 9]
    = Ret (status, a', b') /\
    Crouse.solve_rectangular_linear_assignment IdxSizeT 2 2 2
      [infinity; infinity; 1; 2]%float false [7; 8] [9; 9]
    = if status =? RECTANGULAR_LSAP_INFEASIBLE then Fault
      else Ret (status mod 2 ^ 64, a', b').
Proof.
  apply (crouse_size_t_entry 2 2 2 [infinity; infinity; 1; 2]%float false [7; 8] [9; 9]);
    [reflexivity|lia|lia|reflexivity|simpl; lia|simpl; lia|simpl; lia].
Defined.

(** ** Loops that returned, over an interval *)

Lemma for_do_range_post {S : Type} (P : Z -> S -> Prop) (body : Z -> S -> outcome S)
    (lo hi : Z) (s s' : S) :
  lo <= hi -> P lo s ->
  (forall k s0 s1, lo <= k < hi -> P k s0 -> body k s0 = Ret s1 -> P (k + 1) s1) ->
  for_do (range lo hi) body s = Ret s' -> P hi s'.
Proof.
  intros Hle H0 Hstep E. rewrite range_upto, for_do_map in E.
  apply (for_do_upto_post (fun k s => P (lo + k) s)) in E.
  - now replace (lo + (hi - lo)) with hi in E by lia.
  - lia.
  - now rewrite Z.add_0_r.
  - intros k s0 s1 Hk HP Eb. replace (lo + (k + 1)) with (lo + k + 1) by lia.
    apply (Hstep (lo + k) s0 s1); auto. lia.
Qed.

Lemma for_each_range_post {S R : Type} (P : Z -> S -> Prop) (Q : R -> Prop)
    (body : Z -> S -> outcome (ctl S R)) (lo hi : Z) (s : S) (res : ctl S R) :
  lo <= hi -> P lo s ->
  (forall k s0 c, lo <= k < hi -> P k s0 -> body k s0 = Ret c ->
                  match c with Next s1 => P (k + 1) s1 | Leave r => Q r end) ->
  for_each (range lo hi) body s = Ret res ->
  match res with Next s' => P hi s' | Leave r => Q r end.
Proof.
  intros Hle H0 Hstep E. rewrite range_upto, for_each_map in E.
  apply (for_each_upto_post (fun k s => P (lo + k) s) Q) in E.
  - destruct res; [|exact E]. now replace (lo + (hi - lo)) with hi in E by lia.
  - lia.
  - now rewrite Z.add_0_r.
  - intros k s0 c Hk HP Eb.
    pose proof (Hstep (lo + k) s0 c ltac:(lia) HP Eb) as Hc.
    destruct c; [|exact Hc]. now replace (lo + (k + 1)) with (lo + k + 1) by lia.
Qed.

(** ** The row reduction of the Jonker-Volgenant solver over any cost type *)

Section GenericReduction.

Context {Cost : Type} `{CostType Cost}.
Variables (dim0 dim1 : Z).

(** Row [i], pending, takes column [jt]; the row that had [jt], if any,
    becomes pending. *)
Lemma jmatch_assign (pend pend' : Z -> Prop) (rowsol colsol rowsol' colsol' : list Z)
    (i jt : Z) :
  JMatch dim0 dim1 pend rowsol colsol -> pend i ->
  wr rowsol i jt = Ret rowsol' -> wr colsol jt i = Ret colsol' ->
  (forall x, pend' x <->
             (pend x /\ x <> i) \/ (0 <= at_ 0 colsol jt /\ x = at_ 0 colsol jt)) ->
  JMatch dim0 dim1 pend' rowsol' colsol'.
Proof.
  intros [Hlr Hlc Hcol Hrow] Hi Er Ec Hp.
  apply wr_at in Er as (Hib & Hlr' & Hre & Hro).
  apply wr_at in Ec as (Hjb & Hlc' & Hce & Hco).
  set (it := at_ 0 colsol jt) in *.
  assert (Hit : 0 <= it -> 0 <= it < dim0 /\ at_ 0 rowsol it = jt /\ ~ pend it).
  { intros H0. destruct (Hcol jt ltac:(lia)) as [? | ?]; [fold it in H1; lia|assumption]. }
  constructor.
  - lia.
  - lia.
  - intros j Hj. destruct (Z.eq_dec j jt) as [->|Hne].
    + right. rewrite Hce. split; [lia|]. split; [apply Hre|].
      intros Hp'. apply Hp in Hp' as [[_ ?] | [H0 E]]; [congruence|].
      destruct (Hit H0) as (_ & _ & Hn). apply Hn. now rewrite <- E.
    + rewrite Hco by lia. destruct (Hcol j Hj) as [? | (Ho & Hro' & Hno)]; [now left|right].
      assert (Hoi : at_ 0 colsol j <> i) by (intros E; apply Hno; now rewrite E).
      split; [exact Ho|]. split; [now rewrite Hro by lia|].
      intros Hp'. apply Hp in Hp' as [[? _] | [H0 E]]; [contradiction|].
      destruct (Hit H0) as (_ & Hrt & _). rewrite <- E in Hrt. congruence.
  - intros i' Hi' Hn'. destruct (Z.eq_dec i' i) as [->|Hne].
    + rewrite Hre. split; [lia|apply Hce].
    + assert (Hnp : ~ pend i') by (intros Hpi; apply Hn', Hp; left; auto).
      destruct (Hrow i' Hi' Hnp) as [Hr1 Hr2]. rewrite Hro by lia. split; [exact Hr1|].
      rewrite Hco; [exact Hr2|lia|].
      intros E. apply Hn', Hp. right. rewrite E in Hr2. fold it in Hr2. split; [lia|].
      now rewrite Hr2.
Qed.

(** [while (k < prevnumfree)], when it returns: nothing is pending but the
    rows put back for the next phase. *)
Lemma arr_loop_post (cost : list Cost) (prev : Z) (fuel : nat) :
  forall (k : Z) (s s' : @JV.arr_state Cost),
  JArr dim0 dim1 prev k s ->
  JV.arr_loop fuel dim1 cost prev k s = Ret s' ->
  JArr dim0 dim1 prev prev s'.
Proof.
  induction fuel as [|fuel IH]; intros k s s' A E; [discriminate|].
  cbn [JV.arr_loop] in E.
  destruct A as [M Hlf Hidx Hfree].
  destruct s as [free nf rowsol colsol v].
  cbn [JV.arr_free JV.arr_numfree JV.arr_rowsol JV.arr_colsol JV.arr_v] in *.
  destruct (Z.ltb_spec k prev) as [Hk | Hk].
  2:{ inversion E; subst s'. assert (Ek : k = prev) by lia. subst k.
      constructor; cbn [JV.arr_free JV.arr_numfree JV.arr_rowsol JV.arr_colsol JV.arr_v];
        assumption. }
  apply bind_Ret_inv in E as (i & Ei & E).
  apply bind_Ret_inv in E as ([[[umin usubmin] j1] j2] & _ & E).
  apply bind_Ret_inv in E as (i0 & Ei0 & E).
  apply bind_Ret_inv in E as (vj1 & _ & E).
  apply bind_Ret_inv in E as ([[v' jt] it] & Et & E).
  apply bind_Ret_inv in E as (rowsol' & Er & E).
  apply bind_Ret_inv in E as (colsol' & Ec & E).
  apply (rd_at 0) in Ei as [_ Ei]. subst i.
  set (i := at_ 0 free k) in *.
  set (lowers := c_ltb (c_sub vj1 (c_sub usubmin umin)) vj1) in *.
  assert (Hit : it = at_ 0 colsol jt /\ (lowers = false -> 0 <= it -> 0 <= i0)).
  { apply (rd_at 0) in Ei0 as [_ Ei0]. destruct lowers.
    - apply bind_Ret_inv in Et as (v1 & _ & Et). inversion Et; subst. split; [reflexivity|].
      discriminate.
    - destruct (Z.leb_spec 0 i0).
      + apply bind_Ret_inv in Et as (i0' & E0 & Et). inversion Et; subst.
        apply (rd_at 0) in E0 as [_ E0]. split; [now rewrite E0|]. auto.
      + inversion Et; subst. split; [reflexivity|]. intros _ ?. lia. }
  destruct Hit as [Hit _].
  assert (Hpi : pendA free nf k prev i) by (exists k; split; [right; lia|reflexivity]).
  pose proof Er as Er'. pose proof Ec as Ec'.
  apply wr_at in Er' as (Hib & _). apply wr_at in Ec' as (Hjb & _).
  pose proof (m_len_row _ _ _ _ _ M) as Hlr. pose proof (m_len_col _ _ _ _ _ M) as Hlc.
  assert (Hown : 0 <= it -> 0 <= it < dim0 /\ ~ pendA free nf k prev it).
  { intros H0. destruct (m_col _ _ _ _ _ M jt ltac:(lia)) as [E1 | (? & _ & ?)].
    - rewrite <- Hit in E1. lia.
    - rewrite <- Hit in *. auto. }
  destruct (Z.leb_spec 0 it) as [H0 | H0].
  - destruct (Hown H0) as [Hit0 Hnp].
    destruct lowers.
    + apply bind_Ret_inv in E as (free' & Ef & E).
      replace (k + 1 - 1) with k in * by lia.
      apply wr_at in Ef as (_ & Hlf' & Hfe & Hfo).
      destruct (pend_replace dim0 free free' nf k prev it Hfree ltac:(lia) Hk Hit0 Hnp
                  (Hfe 0) (Hfo 0)) as [Hp' Hfree'].
      apply (fun A => IH _ _ _ A E).
      constructor; cbn [JV.arr_free JV.arr_numfree JV.arr_rowsol JV.arr_colsol JV.arr_v].
      * apply (jmatch_assign _ _ rowsol colsol _ _ i jt M Hpi Er Ec).
        intros x. rewrite Hp', <- Hit. fold i. intuition.
      * lia.
      * lia.
      * exact Hfree'.
    + apply bind_Ret_inv in E as (free' & Ef & E).
      apply wr_at in Ef as (_ & Hlf' & Hfe & Hfo).
      destruct (pend_displace dim0 free free' nf k prev it Hfree ltac:(lia) Hk Hit0 Hnp
                  (Hfe 0) (Hfo 0)) as [Hp' Hfree'].
      apply (fun A => IH _ _ _ A E).
      constructor; cbn [JV.arr_free JV.arr_numfree JV.arr_rowsol JV.arr_colsol JV.arr_v].
      * apply (jmatch_assign _ _ rowsol colsol _ _ i jt M Hpi Er Ec).
        intros x. rewrite Hp', <- Hit. fold i. intuition.
      * lia.
      * lia.
      * exact Hfree'.
  - destruct (pend_advance dim0 free nf k prev Hfree ltac:(lia) Hk) as [Hp' Hfree'].
    apply (fun A => IH _ _ _ A E).
    constructor; cbn [JV.arr_free JV.arr_numfree JV.arr_rowsol JV.arr_colsol JV.arr_v].
    + apply (jmatch_assign _ _ rowsol colsol _ _ i jt M Hpi Er Ec).
      intros x. rewrite Hp', <- Hit. fold i. intuition lia.
    + lia.
    + lia.
    + exact Hfree'.
Qed.

End GenericReduction.

(** ** The shortest path search of the Jonker-Volgenant solver over any cost type *)

Section GenericTree.

Variables (dim1 freerow : Z) (colsol : list Z).

Lemma tree_prefix (low : Z) (pred cl cl' : list Z) :
  JTree dim1 freerow colsol low pred cl -> perm_ok dim1 cl' ->
  (forall q, 0 <= q < low -> at_ 0 cl' q = at_ 0 cl q) ->
  JTree dim1 freerow colsol low pred cl'.
Proof.
  intros [Hp Hl Hlow Hs Ht] Hp' He. constructor; try assumption.
  - intros q Hq. rewrite He by exact Hq. now apply Hs.
  - intros j Hj. destruct (Ht j Hj) as [? | (q' & Hq' & E & Hlt)]; [now left|right].
    exists q'. split; [exact Hq'|]. split; [now rewrite He|].
    intros q Hq Eq. apply Hlt; [exact Hq|]. now rewrite <- He.
Qed.

Lemma tree_advance (low : Z) (pred cl : list Z) :
  JTree dim1 freerow colsol low pred cl -> low < dim1 ->
  0 <= at_ 0 colsol (at_ 0 cl low) ->
  JTree dim1 freerow colsol (low + 1) pred cl.
Proof.
  intros [Hp Hl Hlow Hs Ht] Hlt Ha. constructor; try assumption.
  - lia.
  - intros q Hq. destruct (Z.eq_dec q low) as [->|Hne]; [exact Ha|]. apply Hs. lia.
  - intros j Hj. destruct (Ht j Hj) as [? | (q' & Hq' & E & Hlt')]; [now left|right].
    exists q'. split; [lia|]. split; [exact E|].
    intros q Hq Eq. destruct (Z.eq_dec q low) as [->|Hne]; [lia|]. apply Hlt'; [lia|exact Eq].
Qed.

Lemma tree_set_pred (low : Z) (pred pred' cl : list Z) (j : Z) :
  JTree dim1 freerow colsol low pred cl -> 0 < low ->
  (forall q, 0 <= q < low -> at_ 0 cl q <> j) ->
  wr pred j (at_ 0 colsol (at_ 0 cl (low - 1))) = Ret pred' ->
  JTree dim1 freerow colsol low pred' cl.
Proof.
  intros [Hp Hl Hlow Hs Ht] H0 Hj E.
  apply wr_at in E as (Hjb & Hl' & He & Ho).
  constructor; try assumption.
  - lia.
  - intros j' Hj'. destruct (Z.eq_dec j' j) as [->|Hne].
    + right. exists (low - 1). split; [lia|]. split; [apply He|].
      intros q Hq Eq. exfalso. now apply (Hj q Hq).
    + rewrite Ho by lia. now apply Ht.
Qed.

End GenericTree.

Section GenericJVSearch.

Context {Cost : Type} `{CostType Cost}.
Variables (dim1 freerow : Z) (colsol : list Z).

Lemma swap_post (cl cl1 cl2 : list Z) (k up : Z) :
  perm_ok dim1 cl -> 0 <= up <= k -> k < dim1 ->
  wr cl k (at_ 0 cl up) = Ret cl1 -> wr cl1 up (at_ 0 cl k) = Ret cl2 ->
  perm_ok dim1 cl2 /\ at_ 0 cl2 up = at_ 0 cl k /\
  forall p, 0 <= p -> p <> k -> p <> up -> at_ 0 cl2 p = at_ 0 cl p.
Proof.
  intros Hp Hup Hk E1 E2.
  destruct (swap_spec dim1 cl k up Hp Hup Hk) as (c1 & c2 & F1 & F2 & Hp2 & Hu & _ & Ho).
  rewrite E1 in F1. inversion F1; subst c1. rewrite E2 in F2. inversion F2; subst c2. auto.
Qed.

(** The block [if (up == low)], when it returns. *)
Lemma sp_new_minimum_post (s s' : @JV.sp_state Cost) (r : option Z) :
  JSearch dim1 freerow colsol s -> JV.sp_up s = JV.sp_low s ->
  JV.sp_new_minimum dim1 colsol s = Ret (r, s') ->
  match r with
  | Some j => JEnd dim1 freerow colsol j s'
  | None => JSearch dim1 freerow colsol s' /\ JV.sp_low s' < JV.sp_up s'
  end.
Proof.
  intros (T & Hb & _) Hup E. destruct s as [low up last min d pred cl].
  cbn [JV.sp_low JV.sp_up JV.sp_last JV.sp_min JV.sp_d JV.sp_pred JV.sp_collist] in *.
  subst up. unfold JV.sp_new_minimum in E.
  cbn [JV.sp_low JV.sp_up JV.sp_last JV.sp_min JV.sp_d JV.sp_pred JV.sp_collist] in E.
  pose proof (t_perm _ _ _ _ _ _ T) as Hperm. pose proof Hperm as (Hlcl & _).
  apply bind_Ret_inv in E as (c & Ec & E).
  apply bind_Ret_inv in E as (min0 & _ & E).
  apply bind_Ret_inv in E as ([[up1 min1] cl1] & Eloop & E).
  apply bind_Ret_inv in E as (res & Echeck & E).
  apply (rd_at 0) in Ec as [Hlow _].
  apply (for_do_range_post
           (fun k (st : Z * Cost * list Z) =>
              let '(up', _, cl') := st in
              low < up' <= k /\ perm_ok dim1 cl' /\
              forall q, 0 <= q < low -> at_ 0 cl' q = at_ 0 cl q)) in Eloop.
  - destruct Eloop as (Hup1 & Hp1 & Hpre).
    assert (T1 : JTree dim1 freerow colsol low pred cl1) by now apply (tree_prefix _ _ _ _ _ cl).
    apply (for_each_range_post
             (fun k (_ : unit) =>
                forall q, low <= q < k -> 0 <= at_ 0 colsol (at_ 0 cl1 q))
             (fun j => 0 <= j < dim1 /\ at_ 0 colsol j < 0)) in Echeck.
    + inversion E; subst r s'. destruct res as [[]|j].
      * split; [|cbn; lia]. split; [exact T1|]. cbn. split; [lia|exact Echeck].
      * split; [exact T1|exact Echeck].
    + lia.
    + intros; lia.
    + intros k [] c0 Hk HP Eb.
      apply bind_Ret_inv in Eb as (j & Ej & Eb).
      apply bind_Ret_inv in Eb as (cs & Ecs & Eb).
      apply (rd_at 0) in Ej as [_ Ej]. apply (rd_at 0) in Ecs as [_ Ecs]. subst j cs.
      destruct (Z.ltb_spec (at_ 0 colsol (at_ 0 cl1 k)) 0); inversion Eb; subst c0.
      * split; [|assumption]. destruct Hp1 as (_ & Hr & _). apply Hr. lia.
      * intros q Hq. destruct (Z.eq_dec q k) as [->|]; [assumption|]. apply HP. lia.
  - lia.
  - split; [lia|]. split; [exact Hperm|]. auto.
  - intros k [[up' min'] cl'] [[up2 min2] cl2] Hk (Hu & Hp' & Hpre) Eb.
    apply bind_Ret_inv in Eb as (j & Ej & Eb).
    apply bind_Ret_inv in Eb as (h & _ & Eb).
    apply (rd_at 0) in Ej as [_ Ej]. subst j.
    destruct (c_leb h min').
    + set (up'' := if c_ltb h min' then low else up').
      assert (Hsel : (let '(up0, min0) := if c_ltb h min' then (low, h) else (up', min') in
                      cu <- rd cl' up0 ;;
                      collist <- wr cl' k cu ;;
                      collist0 <- wr collist up0 (at_ 0 cl' k) ;;
                      Ret (up0 + 1, min0, collist0))
                     = (cu <- rd cl' up'' ;;
                        collist <- wr cl' k cu ;;
                        collist0 <- wr collist up'' (at_ 0 cl' k) ;;
                        Ret (up'' + 1, (if c_ltb h min' then h else min'), collist0))).
      { unfold up''. destruct (c_ltb h min'); reflexivity. }
      rewrite Hsel in Eb. clear Hsel.
      assert (Hu'' : low <= up'' <= k) by (unfold up''; destruct (c_ltb h min'); lia).
      apply bind_Ret_inv in Eb as (cu & Ecu & Eb).
      apply bind_Ret_inv in Eb as (c1 & E1 & Eb).
      apply bind_Ret_inv in Eb as (c2 & E2 & Eb).
      apply (rd_at 0) in Ecu as [_ Ecu]. subst cu.
      inversion Eb; subst up2 min2 cl2.
      destruct (swap_post cl' c1 c2 k up'' Hp' ltac:(lia) ltac:(lia) E1 E2) as (Hp2 & _ & Ho).
      split; [lia|]. split; [exact Hp2|].
      intros q Hq. rewrite Ho by lia. now apply Hpre.
    + inversion Eb; subst up2 min2 cl2. split; [lia|]. auto.
Qed.

(** The block [if (!unassigned_found)], when it returns. *)
Lemma sp_relax_post (cost v : list Cost) (s s' : @JV.sp_state Cost) (r : option Z) :
  JSearch dim1 freerow colsol s -> JV.sp_low s < JV.sp_up s ->
  JV.sp_relax dim1 cost v colsol s = Ret (r, s') ->
  match r with
  | Some j => JEnd dim1 freerow colsol j s'
  | None => JSearch dim1 freerow colsol s'
  end.
Proof.
  intros (T & Hb & Hready) Hlt E. destruct s as [low up last min d pred cl].
  cbn [JV.sp_low JV.sp_up JV.sp_last JV.sp_min JV.sp_d JV.sp_pred JV.sp_collist] in *.
  unfold JV.sp_relax in E.
  cbn [JV.sp_low JV.sp_up JV.sp_last JV.sp_min JV.sp_d JV.sp_pred JV.sp_collist] in E.
  pose proof (t_perm _ _ _ _ _ _ T) as Hperm.
  pose proof (t_low _ _ _ _ _ _ T) as Hlow.
  apply bind_Ret_inv in E as (j1 & Ej1 & E).
  apply bind_Ret_inv in E as (i & Ei & E).
  apply bind_Ret_inv in E as (cij1 & _ & E).
  apply bind_Ret_inv in E as (vj1 & _ & E).
  apply bind_Ret_inv in E as (res & Eloop & E).
  apply (rd_at 0) in Ej1 as [_ Ej1]. apply (rd_at 0) in Ei as [_ Ei]. subst j1 i.
  set (i := at_ 0 colsol (at_ 0 cl low)) in *.
  assert (T0 : JTree dim1 freerow colsol (low + 1) pred cl).
  { apply tree_advance; [exact T|lia|]. apply Hready. lia. }
  apply (for_each_range_post
           (fun k (st : Z * list Cost * list Z * list Z) =>
              let '(up', _, pred', cl') := st in
              up <= up' <= k /\ JTree dim1 freerow colsol (low + 1) pred' cl' /\
              (forall q, 0 <= q < up -> at_ 0 cl' q = at_ 0 cl q) /\
              (forall q, up <= q < up' -> 0 <= at_ 0 colsol (at_ 0 cl' q)))
           (fun (res : Z * @JV.sp_state Cost) =>
              JEnd dim1 freerow colsol (fst res) (snd res))) in Eloop.
  - destruct res as [[[[up1 d1] pred1] cl1] | [j s1]].
    + inversion E; subst r s'. destruct Eloop as (Hu & T1 & Hpre & Hnew).
      split; [exact T1|]. cbn [JV.sp_low JV.sp_up JV.sp_collist]. split; [lia|].
      intros q Hq. destruct (Z.lt_ge_cases q up).
      * rewrite Hpre by lia. apply Hready. lia.
      * apply Hnew. lia.
    + inversion E; subst r s'. exact Eloop.
  - lia.
  - split; [lia|]. split; [exact T0|]. split; [auto|]. intros; lia.
  - intros k [[[up' d'] pred'] cl'] c0 Hk (Hu & T' & Hpre & Hnew) Eb.
    pose proof (t_perm _ _ _ _ _ _ T') as Hp'. pose proof Hp' as (_ & Hr' & Hi' & _).
    apply bind_Ret_inv in Eb as (j & Ej & Eb).
    apply bind_Ret_inv in Eb as (cij & _ & Eb).
    apply bind_Ret_inv in Eb as (vj & _ & Eb).
    apply bind_Ret_inv in Eb as (dj & _ & Eb).
    apply (rd_at 0) in Ej as [_ Ej]. subst j.
    set (j := at_ 0 cl' k) in *.
    assert (Hj : 0 <= j < dim1) by (apply Hr'; lia).
    set (v2 := c_sub (c_sub cij vj) (c_sub (c_sub cij1 vj1) min)) in *.
    destruct (c_ltb v2 dj).
    2:{ inversion Eb; subst c0. split; [lia|auto]. }
    apply bind_Ret_inv in Eb as (pred2 & Epred & Eb).
    assert (T2 : JTree dim1 freerow colsol (low + 1) pred2 cl').
    { apply (tree_set_pred dim1 freerow colsol (low + 1) pred' pred2 cl' j T'); [lia| |].
      - intros q Hq Eq. apply (Hi' q k) in Eq; lia.
      - replace (low + 1 - 1) with low by lia. rewrite Hpre by lia. exact Epred. }
    destruct (c_eqb v2 min).
    2:{ apply bind_Ret_inv in Eb as (d2 & _ & Eb). inversion Eb; subst c0.
        split; [lia|auto]. }
    apply bind_Ret_inv in Eb as (cs & Ecs & Eb).
    apply (rd_at 0) in Ecs as [_ Ecs]. subst cs.
    destruct (Z.ltb_spec (at_ 0 colsol j) 0) as [Hneg | Hpos].
    + inversion Eb; subst c0. cbn [fst snd]. split; [exact T2|]. auto.
    + apply bind_Ret_inv in Eb as (cu & Ecu & Eb).
      apply bind_Ret_inv in Eb as (c1 & E1 & Eb).
      apply bind_Ret_inv in Eb as (c2 & E2 & Eb).
      apply bind_Ret_inv in Eb as (d2 & _ & Eb).
      apply (rd_at 0) in Ecu as [_ Ecu]. subst cu.
      inversion Eb; subst c0.
      destruct (swap_post cl' c1 c2 k up' Hp' ltac:(lia) ltac:(lia) E1 E2) as (Hp2 & Hup2 & Ho).
      split; [lia|]. split; [|split].
      * apply (tree_prefix dim1 freerow colsol (low + 1) pred2 cl' c2 T2 Hp2).
        intros q Hq. apply Ho; lia.
      * intros q Hq. rewrite Ho by lia. now apply Hpre.
      * intros q Hq. destruct (Z.eq_dec q up') as [->|Hne].
        -- rewrite Hup2. exact Hpos.
        -- rewrite Ho by lia. apply Hnew. lia.
Qed.

(** [do ... while (!unassigned_found)], when it returns: an unassigned
    column, at the end of a path of the tree. *)
Lemma sp_loop_post (cost v : list Cost) (fuel : nat) :
  forall (s s' : @JV.sp_state Cost) (j : Z),
  JSearch dim1 freerow colsol s ->
  JV.sp_loop fuel dim1 cost v colsol s = Ret (j, s') ->
  JEnd dim1 freerow colsol j s'.
Proof.
  induction fuel as [|fuel IH]; intros s s' j S E; [discriminate|].
  cbn [JV.sp_loop] in E.
  apply bind_Ret_inv in E as ([found s1] & E1 & E).
  assert (H1 : match found with
               | Some j => JEnd dim1 freerow colsol j s1
               | None => JSearch dim1 freerow colsol s1 /\ JV.sp_low s1 < JV.sp_up s1
               end).
  { destruct (Z.eqb_spec (JV.sp_up s) (JV.sp_low s)) as [Heq | Hne].
    - exact (sp_new_minimum_post s s1 found S Heq E1).
    - inversion E1; subst found s1. split; [exact S|]. destruct S as (_ & ? & _). lia. }
  destruct found as [j'|].
  - inversion E; subst. exact H1.
  - destruct H1 as [S1 Hlt].
    apply bind_Ret_inv in E as ([found2 s2] & E2 & E).
    pose proof (sp_relax_post cost v s1 s2 found2 S1 Hlt E2) as H2.
    destruct found2 as [j'|].
    + inversion E; subst. exact H2.
    + exact (IH s2 s' j H2 E).
Qed.

End GenericJVSearch.

(** ** The augmentation of the Jonker-Volgenant solver over any cost type *)

Section GenericFlip.

Variables (dim0 dim1 : Z) (pend : Z -> Prop) (freerow : Z).
Variables (pred collist rowsol0 colsol0 : list Z) (low : Z).
Hypothesis Hfree : pend freerow.
Hypothesis T : JTree dim1 freerow colsol0 low pred collist.
Hypothesis M0 : JMatch dim0 dim1 pend rowsol0 colsol0.

Lemma scanned_owner (q : Z) :
  0 <= q < low ->
  0 <= at_ 0 collist q < dim1 /\
  0 <= at_ 0 colsol0 (at_ 0 collist q) < dim0 /\
  at_ 0 rowsol0 (at_ 0 colsol0 (at_ 0 collist q)) = at_ 0 collist q /\
  ~ pend (at_ 0 colsol0 (at_ 0 collist q)).
Proof.
  intros Hq. pose proof (t_low _ _ _ _ _ _ T) as Hlow.
  destruct (t_perm _ _ _ _ _ _ T) as (_ & Hr & _).
  assert (Hj : 0 <= at_ 0 collist q < dim1) by (apply Hr; lia).
  split; [exact Hj|].
  pose proof (t_scanned _ _ _ _ _ _ T q Hq) as Ha.
  destruct (m_col _ _ _ _ _ M0 _ Hj) as [? | ?]; [lia|assumption].
Qed.

(** The walk back along [pred], when it returns: [freerow] is matched. *)
Lemma flip_path_post (fuel : nat) : forall (b j : Z) (r c r' c' : list Z),
  JWalk dim0 dim1 pend freerow pred collist colsol0 b j r c -> b <= low ->
  JV.flip_path fuel freerow pred j r c = Ret (r', c') ->
  JMatch dim0 dim1 (fun x => pend x /\ x <> freerow) r' c'.
Proof.
  induction fuel as [|fuel IH]; intros b j r c r' c' W Hb E; [discriminate|].
  destruct W as [Hj Hb0 Hpred Hkept Hother Hlr Hlc Hrw Hcl].
  cbn [JV.flip_path] in E.
  apply bind_Ret_inv in E as (i & Ei & E).
  apply bind_Ret_inv in E as (c1 & Ec & E).
  apply bind_Ret_inv in E as (old & Eo & E).
  apply bind_Ret_inv in E as (r1 & Er & E).
  apply (rd_at 0) in Ei as [_ Ei]. apply (rd_at 0) in Eo as [Hib Eo]. subst i old.
  set (i := at_ 0 pred j) in *.
  apply wr_at in Ec as (_ & Hlc1 & Hce & Hco).
  apply wr_at in Er as (_ & Hlr1 & Hre & Hro).
  specialize (Hce 0). specialize (Hre 0). specialize (Hco 0). specialize (Hro 0).
  destruct (Z.eqb_spec i freerow) as [Hif | Hif].
  - inversion E; subst r' c'. constructor.
    + lia.
    + lia.
    + intros j' Hj'. destruct (Z.eq_dec j' j) as [->|Hne].
      * right. rewrite Hce. split; [lia|]. split; [exact Hre|]. intros [_ ?]. congruence.
      * rewrite Hco by lia. destruct (Hcl j' Hj' Hne) as [? | (Ho & Hr' & Hn)]; [now left|right].
        assert (at_ 0 c j' <> i) by (intros Ee; apply Hn; rewrite Ee, Hif; exact Hfree).
        split; [exact Ho|]. split; [now rewrite Hro by lia|]. intros [? _]. contradiction.
    + intros i' Hi' Hn. destruct (Z.eq_dec i' i) as [->|Hne].
      * rewrite Hre. split; [exact Hj|exact Hce].
      * assert (Hnp : ~ pend i') by (intros Hp; apply Hn; split; [exact Hp|congruence]).
        destruct (Hrw i' Hi' Hnp) as (Hr1 & Hr2 & Hr3). rewrite Hro by lia.
        split; [exact Hr1|]. now rewrite Hco by lia.
  - destruct Hpred as [? | (q' & Hq' & Epred)]; [contradiction|]. fold i in Epred.
    set (jq := at_ 0 collist q') in *.
    destruct (scanned_owner q' ltac:(lia)) as (Hjq & Hown & Hrow0 & Hnp).
    fold jq in Hjq, Hown, Hrow0, Hnp. rewrite <- Epred in Hown, Hrow0, Hnp.
    destruct (Hkept q' Hq') as [Hcq Hrq]. fold jq in Hcq, Hrq. rewrite <- Epred in Hcq, Hrq.
    destruct (t_perm _ _ _ _ _ _ T) as (_ & _ & Hinj & _).
    assert (Hjne : jq <> j) by (apply Hother; exact Hq').
    apply (IH q' jq r1 c1 r' c'); [|lia|now rewrite <- Hrq].
    constructor.
    + exact Hjq.
    + lia.
    + destruct (t_pred _ _ _ _ _ _ T jq Hjq) as [? | (q'' & Hq'' & E'' & Hlt)]; [now left|].
      right. exists q''. split; [|exact E'']. split; [lia|]. apply Hlt; [lia|reflexivity].
    + intros q Hq. destruct (Hkept q ltac:(lia)) as [Hc2 Hr2].
      destruct (scanned_owner q ltac:(lia)) as (Hjq2 & Hown2 & Hrow2 & _).
      rewrite Hco by (try apply Hother; lia). split; [exact Hc2|].
      rewrite Hro; [exact Hr2|lia|].
      intros Ee. rewrite Ee, Hrow0 in Hrow2. apply (Hinj q' q) in Hrow2; lia.
    + intros q Hq Ee. apply (Hinj q q') in Ee; lia.
    + lia.
    + lia.
    + intros i' Hi' Hn. destruct (Z.eq_dec i' i) as [->|Hne].
      * rewrite Hre. split; [exact Hj|]. split; [congruence|exact Hce].
      * destruct (Hrw i' Hi' Hn) as (Hr1 & Hr2 & Hr3). rewrite Hro by lia.
        split; [exact Hr1|]. split; [|now rewrite Hco by lia].
        intros Ee. rewrite Ee, Hcq in Hr3. congruence.
    + intros j' Hj' Hne. destruct (Z.eq_dec j' j) as [->|Hnj].
      * right. rewrite Hce. split; [exact Hown|]. split; [exact Hre|exact Hnp].
      * rewrite Hco by lia. destruct (Hcl j' Hj' Hnj) as [? | (Ho & Hr' & Hn)]; [now left|right].
        split; [exact Ho|]. split; [|exact Hn]. rewrite Hro; [exact Hr'|lia|].
        intros Ee. rewrite Ee, Hrq in Hr'. congruence.
Qed.

(** The walk starts at the unassigned column the search has found. *)
Lemma walk_start (j : Z) :
  0 <= j < dim1 -> at_ 0 colsol0 j < 0 ->
  JWalk dim0 dim1 pend freerow pred collist colsol0 low j rowsol0 colsol0.
Proof.
  intros Hj Hneg. constructor.
  - exact Hj.
  - exact (t_low _ _ _ _ _ _ T).
  - destruct (t_pred _ _ _ _ _ _ T j Hj) as [? | (q' & Hq' & E & _)]; [now left|right; eauto].
  - intros q Hq. destruct (scanned_owner q Hq) as (_ & _ & ? & _). auto.
  - intros q Hq E. pose proof (t_scanned _ _ _ _ _ _ T q Hq) as Ha. rewrite E in Ha. lia.
  - exact (m_len_row _ _ _ _ _ M0).
  - exact (m_len_col _ _ _ _ _ M0).
  - intros i Hi Hn. destruct (m_row _ _ _ _ _ M0 i Hi Hn) as [Hr Hc].
    split; [exact Hr|]. split; [|exact Hc]. intros E. rewrite E in Hc. lia.
  - intros j' Hj' _. exact (m_col _ _ _ _ _ M0 j' Hj').
Qed.

End GenericFlip.

(** ** The Jonker-Volgenant solver over any cost type *)

Lemma jmatch_ext (dim0 dim1 : Z) (pend pend' : Z -> Prop) (rowsol colsol : list Z) :
  (forall x, pend' x <-> pend x) ->
  JMatch dim0 dim1 pend rowsol colsol -> JMatch dim0 dim1 pend' rowsol colsol.
Proof.
  intros He [Hlr Hlc Hc Hr]. constructor; try assumption.
  - intros j Hj. destruct (Hc j Hj) as [? | (? & ? & Hn)]; [now left|right].
    split; [assumption|]. split; [assumption|]. intros Hp. apply Hn, He, Hp.
  - intros i Hi Hn. apply Hr; [exact Hi|]. intros Hp. apply Hn, He, Hp.
Qed.

Lemma identity_perm (dim1 : Z) (cl : list Z) :
  Z.of_nat (length cl) = dim1 -> (forall j, 0 <= j < dim1 -> at_ 0 cl j = j) ->
  perm_ok dim1 cl.
Proof.
  intros Hl Hid. split; [exact Hl|]. split; [|split].
  - intros k Hk. rewrite Hid by exact Hk. exact Hk.
  - intros k k' Hk Hk'. rewrite !Hid by assumption. auto.
  - intros j Hj. exists j. auto.
Qed.

Section GenericAugment.

Context {Cost : Type} `{CostType Cost}.
Variables (dim0 dim1 : Z) (cost : list Cost) (free : list Z) (NF : Z).

(** The augmentation for the free row at position [f], when it returns:
    that row is matched, and the rows matched before are matched still. *)
Lemma augment_row_post (fuel : nat) (f : Z) (rowsol colsol : list Z) (v d : list Cost)
    (pred collist : list Z) (rowsol' colsol' : list Z) (v' d' : list Cost)
    (pred' collist' : list Z) :
  JMatch dim0 dim1 (pendA free 0 f NF) rowsol colsol ->
  free_ok dim0 free 0 f NF -> 0 <= f < NF ->
  Z.of_nat (length pred) = dim1 -> Z.of_nat (length collist) = dim1 ->
  JV.augment_row fuel dim1 cost free f (rowsol, colsol, v, (d, pred, collist))
  = Ret (rowsol', colsol', v', (d', pred', collist')) ->
  JMatch dim0 dim1 (pendA free 0 (f + 1) NF) rowsol' colsol' /\
  free_ok dim0 free 0 (f + 1) NF /\
  Z.of_nat (length pred') = dim1 /\ Z.of_nat (length collist') = dim1.
Proof.
  intros M Hfree Hf Hlp Hlcl E. unfold JV.augment_row in E.
  apply bind_Ret_inv in E as (freerow & Efr & E).
  apply bind_Ret_inv in E as ([[d1 pred1] cl1] & Einit & E).
  apply bind_Ret_inv in E as ([j sp] & Esp & E).
  apply bind_Ret_inv in E as (v1 & _ & E).
  apply bind_Ret_inv in E as ([r1 c1] & Eflip & E).
  inversion E; subst rowsol' colsol' v' d' pred' collist'. clear E.
  apply (rd_at 0) in Efr as [_ Efr]. subst freerow.
  set (freerow := at_ 0 free f) in *.
  assert (Hd1 : 0 <= dim1) by lia.
  apply (for_do_upto_post
           (fun k (st : list Cost * list Z * list Z) =>
              let '(_, p, cl) := st in
              Z.of_nat (length p) = dim1 /\ Z.of_nat (length cl) = dim1 /\
              forall j, 0 <= j < k -> at_ 0 p j = freerow /\ at_ 0 cl j = j)) in Einit.
  2:{ exact Hd1. }
  2:{ split; [exact Hlp|]. split; [exact Hlcl|]. intros; lia. }
  2:{ intros k [[d0 p0] cl0] [[d2 p2] cl2] Hk (Hl1 & Hl2 & Hat) Eb.
      apply bind_Ret_inv in Eb as (cfj & _ & Eb).
      apply bind_Ret_inv in Eb as (vj & _ & Eb).
      apply bind_Ret_inv in Eb as (d3 & _ & Eb).
      apply bind_Ret_inv in Eb as (p3 & Ep & Eb).
      apply bind_Ret_inv in Eb as (cl3 & Ecl & Eb).
      inversion Eb; subst d2 p2 cl2.
      apply wr_at in Ep as (_ & Hlp3 & Hpe & Hpo).
      apply wr_at in Ecl as (_ & Hlc3 & Hce & Hco).
      split; [lia|]. split; [lia|].
      intros j0 Hj0. destruct (Z.eq_dec j0 k) as [->|Hne]; [split; [apply Hpe|apply Hce]|].
      rewrite Hpo, Hco by lia. apply Hat. lia. }
  destruct Einit as (Hlp1 & Hlcl1 & Hinit).
  assert (S0 : JSearch dim1 freerow colsol (JV.mk_sp 0 0 0 c_zero d1 pred1 cl1)).
  { split; [|cbn; split; [lia|intros; lia]]. cbn. constructor.
    - apply identity_perm; [exact Hlcl1|]. intros j0 Hj0. now apply Hinit.
    - exact Hlp1.
    - lia.
    - intros; lia.
    - intros j0 Hj0. left. now apply Hinit. }
  apply (sp_loop_post dim1 freerow colsol cost v fuel _ _ _ S0) in Esp.
  destruct Esp as (T & Hj & Hneg).
  destruct Hfree as [Hrange Hdist].
  assert (Hidx : idx 0 f NF f) by (right; lia).
  assert (Hpend : pendA free 0 f NF freerow) by (exists f; auto).
  pose proof (walk_start dim0 dim1 (pendA free 0 f NF) freerow _ _ rowsol colsol _ T M
                j Hj Hneg) as W.
  apply (flip_path_post dim0 dim1 (pendA free 0 f NF) freerow _ _ rowsol colsol _
           Hpend T M fuel _ _ _ _ _ _ W (Z.le_refl _)) in Eflip.
  destruct (pend_advance dim0 free 0 f NF (conj Hrange Hdist) ltac:(lia) ltac:(lia))
    as [Hadv Hfree'].
  split; [|split; [exact Hfree'|split]].
  - apply (jmatch_ext dim0 dim1 _ _ r1 c1 (fun x => Hadv x) Eflip).
  - exact (t_len_pred _ _ _ _ _ _ T).
  - exact (proj1 (t_perm _ _ _ _ _ _ T)).
Qed.

End GenericAugment.

Lemma pendA_idx (free : list Z) (n k p n' k' p' : Z) :
  (forall q, idx n k p q <-> idx n' k' p' q) ->
  forall x, pendA free n k p x <-> pendA free n' k' p' x.
Proof.
  intros Hi x. unfold pendA.
  split; intros (q & Hq & E); exists q; (split; [apply Hi, Hq|exact E]).
Qed.

Section GenericRlap.

Context {Cost : Type} `{CostType Cost}.
Variables (dim0 dim1 : Z).

Lemma jarr_restart (prev : Z) (s : @JV.arr_state Cost) :
  JArr dim0 dim1 prev prev s ->
  JArr dim0 dim1 (JV.arr_numfree s) 0
       (JV.mk_arr (JV.arr_free s) 0 (JV.arr_rowsol s) (JV.arr_colsol s) (JV.arr_v s)).
Proof.
  intros [M Hlf Hidx [Hrange Hdist]].
  assert (Hi : forall p, idx 0 0 (JV.arr_numfree s) p <-> idx (JV.arr_numfree s) prev prev p)
    by (intros p; unfold idx; lia).
  constructor; cbn [JV.arr_free JV.arr_numfree JV.arr_rowsol JV.arr_colsol JV.arr_v].
  - apply (jmatch_ext dim0 dim1 _ _ _ _ (pendA_idx _ _ _ _ _ _ _ Hi) M).
  - exact Hlf.
  - lia.
  - split.
    + intros p Hp. apply Hrange, Hi, Hp.
    + intros p q Hp Hq. apply Hdist; apply Hi; assumption.
Qed.

(** [rlap], when it returns: every row is matched. *)
Lemma rlap_matching (fuel : nat) (cost : list Cost) (verbose : bool)
    (rowsol colsol : list Z) (u v : list Cost)
    (total : Cost) (rs cs : list Z) (u' v' : list Cost) :
  0 <= dim0 -> 0 <= dim1 ->
  Z.of_nat (length rowsol) = dim0 -> Z.of_nat (length colsol) = dim1 ->
  JV.rlap fuel dim0 dim1 cost verbose rowsol colsol u v = Ret (total, rs, cs, u', v') ->
  JMatch dim0 dim1 (fun _ => False) rs cs.
Proof.
  intros Hd0 Hd1 Hlr Hlc E. unfold JV.rlap in E.
  destruct (init_rows dim0 rowsol Hd0 Hlr) as (free & rs0 & Ei & Hlf & Hlr0 & Hat).
  rewrite Ei in E. cbn [bind] in E.
  destruct (init_cols dim1 colsol Hd1 Hlc) as (cs0 & Ec & Hlc0 & Hatc).
  rewrite Ec in E. cbn [bind] in E.
  apply bind_Ret_inv in E as (s & Earr & E).
  apply bind_Ret_inv in E as ([[[rs2 cs2] v2] w2] & Eaug & E).
  apply bind_Ret_inv in E as ([u2 t2] & _ & E).
  inversion E; subst t2 rs2 cs2 u2 v2. clear E.
  apply (for_do_upto_post
           (fun (_ : Z) (s : @JV.arr_state Cost) =>
              JArr dim0 dim1 (JV.arr_numfree s) 0
                   (JV.mk_arr (JV.arr_free s) 0 (JV.arr_rowsol s) (JV.arr_colsol s)
                              (JV.arr_v s)))) in Earr.
  2:{ lia. }
  2:{ constructor; cbn [JV.arr_free JV.arr_numfree JV.arr_rowsol JV.arr_colsol JV.arr_v].
      - constructor; try assumption.
        + intros j Hj. left. now apply Hatc.
        + intros i Hi Hn. exfalso. apply Hn. exists i. split; [right; lia|]. now apply Hat.
      - exact Hlf.
      - lia.
      - split.
        + intros p [Hp | Hp]; [lia|]. rewrite (proj1 (Hat p Hp)). exact Hp.
        + intros p q [Hp | Hp] [Hq | Hq]; try lia.
          rewrite (proj1 (Hat p Hp)), (proj1 (Hat q Hq)). auto. }
  2:{ intros k s0 s1 _ A Eb. apply jarr_restart with (prev := JV.arr_numfree s0).
      exact (arr_loop_post dim0 dim1 cost _ fuel _ _ _ A Eb). }
  destruct Earr as [M _ Hidx Hfree].
  cbn [JV.arr_free JV.arr_numfree JV.arr_rowsol JV.arr_colsol JV.arr_v] in *.
  set (NF := JV.arr_numfree s) in *.
  apply (for_do_upto_post
           (fun (f : Z) (st : list Z * list Z * list Cost * (list Cost * list Z * list Z)) =>
              let '(r, c, _, (_, p, cl)) := st in
              JMatch dim0 dim1 (pendA (JV.arr_free s) 0 f NF) r c /\
              free_ok dim0 (JV.arr_free s) 0 f NF /\
              Z.of_nat (length p) = dim1 /\ Z.of_nat (length cl) = dim1)) in Eaug.
  - destruct w2 as [[d2 p2] cl2]. destruct Eaug as (M2 & _).
    refine (jmatch_ext dim0 dim1 _ _ _ _ _ M2).
    intros x. split; [intros []|]. intros (p & Hp & _). unfold idx in Hp. lia.
  - lia.
  - split; [exact M|]. split; [exact Hfree|]. rewrite !repeat_length. lia.
  - intros f [[[r0 c0] v0] [[d0 p0] cl0]] [[[r1 c1] v1] [[d1 p1] cl1]] Hf (M1 & Hfr & Hl1 & Hl2) Eb.
    exact (augment_row_post dim0 dim1 cost (JV.arr_free s) NF fuel f r0 c0 v0 d0 p0 cl0
             r1 c1 v1 d1 p1 cl1 M1 Hfr Hf Hl1 Hl2 Eb).
Qed.

End GenericRlap.

Lemma matched_assignment (dim0 dim1 : Z) (rs cs : list Z) :
  JMatch dim0 dim1 (fun _ => False) rs cs ->
  assignment dim0 dim1 rs /\ dim0 <= dim1.
Proof.
  intros [Hlr Hlc _ Hr].
  assert (Hnd : NoDup rs).
  { apply (NoDup_nth rs 0). intros i j Hi Hj E.
    destruct (Hr (Z.of_nat i)) as [_ Ei]; [lia|tauto|].
    destruct (Hr (Z.of_nat j)) as [_ Ej]; [lia|tauto|].
    unfold at_ in Ei, Ej. rewrite !Nat2Z.id in Ei, Ej. rewrite E in Ei. lia. }
  assert (Hrg : forall j, In j rs -> 0 <= j < dim1).
  { intros j Hj. destruct (In_nth rs j 0 Hj) as (i & Hi & <-).
    destruct (Hr (Z.of_nat i)) as [Hb _]; [lia|tauto|].
    unfold at_ in Hb. now rewrite Nat2Z.id in Hb. }
  split; [exact (conj Hlr (conj Hnd Hrg))|].
  assert (Hle : (length rs <= length (upto dim1))%nat).
  { apply NoDup_incl_length; [exact Hnd|]. intros j Hj. apply In_upto, Hrg, Hj. }
  rewrite length_upto in Hle. lia.
Qed.

(** X14. Whenever the Jonker-Volgenant solver [rlap] returns, over any cost
    type and from any duals [v] and any content of the output buffers, it
    has matched every row: [rowsol] sends the rows to pairwise different
    columns, [colsol] is its inverse and holds -1 at the columns left
    free, and the total returned is the sum of the entries at the pairs
    of [rowsol], added in the order of the rows. A run returns only when
    the rows are no more than the columns: with more rows than columns
    the call gives no result. The theorem assumes nothing on the entries
    of the matrix, not even that it has [dim0 * dim1] of them. *)
Theorem rlap_returns_assignment {Cost : Type} `{CostType Cost} (fuel : nat) (dim0 dim1 : Z)
    (cost : list Cost) (verbose : bool) (rowsol colsol : list Z) (u v : list Cost)
    (total : Cost) (rs cs : list Z) (u' v' : list Cost) :
  0 <= dim0 -> 0 <= dim1 ->
  Z.of_nat (length rowsol) = dim0 -> Z.of_nat (length colsol) = dim1 ->
  JV.rlap fuel dim0 dim1 cost verbose rowsol colsol u v = Ret (total, rs, cs, u', v') ->
  dim0 <= dim1 /\
  assignment dim0 dim1 rs /\
  Z.of_nat (length cs) = dim1 /\
  (forall i, 0 <= i < dim0 -> at_ 0 cs (at_ 0 rs i) = i) /\
  (forall j, 0 <= j < dim1 ->
             at_ 0 cs j = -1 \/ (0 <= at_ 0 cs j < dim0 /\ at_ 0 rs (at_ 0 cs j) = j)) /\
  total = rowsol_total dim0 dim1 cost rs.
Proof.
  intros Hd0 Hd1 Hlr Hlc E.
  pose proof (rlap_matching dim0 dim1 fuel cost verbose rowsol colsol u v total rs cs u' v'
                Hd0 Hd1 Hlr Hlc E) as M.
  destruct (matched_assignment dim0 dim1 rs cs M) as [Ha Hle].
  destruct M as [_ Hlcs Hc Hr].
  split; [exact Hle|]. split; [exact Ha|]. split; [exact Hlcs|].
  split; [|split].
  - intros i Hi. apply Hr; [exact Hi|tauto].
  - intros j Hj. destruct (Hc j Hj) as [E1 | (Hb & E1 & _)]; [now left|right; now split].
  - apply rlap_result in E. now apply optimal_cost_spec in E.
Qed.

Lemma rlap_returns_assignment_witness :
  2 <= 3 /\
  assignment 2 3 [0; 2] /\
  Z.of_nat (length [0; -1; 1]) = 3 /\
  (forall i, 0 <= i < 2 -> at_ 0 [0; -1; 1] (at_ 0 [0; 2] i) = i) /\
  (forall j, 0 <= j < 3 ->
             at_ 0 [0; -1; 1] j = -1 \/
             (0 <= at_ 0 [0; -1; 1] j < 2 /\ at_ 0 [0; 2] (at_ 0 [0; -1; 1] j) = j)) /\
  10%float = rowsol_total 2 3 [1; 2; 9; 3; 5; 9]%float [0; 2].
Proof.
  eapply (rlap_returns_assignment 20 2 3 [1; 2; 9; 3; 5; 9]%float false [0; 0] [0; 0; 0]
            [0; 0]%float [0; 0; 5]%float);
    [lia|lia|reflexivity|reflexivity|vm_compute; reflexivity].
Defined.

(** ** Words of [w] bits *)

Section Words.

Variable w : Z.
Hypothesis Hw : 0 < w.

Local Abbreviation word := (word w).
Local Abbreviation shl_w := (shl_w w).
Local Abbreviation rotl_w := (rotl_w w).

Lemma mod_word (z : Z) : word (z mod 2 ^ w).
Proof. apply Z.mod_pos_bound. apply Z.pow_pos_nonneg; lia. Qed.

Lemma bits_above (z n : Z) : word z -> w <= n -> Z.testbit z n = false.
Proof.
  intros Hz Hn. rewrite <- (Z.mod_small z (2 ^ w)) by exact Hz.
  apply Z.mod_pow2_bits_high. lia.
Qed.

Lemma word_of_bits (z : Z) :
  0 <= z -> (forall n, w <= n -> Z.testbit z n = false) -> word z.
Proof.
  intros Hz Hb.
  assert (E : z = z mod 2 ^ w).
  { apply Z.bits_inj'. intros n Hn. destruct (Z.lt_ge_cases n w) as [Hlt|Hge].
    - now rewrite Z.mod_pow2_bits_low by lia.
    - rewrite Z.mod_pow2_bits_high by lia. now apply Hb. }
  rewrite E. apply mod_word.
Qed.

Lemma lxor_word (a b : Z) : word a -> word b -> word (Z.lxor a b).
Proof.
  intros Ha Hb. apply word_of_bits.
  - apply Z.lxor_nonneg. unfold word in *. lia.
  - intros n Hn. now rewrite Z.lxor_spec, !bits_above.
Qed.

Lemma shiftr_word (a s : Z) : 0 <= s -> word a -> word (Z.shiftr a s).
Proof.
  intros Hs Ha. apply word_of_bits.
  - apply Z.shiftr_nonneg. unfold word in *. lia.
  - intros n Hn. rewrite Z.shiftr_spec by lia. apply bits_above; [exact Ha|lia].
Qed.

Lemma shl_bits (x k n : Z) :
  0 <= n -> Z.testbit (shl_w x k) n = if n <? w then Z.testbit x (n - k) else false.
Proof.
  intros Hn. unfold shl_w. destruct (Z.ltb_spec n w) as [Hlt|Hge].
  - rewrite Z.mod_pow2_bits_low by lia. now apply Z.shiftl_spec.
  - apply Z.mod_pow2_bits_high. lia.
Qed.

(** [z ^ (z >> s)] is undone by [y ^ (y >> s) ^ (y >> 2s)] when [3s >= w]. *)
Lemma xorshr_inv (s z : Z) :
  0 < s -> w <= 3 * s -> word z ->
  let y := Z.lxor z (Z.shiftr z s) in
  Z.lxor (Z.lxor y (Z.shiftr y s)) (Z.shiftr y (2 * s)) = z.
Proof.
  intros Hs H3 Hz y. apply Z.bits_inj'. intros n Hn. unfold y.
  rewrite !Z.lxor_spec, !Z.shiftr_spec, !Z.lxor_spec, !Z.shiftr_spec by lia.
  replace (n + 2 * s) with (n + s + s) by lia.
  rewrite (bits_above z (n + s + s + s)) by (auto; lia).
  destruct (Z.testbit z n), (Z.testbit z (n + s)), (Z.testbit z (n + s + s)); reflexivity.
Qed.

(** [z ^ (z << a)] is undone by [y ^ (y << a) ^ (y << 2a) ^ (y << 3a)] when
    [4a >= w]. *)
Lemma xorshl_inv (a z : Z) :
  0 < a -> w <= 4 * a -> word z ->
  let y := Z.lxor z (shl_w z a) in
  Z.lxor (Z.lxor (Z.lxor y (shl_w y a)) (shl_w y (2 * a))) (shl_w y (3 * a)) = z.
Proof.
  intros Ha H4 Hz y.
  assert (Hy : forall m, Z.testbit y m
                         = if m <? w then xorb (Z.testbit z m) (Z.testbit z (m - a)) else false).
  { intros m. destruct (Z.lt_ge_cases m 0) as [Hneg|Hpos].
    - rewrite !Z.testbit_neg_r by lia. destruct (m <? w); reflexivity.
    - unfold y. rewrite Z.lxor_spec, shl_bits by lia.
      destruct (Z.ltb_spec m w); [reflexivity|]. now rewrite bits_above. }
  apply Z.bits_inj'. intros n Hn.
  rewrite !Z.lxor_spec, !shl_bits, !Hy by lia.
  destruct (Z.ltb_spec n w) as [Hlt|Hge].
  - destruct (Z.ltb_spec (n - a) w); [|lia]. destruct (Z.ltb_spec (n - 2 * a) w); [|lia].
    destruct (Z.ltb_spec (n - 3 * a) w); [|lia].
    replace (n - 2 * a - a) with (n - 3 * a) by lia.
    replace (n - a - a) with (n - 2 * a) by lia.
    rewrite (Z.testbit_neg_r z (n - 3 * a - a)) by lia.
    destruct (Z.testbit z n), (Z.testbit z (n - a)), (Z.testbit z (n - 2 * a)),
      (Z.testbit z (n - 3 * a)); reflexivity.
  - now rewrite bits_above.
Qed.

Lemma rotl_bits (x k n : Z) :
  word x -> 0 < k < w -> 0 <= n ->
  Z.testbit (rotl_w x k) n
  = if n <? w then (if k <=? n then Z.testbit x (n - k) else Z.testbit x (n + w - k))
    else false.
Proof.
  intros Hx Hk Hn. unfold rotl_w. rewrite Z.lor_spec, shl_bits, Z.shiftr_spec by lia.
  replace (n + (w - k)) with (n + w - k) by lia.
  destruct (Z.ltb_spec n w) as [Hlt|Hge].
  - destruct (Z.leb_spec k n) as [Hkn|Hkn].
    + rewrite (bits_above x (n + w - k)) by (auto; lia). apply orb_false_r.
    + rewrite (Z.testbit_neg_r x (n - k)) by lia. reflexivity.
  - rewrite bits_above by (auto; lia). reflexivity.
Qed.

Lemma rotl_word (x k : Z) : word x -> 0 < k < w -> word (rotl_w x k).
Proof.
  intros Hx Hk. apply word_of_bits.
  - unfold rotl_w. apply Z.lor_nonneg. split.
    + apply mod_word.
    + apply Z.shiftr_nonneg. unfold word in Hx. lia.
  - intros n Hn. rewrite rotl_bits by (auto; lia).
    destruct (Z.ltb_spec n w); [lia|reflexivity].
Qed.

(** Rotating back. *)
Lemma rotl_inv (x k : Z) : word x -> 0 < k < w -> rotl_w (rotl_w x k) (w - k) = x.
Proof.
  intros Hx Hk. apply Z.bits_inj'. intros n Hn.
  rewrite rotl_bits by (try apply rotl_word; auto; lia).
  destruct (Z.ltb_spec n w) as [Hlt|Hge]; [|now rewrite bits_above].
  destruct (Z.leb_spec (w - k) n) as [Hkn|Hkn].
  - rewrite rotl_bits by (auto; lia).
    destruct (Z.ltb_spec (n - (w - k)) w); [|lia].
    destruct (Z.leb_spec k (n - (w - k))); [lia|]. f_equal. lia.
  - rewrite rotl_bits by (auto; lia).
    destruct (Z.ltb_spec (n + w - (w - k)) w); [|lia].
    destruct (Z.leb_spec k (n + w - (w - k))); [|lia]. f_equal. lia.
Qed.

(** Multiplication by a unit of the ring of words is undone by its inverse. *)
Lemma mul_inv (c d z : Z) :
  (c * d) mod 2 ^ w = 1 -> word z -> ((z * c) mod 2 ^ w * d) mod 2 ^ w = z.
Proof.
  intros Hcd Hz. rewrite Z.mul_mod_idemp_l by (apply Z.pow_nonzero; lia).
  rewrite <- Z.mul_assoc, <- Z.mul_mod_idemp_r by (apply Z.pow_nonzero; lia).
  rewrite Hcd, Z.mul_1_r. now apply Z.mod_small.
Qed.

End Words.

(** ** The generators *)

Lemma u64_word (z : Z) : word 64 (u64 z).
Proof. apply mod_word. lia. Qed.

Lemma sm_next_state (g : SplitMix64.t) :
  SplitMix64.x (snd (SplitMix64.next g)) = u64 (SplitMix64.x g + 0x9E3779B97f4A7C15).
Proof. reflexivity. Qed.

(** One value returned reveals the state. *)
Lemma sm_unmix_next (g : SplitMix64.t) :
  sm_unmix (fst (SplitMix64.next g)) = SplitMix64.x (snd (SplitMix64.next g)).
Proof.
  unfold SplitMix64.next, sm_unmix. cbn [fst snd SplitMix64.x]. cbv zeta.
  set (x1 := u64 (SplitMix64.x g + _)).
  set (z1 := Z.lxor x1 (Z.shiftr x1 30)).
  set (z2 := u64 (z1 * _)).
  set (z3 := Z.lxor z2 (Z.shiftr z2 27)).
  set (z4 := u64 (z3 * _)).
  assert (H1 : word 64 x1) by apply u64_word.
  assert (Hz1 : word 64 z1) by (apply lxor_word; [lia|exact H1|apply shiftr_word; auto; lia]).
  assert (H2 : word 64 z2) by apply u64_word.
  assert (Hz3 : word 64 z3) by (apply lxor_word; [lia|exact H2|apply shiftr_word; auto; lia]).
  assert (H4 : word 64 z4) by apply u64_word.
  change 62 with (2 * 31). change 54 with (2 * 27). change 60 with (2 * 30).
  rewrite (xorshr_inv 64 ltac:(lia) 31 z4) by (auto; lia).
  unfold z4, u64. rewrite (mul_inv 64 ltac:(lia)) by (auto; reflexivity).
  fold z3. unfold z3. rewrite (xorshr_inv 64 ltac:(lia) 27 z2) by (auto; lia).
  unfold z2, u64. rewrite (mul_inv 64 ltac:(lia)) by (auto; reflexivity).
  unfold z1. apply (xorshr_inv 64 ltac:(lia) 30 x1); auto; lia.
Qed.

Lemma sm_skip_state (n : nat) : forall g : SplitMix64.t,
  u64 (SplitMix64.x (sm_skip n g)) = u64 (SplitMix64.x g + Z.of_nat n * 0x9E3779B97f4A7C15).
Proof.
  induction n as [|n IH]; intros g.
  - cbn [sm_skip]. f_equal. lia.
  - cbn [sm_skip]. rewrite IH, sm_next_state. unfold u64.
    rewrite Zplus_mod_idemp_l. f_equal. lia.
Qed.

Lemma sm_skip_word (n : nat) (g : SplitMix64.t) :
  word 64 (SplitMix64.x g) -> word 64 (SplitMix64.x (sm_skip n g)).
Proof.
  revert g. induction n as [|n IH]; intros g Hg; [exact Hg|].
  cbn [sm_skip]. apply IH. rewrite sm_next_state. apply u64_word.
Qed.

(** The increment is a unit of the ring of words, so [k] increments bring the
    state back only when [k] is a multiple of [2^64]. *)
Lemma gamma_cancel (k : Z) : u64 (k * 0x9E3779B97f4A7C15) = 0 -> u64 k = 0.
Proof.
  unfold u64. intros E.
  assert (H : (k mod 2 ^ 64 * 0x9E3779B97f4A7C15) mod 2 ^ 64 = 0).
  { now rewrite Z.mul_mod_idemp_l by lia. }
  pose proof (mul_inv 64 ltac:(lia) 0x9E3779B97f4A7C15 0xF1DE83E19937733D (k mod 2 ^ 64)
                eq_refl (mod_word 64 ltac:(lia) k)) as Hinv.
  rewrite H, Z.mul_0_l, Z.mod_0_l in Hinv by lia. symmetry. exact Hinv.
Qed.

Lemma sm_states_differ (g : SplitMix64.t) (i j : nat) :
  (i < j)%nat -> Z.of_nat j - Z.of_nat i < 2 ^ 64 ->
  u64 (SplitMix64.x (sm_skip i g)) <> u64 (SplitMix64.x (sm_skip j g)).
Proof.
  intros Hij Hj E. rewrite !sm_skip_state in E.
  assert (H : u64 ((Z.of_nat j - Z.of_nat i) * 0x9E3779B97f4A7C15) = 0).
  { unfold u64 in *.
    replace ((Z.of_nat j - Z.of_nat i) * 0x9E3779B97f4A7C15)
      with ((SplitMix64.x g + Z.of_nat j * 0x9E3779B97f4A7C15)
            - (SplitMix64.x g + Z.of_nat i * 0x9E3779B97f4A7C15)) by lia.
    rewrite Zminus_mod, E, Z.sub_diag. reflexivity. }
  apply gamma_cancel in H. unfold u64 in H. rewrite Z.mod_small in H by lia. lia.
Qed.

(** The state of SplitMix64 is a counter: after [n] calls of [next] it is the
    seed plus [n] increments, reduced to 64 bits; it is back at the seed
    after [2^64] calls and not before. *)
Theorem splitmix64_state_cycle (g : SplitMix64.t) :
  0 <= SplitMix64.x g < 2 ^ 64 ->
  (forall n, SplitMix64.x (sm_skip n g)
             = u64 (SplitMix64.x g + Z.of_nat n * 0x9E3779B97f4A7C15)) /\
  SplitMix64.x (sm_skip (Z.to_nat (2 ^ 64)) g) = SplitMix64.x g /\
  (forall n, (0 < n)%nat -> Z.of_nat n < 2 ^ 64 ->
             SplitMix64.x (sm_skip n g) <> SplitMix64.x g).
Proof.
  intros Hg.
  assert (Hs : forall n, SplitMix64.x (sm_skip n g)
                         = u64 (SplitMix64.x g + Z.of_nat n * 0x9E3779B97f4A7C15)).
  { intros n. rewrite <- sm_skip_state. unfold u64. symmetry. apply Z.mod_small.
    apply sm_skip_word. exact Hg. }
  split; [exact Hs|]. split.
  - rewrite Hs, Z2Nat.id by lia. unfold u64.
    rewrite (Z.mul_comm (2 ^ 64)), Z.mod_add by lia. now apply Z.mod_small.
  - intros n Hn Hlt E.
    apply (sm_states_differ g 0 n Hn ltac:(lia)). cbn [sm_skip]. now rewrite E.
Qed.

Lemma splitmix64_state_cycle_witness :
  (forall n, SplitMix64.x (sm_skip n (SplitMix64.make 7))
             = u64 (7 + Z.of_nat n * 0x9E3779B97f4A7C15)) /\
  SplitMix64.x (sm_skip (Z.to_nat (2 ^ 64)) (SplitMix64.make 7)) = 7 /\
  (forall n, (0 < n)%nat -> Z.of_nat n < 2 ^ 64 ->
             SplitMix64.x (sm_skip n (SplitMix64.make 7)) <> 7).
Proof. apply (splitmix64_state_cycle (SplitMix64.make 7)). cbn. lia. Defined.

(** SplitMix64 returns no value twice within [2^64] consecutive calls, and
    every value it returns gives away the state it has left the generator in,
    hence every later value. *)
Theorem splitmix64_outputs (g : SplitMix64.t) :
  0 <= SplitMix64.x g < 2 ^ 64 ->
  (forall i j, (i < j)%nat -> Z.of_nat j - Z.of_nat i < 2 ^ 64 ->
               sm_output i g <> sm_output j g) /\
  (forall n, SplitMix64.x (sm_skip (S n) g) = sm_unmix (sm_output n g)) /\
  (forall n, sm_output (S n) g
             = fst (SplitMix64.next (SplitMix64.make (sm_unmix (sm_output n g))))).
Proof.
  intros Hg.
  assert (Hu : forall n, SplitMix64.x (sm_skip (S n) g) = sm_unmix (sm_output n g)).
  { intros n. unfold sm_output. rewrite sm_unmix_next.
    revert g Hg. induction n as [|n IH]; intros g Hg; [reflexivity|].
    cbn [sm_skip] in *. apply IH. rewrite sm_next_state. apply u64_word. }
  split; [|split; [exact Hu|]].
  - intros i j Hij Hj E.
    apply (sm_states_differ g (S i) (S j) ltac:(lia) ltac:(lia)).
    now rewrite !Hu, E.
  - intros n. unfold sm_output at 1. rewrite <- Hu.
    now destruct (sm_skip (S n) g).
Qed.

Lemma splitmix64_outputs_witness :
  (forall i j, (i < j)%nat -> Z.of_nat j - Z.of_nat i < 2 ^ 64 ->
               sm_output i (SplitMix64.make 0) <> sm_output j (SplitMix64.make 0)) /\
  (forall n, SplitMix64.x (sm_skip (S n) (SplitMix64.make 0))
             = sm_unmix (sm_output n (SplitMix64.make 0))) /\
  (forall n, sm_output (S n) (SplitMix64.make 0)
             = fst (SplitMix64.next
                      (SplitMix64.make (sm_unmix (sm_output n (SplitMix64.make 0)))))).
Proof. apply (splitmix64_outputs (SplitMix64.make 0)). cbn. lia. Defined.

Section XoRound.

Variables (w a b : Z).
Hypothesis Hw : 0 < w.
Hypothesis Ha : 0 < a.
Hypothesis H4a : w <= 4 * a.
Hypothesis Hb : 0 < b < w.

Lemma lxor_cancel_r (x y : Z) : Z.lxor (Z.lxor x y) y = x.
Proof. now rewrite Z.lxor_assoc, Z.lxor_nilpotent, Z.lxor_0_r. Qed.

Lemma lxor_cancel_l (x y : Z) : Z.lxor (Z.lxor x y) x = y.
Proof. now rewrite (Z.lxor_comm x y), lxor_cancel_r. Qed.

(** The state update of the generators, undone. *)
Lemma xo_round (s0 s1 s2 s3 : Z) :
  word w s0 -> word w s1 -> word w s2 -> word w s3 ->
  xo_prev w a b
    (Z.lxor s0 (Z.lxor s3 s1),
     Z.lxor s1 (Z.lxor s2 s0),
     Z.lxor (Z.lxor s2 s0) (shl_w w s1 a),
     rotl_w w (Z.lxor s3 s1) b)
  = (s0, s1, s2, s3).
Proof.
  intros H0 H1 H2 H3. unfold xo_prev.
  assert (H31 : word w (Z.lxor s3 s1)) by now apply lxor_word.
  rewrite (rotl_inv w Hw) by auto.
  assert (Ey : Z.lxor (Z.lxor s1 (Z.lxor s2 s0)) (Z.lxor (Z.lxor s2 s0) (shl_w w s1 a))
               = Z.lxor s1 (shl_w w s1 a)).
  { rewrite Z.lxor_assoc. f_equal. rewrite <- Z.lxor_assoc, Z.lxor_nilpotent. apply Z.lxor_0_l. }
  rewrite Ey, (xorshl_inv w Hw a s1 Ha H4a H1).
  rewrite lxor_cancel_r, lxor_cancel_l, !lxor_cancel_r. reflexivity.
Qed.

Lemma xo_state_words (s0 s1 s2 s3 : Z) :
  word w s0 -> word w s1 -> word w s2 -> word w s3 ->
  word w (Z.lxor s0 (Z.lxor s3 s1)) /\ word w (Z.lxor s1 (Z.lxor s2 s0)) /\
  word w (Z.lxor (Z.lxor s2 s0) (shl_w w s1 a)) /\ word w (rotl_w w (Z.lxor s3 s1) b).
Proof.
  intros H0 H1 H2 H3.
  assert (H31 : word w (Z.lxor s3 s1)) by now apply lxor_word.
  assert (H20 : word w (Z.lxor s2 s0)) by now apply lxor_word.
  split; [now apply lxor_word|]. split; [now apply lxor_word|].
  split; [apply lxor_word; auto; now apply mod_word|now apply rotl_word].
Qed.

End XoRound.

Lemma xo256_next_state (g : Xoshiro256.t) :
  snd (Xoshiro256.next g)
  = Xoshiro256.mk
      (Z.lxor (Xoshiro256.s0 g) (Z.lxor (Xoshiro256.s3 g) (Xoshiro256.s1 g)))
      (Z.lxor (Xoshiro256.s1 g) (Z.lxor (Xoshiro256.s2 g) (Xoshiro256.s0 g)))
      (Z.lxor (Z.lxor (Xoshiro256.s2 g) (Xoshiro256.s0 g)) (shl_w 64 (Xoshiro256.s1 g) 17))
      (rotl_w 64 (Z.lxor (Xoshiro256.s3 g) (Xoshiro256.s1 g)) 45).
Proof. reflexivity. Qed.

Lemma xo256_prev_next (g : Xoshiro256.t) :
  xo256_state g -> xo256_prev (snd (Xoshiro256.next g)) = g /\ xo256_state (snd (Xoshiro256.next g)).
Proof.
  intros (H0 & H1 & H2 & H3). rewrite xo256_next_state. split.
  - unfold xo256_prev. cbn [Xoshiro256.s0 Xoshiro256.s1 Xoshiro256.s2 Xoshiro256.s3].
    rewrite (xo_round 64 17 45) by (auto; lia). now destruct g.
  - exact (xo_state_words 64 17 45 ltac:(lia) ltac:(lia) _ _ _ _ H0 H1 H2 H3).
Qed.

Lemma xo256_skip_state (n : nat) : forall g, xo256_state g -> xo256_state (xo256_skip n g).
Proof.
  induction n as [|n IH]; intros g Hg; [exact Hg|].
  cbn [xo256_skip]. apply IH. now apply xo256_prev_next.
Qed.

(** The state update of [Xoshiro256::next] is undone by [xo256_prev]: two
    generators in different states are in different states after a call,
    and the state a generator had [n] calls ago is recovered from its
    present state. *)
Theorem xoshiro256_next_invertible (g : Xoshiro256.t) :
  xo256_state g ->
  xo256_prev (snd (Xoshiro256.next g)) = g /\
  (forall h, xo256_state h -> snd (Xoshiro256.next h) = snd (Xoshiro256.next g) -> h = g) /\
  (forall n, Nat.iter n xo256_prev (xo256_skip n g) = g).
Proof.
  intros Hg. split; [now apply xo256_prev_next|]. split.
  - intros h Hh E. rewrite <- (proj1 (xo256_prev_next h Hh)), E. now apply xo256_prev_next.
  - intros n. revert g Hg. induction n as [|n IH]; intros g Hg; [reflexivity|].
    cbn [xo256_skip]. rewrite Nat.iter_succ, IH by now apply xo256_prev_next.
    now apply xo256_prev_next.
Qed.

Lemma xoshiro256_next_invertible_witness :
  xo256_prev (snd (Xoshiro256.next (Xoshiro256.mk 1 2 3 4))) = Xoshiro256.mk 1 2 3 4 /\
  (forall h, xo256_state h ->
             snd (Xoshiro256.next h) = snd (Xoshiro256.next (Xoshiro256.mk 1 2 3 4)) ->
             h = Xoshiro256.mk 1 2 3 4) /\
  (forall n, Nat.iter n xo256_prev (xo256_skip n (Xoshiro256.mk 1 2 3 4))
             = Xoshiro256.mk 1 2 3 4).
Proof.
  apply (xoshiro256_next_invertible (Xoshiro256.mk 1 2 3 4)).
  unfold xo256_state, word. cbn. lia.
Defined.

(** The all-zero state is a trap and the only one: from it [next] returns 0
    and stays there, and no other state ever leads to it. *)
Theorem xoshiro256_zero_state :
  (forall n, xo256_skip n xo256_zero = xo256_zero /\
             fst (Xoshiro256.next (xo256_skip n xo256_zero)) = 0) /\
  (forall g n, xo256_state g -> g <> xo256_zero -> xo256_skip n g <> xo256_zero).
Proof.
  split.
  - intros n. induction n as [|n IH]; [split; reflexivity|exact IH].
  - intros g n. revert g. induction n as [|n IH]; intros g Hg Hne; [exact Hne|].
    cbn [xo256_skip]. apply IH; [now apply xo256_prev_next|].
    intros E. apply Hne. rewrite <- (proj1 (xo256_prev_next g Hg)), E. reflexivity.
Qed.

Lemma xoshiro256_zero_state_witness :
  (forall n, xo256_skip n xo256_zero = xo256_zero /\
             fst (Xoshiro256.next (xo256_skip n xo256_zero)) = 0) /\
  xo256_skip 5 (Xoshiro256.mk 1 2 3 4) <> xo256_zero.
Proof.
  split; [exact (proj1 xoshiro256_zero_state)|].
  apply (proj2 xoshiro256_zero_state (Xoshiro256.mk 1 2 3 4) 5%nat).
  - unfold xo256_state, word. cbn. lia.
  - discriminate.
Defined.

Lemma xo128_next_state (g : Xoshiro128.t) :
  snd (Xoshiro128.next g)
  = Xoshiro128.mk
      (Z.lxor (Xoshiro128.s0 g) (Z.lxor (Xoshiro128.s3 g) (Xoshiro128.s1 g)))
      (Z.lxor (Xoshiro128.s1 g) (Z.lxor (Xoshiro128.s2 g) (Xoshiro128.s0 g)))
      (Z.lxor (Z.lxor (Xoshiro128.s2 g) (Xoshiro128.s0 g)) (shl_w 32 (Xoshiro128.s1 g) 9))
      (rotl_w 32 (Z.lxor (Xoshiro128.s3 g) (Xoshiro128.s1 g)) 11).
Proof. reflexivity. Qed.

Lemma xo128_prev_next (g : Xoshiro128.t) :
  xo128_state g -> xo128_prev (snd (Xoshiro128.next g)) = g /\ xo128_state (snd (Xoshiro128.next g)).
Proof.
  intros (H0 & H1 & H2 & H3). rewrite xo128_next_state. split.
  - unfold xo128_prev. cbn [Xoshiro128.s0 Xoshiro128.s1 Xoshiro128.s2 Xoshiro128.s3].
    rewrite (xo_round 32 9 11) by (auto; lia). now destruct g.
  - exact (xo_state_words 32 9 11 ltac:(lia) ltac:(lia) _ _ _ _ H0 H1 H2 H3).
Qed.

(** [Xoshiro128::next]: the state update is undone by [xo128_prev], so
    generators in different states stay in different states; the all-zero
    state is a trap, from which [next] returns 0 for ever, and no other
    state leads to it. *)
Theorem xoshiro128_states :
  (forall g, xo128_state g -> xo128_prev (snd (Xoshiro128.next g)) = g) /\
  (forall g h, xo128_state g -> xo128_state h ->
               snd (Xoshiro128.next h) = snd (Xoshiro128.next g) -> h = g) /\
  (forall n, xo128_skip n xo128_zero = xo128_zero /\
             fst (Xoshiro128.next (xo128_skip n xo128_zero)) = 0) /\
  (forall g n, xo128_state g -> g <> xo128_zero -> xo128_skip n g <> xo128_zero).
Proof.
  split; [intros g Hg; now apply xo128_prev_next|]. split; [|split].
  - intros g h Hg Hh E.
    rewrite <- (proj1 (xo128_prev_next h Hh)), E. now apply xo128_prev_next.
  - intros n. induction n as [|n IH]; [split; reflexivity|exact IH].
  - intros g n. revert g. induction n as [|n IH]; intros g Hg Hne; [exact Hne|].
    cbn [xo128_skip]. apply IH; [now apply xo128_prev_next|].
    intros E. apply Hne. rewrite <- (proj1 (xo128_prev_next g Hg)), E. reflexivity.
Qed.

Lemma xoshiro128_states_witness :
  xo128_prev (snd (Xoshiro128.next (Xoshiro128.mk 1 2 3 4))) = Xoshiro128.mk 1 2 3 4 /\
  xo128_skip 5 (Xoshiro128.mk 1 2 3 4) <> xo128_zero.
Proof.
  split.
  - apply (proj1 xoshiro128_states (Xoshiro128.mk 1 2 3 4)).
    unfold xo128_state, word. cbn. lia.
  - apply (proj2 (proj2 (proj2 xoshiro128_states)) (Xoshiro128.mk 1 2 3 4) 5%nat).
    + unfold xo128_state, word. cbn. lia.
    + discriminate.
Defined.

